(** * TM-Notes-Vault: the cryptographic vault layer

    A shallow embedding of [src/services/crypto.ts], of the vault-session,
    attachment-indexing and save handlers of [src/App.tsx] and of the
    record-store wrapper [db] ([insertNote], [updateNote], [getNotes],
    [uploadFile], [downloadFile]).

    - JavaScript strings are sequences of UTF-16 code units ([list Z]); byte
      buffers ([Uint8Array], [ArrayBuffer], the contents of a [Blob]) are
      [list byte].  A JS object used as a map is a [gmap] of its own
      properties.
    - A promise is modelled by its outcome: a value or the error thrown.
      A handler is a computation on the state of the component and of its
      environment (clock, pending timers, random source, effects performed);
      what it did before a throw stays done.  An event of the session is one
      handler run to completion; the continuation of [handleUnlock] after
      its [await] is also given on its own, to follow a selection that
      overtakes an unlock.
    - The browser primitives the code calls but does not define (PBKDF2,
      AES-GCM) are the fields of a record [SubtleCrypto]; the checks the API
      makes around them are written out, and the laws a theorem needs of
      them are explicit hypotheses.  [TextEncoder], [TextDecoder],
      [parseInt] and the regular expressions are modelled concretely.
    - The Supabase client is a record [Backend] of answers. *)

From Stdlib Require Import ZArith List Lia Bool Strings.Byte String Ascii.
From stdpp Require Import prelude gmap.

Local Open Scope Z_scope.

(** ** JavaScript values *)

Module JS.

(** A JS string: a list of UTF-16 code units, each in [0, 65536). *)
Abbreviation jsstring := (list Z) (only parsing).

(** A string literal of the source (ASCII only). *)
Definition lit (s : string) : jsstring :=
  map (fun a => Z.of_N (N_of_ascii a)) (list_ascii_of_string s).

Definition code_unit_ok (c : Z) : Prop := 0 <= c < 65536.

(** Truthiness of a string: only the empty string is falsy. *)
Definition truthy (s : jsstring) : bool :=
  match s with [] => false | _ => true end.

(** Truthiness of an optional string ([undefined] and [null] are falsy). *)
Definition truthy_opt (s : option jsstring) : bool :=
  match s with Some s' => truthy s' | None => false end.

(** Thrown values and promise rejections. *)
Inductive exn : Type :=
| TypeError
| RangeError
| OperationError
| InvalidAccessError
| SyntaxError
| ErrorMsg (msg : jsstring).

Inductive result (A : Type) : Type :=
| Ok (a : A)
| Err (e : exn).
Arguments Ok {A} a.
Arguments Err {A} e.

Definition bind {A B} (r : result A) (k : A -> result B) : result B :=
  match r with Ok a => k a | Err e => Err e end.

Definition is_ok {A} (r : result A) : bool :=
  match r with Ok _ => true | Err _ => false end.

(** ECMAScript WhiteSpace and LineTerminator code points. *)
Definition is_line_terminator (c : Z) : bool :=
  (c =? 10) || (c =? 13) || (c =? 0x2028) || (c =? 0x2029).

Definition is_white_space (c : Z) : bool :=
  (c =? 9) || (c =? 11) || (c =? 12) || (c =? 32) || (c =? 0xA0)
  || (c =? 0xFEFF) || (c =? 0x1680) || ((0x2000 <=? c) && (c <=? 0x200A))
  || (c =? 0x202F) || (c =? 0x205F) || (c =? 0x3000).

Definition is_str_white_space (c : Z) : bool :=
  is_white_space c || is_line_terminator c.

Fixpoint trim_start (s : jsstring) : jsstring :=
  match s with
  | c :: r => if is_str_white_space c then trim_start r else s
  | [] => []
  end.

(** [String.prototype.trim]. *)
Definition trim (s : jsstring) : jsstring :=
  rev (trim_start (rev (trim_start s))).

(** ** Bytes *)

Definition byte_val (b : byte) : Z := Z.of_N (Byte.to_N b).

(** ToUint8: the conversion applied to each number stored in a
    [Uint8Array]; integers wrap around modulo 256. *)
Definition to_uint8 (z : Z) : byte :=
  match Byte.of_N (Z.to_N (z mod 256)) with
  | Some b => b
  | None => x00
  end.

(** ** Hexadecimal digits, [Number.prototype.toString(16)] and [parseInt] *)

Definition hex_digit (d : Z) : Z :=
  if d <? 10 then 48 + d else 87 + d.

Definition hex_digit_val (c : Z) : option Z :=
  if (48 <=? c) && (c <=? 57) then Some (c - 48)
  else if (97 <=? c) && (c <=? 102) then Some (c - 87)
  else if (65 <=? c) && (c <=? 70) then Some (c - 55)
  else None.

(** [n.toString(16)] for [0 <= n < 256]. *)
Definition toString16 (n : Z) : jsstring :=
  if n <? 16 then [hex_digit n] else [hex_digit (n / 16); hex_digit (n mod 16)].

(** [s.padStart(2, '0')]. *)
Definition padStart2 (s : jsstring) : jsstring :=
  match s with
  | [] => [48; 48]
  | [c] => [48; c]
  | _ => s
  end.

Fixpoint leading_digits (s : jsstring) : list Z :=
  match s with
  | c :: r =>
      match hex_digit_val c with
      | Some d => d :: leading_digits r
      | None => []
      end
  | [] => []
  end.

(** [parseInt(s, 16)]; [None] is NaN.  Leading white space is skipped, a sign
    and a [0x]/[0X] prefix are accepted, and parsing stops at the first
    code unit that is not a digit. *)
Definition parseInt16 (s : jsstring) : option Z :=
  let s1 := trim_start s in
  let '(sign, s2) :=
    match s1 with
    | 45 :: r => (-1, r)
    | 43 :: r => (1, r)
    | _ => (1, s1)
    end in
  let s3 :=
    match s2 with
    | 48 :: x :: r => if (x =? 120) || (x =? 88) then r else s2
    | _ => s2
    end in
  match leading_digits s3 with
  | [] => None
  | ds => Some (sign * fold_left (fun acc d => acc * 16 + d) ds 0)
  end.

(** [hex.match(/.{1,2}/g)]: the successive matches of one or two code units
    other than line terminators; the empty list stands for [null]. *)
Fixpoint match_1_2 (s : jsstring) : list jsstring :=
  match s with
  | [] => []
  | c :: r =>
      if is_line_terminator c then match_1_2 r
      else
        match r with
        | [] => [[c]]
        | d :: r' =>
            if is_line_terminator d then [c] :: match_1_2 r'
            else [c; d] :: match_1_2 r'
        end
  end.

End JS.
Export JS.

(** ** Text encoding: [TextEncoder] and [TextDecoder]

    Both are browser built-ins; they are modelled after the WHATWG Encoding
    Standard (UTF-8 encoder and decoder, the BOM handling of
    [TextDecoder.decode] with the default [ignoreBOM = false], and the
    conversion of a JS string to scalar values that [TextEncoder.encode]
    applies to its argument).  Shifts and masks by constants are written as
    division and remainder. *)

Module Encoding.

Definition is_lead (c : Z) : bool := (0xD800 <=? c) && (c <=? 0xDBFF).
Definition is_trail (c : Z) : bool := (0xDC00 <=? c) && (c <=? 0xDFFF).

(** Conversion of a JS string to a sequence of scalar values: a surrogate
    pair is one code point, an unpaired surrogate becomes U+FFFD. *)
Fixpoint to_scalars (s : jsstring) : list Z :=
  match s with
  | [] => []
  | c :: r =>
      if is_lead c then
        match r with
        | d :: r' =>
            if is_trail d
            then (0x10000 + (c - 0xD800) * 0x400 + (d - 0xDC00)) :: to_scalars r'
            else 0xFFFD :: to_scalars r
        | [] => [0xFFFD]
        end
      else if is_trail c then 0xFFFD :: to_scalars r
      else c :: to_scalars r
  end.

(** The UTF-8 encoder, one scalar value at a time. *)
Definition utf8_encode_cp (cp : Z) : list byte :=
  if cp <? 0x80 then [to_uint8 cp]
  else if cp <? 0x800 then
    [to_uint8 (0xC0 + cp / 64); to_uint8 (0x80 + cp mod 64)]
  else if cp <? 0x10000 then
    [to_uint8 (0xE0 + cp / 4096); to_uint8 (0x80 + (cp / 64) mod 64);
     to_uint8 (0x80 + cp mod 64)]
  else
    [to_uint8 (0xF0 + cp / 262144); to_uint8 (0x80 + (cp / 4096) mod 64);
     to_uint8 (0x80 + (cp / 64) mod 64); to_uint8 (0x80 + cp mod 64)].

Definition utf8_encode (cps : list Z) : list byte :=
  concat (map utf8_encode_cp cps).

(** [new TextEncoder().encode(s)]. *)
Definition TextEncoder_encode (s : jsstring) : list byte :=
  utf8_encode (to_scalars s).

(** The state of the UTF-8 decoder. *)
Record dstate : Type := mk_dstate {
  d_cp : Z;
  d_seen : Z;
  d_needed : Z;
  d_lower : Z;
  d_upper : Z
}.

Definition d_init : dstate := mk_dstate 0 0 0 0x80 0xBF.

(** A byte read while no sequence is in progress: the code point emitted (if
    any) and the next state. *)
Definition decode_first (b : Z) : list Z * dstate :=
  if b <=? 0x7F then ([b], d_init)
  else if (0xC2 <=? b) && (b <=? 0xDF) then
    ([], mk_dstate (b mod 32) 0 1 0x80 0xBF)
  else if (0xE0 <=? b) && (b <=? 0xEF) then
    ([], mk_dstate (b mod 16) 0 2
           (if b =? 0xE0 then 0xA0 else 0x80)
           (if b =? 0xED then 0x9F else 0xBF))
  else if (0xF0 <=? b) && (b <=? 0xF4) then
    ([], mk_dstate (b mod 8) 0 3
           (if b =? 0xF0 then 0x90 else 0x80)
           (if b =? 0xF4 then 0x8F else 0xBF))
  else ([0xFFFD], d_init).

(** One byte of input.  A byte outside the expected range ends the sequence
    in progress with U+FFFD and is then read again from the initial state. *)
Definition decode_byte (st : dstate) (b : Z) : list Z * dstate :=
  if d_needed st =? 0 then decode_first b
  else if negb ((d_lower st <=? b) && (b <=? d_upper st)) then
    let '(out, st') := decode_first b in (0xFFFD :: out, st')
  else
    let cp := d_cp st * 64 + b mod 64 in
    if d_seen st + 1 =? d_needed st then ([cp], d_init)
    else ([], mk_dstate cp (d_seen st + 1) (d_needed st) 0x80 0xBF).

Fixpoint utf8_decode_from (st : dstate) (bs : list byte) : list Z :=
  match bs with
  | [] => if d_needed st =? 0 then [] else [0xFFFD]
  | b :: r =>
      let '(out, st') := decode_byte st (byte_val b) in
      out ++ utf8_decode_from st' r
  end.

Definition utf8_decode (bs : list byte) : list Z := utf8_decode_from d_init bs.

(** With [ignoreBOM = false] a leading U+FEFF is dropped from the output. *)
Definition strip_bom (cps : list Z) : list Z :=
  match cps with
  | c :: r => if c =? 0xFEFF then r else cps
  | [] => []
  end.

(** Scalar values back to UTF-16 code units. *)
Definition code_units_of (cp : Z) : jsstring :=
  if cp <? 0x10000 then [cp]
  else [0xD800 + (cp - 0x10000) / 0x400; 0xDC00 + (cp - 0x10000) mod 0x400].

Definition of_scalars (cps : list Z) : jsstring :=
  concat (map code_units_of cps).

(** [new TextDecoder().decode(bytes)] (UTF-8, not fatal, BOM not ignored). *)
Definition TextDecoder_decode (bs : list byte) : jsstring :=
  of_scalars (strip_bom (utf8_decode bs)).

(** A well-formed string: code units in range and every surrogate paired. *)
Fixpoint well_formed (s : jsstring) : bool :=
  match s with
  | [] => true
  | c :: r =>
      if is_lead c then
        match r with
        | d :: r' => is_trail d && well_formed r'
        | [] => false
        end
      else (0 <=? c) && (c <? 0x10000) && negb (is_trail c) && well_formed r
  end.

(** The string does not begin with U+FEFF. *)
Definition no_leading_bom (s : jsstring) : bool :=
  match s with
  | c :: _ => negb (c =? 0xFEFF)
  | [] => true
  end.

End Encoding.
Export Encoding.

(** ** Web Crypto

    [window.crypto.subtle] and [window.crypto.getRandomValues].  The key
    stretching function and the authenticated cipher are parameters; the
    checks the API performs around them (key usages) are written out. *)

Module WebCrypto.

Inductive KeyUsage : Type := UEncrypt | UDecrypt | UDeriveKey.

Definition usage_eqb (a b : KeyUsage) : bool :=
  match a, b with
  | UEncrypt, UEncrypt | UDecrypt, UDecrypt | UDeriveKey, UDeriveKey => true
  | _, _ => false
  end.

Definition has_usage (u : KeyUsage) (us : list KeyUsage) : bool :=
  existsb (usage_eqb u) us.

(** The primitives behind [deriveKey], [encrypt] and [decrypt]:
    PBKDF2 with HMAC-SHA-256 producing the bits of a 256-bit AES key, and
    AES-GCM with a 128-bit tag appended to the ciphertext and no additional
    data.  [aes_gcm_open] is [None] when authentication fails. *)
Record SubtleCrypto : Type := {
  key_bits : Type;
  pbkdf2_sha256 : Z -> list byte -> list byte -> key_bits;
  aes_gcm_seal : key_bits -> list byte -> list byte -> list byte;
  aes_gcm_open : key_bits -> list byte -> list byte -> option (list byte)
}.

(** The [CryptoKey] returned by [importKey("raw", ..., "PBKDF2", ...)]. *)
Record PasswordKey : Type := {
  pk_raw : list byte;
  pk_extractable : bool;
  pk_usages : list KeyUsage
}.

(** The AES-GCM [CryptoKey] returned by [deriveKey]. *)
Record AesKey (W : SubtleCrypto) : Type := {
  ak_bits : key_bits W;
  ak_extractable : bool;
  ak_usages : list KeyUsage
}.
Arguments ak_bits {W} _.
Arguments ak_extractable {W} _.
Arguments ak_usages {W} _.

(** [subtle.importKey("raw", keyData, "PBKDF2", extractable, usages)]. *)
Definition importKey_raw_PBKDF2 (keyData : list byte) (extractable : bool)
    (usages : list KeyUsage) : result PasswordKey :=
  if extractable then Err SyntaxError
  else if existsb (fun u => negb (usage_eqb u UDeriveKey)) usages then Err SyntaxError
  else Ok {| pk_raw := keyData; pk_extractable := false; pk_usages := usages |}.

(** [subtle.deriveKey({name: "PBKDF2", salt, iterations, hash: "SHA-256"},
    baseKey, {name: "AES-GCM", length: 256}, extractable, usages)]. *)
Definition deriveKey_PBKDF2_AES256 (W : SubtleCrypto) (salt : list byte)
    (iterations : Z) (baseKey : PasswordKey) (extractable : bool)
    (usages : list KeyUsage) : result (AesKey W) :=
  if negb (has_usage UDeriveKey (pk_usages baseKey)) then Err InvalidAccessError
  else if iterations =? 0 then Err OperationError
  else
    match usages with
    | [] => Err SyntaxError
    | _ =>
        Ok {| ak_bits := pbkdf2_sha256 W iterations (pk_raw baseKey) salt;
              ak_extractable := extractable;
              ak_usages := usages |}
    end.

(** [subtle.encrypt({name: "AES-GCM", iv}, key, data)]. *)
Definition subtle_encrypt (W : SubtleCrypto) (iv : list byte) (key : AesKey W)
    (data : list byte) : result (list byte) :=
  if negb (has_usage UEncrypt (ak_usages key)) then Err InvalidAccessError
  else Ok (aes_gcm_seal W (ak_bits key) iv data).

(** [subtle.decrypt({name: "AES-GCM", iv}, key, data)]. *)
Definition subtle_decrypt (W : SubtleCrypto) (iv : list byte) (key : AesKey W)
    (data : list byte) : result (list byte) :=
  if negb (has_usage UDecrypt (ak_usages key)) then Err InvalidAccessError
  else
    match aes_gcm_open W (ak_bits key) iv data with
    | Some plain => Ok plain
    | None => Err OperationError
    end.

(** The random source: an unbounded sequence of bytes and the number of
    bytes drawn so far. *)
Record Rng : Type := {
  rng_bytes : nat -> byte;
  rng_pos : nat
}.

(** [crypto.getRandomValues(new Uint8Array(n))]. *)
Definition getRandomValues (n : nat) (r : Rng) : list byte * Rng :=
  (map (rng_bytes r) (seq (rng_pos r) n),
   {| rng_bytes := rng_bytes r; rng_pos := (rng_pos r + n)%nat |}).

(** [Blob] and [File]: the bytes, the media type, and for a file its name. *)
Record Blob : Type := {
  blob_bytes : list byte;
  blob_type : jsstring
}.

Record File : Type := {
  file_name : jsstring;
  file_bytes : list byte;
  file_type : jsstring
}.

(** The [type] of [new Blob(parts, { type })] as the constructor keeps it:
    the empty string when a code unit of [type] lies outside
    U+0020..U+007E, and [type] in ASCII lower case otherwise. *)
Definition Blob_type (type : jsstring) : jsstring :=
  if forallb (fun c => (0x20 <=? c) && (c <=? 0x7E)) type
  then map (fun c => if (65 <=? c) && (c <=? 90) then c + 32 else c) type
  else [].

(** [buffer.slice(start, end)] and [buffer.slice(start)] for non-negative
    indices; indices past the end are clamped. *)
Definition slice (start stop : nat) (b : list byte) : list byte :=
  firstn (stop - start) (skipn start b).

Definition slice_from (start : nat) (b : list byte) : list byte :=
  skipn start b.

End WebCrypto.
Export WebCrypto.

(** ** [src/services/crypto.ts] *)

Module Crypto.

Section WithPrimitives.
Variable W : SubtleCrypto.

(** [getPasswordKey]. *)
Definition getPasswordKey (password : jsstring) : result PasswordKey :=
  importKey_raw_PBKDF2 (TextEncoder_encode password) false [UDeriveKey].

(** [deriveKey]. *)
Definition deriveKey (passwordKey : PasswordKey) (salt : list byte)
    (keyUsage : list KeyUsage) : result (AesKey W) :=
  deriveKey_PBKDF2_AES256 W salt 100000 passwordKey false keyUsage.

(** [toHex] in [encryptData]. *)
Definition toHex (buf : list byte) : jsstring :=
  concat (map (fun b => padStart2 (toString16 (byte_val b))) buf).

(** [fromHex]: [hex.match(/.{1,2}/g)!.map(byte => parseInt(byte, 16))]
    stored in a [Uint8Array] (NaN is stored as 0); a [null] match makes
    [.map] throw. *)
Definition fromHex (hex : jsstring) : result (list byte) :=
  match match_1_2 hex with
  | [] => Err TypeError
  | chunks =>
      Ok (map (fun c => match parseInt16 c with
                        | Some n => to_uint8 n
                        | None => x00
                        end) chunks)
  end.

(** [fromHex] applied to a value that may be [undefined] or [null]:
    reading [.match] of it throws. *)
Definition fromHex_opt (hex : option jsstring) : result (list byte) :=
  match hex with
  | Some h => fromHex h
  | None => Err TypeError
  end.

Record Payload : Type := {
  ciphertext : jsstring;
  iv : jsstring;
  salt : jsstring
}.

Notation "x <- r ;; k" := (bind r (fun x => k))
  (at level 100, r at next level, right associativity).

(** [encryptData]. *)
Definition encryptData (text password : jsstring) (providedSalt : option jsstring)
    (rng : Rng) : result Payload * Rng :=
  let salt_r :=
    match providedSalt with
    | Some h => if truthy h then (fromHex h, rng)
                else let '(s, rng') := getRandomValues 16 rng in (Ok s, rng')
    | None => let '(s, rng') := getRandomValues 16 rng in (Ok s, rng')
    end in
  match salt_r with
  | (Err e, rng1) => (Err e, rng1)
  | (Ok salt, rng1) =>
      let '(iv, rng2) := getRandomValues 12 rng1 in
      (passwordKey <- getPasswordKey password ;;
       aesKey <- deriveKey passwordKey salt [UEncrypt] ;;
       encrypted <- subtle_encrypt W iv aesKey (TextEncoder_encode text) ;;
       Ok {| ciphertext := toHex encrypted; iv := toHex iv; salt := toHex salt |},
       rng2)
  end.

(** [decryptData]. *)
Definition decryptData (ciphertext : jsstring) (ivHex saltHex : option jsstring)
    (password : jsstring) : result jsstring :=
  salt <- fromHex_opt saltHex ;;
  iv <- fromHex_opt ivHex ;;
  data <- fromHex ciphertext ;;
  passwordKey <- getPasswordKey password ;;
  aesKey <- deriveKey passwordKey salt [UDecrypt] ;;
  decrypted <- subtle_decrypt W iv aesKey data ;;
  Ok (TextDecoder_decode decrypted).

Definition octet_stream : jsstring := lit "application/octet-stream".

(** [encryptFile]. *)
Definition encryptFile (file : File) (password : jsstring) (rng : Rng)
    : result Blob * Rng :=
  let fileData := file_bytes file in
  let '(salt, rng1) := getRandomValues 16 rng in
  let '(iv, rng2) := getRandomValues 12 rng1 in
  (passwordKey <- getPasswordKey password ;;
   aesKey <- deriveKey passwordKey salt [UEncrypt] ;;
   encrypted <- subtle_encrypt W iv aesKey fileData ;;
   Ok {| blob_bytes := salt ++ iv ++ encrypted; blob_type := Blob_type octet_stream |},
   rng2).

(** [decryptFile]. *)
Definition decryptFile (encryptedBlob : Blob) (password : jsstring)
    (mimeType : option jsstring) : result Blob :=
  let buffer := blob_bytes encryptedBlob in
  let salt := slice 0 16 buffer in
  let iv := slice 16 28 buffer in
  let data := slice_from 28 buffer in
  passwordKey <- getPasswordKey password ;;
  aesKey <- deriveKey passwordKey salt [UDecrypt] ;;
  decrypted <- subtle_decrypt W iv aesKey data ;;
  Ok {| blob_bytes := decrypted;
        blob_type := Blob_type (if truthy_opt mimeType then default [] mimeType
                                else octet_stream) |}.

(** The key material [deriveKey] computes for a password and a salt. *)
Definition derived_bits (password : jsstring) (salt : list byte) : key_bits W :=
  pbkdf2_sha256 W 100000 (TextEncoder_encode password) salt.

End WithPrimitives.

End Crypto.
Export Crypto.

(** ** String helpers of [src/App.tsx] *)

Module Files.

(** [s.split(sep).pop()]: the part of [s] after the last [sep]. *)
Fixpoint last_segment_aux (sep : Z) (acc s : jsstring) : jsstring :=
  match s with
  | [] => rev acc
  | c :: r => if c =? sep then last_segment_aux sep [] r
              else last_segment_aux sep (c :: acc) r
  end.

Definition last_segment (sep : Z) (s : jsstring) : jsstring :=
  last_segment_aux sep [] s.

Definition is_digit (c : Z) : bool := (48 <=? c) && (c <=? 57).

Fixpoint drop_digits (s : jsstring) : jsstring :=
  match s with
  | c :: r => if is_digit c then drop_digits r else s
  | [] => []
  end.

(** [s.replace(/^\^\d+_/, '')]: a leading caret, one or more digits and an
    underscore are removed. *)
Definition strip_caret_prefix (s : jsstring) : jsstring :=
  match s with
  | 94 :: d :: r =>
      if is_digit d then
        match drop_digits r with
        | 95 :: r' => r'
        | _ => s
        end
      else s
  | _ => s
  end.

(** [getFileNameFromPath]. *)
Definition getFileNameFromPath (path : jsstring) : jsstring :=
  let name := strip_caret_prefix (last_segment 47 path) in
  if truthy name then name else lit "Unknown File".

(** [toLowerCase] on the code units that can lower-case to an ASCII letter:
    [A]-[Z] and U+212A (KELVIN SIGN).  Other code units are kept, which is
    exact as far as comparison with an ASCII word is concerned. *)
Definition lower_unit (c : Z) : Z :=
  if (65 <=? c) && (c <=? 90) then c + 32
  else if c =? 0x212A then 107
  else c.

Definition toLowerCase (s : jsstring) : jsstring := map lower_unit s.

Definition jsstring_eqb (a b : jsstring) : bool :=
  bool_decide (a = b).

Definition includes_word (words : list jsstring) (w : jsstring) : bool :=
  existsb (jsstring_eqb w) words.

(** [filename.split('.').pop()?.toLowerCase()]. *)
Definition extension (filename : jsstring) : jsstring :=
  toLowerCase (last_segment 46 filename).

(** [isTextFile]. *)
Definition isTextFile (filename : jsstring) : bool :=
  includes_word
    (map lit ["txt"; "md"; "json"; "js"; "ts"; "log"; "html"; "css"; "csv"]%string)
    (extension filename).

(** [isImageFile]. *)
Definition isImageFile (filename : jsstring) : bool :=
  includes_word
    (map lit ["png"; "jpg"; "jpeg"; "gif"; "webp"; "svg"; "bmp"]%string)
    (extension filename).

(** The table [mimeMap] of [indexAttachments]. *)
Definition mimeMap : list (jsstring * jsstring) :=
  map (fun p => (lit (fst p), lit (snd p)))
    [("png", "image/png"); ("jpg", "image/jpeg"); ("jpeg", "image/jpeg");
     ("gif", "image/gif"); ("webp", "image/webp"); ("svg", "image/svg+xml");
     ("pdf", "application/pdf"); ("txt", "text/plain"); ("md", "text/markdown")]%string.

Fixpoint assoc (k : jsstring) (t : list (jsstring * jsstring)) : option jsstring :=
  match t with
  | (k', v) :: r => if jsstring_eqb k k' then Some v else assoc k r
  | [] => None
  end.

(** [mimeMap[ext || ''] || 'application/octet-stream']. *)
Definition mimeType_of (filename : jsstring) : jsstring :=
  match assoc (extension filename) mimeMap with
  | Some m => m
  | None => octet_stream
  end.

(** [haystack.includes(needle)]. *)
Fixpoint starts_with (needle s : jsstring) : bool :=
  match needle, s with
  | [], _ => true
  | n :: needle', c :: s' => (n =? c) && starts_with needle' s'
  | _ :: _, [] => false
  end.

Fixpoint includes (needle s : jsstring) : bool :=
  starts_with needle s ||
  match s with
  | [] => false
  | _ :: r => includes needle r
  end.

End Files.
Export Files.

(** ** The record store and the object store ([db] of the services layer)

    The Supabase client is an external collaborator.  Its answers are given
    by a [Backend]; every answer may depend on the number of effects
    performed so far, so that successive calls can be answered differently. *)

Module Note.
(** [interface Note]. *)
Record t : Type := {
  id : jsstring;
  created_at : jsstring;
  title : jsstring;
  content : jsstring;
  is_encrypted : bool;
  category : jsstring;
  attachments : option (list jsstring);
  iv : option jsstring;
  title_iv : option jsstring;
  salt : option jsstring;
  user_id : jsstring
}.
End Note.

Module NotePayload.
(** The object handed to [db.insertNote] by [handleSaveNewNote]. *)
Record t : Type := {
  title : jsstring;
  content : jsstring;
  is_encrypted : bool;
  category : jsstring;
  iv : option jsstring;
  salt : option jsstring;
  attachments : list jsstring;
  created_at : jsstring
}.
End NotePayload.

Module DbRow.
(** [dbPayload] of [db.insertNote]: the row written to the [notes] table. *)
Record t : Type := {
  title : jsstring;
  ciphertext : jsstring;
  is_encrypted : bool;
  category : jsstring;
  attachments : list jsstring;
  iv : option jsstring;
  title_iv : option jsstring;
  salt : option jsstring;
  user_id : jsstring;
  created_at : jsstring
}.
End DbRow.

Module Updates.
(** The object built by [handleUpdateNote] and, after the renaming of
    [content] done by [db.updateNote], the columns written by the update:
    exactly one of [content] and [ciphertext] is present. *)
Record t : Type := {
  title : jsstring;
  category : jsstring;
  is_encrypted : bool;
  attachments : list jsstring;
  created_at : jsstring;
  content : option jsstring;
  ciphertext : option jsstring;
  iv : option jsstring;
  salt : option jsstring
}.
End Updates.

Module StoredRow.
(** A row of the [notes] table as [select('*')] returns it; a column that
    is NULL or absent is [None]. *)
Record t : Type := {
  id : jsstring;
  created_at : option jsstring;
  title : option jsstring;
  ciphertext : option jsstring;
  content : option jsstring;
  is_encrypted : bool;
  category : option jsstring;
  attachments : option (list jsstring);
  iv : option jsstring;
  title_iv : option jsstring;
  salt : option jsstring;
  user_id : jsstring
}.
End StoredRow.

Module Cached.
(** An entry of [decryptedCache]. *)
Record t : Type := {
  title : jsstring;
  content : jsstring
}.
End Cached.

Module EditForm.
Record t : Type := {
  title : jsstring;
  content : jsstring;
  category : jsstring;
  is_encrypted : bool;
  password : jsstring;
  confirmPassword : jsstring;
  date : jsstring
}.
End EditForm.

Module NewNote.
Record t : Type := {
  title : jsstring;
  content : jsstring;
  encrypt : bool;
  password : jsstring;
  confirmPassword : jsstring;
  category : jsstring;
  date : jsstring
}.
End NewNote.

Module App.

Inductive MobileView : Type := ViewCategories | ViewList | ViewNote.

Inductive CryptoFn : Type :=
| CallEncryptData | CallDecryptData | CallEncryptFile | CallDecryptFile.

(** What a handler does to the outside world, in order. *)
Inductive Effect : Type :=
| Alert (text : jsstring) (err : option exn)
| ConsoleWarn (e : exn)
| CryptoCall (c : CryptoFn)
| AuthGetUser
| StorageUpload (bucket path : jsstring) (body : list byte)
| StorageDownload (bucket path : jsstring)
| NotesInsert (row : DbRow.t)
| NotesUpdate (id : jsstring) (row : Updates.t)
| NotesSelect.

Record Backend : Type := {
  auth_getUser : nat -> option jsstring;
  notes_insert : nat -> DbRow.t -> option exn;
  notes_update : nat -> jsstring -> Updates.t -> option exn;
  notes_select : nat -> result (list StoredRow.t);
  storage_upload : nat -> jsstring -> jsstring -> list byte -> result jsstring;
  storage_download : nat -> jsstring -> jsstring -> jsstring + Blob;
  Date_now : nat -> jsstring;
  Date_toISOString : jsstring -> result jsstring;
  now_toISOString : nat -> jsstring;
  readAsDataURL : Blob -> jsstring
}.

(** The state of the [App] component ([useState] and [useRef] cells) followed
    by the state of its environment: the clock in milliseconds, the pending
    auto-lock timers (handle and deadline), the next timer handle, the random
    source and the effects performed so far. *)
Record State : Type := mkState {
  session : bool;
  notes : list Note.t;
  selectedCategory : jsstring;
  searchQuery : jsstring;
  mobileView : MobileView;
  selectedNoteId : option jsstring;
  isEditing : bool;
  isCreating : bool;
  unlockPassword : jsstring;
  decryptedCache : gmap (list Z) Cached.t;
  attachmentTextCache : gmap (list Z) (list Z);
  attachmentImageCache : gmap (list Z) (list Z);
  lockTimerRef : option nat;
  showPassword : bool;
  editForm : EditForm.t;
  newNote : NewNote.t;
  stagedFiles : list File;
  existingAttachments : list jsstring;
  isUploading : bool;
  now : Z;
  timers : list (nat * Z);
  next_timer : nat;
  rng : Rng;
  trace : list Effect
}.

Definition set_session (v : bool) (s : State) : State :=
  mkState v (notes s) (selectedCategory s) (searchQuery s) (mobileView s)
    (selectedNoteId s) (isEditing s) (isCreating s) (unlockPassword s)
    (decryptedCache s) (attachmentTextCache s) (attachmentImageCache s)
    (lockTimerRef s) (showPassword s) (editForm s) (newNote s)
    (stagedFiles s) (existingAttachments s) (isUploading s) (now s)
    (timers s) (next_timer s) (rng s) (trace s).

Definition set_notes (v : list Note.t) (s : State) : State :=
  mkState (session s) v (selectedCategory s) (searchQuery s) (mobileView s)
    (selectedNoteId s) (isEditing s) (isCreating s) (unlockPassword s)
    (decryptedCache s) (attachmentTextCache s) (attachmentImageCache s)
    (lockTimerRef s) (showPassword s) (editForm s) (newNote s)
    (stagedFiles s) (existingAttachments s) (isUploading s) (now s)
    (timers s) (next_timer s) (rng s) (trace s).

Definition set_selectedCategory (v : jsstring) (s : State) : State :=
  mkState (session s) (notes s) v (searchQuery s) (mobileView s)
    (selectedNoteId s) (isEditing s) (isCreating s) (unlockPassword s)
    (decryptedCache s) (attachmentTextCache s) (attachmentImageCache s)
    (lockTimerRef s) (showPassword s) (editForm s) (newNote s)
    (stagedFiles s) (existingAttachments s) (isUploading s) (now s)
    (timers s) (next_timer s) (rng s) (trace s).

Definition set_searchQuery (v : jsstring) (s : State) : State :=
  mkState (session s) (notes s) (selectedCategory s) v (mobileView s)
    (selectedNoteId s) (isEditing s) (isCreating s) (unlockPassword s)
    (decryptedCache s) (attachmentTextCache s) (attachmentImageCache s)
    (lockTimerRef s) (showPassword s) (editForm s) (newNote s)
    (stagedFiles s) (existingAttachments s) (isUploading s) (now s)
    (timers s) (next_timer s) (rng s) (trace s).

Definition set_mobileView (v : MobileView) (s : State) : State :=
  mkState (session s) (notes s) (selectedCategory s) (searchQuery s) v
    (selectedNoteId s) (isEditing s) (isCreating s) (unlockPassword s)
    (decryptedCache s) (attachmentTextCache s) (attachmentImageCache s)
    (lockTimerRef s) (showPassword s) (editForm s) (newNote s)
    (stagedFiles s) (existingAttachments s) (isUploading s) (now s)
    (timers s) (next_timer s) (rng s) (trace s).

Definition set_selectedNoteId (v : option jsstring) (s : State) : State :=
  mkState (session s) (notes s) (selectedCategory s) (searchQuery s)
    (mobileView s) v (isEditing s) (isCreating s) (unlockPassword s)
    (decryptedCache s) (attachmentTextCache s) (attachmentImageCache s)
    (lockTimerRef s) (showPassword s) (editForm s) (newNote s)
    (stagedFiles s) (existingAttachments s) (isUploading s) (now s)
    (timers s) (next_timer s) (rng s) (trace s).

Definition set_isEditing (v : bool) (s : State) : State :=
  mkState (session s) (notes s) (selectedCategory s) (searchQuery s)
    (mobileView s) (selectedNoteId s) v (isCreating s) (unlockPassword s)
    (decryptedCache s) (attachmentTextCache s) (attachmentImageCache s)
    (lockTimerRef s) (showPassword s) (editForm s) (newNote s)
    (stagedFiles s) (existingAttachments s) (isUploading s) (now s)
    (timers s) (next_timer s) (rng s) (trace s).

Definition set_isCreating (v : bool) (s : State) : State :=
  mkState (session s) (notes s) (selectedCategory s) (searchQuery s)
    (mobileView s) (selectedNoteId s) (isEditing s) v (unlockPassword s)
    (decryptedCache s) (attachmentTextCache s) (attachmentImageCache s)
    (lockTimerRef s) (showPassword s) (editForm s) (newNote s)
    (stagedFiles s) (existingAttachments s) (isUploading s) (now s)
    (timers s) (next_timer s) (rng s) (trace s).

Definition set_unlockPassword (v : jsstring) (s : State) : State :=
  mkState (session s) (notes s) (selectedCategory s) (searchQuery s)
    (mobileView s) (selectedNoteId s) (isEditing s) (isCreating s) v
    (decryptedCache s) (attachmentTextCache s) (attachmentImageCache s)
    (lockTimerRef s) (showPassword s) (editForm s) (newNote s)
    (stagedFiles s) (existingAttachments s) (isUploading s) (now s)
    (timers s) (next_timer s) (rng s) (trace s).

Definition set_decryptedCache (v : gmap (list Z) Cached.t) (s : State) : State :=
  mkState (session s) (notes s) (selectedCategory s) (searchQuery s)
    (mobileView s) (selectedNoteId s) (isEditing s) (isCreating s)
    (unlockPassword s) v (attachmentTextCache s) (attachmentImageCache s)
    (lockTimerRef s) (showPassword s) (editForm s) (newNote s)
    (stagedFiles s) (existingAttachments s) (isUploading s) (now s)
    (timers s) (next_timer s) (rng s) (trace s).

Definition set_attachmentTextCache (v : gmap (list Z) (list Z)) (s : State) : State :=
  mkState (session s) (notes s) (selectedCategory s) (searchQuery s)
    (mobileView s) (selectedNoteId s) (isEditing s) (isCreating s)
    (unlockPassword s) (decryptedCache s) v (attachmentImageCache s)
    (lockTimerRef s) (showPassword s) (editForm s) (newNote s)
    (stagedFiles s) (existingAttachments s) (isUploading s) (now s)
    (timers s) (next_timer s) (rng s) (trace s).

Definition set_attachmentImageCache (v : gmap (list Z) (list Z)) (s : State) : State :=
  mkState (session s) (notes s) (selectedCategory s) (searchQuery s)
    (mobileView s) (selectedNoteId s) (isEditing s) (isCreating s)
    (unlockPassword s) (decryptedCache s) (attachmentTextCache s) v
    (lockTimerRef s) (showPassword s) (editForm s) (newNote s)
    (stagedFiles s) (existingAttachments s) (isUploading s) (now s)
    (timers s) (next_timer s) (rng s) (trace s).

Definition set_lockTimerRef (v : option nat) (s : State) : State :=
  mkState (session s) (notes s) (selectedCategory s) (searchQuery s)
    (mobileView s) (selectedNoteId s) (isEditing s) (isCreating s)
    (unlockPassword s) (decryptedCache s) (attachmentTextCache s)
    (attachmentImageCache s) v (showPassword s) (editForm s) (newNote s)
    (stagedFiles s) (existingAttachments s) (isUploading s) (now s)
    (timers s) (next_timer s) (rng s) (trace s).

Definition set_showPassword (v : bool) (s : State) : State :=
  mkState (session s) (notes s) (selectedCategory s) (searchQuery s)
    (mobileView s) (selectedNoteId s) (isEditing s) (isCreating s)
    (unlockPassword s) (decryptedCache s) (attachmentTextCache s)
    (attachmentImageCache s) (lockTimerRef s) v (editForm s) (newNote s)
    (stagedFiles s) (existingAttachments s) (isUploading s) (now s)
    (timers s) (next_timer s) (rng s) (trace s).

Definition set_editForm (v : EditForm.t) (s : State) : State :=
  mkState (session s) (notes s) (selectedCategory s) (searchQuery s)
    (mobileView s) (selectedNoteId s) (isEditing s) (isCreating s)
    (unlockPassword s) (decryptedCache s) (attachmentTextCache s)
    (attachmentImageCache s) (lockTimerRef s) (showPassword s) v (newNote s)
    (stagedFiles s) (existingAttachments s) (isUploading s) (now s)
    (timers s) (next_timer s) (rng s) (trace s).

Definition set_newNote (v : NewNote.t) (s : State) : State :=
  mkState (session s) (notes s) (selectedCategory s) (searchQuery s)
    (mobileView s) (selectedNoteId s) (isEditing s) (isCreating s)
    (unlockPassword s) (decryptedCache s) (attachmentTextCache s)
    (attachmentImageCache s) (lockTimerRef s) (showPassword s) (editForm s) v
    (stagedFiles s) (existingAttachments s) (isUploading s) (now s)
    (timers s) (next_timer s) (rng s) (trace s).

Definition set_stagedFiles (v : list File) (s : State) : State :=
  mkState (session s) (notes s) (selectedCategory s) (searchQuery s)
    (mobileView s) (selectedNoteId s) (isEditing s) (isCreating s)
    (unlockPassword s) (decryptedCache s) (attachmentTextCache s)
    (attachmentImageCache s) (lockTimerRef s) (showPassword s) (editForm s)
    (newNote s) v (existingAttachments s) (isUploading s) (now s) (timers s)
    (next_timer s) (rng s) (trace s).

Definition set_existingAttachments (v : list jsstring) (s : State) : State :=
  mkState (session s) (notes s) (selectedCategory s) (searchQuery s)
    (mobileView s) (selectedNoteId s) (isEditing s) (isCreating s)
    (unlockPassword s) (decryptedCache s) (attachmentTextCache s)
    (attachmentImageCache s) (lockTimerRef s) (showPassword s) (editForm s)
    (newNote s) (stagedFiles s) v (isUploading s) (now s) (timers s)
    (next_timer s) (rng s) (trace s).

Definition set_isUploading (v : bool) (s : State) : State :=
  mkState (session s) (notes s) (selectedCategory s) (searchQuery s)
    (mobileView s) (selectedNoteId s) (isEditing s) (isCreating s)
    (unlockPassword s) (decryptedCache s) (attachmentTextCache s)
    (attachmentImageCache s) (lockTimerRef s) (showPassword s) (editForm s)
    (newNote s) (stagedFiles s) (existingAttachments s) v (now s) (timers s)
    (next_timer s) (rng s) (trace s).

Definition set_now (v : Z) (s : State) : State :=
  mkState (session s) (notes s) (selectedCategory s) (searchQuery s)
    (mobileView s) (selectedNoteId s) (isEditing s) (isCreating s)
    (unlockPassword s) (decryptedCache s) (attachmentTextCache s)
    (attachmentImageCache s) (lockTimerRef s) (showPassword s) (editForm s)
    (newNote s) (stagedFiles s) (existingAttachments s) (isUploading s) v
    (timers s) (next_timer s) (rng s) (trace s).

Definition set_timers (v : list (nat * Z)) (s : State) : State :=
  mkState (session s) (notes s) (selectedCategory s) (searchQuery s)
    (mobileView s) (selectedNoteId s) (isEditing s) (isCreating s)
    (unlockPassword s) (decryptedCache s) (attachmentTextCache s)
    (attachmentImageCache s) (lockTimerRef s) (showPassword s) (editForm s)
    (newNote s) (stagedFiles s) (existingAttachments s) (isUploading s)
    (now s) v (next_timer s) (rng s) (trace s).

Definition set_next_timer (v : nat) (s : State) : State :=
  mkState (session s) (notes s) (selectedCategory s) (searchQuery s)
    (mobileView s) (selectedNoteId s) (isEditing s) (isCreating s)
    (unlockPassword s) (decryptedCache s) (attachmentTextCache s)
    (attachmentImageCache s) (lockTimerRef s) (showPassword s) (editForm s)
    (newNote s) (stagedFiles s) (existingAttachments s) (isUploading s)
    (now s) (timers s) v (rng s) (trace s).

Definition set_rng (v : Rng) (s : State) : State :=
  mkState (session s) (notes s) (selectedCategory s) (searchQuery s)
    (mobileView s) (selectedNoteId s) (isEditing s) (isCreating s)
    (unlockPassword s) (decryptedCache s) (attachmentTextCache s)
    (attachmentImageCache s) (lockTimerRef s) (showPassword s) (editForm s)
    (newNote s) (stagedFiles s) (existingAttachments s) (isUploading s)
    (now s) (timers s) (next_timer s) v (trace s).

Definition set_trace (v : list Effect) (s : State) : State :=
  mkState (session s) (notes s) (selectedCategory s) (searchQuery s)
    (mobileView s) (selectedNoteId s) (isEditing s) (isCreating s)
    (unlockPassword s) (decryptedCache s) (attachmentTextCache s)
    (attachmentImageCache s) (lockTimerRef s) (showPassword s) (editForm s)
    (newNote s) (stagedFiles s) (existingAttachments s) (isUploading s)
    (now s) (timers s) (next_timer s) (rng s) v.

End App.
Export App.

(** ** The handlers *)

Module Handlers.

Definition PRIMARY_BUCKET : jsstring := lit "attachments".
Definition LEGACY_BUCKET : jsstring := lit "vault_files".

(** A computation that reads and changes the state and may throw; what was
    done before a throw stays done. *)
Definition M (A : Type) : Type := State -> result A * State.

Definition ret {A} (a : A) : M A := fun s => (Ok a, s).
Definition throw {A} (e : exn) : M A := fun s => (Err e, s).
Definition mbind {A B} (m : M A) (k : A -> M B) : M B :=
  fun s => match m s with
           | (Ok a, s') => k a s'
           | (Err e, s') => (Err e, s')
           end.
Definition get : M State := fun s => (Ok s, s).
Definition modify (f : State -> State) : M unit := fun s => (Ok tt, f s).
Definition lift {A} (r : result A) : M A := fun s => (r, s).
Definition perform (e : Effect) : M unit :=
  modify (fun s => set_trace (trace s ++ [e]) s).
Definition steps : M nat := fun s => (Ok (length (trace s)), s).

(** [try { m } catch (err) { h err }]. *)
Definition try_catch {A} (m : M A) (h : exn -> M A) : M A :=
  fun s => match m s with
           | (Ok a, s') => (Ok a, s')
           | (Err e, s') => h e s'
           end.

(** [try { m } finally { f }]. *)
Definition finally {A} (m : M A) (f : M unit) : M A :=
  fun s => match m s with
           | (r, s') =>
               match f s' with
               | (Ok _, s'') => (r, s'')
               | (Err e, s'') => (Err e, s'')
               end
           end.

#[local] Notation "x <- m ;; k" := (mbind m (fun x => k))
  (at level 100, m at next level, right associativity).
#[local] Notation "m ;;; k" := (mbind m (fun _ => k))
  (at level 100, right associativity).

Fixpoint for_each {A} (l : list A) (body : A -> M unit) : M unit :=
  match l with
  | [] => ret tt
  | a :: r => body a ;;; for_each r body
  end.

(** The state a handler leaves behind; a handler never lets an error escape
    to the caller of the event. *)
Definition exec {A} (m : M A) (s : State) : State := snd (m s).

Section WithEnvironment.
Variable W : SubtleCrypto.
Variable B : Backend.

(** *** Calls into [services/crypto] *)

Definition call_encryptData (text password : jsstring) : M Payload :=
  perform (CryptoCall CallEncryptData) ;;;
  fun s => let '(r, rng') := encryptData W text password None (rng s) in
           (r, set_rng rng' s).

Definition call_decryptData (ciphertext : jsstring) (ivHex saltHex : option jsstring)
    (password : jsstring) : M jsstring :=
  perform (CryptoCall CallDecryptData) ;;;
  lift (decryptData W ciphertext ivHex saltHex password).

Definition call_encryptFile (file : File) (password : jsstring) : M Blob :=
  perform (CryptoCall CallEncryptFile) ;;;
  fun s => let '(r, rng') := encryptFile W file password (rng s) in
           (r, set_rng rng' s).

Definition call_decryptFile (blob : Blob) (password : jsstring)
    (mimeType : option jsstring) : M Blob :=
  perform (CryptoCall CallDecryptFile) ;;;
  lift (decryptFile W blob password mimeType).

(** *** [db] *)

(** [db.uploadFile]. *)
Definition db_uploadFile (body : list byte) (fileName : jsstring) : M jsstring :=
  perform AuthGetUser ;;;
  n <- steps ;;
  match auth_getUser B n with
  | None => throw (ErrorMsg (lit "User not found"))
  | Some uid =>
      let filePath := uid ++ [47] ++ Date_now B n ++ [95] ++ fileName in
      perform (StorageUpload PRIMARY_BUCKET filePath body) ;;;
      n' <- steps ;;
      lift (storage_upload B n' PRIMARY_BUCKET filePath body)
  end.

(** [db.downloadFile]: the legacy bucket is tried when the primary one
    reports that the object is not found. *)
Definition db_downloadFile (path : jsstring) : M Blob :=
  perform (StorageDownload PRIMARY_BUCKET path) ;;;
  n <- steps ;;
  match storage_download B n PRIMARY_BUCKET path with
  | inr data => ret data
  | inl message =>
      if includes (lit "Object not found") message then
        perform (StorageDownload LEGACY_BUCKET path) ;;;
        n' <- steps ;;
        match storage_download B n' LEGACY_BUCKET path with
        | inr data => ret data
        | inl _ => throw (ErrorMsg message)
        end
      else throw (ErrorMsg message)
  end.

(** [db.insertNote]. *)
Definition db_insertNote (note : NotePayload.t) : M unit :=
  perform AuthGetUser ;;;
  n <- steps ;;
  match auth_getUser B n with
  | None => throw (ErrorMsg (lit "You must be logged in to save."))
  | Some uid =>
      let dbPayload :=
        {| DbRow.title := NotePayload.title note;
           DbRow.ciphertext := NotePayload.content note;
           DbRow.is_encrypted := NotePayload.is_encrypted note;
           DbRow.category := NotePayload.category note;
           DbRow.attachments := NotePayload.attachments note;
           DbRow.iv := NotePayload.iv note;
           DbRow.title_iv := None;
           DbRow.salt := NotePayload.salt note;
           DbRow.user_id := uid;
           DbRow.created_at :=
             if truthy (NotePayload.created_at note)
             then NotePayload.created_at note
             else now_toISOString B n |} in
      perform (NotesInsert dbPayload) ;;;
      n' <- steps ;;
      match notes_insert B n' dbPayload with
      | Some error => throw error
      | None => ret tt
      end
  end.

(** [db.updateNote]: a truthy [content] is stored in column [ciphertext]. *)
Definition db_updateNote (id : jsstring) (updates : Updates.t) : M unit :=
  let dbPayload :=
    if truthy_opt (Updates.content updates) then
      {| Updates.title := Updates.title updates;
         Updates.category := Updates.category updates;
         Updates.is_encrypted := Updates.is_encrypted updates;
         Updates.attachments := Updates.attachments updates;
         Updates.created_at := Updates.created_at updates;
         Updates.content := None;
         Updates.ciphertext := Updates.content updates;
         Updates.iv := Updates.iv updates;
         Updates.salt := Updates.salt updates |}
    else updates in
  perform (NotesUpdate id dbPayload) ;;;
  n <- steps ;;
  match notes_update B n id dbPayload with
  | Some error => throw error
  | None => ret tt
  end.

Definition or_else (a : option jsstring) (b : jsstring) : jsstring :=
  match a with
  | Some s => if truthy s then s else b
  | None => b
  end.

(** [db.getNotes]. *)
Definition db_getNotes : M (list Note.t) :=
  perform NotesSelect ;;;
  n <- steps ;;
  match notes_select B n with
  | Err error => throw error
  | Ok data =>
      ret (map (fun r =>
             {| Note.id := StoredRow.id r;
                Note.created_at := or_else (StoredRow.created_at r) (now_toISOString B n);
                Note.title := or_else (StoredRow.title r) (lit "Untitled Note");
                Note.content :=
                  or_else (StoredRow.ciphertext r) (or_else (StoredRow.content r) []);
                Note.is_encrypted := StoredRow.is_encrypted r;
                Note.category := or_else (StoredRow.category r) (lit "Personal");
                Note.attachments := StoredRow.attachments r;
                Note.iv := StoredRow.iv r;
                Note.title_iv := StoredRow.title_iv r;
                Note.salt := StoredRow.salt r;
                Note.user_id := StoredRow.user_id r |}) data)
  end.

(** *** The component *)

(** [fetchNotes]. *)
Definition fetchNotes : M unit :=
  s <- get ;;
  if negb (session s) then ret tt
  else try_catch (data <- db_getNotes ;; modify (set_notes data)) (fun _ => ret tt).

(** [selectedNote]: [notes.find(n => n.id === selectedNoteId) || null]. *)
Definition selectedNote (s : State) : option Note.t :=
  match selectedNoteId s with
  | Some id => find (fun n => jsstring_eqb (Note.id n) id) (notes s)
  | None => None
  end.

(** [!cache[path]] is false exactly when a non-empty string is cached. *)
Definition cached (cache : gmap (list Z) (list Z)) (path : jsstring) : bool :=
  match cache !! path with
  | Some v => truthy v
  | None => false
  end.

(** The body of the loop of [indexAttachments] for one path.  The two caches
    tested are those captured by the callback when it was created; the
    updates go to the current state. *)
Definition index_path (textSeen imageSeen : gmap (list Z) (list Z))
    (note : Note.t) (password : option jsstring) (path : jsstring) : M unit :=
  let filename := getFileNameFromPath path in
  let mimeType := mimeType_of filename in
  let fetch : M Blob :=
    blob <- db_downloadFile path ;;
    if Note.is_encrypted note && truthy_opt password
    then call_decryptFile blob (default [] password) (Some mimeType)
    else ret blob in
  if isTextFile filename && negb (cached textSeen path) then
    try_catch
      (finalBlob <- fetch ;;
       let text := TextDecoder_decode (blob_bytes finalBlob) in
       modify (fun s => set_attachmentTextCache (<[path := text]> (attachmentTextCache s)) s))
      (fun e => perform (ConsoleWarn e))
  else if isImageFile filename && negb (cached imageSeen path) then
    try_catch
      (finalBlob <- fetch ;;
       let url := readAsDataURL B finalBlob in
       modify (fun s => set_attachmentImageCache (<[path := url]> (attachmentImageCache s)) s))
      (fun e => perform (ConsoleWarn e))
  else ret tt.

(** [indexAttachments]. *)
Definition indexAttachments (note : Note.t) (password : option jsstring) : M unit :=
  match Note.attachments note with
  | None | Some [] => ret tt
  | Some paths =>
      s <- get ;;
      for_each paths
        (index_path (attachmentTextCache s) (attachmentImageCache s) note password)
  end.

(** [clearTimeout(handle)]. *)
Definition clearTimeout (handle : nat) (s : State) : State :=
  set_timers (List.filter (fun t => negb (Nat.eqb (fst t) handle)) (timers s)) s.

(** [if (lockTimerRef.current) clearTimeout(lockTimerRef.current)]; timer
    handles are positive, hence truthy. *)
Definition clear_lock_timer (s : State) : State :=
  match lockTimerRef s with
  | Some handle => clearTimeout handle s
  | None => s
  end.

(** [lockTimerRef.current = setTimeout(callback, delay)]. *)
Definition schedule_lock (delay : Z) (s : State) : State :=
  let handle := next_timer s in
  set_lockTimerRef (Some handle)
    (set_next_timer (S handle)
       (set_timers (timers s ++ [(handle, now s + delay)]) s)).

(** The callback given to [setTimeout] by [handleUnlock]. *)
Definition lock_callback (s : State) : State :=
  set_isEditing false (set_unlockPassword [] (set_decryptedCache ∅ s)).

(** [handleSelectNote]. *)
Definition handleSelectNote (id : jsstring) : M unit :=
  modify (set_decryptedCache ∅) ;;;
  modify clear_lock_timer ;;;
  modify (set_selectedNoteId (Some id)) ;;;
  modify (set_isCreating false) ;;;
  modify (set_isEditing false) ;;;
  modify (set_unlockPassword []) ;;;
  modify (set_showPassword false) ;;;
  modify (set_stagedFiles []) ;;;
  modify (set_mobileView ViewNote) ;;;
  s <- get ;;
  match find (fun n => jsstring_eqb (Note.id n) id) (notes s) with
  | Some note => if negb (Note.is_encrypted note) then indexAttachments note None
                 else ret tt
  | None => ret tt
  end.

(** [handleUnlock].  [selectedNote] and [unlockPassword] are the values the
    handler was created with. *)
Definition handleUnlock : M unit :=
  s0 <- get ;;
  match selectedNote s0 with
  | None => ret tt
  | Some note =>
      try_catch
        (decContent <- call_decryptData (Note.content note) (Note.iv note)
                         (Note.salt note) (unlockPassword s0) ;;
         modify (fun s => set_decryptedCache
                   (<[Note.id note := {| Cached.title := Note.title note;
                                         Cached.content := decContent |}]>
                      (decryptedCache s)) s) ;;;
         indexAttachments note (Some (unlockPassword s0)) ;;;
         modify clear_lock_timer ;;;
         modify (schedule_lock 60000))
        (fun _ => perform (Alert (lit "Invalid key.") None))
  end.

(** What [handleUnlock] does once the promise of [decryptData] has settled
    with [outcome], for the note and the password the handler was called
    with.  [handleUnlock] is the call followed by this
    continuation; the two are separated by the [await]. *)
Definition handleUnlock_settled (note : Note.t) (password : jsstring)
    (outcome : result jsstring) : M unit :=
  try_catch
    (decContent <- lift outcome ;;
     modify (fun s => set_decryptedCache
               (<[Note.id note := {| Cached.title := Note.title note;
                                     Cached.content := decContent |}]>
                  (decryptedCache s)) s) ;;;
     indexAttachments note (Some password) ;;;
     modify clear_lock_timer ;;;
     modify (schedule_lock 60000))
    (fun _ => perform (Alert (lit "Invalid key.") None)).

(** [processFileUploads]. *)
Fixpoint processFileUploads (files : list File) (isEncrypted : bool)
    (password : jsstring) : M (list jsstring) :=
  match files with
  | [] => ret []
  | file :: rest =>
      body <- (if isEncrypted && truthy password
               then (b <- call_encryptFile file password ;; ret (blob_bytes b))
               else ret (file_bytes file)) ;;
      path <- db_uploadFile body (file_name file) ;;
      paths <- processFileUploads rest isEncrypted password ;;
      ret (path :: paths)
  end.

Definition blank_newNote (n : nat) : NewNote.t :=
  {| NewNote.title := []; NewNote.content := []; NewNote.encrypt := false;
     NewNote.password := []; NewNote.confirmPassword := [];
     NewNote.category := lit "Personal";
     NewNote.date := firstn 16 (now_toISOString B n) |}.

(** [handleSaveNewNote]. *)
Definition handleSaveNewNote : M unit :=
  s0 <- get ;;
  let newNote := newNote s0 in
  if negb (truthy (trim (NewNote.title newNote))) then
    perform (Alert (lit "Title required") None)
  else if NewNote.encrypt newNote && negb (truthy (NewNote.password newNote)) then
    perform (Alert (lit "Password required for encryption") None)
  else if NewNote.encrypt newNote
          && negb (jsstring_eqb (NewNote.password newNote) (NewNote.confirmPassword newNote)) then
    perform (Alert (lit "Passwords do not match!") None)
  else
    modify (set_isUploading true) ;;;
    finally
      (try_catch
         (attachmentPaths <- processFileUploads (stagedFiles s0)
                               (NewNote.encrypt newNote) (NewNote.password newNote) ;;
          createdAt <- lift (Date_toISOString B (NewNote.date newNote)) ;;
          payload <-
            (if NewNote.encrypt newNote then
               contentEnc <- call_encryptData (NewNote.content newNote)
                               (NewNote.password newNote) ;;
               ret {| NotePayload.title := NewNote.title newNote;
                      NotePayload.content := ciphertext contentEnc;
                      NotePayload.is_encrypted := true;
                      NotePayload.category := NewNote.category newNote;
                      NotePayload.iv := Some (iv contentEnc);
                      NotePayload.salt := Some (salt contentEnc);
                      NotePayload.attachments := attachmentPaths;
                      NotePayload.created_at := createdAt |}
             else
               ret {| NotePayload.title := NewNote.title newNote;
                      NotePayload.content := NewNote.content newNote;
                      NotePayload.is_encrypted := false;
                      NotePayload.category := NewNote.category newNote;
                      NotePayload.iv := None;
                      NotePayload.salt := None;
                      NotePayload.attachments := attachmentPaths;
                      NotePayload.created_at := createdAt |}) ;;
          db_insertNote payload ;;;
          n <- steps ;;
          modify (set_newNote (blank_newNote n)) ;;;
          modify (set_stagedFiles []) ;;;
          modify (set_isCreating false) ;;;
          modify (set_selectedCategory (lit "all")) ;;;
          modify (set_searchQuery []) ;;;
          fetchNotes ;;;
          modify (set_mobileView ViewList))
         (fun err => perform (Alert (lit "Error saving: ") (Some err))))
      (modify (set_isUploading false)).

(** [handleUpdateNote]. *)
Definition handleUpdateNote : M unit :=
  s0 <- get ;;
  match selectedNote s0 with
  | None => ret tt
  | Some note =>
      let editForm := editForm s0 in
      let pwd := if truthy (EditForm.password editForm)
                 then EditForm.password editForm else unlockPassword s0 in
      if EditForm.is_encrypted editForm && negb (truthy pwd) then
        perform (Alert (lit "Password required to save encrypted note") None)
      else
        modify (set_isUploading true) ;;;
        finally
          (try_catch
             (newAttachmentPaths <- processFileUploads (stagedFiles s0)
                                      (EditForm.is_encrypted editForm) pwd ;;
              let combinedAttachments := existingAttachments s0 ++ newAttachmentPaths in
              createdAt <- lift (Date_toISOString B (EditForm.date editForm)) ;;
              payload <-
                (if EditForm.is_encrypted editForm then
                   contentEnc <- call_encryptData (EditForm.content editForm) pwd ;;
                   ret {| Updates.title := EditForm.title editForm;
                          Updates.category := EditForm.category editForm;
                          Updates.is_encrypted := EditForm.is_encrypted editForm;
                          Updates.attachments := combinedAttachments;
                          Updates.created_at := createdAt;
                          Updates.content := Some (ciphertext contentEnc);
                          Updates.ciphertext := None;
                          Updates.iv := Some (iv contentEnc);
                          Updates.salt := Some (salt contentEnc) |}
                 else
                   ret {| Updates.title := EditForm.title editForm;
                          Updates.category := EditForm.category editForm;
                          Updates.is_encrypted := EditForm.is_encrypted editForm;
                          Updates.attachments := combinedAttachments;
                          Updates.created_at := createdAt;
                          Updates.content := Some (EditForm.content editForm);
                          Updates.ciphertext := None;
                          Updates.iv := None;
                          Updates.salt := None |}) ;;
              db_updateNote (Note.id note) payload ;;;
              modify (set_stagedFiles []) ;;;
              modify (set_isEditing false) ;;;
              fetchNotes)
             (fun err => perform (Alert (lit "Error updating: ") (Some err))))
          (modify (set_isUploading false))
  end.

End WithEnvironment.

End Handlers.
Export Handlers.

(** ** The vault session as a transition system

    The user interface drives the handlers one at a time; an event is one
    handler run to completion.  [Elapse] lets time pass and runs the timer
    callbacks that have become due. *)

Module Session.

Inductive Event : Type :=
| SignIn
| Refresh
| SelectNote (id : jsstring)
| TypeUnlockPassword (value : jsstring)
| Unlock
| Elapse (ms : N)
| CloseNote
| StartCreating
| OpenEditor
| CancelEdit
| ChangeEditForm (form : EditForm.t)
| ChangeNewNote (form : NewNote.t)
| StageFiles (files : list File)
| SaveNewNote
| UpdateNote
| Unmount.

Section WithEnvironment.
Variable W : SubtleCrypto.
Variable B : Backend.

(** The initial values of the [useState] and [useRef] cells. *)
Definition mount (now0 : Z) (next0 : nat) (rng0 : Rng) (trace0 : list Effect) : State :=
  {| session := false;
     notes := [];
     selectedCategory := lit "all";
     searchQuery := [];
     mobileView := ViewList;
     selectedNoteId := None;
     isEditing := false;
     isCreating := false;
     unlockPassword := [];
     decryptedCache := ∅;
     attachmentTextCache := ∅;
     attachmentImageCache := ∅;
     lockTimerRef := None;
     showPassword := false;
     editForm := {| EditForm.title := []; EditForm.content := [];
                    EditForm.category := lit "Personal";
                    EditForm.is_encrypted := false; EditForm.password := [];
                    EditForm.confirmPassword := []; EditForm.date := [] |};
     newNote := blank_newNote B (length trace0);
     stagedFiles := [];
     existingAttachments := [];
     isUploading := false;
     now := now0;
     timers := [];
     next_timer := next0;
     rng := rng0;
     trace := trace0 |}.

(** The timers whose deadline has passed run, in the order they were set. *)
Definition run_due_timers (s : State) : State :=
  let due := List.filter (fun t => snd t <=? now s) (timers s) in
  let s' := set_timers (List.filter (fun t => negb (snd t <=? now s)) (timers s)) s in
  fold_left (fun acc _ => lock_callback acc) due s'.

Definition elapse (ms : N) (s : State) : State :=
  run_due_timers (set_now (now s + Z.of_N ms) s).

(** The edit button of an opened note. *)
Definition openEditor (s : State) : State :=
  match selectedNote s with
  | None => s
  | Some note =>
      let entry := decryptedCache s !! Note.id note in
      let pick (cachedv stored : jsstring) := if truthy cachedv then cachedv else stored in
      let form :=
        {| EditForm.title :=
             match entry with
             | Some c => pick (Cached.title c) (Note.title note)
             | None => Note.title note
             end;
           EditForm.content :=
             match entry with
             | Some c => pick (Cached.content c) (Note.content note)
             | None => Note.content note
             end;
           EditForm.category := Note.category note;
           EditForm.is_encrypted := Note.is_encrypted note;
           EditForm.password := [];
           EditForm.confirmPassword := [];
           EditForm.date := firstn 16 (Note.created_at note) |} in
      set_showPassword false
        (set_isEditing true
           (set_stagedFiles []
              (set_existingAttachments (default [] (Note.attachments note))
                 (set_editForm form s))))
  end.

(** The "New Note" button. *)
Definition startCreating (s : State) : State :=
  let form := newNote s in
  set_newNote
    {| NewNote.title := NewNote.title form; NewNote.content := NewNote.content form;
       NewNote.encrypt := NewNote.encrypt form; NewNote.password := NewNote.password form;
       NewNote.confirmPassword := []; NewNote.category := NewNote.category form;
       NewNote.date := NewNote.date form |}
    (set_showPassword false
       (set_mobileView ViewNote
          (set_existingAttachments []
             (set_stagedFiles []
                (set_selectedNoteId None (set_isCreating true s)))))).

(** Unmounting runs the cleanup that cancels the auto-lock timer; the cells
    of the component are discarded, and a later mount starts from their
    initial values. *)
Definition unmount (s : State) : State :=
  let s' := clear_lock_timer s in
  set_timers (timers s') (mount (now s') (next_timer s') (rng s') (trace s')).

Definition step (e : Event) (s : State) : State :=
  match e with
  | SignIn => exec (fetchNotes B) (set_session true s)
  | Refresh => exec (fetchNotes B) s
  | SelectNote id => exec (handleSelectNote W B id) s
  | TypeUnlockPassword value => set_unlockPassword value s
  | Unlock => exec (handleUnlock W B) s
  | Elapse ms => elapse ms s
  | CloseNote => set_mobileView ViewList (set_selectedNoteId None s)
  | StartCreating => startCreating s
  | OpenEditor => openEditor s
  | CancelEdit => set_isEditing false s
  | ChangeEditForm form => set_editForm form s
  | ChangeNewNote form => set_newNote form s
  | StageFiles files => set_stagedFiles (stagedFiles s ++ files) s
  | SaveNewNote => exec (handleSaveNewNote W B) s
  | UpdateNote => exec (handleUpdateNote W B) s
  | Unmount => unmount s
  end.

Definition run (events : list Event) (s : State) : State :=
  fold_left (fun acc e => step e acc) events s.

(** The states the session can be in. *)
Inductive reachable : State -> Prop :=
| reachable_mount now0 next0 rng0 trace0 :
    reachable (mount now0 next0 rng0 trace0)
| reachable_step e s :
    reachable s -> reachable (step e s).

(** [handleUnlock] would put a plaintext in the cache: a note is selected
    and its content decrypts under the password typed. *)
Definition unlock_succeeds (s : State) : bool :=
  match selectedNote s with
  | Some note =>
      is_ok (decryptData W (Note.content note) (Note.iv note) (Note.salt note)
               (unlockPassword s))
  | None => false
  end.

(** An event other than a note selection and a successful unlock. *)
Definition keeps_deadline (e : Event) (s : State) : bool :=
  match e with
  | SelectNote _ => false
  | Unlock => negb (unlock_succeeds s)
  | _ => true
  end.

Fixpoint all_keep_deadline (events : list Event) (s : State) : bool :=
  match events with
  | [] => true
  | e :: r => keeps_deadline e s && all_keep_deadline r (step e s)
  end.

(** The time that passes during a list of events. *)
Definition elapsed (events : list Event) : Z :=
  fold_right (fun e acc => match e with Elapse ms => Z.of_N ms + acc | _ => acc end)
    0 events.

End WithEnvironment.

End Session.
Export Session.

(** ** An instance of the primitives

    A small cipher with the shape of the real one (a 16-byte tag after the
    body, rejection under any other key), used to exercise the theorems on
    concrete inputs. *)

Module Toy.

Definition tag_of (k : byte) : list byte := k :: repeat x00 15.

Fixpoint list_byte_eqb (a b : list byte) : bool :=
  match a, b with
  | [], [] => true
  | x :: a', y :: b' => Byte.eqb x y && list_byte_eqb a' b'
  | _, _ => false
  end.

Definition seal (k : byte) (iv data : list byte) : list byte := data ++ tag_of k.

Definition open (k : byte) (iv data : list byte) : option (list byte) :=
  let n := (length data - 16)%nat in
  if (length data <? 16)%nat then None
  else if list_byte_eqb (skipn n data) (tag_of k) then Some (firstn n data)
  else None.

Definition primitives : SubtleCrypto :=
  {| key_bits := byte;
     pbkdf2_sha256 := fun _ password salt => hd x00 (password ++ salt);
     aes_gcm_seal := seal;
     aes_gcm_open := open |}.

Definition zeros : Rng := {| rng_bytes := fun _ => x00; rng_pos := 0 |}.

Definition counting : Rng :=
  {| rng_bytes := fun n => to_uint8 (Z.of_nat n); rng_pos := 0 |}.

(** A backend with one signed-in user, the rows [rows] in the [notes] table
    and one stored object, whose bytes are [stored]; every write succeeds. *)
Definition backend (rows : list StoredRow.t) (stored : list byte) : Backend :=
  {| auth_getUser := fun _ => Some (lit "u1");
     notes_insert := fun _ _ => None;
     notes_update := fun _ _ _ => None;
     notes_select := fun _ => Ok rows;
     storage_upload := fun _ _ path _ => Ok path;
     storage_download := fun _ bucket _ =>
       if jsstring_eqb bucket PRIMARY_BUCKET
       then inr {| blob_bytes := stored; blob_type := octet_stream |}
       else inl (lit "Object not found");
     Date_now := fun _ => lit "1700000000000";
     Date_toISOString := fun d => if truthy d then Ok (d ++ lit ":00.000Z") else Err RangeError;
     now_toISOString := fun _ => lit "2026-01-01T00:00:00.000Z";
     readAsDataURL := fun _ => lit "data:application/octet-stream;base64," |}.

(** The payload of the text "secret" under the password "pw". *)
Definition sealed_secret : Payload :=
  match fst (encryptData primitives (lit "secret") (lit "pw") None counting) with
  | Ok payload => payload
  | Err _ => {| ciphertext := []; iv := []; salt := [] |}
  end.

(** An encrypted note with one text attachment, and a plain note. *)
Definition diary : StoredRow.t :=
  {| StoredRow.id := lit "a";
     StoredRow.created_at := Some (lit "2026-01-01T00:00:00.000Z");
     StoredRow.title := Some (lit "Diary");
     StoredRow.ciphertext := Some (ciphertext sealed_secret);
     StoredRow.content := None;
     StoredRow.is_encrypted := true;
     StoredRow.category := Some (lit "Personal");
     StoredRow.attachments := Some [lit "u1/1700000000000_secret.txt"];
     StoredRow.iv := Some (iv sealed_secret);
     StoredRow.title_iv := None;
     StoredRow.salt := Some (salt sealed_secret);
     StoredRow.user_id := lit "u1" |}.

Definition shopping : StoredRow.t :=
  {| StoredRow.id := lit "b";
     StoredRow.created_at := Some (lit "2026-01-02T00:00:00.000Z");
     StoredRow.title := Some (lit "Shopping");
     StoredRow.ciphertext := Some (lit "milk");
     StoredRow.content := None;
     StoredRow.is_encrypted := false;
     StoredRow.category := Some (lit "Personal");
     StoredRow.attachments := None;
     StoredRow.iv := None;
     StoredRow.title_iv := None;
     StoredRow.salt := None;
     StoredRow.user_id := lit "u1" |}.

(** A second encrypted note, under the same password. *)
Definition journal : StoredRow.t :=
  {| StoredRow.id := lit "c";
     StoredRow.created_at := Some (lit "2026-01-03T00:00:00.000Z");
     StoredRow.title := Some (lit "Journal");
     StoredRow.ciphertext := Some (ciphertext sealed_secret);
     StoredRow.content := None;
     StoredRow.is_encrypted := true;
     StoredRow.category := Some (lit "Personal");
     StoredRow.attachments := None;
     StoredRow.iv := Some (iv sealed_secret);
     StoredRow.title_iv := None;
     StoredRow.salt := Some (salt sealed_secret);
     StoredRow.user_id := lit "u1" |}.

(** The bytes kept in the object store for the attachment of [diary]: a
    packed encrypted file, of which only the first bytes matter here. *)
Definition stored_blob : list byte := map to_uint8 [0x9C; 0x41; 0xFF; 0x42].

Definition world : Backend := backend [diary; shopping; journal] stored_blob.

(** The component freshly mounted at time 0. *)
Definition start : State := mount world 0 1 counting [].

(** The user signs in, opens the diary and types the password. *)
Definition ready : State :=
  run primitives world
    [SignIn; SelectNote (lit "a"); TypeUnlockPassword (lit "pw")] start.

(** A new note with encryption on and the password left empty. *)
Definition draft_without_password : State :=
  run primitives world
    [StartCreating;
     ChangeNewNote {| NewNote.title := lit "Plans"; NewNote.content := lit "secret plans";
                      NewNote.encrypt := true; NewNote.password := [];
                      NewNote.confirmPassword := []; NewNote.category := lit "Personal";
                      NewNote.date := lit "2026-01-03T10:00" |}] ready.

(** The same note with a password typed twice. *)
Definition draft_encrypted : State :=
  run primitives world
    [ChangeNewNote {| NewNote.title := lit "Plans"; NewNote.content := lit "secret plans";
                      NewNote.encrypt := true; NewNote.password := lit "pw";
                      NewNote.confirmPassword := lit "pw";
                      NewNote.category := lit "Personal";
                      NewNote.date := lit "2026-01-03T10:00" |}] draft_without_password.

(** The diary opened but not unlocked, its edit form asking for encryption
    with no password typed anywhere. *)
Definition edit_without_password : State :=
  run primitives world
    [SignIn; SelectNote (lit "a");
     ChangeEditForm {| EditForm.title := lit "Diary"; EditForm.content := lit "new text";
                       EditForm.category := lit "Personal"; EditForm.is_encrypted := true;
                       EditForm.password := []; EditForm.confirmPassword := [];
                       EditForm.date := lit "2026-01-01T00:00" |}] start.

(** The diary unlocked and being edited under a new title. *)
Definition edit_encrypted : State :=
  run primitives world
    [Unlock; OpenEditor;
     ChangeEditForm {| EditForm.title := lit "Diary 2"; EditForm.content := lit "new text";
                       EditForm.category := lit "Personal"; EditForm.is_encrypted := true;
                       EditForm.password := []; EditForm.confirmPassword := [];
                       EditForm.date := lit "2026-01-01T00:00" |}] ready.


End Toy.

(** ** Notions used to state the properties *)

Module Notions.

(** The two hexadecimal digits [toHex] writes for a byte. *)
Definition hex2 (b : byte) : jsstring := padStart2 (toString16 (byte_val b)).

(** A Unicode scalar value. *)
Definition scalar (c : Z) : Prop :=
  0 <= c < 0x110000 /\ ~ (0xD800 <= c <= 0xDFFF).

(** The part of the state the vault session lives in: the plaintext cache,
    the pending timers and the timer handle kept by the component, the
    selection, the clock and the next timer handle. *)
Definition core (s : State)
    : gmap (list Z) Cached.t * list (nat * Z) * option nat * option (list Z) * Z * nat :=
  (decryptedCache s, timers s, lockTimerRef s, selectedNoteId s, now s, next_timer s).

(** [s'] is [s] with its session part untouched. *)
Definition same_core (s s' : State) : Prop := core s' = core s.

(** [s'] has performed the effects of [s] and then some more, all of which
    satisfy [Q]. *)
Definition performs (Q : Effect -> Prop) (s s' : State) : Prop :=
  exists es, trace s' = trace s ++ es /\ Forall Q es.

(** Every run of [m] relates the state before to the state after by [R],
    and a value returned satisfies [V]. *)
Definition yields {A} (R : State -> State -> Prop) (V : A -> Prop) (m : M A) : Prop :=
  forall s, R s (snd (m s)) /\ forall a, fst (m s) = Ok a -> V a.

(** [m] never throws. *)
Definition total {A} (m : M A) : Prop :=
  forall s, exists a, fst (m s) = Ok a.

(** The effects performed by [m] from state [s]. *)
Definition effects_of {A} (m : M A) (s : State) : list Effect :=
  skipn (length (trace s)) (trace (snd (m s))).

(** The time an event takes. *)
Definition dt (e : Event) : Z :=
  match e with Elapse ms => Z.of_N ms | _ => 0 end.

(** Every row inserted in the [notes] table satisfies [P]. *)
Definition inserts_satisfy (P : DbRow.t -> Prop) (e : Effect) : Prop :=
  match e with NotesInsert row => P row | _ => True end.

(** Every update of the [notes] table satisfies [P]. *)
Definition updates_satisfy (P : jsstring -> Updates.t -> Prop) (e : Effect) : Prop :=
  match e with NotesUpdate id row => P id row | _ => True end.

(** A call into [services/crypto], an upload, or a write to the [notes]
    table. *)
Definition is_crypto_or_write (e : Effect) : bool :=
  match e with
  | CryptoCall _ | StorageUpload _ _ _ | NotesInsert _ | NotesUpdate _ _ => true
  | _ => false
  end.

End Notions.
Export Notions.

(** ** Laws of the primitives

    What the theorems below assume of PBKDF2 and AES-GCM, each stated on
    the primitives alone. *)

Module Laws.

(** Opening a sealed message with the same key and nonce gives it back. *)
Definition aead_correct (W : SubtleCrypto) : Prop :=
  forall k iv m, aes_gcm_open W k iv (aes_gcm_seal W k iv m) = Some m.

(** The ciphertext is the message length plus the 16-byte tag. *)
Definition aead_tag_length (W : SubtleCrypto) : Prop :=
  forall k iv m, length (aes_gcm_seal W k iv m) = (length m + 16)%nat.


End Laws.
Export Laws.

From Stdlib Require Import Sorting.Sorted Sorting.Permutation.

(** ** File kinds: the third helper next to [isTextFile] and [isImageFile] *)

Module Kinds.

(** [isPdfFile]. *)
Definition isPdfFile (filename : jsstring) : bool :=
  jsstring_eqb (extension filename) (lit "pdf").

End Kinds.
Export Kinds.

(** ** The list of notes: [filteredNotes]

    [String.prototype.toLowerCase], [String.prototype.localeCompare] and
    the reading of a date by [new Date(s).getTime()] belong to the
    platform and are parameters.  The value of [filteredNotes] is a list,
    or the error thrown while it is computed. *)

Module Listing.

Inductive SortField : Type := ByDate | ByTitle | ByCategory | BySecurity | ByAttachments.
Inductive SortOrder : Type := Asc | Desc.

(** [interface SortOption]; its label and icon are only displayed. *)
Record SortOption : Type := {
  field : SortField;
  order : SortOrder
}.

(** [Array.prototype.sort(compare)].  The sort is stable; for a comparator
    that orders by a key, as all those of [filteredNotes] do, this fixes
    the result, which is computed here by insertion.  Only the sign of
    what [compare] returns matters. *)
Fixpoint insert {A : Type} (compare : A -> A -> Z) (x : A) (l : list A) : list A :=
  match l with
  | [] => [x]
  | y :: r => if compare x y <=? 0 then x :: l else y :: insert compare x r
  end.

Definition Array_sort {A : Type} (compare : A -> A -> Z) (l : list A) : list A :=
  fold_right (insert compare) [] l.

(** [l.some(f)] for a callback that can throw: the elements are tried in
    order, up to the first for which [f] is true. *)
Fixpoint Array_some {A : Type} (f : A -> result bool) (l : list A) : result bool :=
  match l with
  | [] => Ok false
  | x :: r =>
      match f x with
      | Ok true => Ok true
      | Ok false => Array_some f r
      | Err e => Err e
      end
  end.

(** [l.filter(f)] for a callback that can throw. *)
Fixpoint Array_filter {A : Type} (f : A -> result bool) (l : list A) : result (list A) :=
  match l with
  | [] => Ok []
  | x :: r =>
      bind (f x) (fun keep =>
      bind (Array_filter f r) (fun kept =>
      Ok (if keep then x :: kept else kept)))
  end.

(** The names every object inherits from [Object.prototype].  The caches are
    plain objects, so a lookup under one of these names that is not a key of
    the cache itself finds a function (an object, for [__proto__]) and not
    [undefined]. *)
Definition Object_prototype_names : list jsstring :=
  map lit ["constructor"; "hasOwnProperty"; "isPrototypeOf"; "propertyIsEnumerable";
           "toLocaleString"; "toString"; "valueOf"; "__proto__";
           "__defineGetter__"; "__defineSetter__"; "__lookupGetter__";
           "__lookupSetter__"]%string.

Definition inherited (name : jsstring) : bool :=
  includes_word Object_prototype_names name.

Section WithPlatform.
Variable toLowerCase : jsstring -> jsstring.
Variable localeCompare : jsstring -> jsstring -> Z.
(** [new Date(s).getTime()]; [None] is NaN. *)
Variable Date_getTime : jsstring -> option Z.

(** [a || b] on strings. *)
Definition or_text (a b : jsstring) : jsstring := if truthy a then a else b.

(** [decryptedCache[n.id]?.title || n.title || '']. *)
Definition shown_title (decryptedCache : gmap (list Z) Cached.t) (n : Note.t) : jsstring :=
  match decryptedCache !! Note.id n with
  | Some c => or_text (or_text (Cached.title c) (Note.title n)) []
  | None => or_text (Note.title n) []
  end.

(** [cached?.content || (n.is_encrypted ? '' : n.content) || '']. *)
Definition searched_content (decryptedCache : gmap (list Z) Cached.t) (n : Note.t)
    : jsstring :=
  let stored := if Note.is_encrypted n then [] else Note.content n in
  match decryptedCache !! Note.id n with
  | Some c => or_text (or_text (Cached.content c) stored) []
  | None => or_text stored []
  end.

(** [attachmentTextCache[path]?.toLowerCase().includes(query)].  A cached
    text is searched; a path that is no key of the cache gives [undefined],
    unless it is an inherited name: the value found then has no
    [toLowerCase], and the call throws. *)
Definition text_includes (query : jsstring) (attachmentTextCache : gmap (list Z) (list Z))
    (path : jsstring) : result bool :=
  match attachmentTextCache !! path with
  | Some text => Ok (includes query (toLowerCase text))
  | None => if inherited path then Err TypeError else Ok false
  end.

(** The callback of [notes.filter]. *)
Definition matches (selectedCategory searchQuery : jsstring)
    (decryptedCache : gmap (list Z) Cached.t)
    (attachmentTextCache : gmap (list Z) (list Z)) (n : Note.t) : result bool :=
  let catMatch := jsstring_eqb selectedCategory (lit "all")
                  || jsstring_eqb (Note.category n) selectedCategory in
  let query := toLowerCase searchQuery in
  if negb (truthy query) then Ok catMatch
  else
    let title := toLowerCase (shown_title decryptedCache n) in
    let content := toLowerCase (searched_content decryptedCache n) in
    let inTitleOrContent := includes query title || includes query content in
    let inFilenames :=
      match Note.attachments n with
      | Some paths =>
          existsb (fun path => includes query (toLowerCase (getFileNameFromPath path))) paths
      | None => false
      end in
    bind (match Note.attachments n with
          | Some paths => Array_some (text_includes query attachmentTextCache) paths
          | None => Ok false
          end)
      (fun inAttachmentContent =>
         Ok (catMatch && (inTitleOrContent || inFilenames || inAttachmentContent))).

(** [a.created_at ? new Date(a.created_at).getTime() : 0], with NaN
    replaced by 0. *)
Definition safeDate (n : Note.t) : Z :=
  if truthy (Note.created_at n) then
    match Date_getTime (Note.created_at n) with
    | Some t => t
    | None => 0
    end
  else 0.

(** [a.attachments?.length || 0]. *)
Definition attachment_count (n : Note.t) : Z :=
  match Note.attachments n with
  | Some paths => Z.of_nat (length paths)
  | None => 0
  end.

(** The [switch] of the comparator. *)
Definition comparison (f : SortField) (decryptedCache : gmap (list Z) Cached.t)
    (a b : Note.t) : Z :=
  match f with
  | ByDate => safeDate a - safeDate b
  | ByTitle =>
      localeCompare (toLowerCase (shown_title decryptedCache a))
        (toLowerCase (shown_title decryptedCache b))
  | ByCategory => localeCompare (or_text (Note.category a) []) (or_text (Note.category b) [])
  | BySecurity =>
      if Bool.eqb (Note.is_encrypted a) (Note.is_encrypted b) then 0
      else if Note.is_encrypted a then 1 else -1
  | ByAttachments => attachment_count a - attachment_count b
  end.

(** The callback of [.sort]. *)
Definition compare_notes (sortConfig : SortOption)
    (decryptedCache : gmap (list Z) Cached.t) (a b : Note.t) : Z :=
  match order sortConfig with
  | Desc => - comparison (field sortConfig) decryptedCache a b
  | Asc => comparison (field sortConfig) decryptedCache a b
  end.

(** [filteredNotes]: the error the filter throws, or the notes it keeps,
    sorted. *)
Definition filteredNotes (notes : list Note.t) (selectedCategory searchQuery : jsstring)
    (decryptedCache : gmap (list Z) Cached.t)
    (attachmentTextCache : gmap (list Z) (list Z)) (sortConfig : SortOption)
    : result (list Note.t) :=
  bind (Array_filter
          (matches selectedCategory searchQuery decryptedCache attachmentTextCache) notes)
    (fun filtered => Ok (Array_sort (compare_notes sortConfig decryptedCache) filtered)).

(** The list as the component computes it in state [s]. *)
Definition listed (s : State) (sortConfig : SortOption) : result (list Note.t) :=
  filteredNotes (notes s) (selectedCategory s) (searchQuery s) (decryptedCache s)
    (attachmentTextCache s) sortConfig.

End WithPlatform.

End Listing.
Export Listing.

(** ** Opening an attachment: [handleDownloadAttachment], [handleOpenPreview]
    and the pane of the preview *)

Module PreviewData.

(** The value of [previewData].  [url] is an object URL; it is kept as the
    blob it was created for. *)
Record t : Type := {
  url : Blob;
  name : jsstring;
  type : jsstring;
  text : option jsstring
}.

End PreviewData.

Module Anchor.

(** The link [handleDownloadAttachment] clicks: [a.href], an object URL kept
    as the blob it was created for, and [a.download]. *)
Record t : Type := {
  href : Blob;
  download : jsstring
}.

End Anchor.

Module Attachments.

#[local] Notation "x <- m ;; k" := (mbind m (fun x => k))
  (at level 100, m at next level, right associativity).
#[local] Notation "m ;;; k" := (mbind m (fun _ => k))
  (at level 100, right associativity).

(** What the preview modal renders for [previewData]. *)
Inductive Pane : Type := ImagePane | PdfPane | TextPane | NoPreview.

(** The conditional of the modal: [type.startsWith('image/')], then
    [type === 'application/pdf'], then [text]. *)
Definition preview_pane (p : PreviewData.t) : Pane :=
  if starts_with (lit "image/") (PreviewData.type p) then ImagePane
  else if jsstring_eqb (PreviewData.type p) (lit "application/pdf") then PdfPane
  else if truthy_opt (PreviewData.text p) then TextPane
  else NoPreview.

(** The two lower-case names every object inherits.  [mimeMap] is an object
    literal, so [mimeMap[ext]] finds [Object] and [Object.prototype] under
    them, and both are truthy. *)
Definition inherited_key (ext : jsstring) : bool :=
  jsstring_eqb ext (lit "constructor") || jsstring_eqb ext (lit "__proto__").

(** [selectedNote?.is_encrypted]. *)
Definition selected_is_encrypted (s : State) : bool :=
  match selectedNote s with
  | Some note => Note.is_encrypted note
  | None => false
  end.

Section WithEnvironment.
Variable W : SubtleCrypto.
Variable B : Backend.
(** The text of an inherited value of [mimeMap], which the [Blob]
    constructor is given for a [type]; it is never empty. *)
Variable inherited_type : jsstring -> jsstring.

(** [handleDownloadAttachment].  The result is the link that was clicked, if
    any.  [selectedNote] and [unlockPassword] are the values the handler was
    created with. *)
Definition handleDownloadAttachment (path : jsstring) : M (option Anchor.t) :=
  s0 <- get ;;
  try_catch
    (blob <- db_downloadFile B path ;;
     let fileName := getFileNameFromPath path in
     if selected_is_encrypted s0 then
       if negb (truthy (unlockPassword s0)) then
         perform (Alert (lit "Vault key required to decrypt file.") None) ;;; ret None
       else
         finalBlob <- call_decryptFile W blob (unlockPassword s0) None ;;
         ret (Some {| Anchor.href := finalBlob; Anchor.download := fileName |})
     else ret (Some {| Anchor.href := blob; Anchor.download := fileName |}))
    (fun err => perform (Alert (lit "Failed to download: ") (Some err)) ;;; ret None).

(** [mimeMap[ext || ''] || 'application/octet-stream'], as the text the
    [Blob] constructor is given. *)
Definition preview_type (fileName : jsstring) : jsstring :=
  if inherited_key (extension fileName) then inherited_type (extension fileName)
  else mimeType_of fileName.

(** [handleOpenPreview].  The result is the value given to [setPreviewData],
    if any. *)
Definition handleOpenPreview (path : jsstring) : M (option PreviewData.t) :=
  s0 <- get ;;
  try_catch
    (blob <- db_downloadFile B path ;;
     let fileName := getFileNameFromPath path in
     let mimeType := preview_type fileName in
     let show (finalBlob : Blob) : M (option PreviewData.t) :=
       let textContent :=
         if isTextFile fileName then TextDecoder_decode (blob_bytes finalBlob) else [] in
       ret (Some {| PreviewData.url := finalBlob;
                    PreviewData.name := fileName;
                    PreviewData.type := blob_type finalBlob;
                    PreviewData.text := if truthy textContent then Some textContent
                                        else None |}) in
     if selected_is_encrypted s0 then
       if negb (truthy (unlockPassword s0)) then
         perform (Alert (lit "Vault key required to decrypt preview.") None) ;;; ret None
       else
         finalBlob <- call_decryptFile W blob (unlockPassword s0) (Some mimeType) ;;
         show finalBlob
     else show {| blob_bytes := blob_bytes blob; blob_type := Blob_type mimeType |})
    (fun err => perform (Alert (lit "Preview failed: ") (Some err)) ;;; ret None).

End WithEnvironment.

End Attachments.
Export Attachments.

(** ** The tree of categories: [hierarchicalCategories] and [moveCategory] *)

Module Category.

(** The value of [parent_id]: [undefined] when the row has no such key (as
    the rows of [INITIAL_CATEGORIES]), [null], or the id of another
    category. *)
Inductive Parent : Type := Undefined | Null | Id (id : jsstring).

(** A row of [categories].  [sort_order] is [None] when it is [null] or
    missing. *)
Record t : Type := {
  id : jsstring;
  label : jsstring;
  icon : jsstring;
  sort_order : option Z;
  parent_id : Parent
}.

End Category.

Module Item.

(** An entry of [hierarchicalCategories]: [{ ...cat, depth, hasChildren,
    isExpanded }]. *)
Record t : Type := {
  cat : Category.t;
  depth : nat;
  hasChildren : bool;
  isExpanded : bool
}.

End Item.

Module Patch.

(** The second argument of [db.updateCategory] as [moveCategory] builds it;
    [parent_id] is [None] when the key is not given. *)
Record t : Type := {
  parent_id : option Category.Parent;
  sort_order : Z
}.

End Patch.

Module Categories.

Import Category.

(** [a === b] on values of [parent_id]. *)
Definition parent_eqb (a b : Parent) : bool :=
  match a, b with
  | Undefined, Undefined => true
  | Null, Null => true
  | Id x, Id y => jsstring_eqb x y
  | _, _ => false
  end.

(** [(a.sort_order || 0) - (b.sort_order || 0)]. *)
Definition by_sort_order (a b : Category.t) : Z :=
  default 0 (sort_order a) - default 0 (sort_order b).

(** [categories.filter(c => c.parent_id === parentId).sort(...)]. *)
Definition children_of (categories : list Category.t) (parentId : Parent)
    : list Category.t :=
  Array_sort by_sort_order
    (List.filter (fun c => parent_eqb (parent_id c) parentId) categories).

(** [l.findIndex(p)]; [-1] when nothing is found. *)
Fixpoint findIndex {A : Type} (p : A -> bool) (l : list A) : Z :=
  match l with
  | [] => -1
  | x :: r => if p x then 0
              else let i := findIndex p r in if i <? 0 then -1 else i + 1
  end.

(** The position [l.splice(start, ...)] starts at: a negative [start] counts
    from the end, and the result is clamped to the list. *)
Definition relative_start {A : Type} (start : Z) (l : list A) : nat :=
  let len := Z.of_nat (length l) in
  Z.to_nat (if start <? 0 then Z.max (len + start) 0 else Z.min start len).

(** [l.splice(start, 1)]: the elements removed and the list left. *)
Definition splice_out {A : Type} (start : Z) (l : list A) : list A * list A :=
  let k := relative_start start l in
  (firstn 1 (skipn k l), firstn k l ++ skipn (S k) l).

(** [l.splice(start, 0, x)]. *)
Definition splice_in {A : Type} (start : Z) (x : A) (l : list A) : list A :=
  let k := relative_start start l in
  firstn k l ++ x :: skipn k l.

(** [l.map((s, idx) => ...)]. *)
Fixpoint map_indexed {A B : Type} (f : A -> nat -> B) (idx : nat) (l : list A) : list B :=
  match l with
  | [] => []
  | x :: r => f x idx :: map_indexed f (S idx) r
  end.

Section Tree.
Variable categories : list Category.t.
(** [!!expandedIds[id]]. *)
Variable expandedIds : jsstring -> bool.
Variable isManagingCategories : bool.

(** The callback of [.reduce] in [build]; [below] is the recursive call
    [build(cat.id, depth + 1)]. *)
Definition reducer (below : Parent -> nat -> option (list Item.t)) (depth : nat)
    (acc : option (list Item.t)) (cat : Category.t) : option (list Item.t) :=
  match acc with
  | None => None
  | Some acc =>
      let hasChildren :=
        existsb (fun c => parent_eqb (parent_id c) (Id (id cat))) categories in
      let isExpanded := expandedIds (id cat) || isManagingCategories in
      let items := [{| Item.cat := cat; Item.depth := depth;
                       Item.hasChildren := hasChildren;
                       Item.isExpanded := isExpanded |}] in
      if isExpanded then
        match below (Id (id cat)) (S depth) with
        | Some more => Some (acc ++ items ++ more)
        | None => None
        end
      else Some (acc ++ items)
  end.

(** [build(parentId, depth)].  The recursion follows the ids of the
    categories it lists; it comes back to an id it is already listing only
    when two categories share an id, and then it never ends.  [fuel] bounds
    the nesting of the calls, and [None] is a recursion deeper than that. *)
Fixpoint build (fuel : nat) (parentId : Parent) (depth : nat) : option (list Item.t) :=
  match fuel with
  | 0%nat => None
  | S fuel' =>
      fold_left (reducer (build fuel') depth) (children_of categories parentId) (Some [])
  end.

(** [hierarchicalCategories].  A nesting deeper than the number of
    categories can only be one that does not end. *)
Definition hierarchicalCategories : option (list Item.t) :=
  match build (S (length categories)) Null 0 with
  | None => None
  | Some rootItems =>
      let allIdx := findIndex (fun c => jsstring_eqb (id (Item.cat c)) (lit "all")) rootItems in
      if 0 <? allIdx then
        let '(all, rest) := splice_out allIdx rootItems in
        Some (all ++ rest)
      else Some rootItems
  end.

End Tree.

Inductive Direction : Type := Up | Down | Top | Bottom | Left | Right.

(** When [moveCategory] calls [fetchCategories]: once the update has
    succeeded, once an update has failed, or not at all. *)
Inductive Refetch : Type := AfterSuccess | AfterFailure | NoRefetch.

(** What [moveCategory] does before the answers of the database arrive: the
    value it gives to [categories], if it sets one, the calls of
    [db.updateCategory] it issues, in order, and when it fetches the
    categories again. *)
Record Move : Type := {
  setCategories : option (list Category.t);
  updateCategory : list (jsstring * Patch.t);
  fetchCategories : Refetch
}.

Definition no_move : Move :=
  {| setCategories := None; updateCategory := []; fetchCategories := NoRefetch |}.

(** [newSiblings] for the four directions that reorder.  [sIdx] is the
    index of a sibling, so that [splice] removes one element. *)
Definition reordered (direction : Direction) (siblings : list Category.t) (sIdx : Z)
    : list Category.t :=
  let '(removed, newSiblings) := splice_out sIdx siblings in
  match removed with
  | [] => newSiblings
  | removed :: _ =>
      match direction with
      | Up => splice_in (Z.max 0 (sIdx - 1)) removed newSiblings
      | Down =>
          splice_in (Z.min (Z.of_nat (length siblings) - 1) (sIdx + 1)) removed newSiblings
      | Top => splice_in 0 removed newSiblings
      | Bottom => splice_in (Z.of_nat (length newSiblings)) removed newSiblings
      | Left | Right => newSiblings
      end
  end.

(** [{ ...s, sort_order: idx }]. *)
Definition with_sort_order (s : Category.t) (idx : nat) : Category.t :=
  {| id := id s; label := label s; icon := icon s;
     sort_order := Some (Z.of_nat idx); parent_id := parent_id s |}.

(** [moveCategory]. *)
Definition moveCategory (categories : list Category.t) (catId : jsstring)
    (direction : Direction) : Move :=
  match find (fun c => jsstring_eqb (id c) catId) categories with
  | None => no_move
  | Some cat =>
      let siblings := children_of categories (parent_id cat) in
      let sIdx := findIndex (fun s => jsstring_eqb (id s) catId) siblings in
      match direction with
      | Left =>
          let parent :=
            find (fun c => parent_eqb (Id (id c)) (parent_id cat)) categories in
          let newParentId :=
            match parent with
            | Some parent => parent_id parent
            | None => Null
            end in
          {| setCategories := None;
             updateCategory :=
               [(id cat, {| Patch.parent_id := Some newParentId; Patch.sort_order := 999 |})];
             fetchCategories := AfterSuccess |}
      | Right =>
          if 0 <? sIdx then
            match nth_error siblings (Z.to_nat (sIdx - 1)) with
            | Some above =>
                {| setCategories := None;
                   updateCategory :=
                     [(id cat, {| Patch.parent_id := Some (Id (id above));
                                  Patch.sort_order := 999 |})];
                   fetchCategories := AfterSuccess |}
            | None => no_move
            end
          else no_move
      | _ =>
          let newSiblings := reordered direction siblings sIdx in
          let updatedSiblings := map_indexed with_sort_order 0 newSiblings in
          let others :=
            List.filter (fun c => negb (parent_eqb (parent_id c) (parent_id cat)))
              categories in
          {| setCategories := Some (others ++ updatedSiblings);
             updateCategory :=
               map (fun s => (id s, {| Patch.parent_id := None;
                                       Patch.sort_order := default 0 (sort_order s) |}))
                 updatedSiblings;
             fetchCategories := AfterFailure |}
      end
  end.

End Categories.
Export Categories.

(** ** Further notions used to state properties *)

Module Properties.

(** A digit as [toHex] writes it: [0]-[9] or [a]-[f]. *)
Definition is_lower_hex (c : Z) : bool :=
  ((48 <=? c) && (c <=? 57)) || ((97 <=? c) && (c <=? 102)).

(** A code unit that [/.{1,2}/g] can match. *)
Definition matchable (c : Z) : bool := negb (is_line_terminator c).

(** [s'] agrees with [s] on the part [f] of the state. *)
Definition same_on {X : Type} (f : State -> X) (s s' : State) : Prop := f s' = f s.

(** Every key of [c] is still a key of [c']. *)
Definition keeps_entries {V : Type} (c c' : gmap (list Z) V) : Prop :=
  forall k, is_Some (c !! k) -> is_Some (c' !! k).

(** No preview of an attachment, text or image, has been dropped between
    [s] and [s']. *)
Definition previews_kept (s s' : State) : Prop :=
  keeps_entries (attachmentTextCache s) (attachmentTextCache s') /\
  keeps_entries (attachmentImageCache s) (attachmentImageCache s').

(** Nothing is left for [indexAttachments] to fetch for [path]: a text
    file has its text cached, an image its data URL, and a file of another
    kind is not indexed at all. *)
Definition already_indexed (s : State) (path : jsstring) : bool :=
  let filename := getFileNameFromPath path in
  if isTextFile filename then cached (attachmentTextCache s) path
  else if isImageFile filename then cached (attachmentImageCache s) path
  else true.

(** [body] is a file packed by [encryptFile]: a 16-byte salt, a 12-byte
    nonce, and [plain] sealed under the key derived from the password and
    that salt. *)
Definition packed_encryption (W : SubtleCrypto) (password : jsstring)
    (plain body : list byte) : Prop :=
  exists saltb ivb,
    length saltb = 16%nat /\ length ivb = 12%nat /\
    body = saltb ++ ivb ++ aes_gcm_seal W (derived_bits W password saltb) ivb plain.

(** An upload is that of one of [files], to the primary bucket, under a
    path that ends with the file's own name; its body is the file packed
    under [password], or the file as it is when there is no password. *)
Definition upload_of (W : SubtleCrypto) (files : list File) (password : option jsstring)
    (e : Effect) : Prop :=
  match e with
  | StorageUpload bucket path body =>
      bucket = PRIMARY_BUCKET /\
      exists file uid ts,
        In file files /\ path = uid ++ [47] ++ ts ++ [95] ++ file_name file /\
        match password with
        | Some p => packed_encryption W p (file_bytes file) body
        | None => body = file_bytes file
        end
  | _ => True
  end.

(** The password [handleUpdateNote] encrypts with: the one typed in the edit
    form or, when that is empty, the one the note was unlocked with. *)
Definition update_password (s : State) : jsstring :=
  if truthy (EditForm.password (editForm s)) then EditForm.password (editForm s)
  else unlockPassword s.

(** The columns [db.updateNote] writes for the text [c]: [ciphertext] when
    [c] is not empty, [content] when it is. *)
Definition text_columns (c : jsstring) (row : Updates.t) : Prop :=
  if truthy c then Updates.ciphertext row = Some c /\ Updates.content row = None
  else Updates.content row = Some c /\ Updates.ciphertext row = None.

(** [row] is what [handleUpdateNote], run from [s], writes for the note
    [id]. *)
Definition written_by_update (W : SubtleCrypto) (s : State) (id : jsstring)
    (row : Updates.t) : Prop :=
  exists note paths c,
    selectedNote s = Some note /\ id = Note.id note /\
    length paths = length (stagedFiles s) /\
    Updates.attachments row = existingAttachments s ++ paths /\
    (if EditForm.is_encrypted (editForm s)
     then exists payload rng0,
            fst (encryptData W (EditForm.content (editForm s)) (update_password s)
                   None rng0) = Ok payload /\
            c = ciphertext payload /\
            Updates.iv row = Some (iv payload) /\ Updates.salt row = Some (salt payload)
     else c = EditForm.content (editForm s) /\
          Updates.iv row = None /\ Updates.salt row = None) /\
    text_columns c row.

(** When [m] throws, the state it leaves is related to the one it started
    from by [R]. *)
Definition fails_within {A : Type} (R : State -> State -> Prop) (m : M A) : Prop :=
  forall s e s', m s = (Err e, s') -> R s s'.

(** An effect other than an alert. *)
Definition no_alert (e : Effect) : Prop :=
  match e with Alert _ _ => False | _ => True end.

(** What the user has prepared in the form for a new note, and what the
    list shows. *)
Definition draft (s : State)
    : NewNote.t * list File * bool * list Z * list Z * MobileView * list Note.t :=
  (newNote s, stagedFiles s, isCreating s, selectedCategory s, searchQuery s,
   mobileView s, notes s).

(** What the user has prepared in the editor of an existing note. *)
Definition edits (s : State)
    : EditForm.t * list File * list (list Z) * bool * list Note.t :=
  (editForm s, stagedFiles s, existingAttachments s, isEditing s, notes s).

(** [m] neither reads nor writes what the state change [g] sets: running
    [m] after [g] is running it before. *)
Definition commutes {A : Type} (g : State -> State) (m : M A) : Prop :=
  forall s, m (g s) = (fst (m s), g (snd (m s))).

(** The edit form with another text in its confirmation field. *)
Definition with_confirmPassword (c : jsstring) (f : EditForm.t) : EditForm.t :=
  {| EditForm.title := EditForm.title f;
     EditForm.content := EditForm.content f;
     EditForm.category := EditForm.category f;
     EditForm.is_encrypted := EditForm.is_encrypted f;
     EditForm.password := EditForm.password f;
     EditForm.confirmPassword := c;
     EditForm.date := EditForm.date f |}.

(** The note [n] with another stored content. *)
Definition with_content (c : jsstring) (n : Note.t) : Note.t :=
  {| Note.id := Note.id n; Note.created_at := Note.created_at n;
     Note.title := Note.title n; Note.content := c;
     Note.is_encrypted := Note.is_encrypted n; Note.category := Note.category n;
     Note.attachments := Note.attachments n; Note.iv := Note.iv n;
     Note.title_iv := Note.title_iv n; Note.salt := Note.salt n;
     Note.user_id := Note.user_id n |}.

(** The note [n] with its stored content replaced by [f n] if it is
    encrypted, and as it is otherwise. *)
Definition scrub (f : Note.t -> jsstring) (n : Note.t) : Note.t :=
  if Note.is_encrypted n then with_content (f n) n else n.

(** The callback returned [true]. *)
Definition returns_true (r : result bool) : bool :=
  match r with
  | Ok b => b
  | Err _ => false
  end.

(** No attachment path of a note of [notes] is an inherited name without
    being a key of the cache: every lookup of the search finds a text or
    nothing. *)
Definition lookups_are_safe (attachmentTextCache : gmap (list Z) (list Z))
    (notes : list Note.t) : bool :=
  forallb (fun n =>
             forallb (fun path =>
                        negb (inherited path)
                        || bool_decide (is_Some (attachmentTextCache !! path)))
               (default [] (Note.attachments n)))
    notes.

(** The note is in the category shown. *)
Definition in_category (selectedCategory : jsstring) (n : Note.t) : bool :=
  jsstring_eqb selectedCategory (lit "all") || jsstring_eqb (Note.category n) selectedCategory.

(** The auto-lock timer the component holds is pending and will fire within
    the next 60 seconds. *)
Definition lock_pending (s : State) : Prop :=
  exists h d, lockTimerRef s = Some h /\ In (h, d) (timers s) /\
              now s < d <= now s + 60000.

(** The category [c] hangs from the root by [n] links: it is a row of
    [categories] whose [parent_id] is [null] ([n = 0]), or the id of a row
    that hangs from the root by [n - 1] links. *)
Inductive level (categories : list Category.t) : nat -> Category.t -> Prop :=
| level_root (c : Category.t) :
    In c categories -> Category.parent_id c = Category.Null -> level categories 0 c
| level_child (c d : Category.t) (n : nat) :
    In c categories -> level categories n d ->
    Category.parent_id c = Category.Id (Category.id d) -> level categories (S n) c.

(** The categories whose [parent_id] is [p] hang from the root by [d]
    links. *)
Definition at_depth (categories : list Category.t) (p : Category.Parent) (d : nat) : Prop :=
  match p with
  | Category.Null => d = 0%nat
  | Category.Id x =>
      exists y n, level categories n y /\ Category.id y = x /\ d = S n
  | Category.Undefined => False
  end.

(** The item [it] is listed at the root, or below an item of [items] that
    is expanded, one step deeper. *)
Definition hangs (items : list Item.t) (it : Item.t) : Prop :=
  match Category.parent_id (Item.cat it) with
  | Category.Null => Item.depth it = 0%nat
  | Category.Id p =>
      exists above, In above items /\ Category.id (Item.cat above) = p /\
                    Item.isExpanded above = true /\
                    Item.depth it = S (Item.depth above)
  | Category.Undefined => False
  end.

(** The item [it] of the list [build(p, d)] returned: a child of [p] at
    depth [d], or a child of an expanded item of the list, one step
    deeper. *)
Definition listed_under (categories : list Category.t) (p : Category.Parent) (d : nat)
    (items : list Item.t) (it : Item.t) : Prop :=
  level categories (Item.depth it) (Item.cat it) /\
  ((Category.parent_id (Item.cat it) = p /\ Item.depth it = d) \/
   exists above, In above items /\
                 Category.parent_id (Item.cat it) = Category.Id (Category.id (Item.cat above)) /\
                 Item.isExpanded above = true /\
                 Item.depth it = S (Item.depth above)).

(** A category without its [sort_order]. *)
Definition unordered (c : Category.t) : jsstring * jsstring * jsstring * Category.Parent :=
  (Category.id c, Category.label c, Category.icon c, Category.parent_id c).

(** The direction is one of the four that reorder the siblings. *)
Definition reorders (direction : Direction) : bool :=
  match direction with
  | Up | Down | Top | Bottom => true
  | Left | Right => false
  end.

End Properties.
Export Properties.

(** ** More concrete states of the session *)

Module Examples.

(** The user signs in and opens the shopping list, a note saved without
    encryption. *)
Definition reading_plain : State :=
  run Toy.primitives Toy.world [SignIn; SelectNote (lit "b")] Toy.start.

(** The payload of the empty text under the password "pw". *)
Definition sealed_empty : Payload :=
  match fst (encryptData Toy.primitives [] (lit "pw") None Toy.counting) with
  | Ok payload => payload
  | Err _ => {| ciphertext := []; iv := []; salt := [] |}
  end.

(** An encrypted note that was saved with nothing typed in the editor. *)
Definition blank : StoredRow.t :=
  {| StoredRow.id := lit "e";
     StoredRow.created_at := Some (lit "2026-01-04T00:00:00.000Z");
     StoredRow.title := Some (lit "Blank");
     StoredRow.ciphertext := Some (ciphertext sealed_empty);
     StoredRow.content := None;
     StoredRow.is_encrypted := true;
     StoredRow.category := Some (lit "Personal");
     StoredRow.attachments := None;
     StoredRow.iv := Some (iv sealed_empty);
     StoredRow.title_iv := None;
     StoredRow.salt := Some (salt sealed_empty);
     StoredRow.user_id := lit "u1" |}.

Definition world_with_blank : Backend :=
  Toy.backend [Toy.diary; blank] Toy.stored_blob.

(** The user signs in, opens the blank note and types its password. *)
Definition blank_ready : State :=
  run Toy.primitives world_with_blank
    [SignIn; SelectNote (lit "e"); TypeUnlockPassword (lit "pw")]
    (mount world_with_blank 0 1 Toy.counting []).

(** A file picked in the file dialog. *)
Definition picked : File :=
  {| file_name := lit "plan.txt";
     file_bytes := TextEncoder_encode (lit "step one");
     file_type := lit "text/plain" |}.

(** The encrypted draft with that file attached. *)
Definition draft_with_file : State :=
  run Toy.primitives Toy.world [StageFiles [picked]] Toy.draft_encrypted.

(** The shopping list in the editor, its text deleted and a file attached. *)
Definition clearing_text : State :=
  run Toy.primitives Toy.world
    [OpenEditor;
     ChangeEditForm {| EditForm.title := lit "Shopping"; EditForm.content := [];
                       EditForm.category := lit "Personal";
                       EditForm.is_encrypted := false; EditForm.password := [];
                       EditForm.confirmPassword := [];
                       EditForm.date := lit "2026-01-02T00:00" |};
     StageFiles [picked]] reading_plain.

(** A draft whose date field has been emptied: [new Date('').toISOString()]
    throws. *)
Definition draft_without_date : State :=
  run Toy.primitives Toy.world
    [StartCreating;
     ChangeNewNote {| NewNote.title := lit "Plans"; NewNote.content := lit "plans";
                      NewNote.encrypt := false; NewNote.password := [];
                      NewNote.confirmPassword := []; NewNote.category := lit "Personal";
                      NewNote.date := [] |};
     StageFiles [picked]] Toy.ready.

(** The shopping list in the editor with its date field emptied. *)
Definition edit_without_date : State :=
  run Toy.primitives Toy.world
    [OpenEditor;
     ChangeEditForm {| EditForm.title := lit "Shopping"; EditForm.content := lit "eggs";
                       EditForm.category := lit "Personal";
                       EditForm.is_encrypted := false; EditForm.password := [];
                       EditForm.confirmPassword := []; EditForm.date := [] |}]
    reading_plain.

(** An encrypted draft whose two password fields differ. *)
Definition draft_mistyped : State :=
  run Toy.primitives Toy.world
    [ChangeNewNote {| NewNote.title := lit "Plans"; NewNote.content := lit "secret plans";
                      NewNote.encrypt := true; NewNote.password := lit "pw";
                      NewNote.confirmPassword := lit "pq";
                      NewNote.category := lit "Personal";
                      NewNote.date := lit "2026-01-03T10:00" |}] Toy.draft_without_password.

(** The unlocked diary in the editor with a new password typed once. *)
Definition edit_new_password : State :=
  run Toy.primitives Toy.world
    [Unlock; OpenEditor;
     ChangeEditForm {| EditForm.title := lit "Diary"; EditForm.content := lit "new text";
                       EditForm.category := lit "Personal"; EditForm.is_encrypted := true;
                       EditForm.password := lit "pq"; EditForm.confirmPassword := [];
                       EditForm.date := lit "2026-01-01T00:00" |}] Toy.ready.

(** The attachment of the diary as it is kept in the object store: the
    packed encryption of a small text file under the password "pw". *)
Definition sealed_attachment : list byte :=
  match fst (encryptFile Toy.primitives
               {| file_name := lit "secret.txt";
                  file_bytes := TextEncoder_encode (lit "attached secret");
                  file_type := lit "text/plain" |}
               (lit "pw") Toy.counting) with
  | Ok blob => blob_bytes blob
  | Err _ => []
  end.

Definition world_with_attachment : Backend :=
  Toy.backend [Toy.diary; Toy.shopping; Toy.journal] sealed_attachment.

(** The diary unlocked: its text is in the cache of decrypted notes and the
    text of its attachment in the preview cache. *)
Definition unlocked_with_preview : State :=
  run Toy.primitives world_with_attachment
    [SignIn; SelectNote (lit "a"); TypeUnlockPassword (lit "pw"); Unlock]
    (mount world_with_attachment 0 1 Toy.counting []).

(** The same with "attached" typed in the search box. *)
Definition searching : State := set_searchQuery (lit "attached") unlocked_with_preview.

(** What saving the encrypted draft uploads for the picked file: the path
    and the body. *)
Definition uploaded : jsstring * list byte :=
  hd ([], [])
     (flat_map (fun e => match e with
                         | StorageUpload _ path body => [(path, body)]
                         | _ => []
                         end)
        (effects_of (handleSaveNewNote Toy.primitives Toy.world) draft_with_file)).

(** The world once that upload is in the object store. *)
Definition world_with_upload : Backend :=
  Toy.backend [Toy.diary; Toy.shopping; Toy.journal] (snd uploaded).

(** Categories as the database returns them: "Projects" under "Work", a
    category whose parent is gone, and a row without [parent_id]. *)
Definition shelf : list Category.t :=
  [ {| Category.id := lit "Work"; Category.label := lit "Work"; Category.icon := lit "W";
       Category.sort_order := Some 0; Category.parent_id := Category.Null |};
    {| Category.id := lit "all"; Category.label := lit "All Notes"; Category.icon := lit "A";
       Category.sort_order := Some 1; Category.parent_id := Category.Null |};
    {| Category.id := lit "Ideas"; Category.label := lit "Ideas"; Category.icon := lit "I";
       Category.sort_order := Some 2; Category.parent_id := Category.Null |};
    {| Category.id := lit "Projects"; Category.label := lit "Projects";
       Category.icon := lit "P"; Category.sort_order := Some 0;
       Category.parent_id := Category.Id (lit "Work") |};
    {| Category.id := lit "Lost"; Category.label := lit "Lost"; Category.icon := lit "L";
       Category.sort_order := Some 0; Category.parent_id := Category.Id (lit "gone") |};
    {| Category.id := lit "To Do"; Category.label := lit "To Do"; Category.icon := lit "T";
       Category.sort_order := None; Category.parent_id := Category.Undefined |} ].

End Examples.

(** * Properties *)

(** ** Bytes and hexadecimal text *)

Lemma byte_val_range (b : byte) : 0 <= byte_val b < 256.
Proof.
  unfold byte_val. pose proof (Byte.to_N_bounded b). lia.
Qed.

Lemma to_uint8_byte_val (b : byte) : to_uint8 (byte_val b) = b.
Proof.
  unfold to_uint8. pose proof (byte_val_range b) as Hr.
  rewrite Z.mod_small by lia. unfold byte_val.
  rewrite N2Z.id, Byte.of_to_N. reflexivity.
Qed.

Lemma byte_val_to_uint8 (z : Z) : 0 <= z < 256 -> byte_val (to_uint8 z) = z.
Proof.
  intros Hz. unfold to_uint8. rewrite Z.mod_small by lia.
  destruct (Byte.of_N (Z.to_N z)) as [b|] eqn:Hb.
  - apply Byte.to_of_N in Hb. unfold byte_val. rewrite Hb. lia.
  - apply Byte.of_N_None_iff in Hb. lia.
Qed.

Lemma toHex_cons (b : byte) (bs : list byte) : toHex (b :: bs) = hex2 b ++ toHex bs.
Proof. reflexivity. Qed.

Lemma match_1_2_hex2 (b : byte) (rest : jsstring) :
  match_1_2 (hex2 b ++ rest) = hex2 b :: match_1_2 rest.
Proof. destruct b; reflexivity. Qed.

Lemma parseInt16_hex2 (b : byte) :
  match parseInt16 (hex2 b) with Some n => to_uint8 n | None => x00 end = b.
Proof. destruct b; vm_compute; reflexivity. Qed.

Lemma match_1_2_toHex (bs : list byte) : match_1_2 (toHex bs) = map hex2 bs.
Proof.
  induction bs as [|b bs IH]; [reflexivity|].
  rewrite toHex_cons, match_1_2_hex2, IH. reflexivity.
Qed.

(** Decoding the hexadecimal text of a non-empty buffer gives the buffer. *)
Lemma fromHex_toHex (bs : list byte) : bs <> [] -> fromHex (toHex bs) = Ok bs.
Proof.
  intros Hne. unfold fromHex. rewrite match_1_2_toHex.
  destruct bs as [|b bs]; [congruence|].
  cbn [map]. f_equal.
  change (map (fun c => match parseInt16 c with Some n => to_uint8 n | None => x00 end)
            (map hex2 (b :: bs)) = b :: bs).
  rewrite map_map. rewrite <- (map_id (b :: bs)) at 2.
  apply map_ext. intros a. apply parseInt16_hex2.
Qed.

Lemma fromHex_toHex_empty : fromHex (toHex []) = Err TypeError.
Proof. reflexivity. Qed.

Lemma getRandomValues_length (n : nat) (r : Rng) :
  length (fst (getRandomValues n r)) = n.
Proof. unfold getRandomValues. cbn. rewrite length_map, length_seq. reflexivity. Qed.

(** ** UTF-8 round trip *)

Ltac Zify.zify_post_hook ::= Z.to_euclidean_division_equations.

Lemma decode_step (st : dstate) (b : byte) (r : list byte) :
  utf8_decode_from st (b :: r) =
  fst (decode_byte st (byte_val b)) ++ utf8_decode_from (snd (decode_byte st (byte_val b))) r.
Proof. cbn [utf8_decode_from]. destruct (decode_byte st (byte_val b)); reflexivity. Qed.

Lemma decode_first_1 (b : Z) :
  b <= 0x7F -> decode_byte d_init b = ([b], d_init).
Proof.
  intros H. unfold decode_byte, decode_first. cbn [d_init d_needed].
  rewrite Z.eqb_refl. rewrite (proj2 (Z.leb_le b 0x7F)) by lia. reflexivity.
Qed.

Lemma decode_first_2 (b : Z) :
  0xC2 <= b <= 0xDF ->
  decode_byte d_init b = ([], mk_dstate (b mod 32) 0 1 0x80 0xBF).
Proof.
  intros H. unfold decode_byte, decode_first. cbn [d_init d_needed].
  rewrite Z.eqb_refl. rewrite (proj2 (Z.leb_gt b 0x7F)) by lia.
  rewrite (proj2 (Z.leb_le 0xC2 b)), (proj2 (Z.leb_le b 0xDF)) by lia. reflexivity.
Qed.

Lemma decode_first_3 (b : Z) :
  0xE0 <= b <= 0xEF ->
  decode_byte d_init b =
  ([], mk_dstate (b mod 16) 0 2 (if b =? 0xE0 then 0xA0 else 0x80)
         (if b =? 0xED then 0x9F else 0xBF)).
Proof.
  intros H. unfold decode_byte, decode_first. cbn [d_init d_needed].
  rewrite Z.eqb_refl. rewrite (proj2 (Z.leb_gt b 0x7F)) by lia.
  rewrite (proj2 (Z.leb_le 0xC2 b)), (proj2 (Z.leb_gt b 0xDF)) by lia.
  rewrite (proj2 (Z.leb_le 0xE0 b)), (proj2 (Z.leb_le b 0xEF)) by lia. reflexivity.
Qed.

Lemma decode_first_4 (b : Z) :
  0xF0 <= b <= 0xF4 ->
  decode_byte d_init b =
  ([], mk_dstate (b mod 8) 0 3 (if b =? 0xF0 then 0x90 else 0x80)
         (if b =? 0xF4 then 0x8F else 0xBF)).
Proof.
  intros H. unfold decode_byte, decode_first. cbn [d_init d_needed].
  rewrite Z.eqb_refl. rewrite (proj2 (Z.leb_gt b 0x7F)) by lia.
  rewrite (proj2 (Z.leb_le 0xC2 b)), (proj2 (Z.leb_gt b 0xDF)) by lia.
  rewrite (proj2 (Z.leb_le 0xE0 b)), (proj2 (Z.leb_gt b 0xEF)) by lia.
  rewrite (proj2 (Z.leb_le 0xF0 b)), (proj2 (Z.leb_le b 0xF4)) by lia. reflexivity.
Qed.

Lemma decode_more (cp seen needed lower upper b : Z) :
  needed <> 0 -> lower <= b <= upper -> seen + 1 <> needed ->
  decode_byte (mk_dstate cp seen needed lower upper) b =
  ([], mk_dstate (cp * 64 + b mod 64) (seen + 1) needed 0x80 0xBF).
Proof.
  intros Hn Hb Hs. unfold decode_byte. cbn [d_needed d_lower d_upper d_cp d_seen].
  rewrite (proj2 (Z.eqb_neq needed 0)) by lia.
  rewrite (proj2 (Z.leb_le lower b)), (proj2 (Z.leb_le b upper)) by lia.
  rewrite (proj2 (Z.eqb_neq (seen + 1) needed)) by lia.
  reflexivity.
Qed.

Lemma decode_last (cp seen needed lower upper b : Z) :
  needed <> 0 -> lower <= b <= upper -> seen + 1 = needed ->
  decode_byte (mk_dstate cp seen needed lower upper) b =
  ([cp * 64 + b mod 64], d_init).
Proof.
  intros Hn Hb Hs. unfold decode_byte. cbn [d_needed d_lower d_upper d_cp d_seen].
  rewrite (proj2 (Z.eqb_neq needed 0)) by lia.
  rewrite (proj2 (Z.leb_le lower b)), (proj2 (Z.leb_le b upper)) by lia.
  rewrite (proj2 (Z.eqb_eq (seen + 1) needed)) by lia.
  reflexivity.
Qed.

(** Discharge a range condition whose bounds depend on the lead byte. *)
Ltac range_case :=
  repeat match goal with
    | |- context [ if ?x =? ?y then _ else _ ] => destruct (Z.eqb_spec x y)
    end; lia.

Lemma utf8_decode_encode_cp (c : Z) (r : list byte) :
  scalar c ->
  utf8_decode_from d_init (utf8_encode_cp c ++ r) = c :: utf8_decode_from d_init r.
Proof.
  intros [Hr Hs]. unfold utf8_encode_cp.
  destruct (Z.ltb_spec c 0x80); [|destruct (Z.ltb_spec c 0x800); [|destruct (Z.ltb_spec c 0x10000)]];
    cbn [app]; rewrite !decode_step, !byte_val_to_uint8 by lia.
  - rewrite decode_first_1 by lia. reflexivity.
  - rewrite decode_first_2 by lia. cbn [fst snd app].
    rewrite decode_last by lia. cbn [fst snd app].
    f_equal. lia.
  - rewrite decode_first_3 by lia. cbn [fst snd app].
    rewrite decode_more by range_case. cbn [fst snd app].
    rewrite decode_last by lia. cbn [fst snd app].
    f_equal. lia.
  - rewrite decode_first_4 by lia. cbn [fst snd app].
    rewrite decode_more by range_case. cbn [fst snd app].
    rewrite decode_more by lia. cbn [fst snd app].
    rewrite decode_last by lia. cbn [fst snd app].
    f_equal. lia.
Qed.

Lemma utf8_decode_encode (cps : list Z) :
  Forall scalar cps -> utf8_decode (utf8_encode cps) = cps.
Proof.
  unfold utf8_decode, utf8_encode.
  induction 1 as [|c cps Hc _ IH]; [reflexivity|].
  cbn [map concat]. rewrite utf8_decode_encode_cp by assumption.
  f_equal. exact IH.
Qed.

(** Strong induction on the length of a string, to follow definitions that
    consume one or two code units at a time. *)
Lemma jsstring_pair_ind (P : jsstring -> Prop) :
  P [] ->
  (forall c, P [c]) ->
  (forall c d r, P r -> P (d :: r) -> P (c :: d :: r)) ->
  forall s, P s.
Proof.
  intros H0 H1 H2 s.
  assert (H : P s /\ forall c, P (c :: s)).
  { induction s as [|d r [IHr IHdr]]; [split; auto|].
    split; [apply IHdr|]. intros c. apply H2; [exact IHr | apply IHdr]. }
  exact (proj1 H).
Qed.

Lemma is_lead_true (c : Z) : is_lead c = true -> 0xD800 <= c <= 0xDBFF.
Proof. unfold is_lead. rewrite andb_true_iff, Z.leb_le, Z.leb_le. lia. Qed.

Lemma is_lead_false (c : Z) : is_lead c = false -> ~ (0xD800 <= c <= 0xDBFF).
Proof. unfold is_lead. rewrite andb_false_iff, Z.leb_gt, Z.leb_gt. lia. Qed.

Lemma is_trail_true (c : Z) : is_trail c = true -> 0xDC00 <= c <= 0xDFFF.
Proof. unfold is_trail. rewrite andb_true_iff, Z.leb_le, Z.leb_le. lia. Qed.

Lemma is_trail_false (c : Z) : is_trail c = false -> ~ (0xDC00 <= c <= 0xDFFF).
Proof. unfold is_trail. rewrite andb_false_iff, Z.leb_gt, Z.leb_gt. lia. Qed.

Lemma code_units_of_bmp (c : Z) : c < 0x10000 -> code_units_of c = [c].
Proof. intros H. unfold code_units_of. rewrite (proj2 (Z.ltb_lt c 0x10000)) by lia. reflexivity. Qed.

Lemma code_units_of_pair (c d : Z) :
  0xD800 <= c <= 0xDBFF -> 0xDC00 <= d <= 0xDFFF ->
  code_units_of (0x10000 + (c - 0xD800) * 0x400 + (d - 0xDC00)) = [c; d].
Proof.
  intros Hc Hd. unfold code_units_of.
  rewrite (proj2 (Z.ltb_ge _ 0x10000)) by lia. f_equal; [lia | f_equal; lia].
Qed.

Lemma to_scalars_well_formed (s : jsstring) :
  well_formed s = true ->
  Forall scalar (to_scalars s) /\ of_scalars (to_scalars s) = s.
Proof.
  induction s as [|c|c d r IHr IHdr] using jsstring_pair_ind.
  - intros _. split; [constructor | reflexivity].
  - cbn [well_formed to_scalars]. destruct (is_lead c) eqn:Hl; [discriminate|].
    rewrite !andb_true_iff, negb_true_iff, Z.leb_le, Z.ltb_lt.
    intros [[[H0 H1] Ht] _]. rewrite Ht.
    apply is_lead_false in Hl. apply is_trail_false in Ht.
    split; [repeat constructor; unfold scalar; lia|].
    unfold of_scalars. cbn [map concat]. rewrite code_units_of_bmp by lia. reflexivity.
  - cbn [well_formed]. change (to_scalars (c :: d :: r)) with
      (if is_lead c then
         if is_trail d
         then (0x10000 + (c - 0xD800) * 0x400 + (d - 0xDC00)) :: to_scalars r
         else 0xFFFD :: to_scalars (d :: r)
       else if is_trail c then 0xFFFD :: to_scalars (d :: r)
       else c :: to_scalars (d :: r)).
    destruct (is_lead c) eqn:Hl.
    + destruct (is_trail d) eqn:Htd; cbn [andb]; [|discriminate].
      intros Hr. destruct (IHr Hr) as [Hf Ho].
      apply is_lead_true in Hl. apply is_trail_true in Htd. split.
      * constructor; [unfold scalar; lia | exact Hf].
      * unfold of_scalars in *. cbn [map concat]. rewrite Ho.
        rewrite code_units_of_pair by lia. reflexivity.
    + rewrite !andb_true_iff, negb_true_iff, Z.leb_le, Z.ltb_lt.
      intros [[[H0 H1] Ht] Hr]. rewrite Ht.
      apply is_lead_false in Hl. apply is_trail_false in Ht.
      destruct (IHdr Hr) as [Hf Ho]. split.
      * constructor; [unfold scalar; lia | exact Hf].
      * unfold of_scalars in *. cbn [map concat]. rewrite Ho.
        rewrite code_units_of_bmp by lia. reflexivity.
Qed.

Lemma strip_bom_to_scalars (s : jsstring) :
  no_leading_bom s = true -> strip_bom (to_scalars s) = to_scalars s.
Proof.
  destruct s as [|c r]; [reflexivity|].
  cbn [no_leading_bom]. rewrite negb_true_iff. intros Hc. apply Z.eqb_neq in Hc.
  cbn [to_scalars]. destruct (is_lead c) eqn:Hl.
  - apply is_lead_true in Hl. destruct r as [|d r']; [reflexivity|].
    destruct (is_trail d) eqn:Htd; [apply is_trail_true in Htd|];
      cbn [strip_bom]; rewrite (proj2 (Z.eqb_neq _ 0xFEFF)) by lia; reflexivity.
  - destruct (is_trail c) eqn:Ht; cbn [strip_bom];
      rewrite (proj2 (Z.eqb_neq _ 0xFEFF)) by lia; reflexivity.
Qed.

(** Encoding then decoding gives a well-formed string back, unless it
    begins with U+FEFF. *)
Lemma TextDecoder_TextEncoder (s : jsstring) :
  well_formed s = true -> no_leading_bom s = true ->
  TextDecoder_decode (TextEncoder_encode s) = s.
Proof.
  intros Hw Hb. unfold TextDecoder_decode, TextEncoder_encode.
  destruct (to_scalars_well_formed s Hw) as [Hf Ho].
  rewrite utf8_decode_encode by exact Hf.
  rewrite strip_bom_to_scalars by exact Hb. exact Ho.
Qed.

(** ** The toy primitives satisfy the laws *)

Lemma list_byte_eqb_refl (a : list byte) : Toy.list_byte_eqb a a = true.
Proof.
  induction a as [|x a IH]; [reflexivity|].
  cbn. rewrite IH, (Byte.byte_dec_lb eq_refl). reflexivity.
Qed.

Lemma toy_open_seal (k k' : byte) (iv1 iv2 m : list byte) :
  Toy.open k' iv2 (Toy.seal k iv1 m) = if Byte.eqb k k' then Some m else None.
Proof.
  unfold Toy.open, Toy.seal.
  assert (Hl : length (m ++ Toy.tag_of k) = (length m + 16)%nat)
    by (rewrite length_app; reflexivity).
  rewrite Hl. replace (length m + 16 - 16)%nat with (length m) by lia.
  destruct (Nat.ltb_spec (length m + 16) 16) as [Hlt|_]; [lia|].
  rewrite skipn_app, skipn_all, Nat.sub_diag, firstn_app, firstn_all, Nat.sub_diag.
  cbn [skipn firstn app]. rewrite app_nil_r.
  unfold Toy.tag_of. cbn [skipn Toy.list_byte_eqb].
  rewrite list_byte_eqb_refl, andb_true_r. reflexivity.
Qed.

Lemma toy_correct : aead_correct Toy.primitives.
Proof.
  intros k iv0 m. cbn. rewrite toy_open_seal.
  rewrite (Byte.byte_dec_lb eq_refl). reflexivity.
Qed.

Lemma toy_tag_length : aead_tag_length Toy.primitives.
Proof. intros k iv0 m. cbn. unfold Toy.seal. rewrite length_app. reflexivity. Qed.


(** ** [services/crypto]: what the four functions compute *)

Section CryptoFacts.
Variable W : SubtleCrypto.

(** Without a usable [providedSalt], [encryptData] draws 16 bytes of salt
    and then 12 bytes of nonce. *)
Lemma encryptData_fresh_salt (t p : jsstring) (ps : option jsstring) (rng : Rng) :
  truthy_opt ps = false ->
  let '(saltb, rng1) := getRandomValues 16 rng in
  let '(ivb, rng2) := getRandomValues 12 rng1 in
  encryptData W t p ps rng =
  (Ok {| ciphertext := toHex (aes_gcm_seal W (derived_bits W p saltb) ivb
                                (TextEncoder_encode t));
         iv := toHex ivb;
         salt := toHex saltb |}, rng2).
Proof.
  intros Hps. destruct ps as [[|c h]|]; [reflexivity | discriminate | reflexivity].
Qed.

(** With a non-empty [providedSalt] that decodes to [saltb], only the nonce
    is drawn. *)
Lemma encryptData_given_salt (t p h : jsstring) (saltb : list byte) (rng : Rng) :
  truthy h = true -> fromHex h = Ok saltb ->
  let '(ivb, rng1) := getRandomValues 12 rng in
  encryptData W t p (Some h) rng =
  (Ok {| ciphertext := toHex (aes_gcm_seal W (derived_bits W p saltb) ivb
                                (TextEncoder_encode t));
         iv := toHex ivb;
         salt := toHex saltb |}, rng1).
Proof.
  intros Hh Hs. unfold encryptData. rewrite Hh, Hs. reflexivity.
Qed.

Lemma decryptData_of_hex (ct ivb saltb : list byte) (p : jsstring) :
  ct <> [] -> ivb <> [] -> saltb <> [] ->
  decryptData W (toHex ct) (Some (toHex ivb)) (Some (toHex saltb)) p =
  match aes_gcm_open W (derived_bits W p saltb) ivb ct with
  | Some plain => Ok (TextDecoder_decode plain)
  | None => Err OperationError
  end.
Proof.
  intros Hc Hi Hs. unfold decryptData, fromHex_opt.
  rewrite !fromHex_toHex by assumption. cbn.
  unfold subtle_decrypt, derived_bits. cbn.
  destruct (aes_gcm_open W _ ivb ct); reflexivity.
Qed.

Lemma drawn_nonempty (n : nat) (rng : Rng) :
  (0 < n)%nat -> fst (getRandomValues n rng) <> [].
Proof.
  intros Hn He. apply (f_equal (@length byte)) in He.
  rewrite getRandomValues_length in He. cbn in He. lia.
Qed.

Lemma sealed_nonempty (k : key_bits W) (ivb m : list byte) :
  aead_tag_length W -> aes_gcm_seal W k ivb m <> [].
Proof.
  intros Hl He. apply (f_equal (@length byte)) in He. rewrite Hl in He. cbn in He. lia.
Qed.

(** Decrypting what [encryptData] produced, under any password. *)
Lemma decryptData_encryptData (t p p' : jsstring) (rng : Rng) :
  aead_tag_length W ->
  let saltb := fst (getRandomValues 16 rng) in
  let ivb := fst (getRandomValues 12 (snd (getRandomValues 16 rng))) in
  exists payload,
    fst (encryptData W t p None rng) = Ok payload /\
    salt payload = toHex saltb /\ iv payload = toHex ivb /\
    decryptData W (ciphertext payload) (Some (iv payload)) (Some (salt payload)) p' =
    match aes_gcm_open W (derived_bits W p' saltb) ivb
            (aes_gcm_seal W (derived_bits W p saltb) ivb (TextEncoder_encode t)) with
    | Some plain => Ok (TextDecoder_decode plain)
    | None => Err OperationError
    end.
Proof.
  intros Hl saltb ivb. eexists. split; [reflexivity|].
  cbn [ciphertext iv salt]. split; [reflexivity|]. split; [reflexivity|].
  apply decryptData_of_hex.
  - apply sealed_nonempty, Hl.
  - apply drawn_nonempty. lia.
  - apply drawn_nonempty. lia.
Qed.

(** The text that comes back is the decoding of the encoding of the text
    that went in. *)
Lemma decryptData_encryptData_same (t p : jsstring) (rng : Rng) :
  aead_correct W -> aead_tag_length W ->
  exists payload,
    fst (encryptData W t p None rng) = Ok payload /\
    decryptData W (ciphertext payload) (Some (iv payload)) (Some (salt payload)) p =
    Ok (TextDecoder_decode (TextEncoder_encode t)).
Proof.
  intros Hc Hl.
  destruct (decryptData_encryptData t p p rng Hl) as (payload & He & _ & _ & Hd).
  exists payload. split; [exact He|]. rewrite Hd, Hc. reflexivity.
Qed.

End CryptoFacts.

(** ** Text cipher *)

(** C1 (amended).  For every well-formed string [t] (no unpaired surrogate)
    that does not begin with U+FEFF, every password [p] and every state of
    the random source, [decryptData] applied to the three fields of the
    payload of [encryptData t p] and to [p] returns exactly [t]; the cipher
    is assumed to open what it sealed and to append its 16-byte tag. *)
Theorem text_round_trip (W : SubtleCrypto) (t p : jsstring) (rng : Rng) :
  aead_correct W -> aead_tag_length W ->
  well_formed t = true -> no_leading_bom t = true ->
  exists payload,
    fst (encryptData W t p None rng) = Ok payload /\
    decryptData W (ciphertext payload) (Some (iv payload)) (Some (salt payload)) p = Ok t.
Proof.
  intros Hc Hl Hw Hb.
  destruct (decryptData_encryptData_same W t p rng Hc Hl) as (payload & He & Hd).
  exists payload. split; [exact He|].
  rewrite Hd, TextDecoder_TextEncoder by assumption. reflexivity.
Qed.

Lemma text_round_trip_witness :
  aead_correct Toy.primitives /\ aead_tag_length Toy.primitives /\
  well_formed (lit "hello world") = true /\
  no_leading_bom (lit "hello world") = true /\
  exists payload,
    fst (encryptData Toy.primitives (lit "hello world") (lit "correct-horse") None
           Toy.counting) = Ok payload /\
    decryptData Toy.primitives (ciphertext payload) (Some (iv payload))
      (Some (salt payload)) (lit "correct-horse") = Ok (lit "hello world").
Proof.
  split; [exact toy_correct|]. split; [exact toy_tag_length|].
  split; [reflexivity|]. split; [reflexivity|].
  apply (text_round_trip Toy.primitives (lit "hello world") (lit "correct-horse")
           Toy.counting toy_correct toy_tag_length); reflexivity.
Defined.

(** C1 as stated fails: the note text U+FEFF "hi" is a string of three code
    units; encrypted and decrypted under the same password it comes back as
    "hi", because [TextDecoder.decode] drops a leading U+FEFF.  The same
    happens with every cipher satisfying the laws
    ([decryptData_encryptData_same]). *)
Lemma text_round_trip_drops_bom :
  aead_correct Toy.primitives /\ aead_tag_length Toy.primitives /\
  Forall code_unit_ok [0xFEFF; 104; 105] /\
  exists payload,
    fst (encryptData Toy.primitives [0xFEFF; 104; 105] (lit "correct-horse") None
           Toy.counting) = Ok payload /\
    decryptData Toy.primitives (ciphertext payload) (Some (iv payload))
      (Some (salt payload)) (lit "correct-horse") = Ok [104; 105] /\
    [104; 105] <> [0xFEFF; 104; 105].
Proof.
  split; [exact toy_correct|]. split; [exact toy_tag_length|].
  split; [repeat constructor; unfold code_unit_ok; lia|].
  destruct (decryptData_encryptData_same Toy.primitives [0xFEFF; 104; 105]
              (lit "correct-horse") Toy.counting toy_correct toy_tag_length)
    as (payload & He & Hd).
  exists payload. split; [exact He|]. split; [|discriminate].
  rewrite Hd. reflexivity.
Qed.

(** An unpaired surrogate does not survive either. *)
Lemma text_round_trip_replaces_surrogate :
  TextDecoder_decode (TextEncoder_encode [0xD800]) = [0xFFFD].
Proof. reflexivity. Qed.

(** C8 (amended).  Without a supplied salt (absent, or the empty string)
    [encryptData] draws 16 fresh bytes and returns their hexadecimal text as
    the payload's salt.  With a non-empty supplied salt it derives the key
    from the bytes that string decodes to and returns the lower-case
    hexadecimal text of those bytes, which decodes to the same bytes and is
    the supplied string itself whenever that string is the hexadecimal text
    of a buffer as [toHex] writes it.  In both cases the nonce is 12 bytes newly drawn from the
    random source, which moves on by the number of bytes drawn. *)
Theorem encryptData_salt_and_nonce (W : SubtleCrypto) (t p : jsstring) (rng : Rng) :
  (forall ps, truthy_opt ps = false ->
     exists payload rng',
       encryptData W t p ps rng = (Ok payload, rng') /\
       salt payload = toHex (map (rng_bytes rng) (seq (rng_pos rng) 16)) /\
       iv payload = toHex (map (rng_bytes rng) (seq (rng_pos rng + 16) 12)) /\
       rng_pos rng' = (rng_pos rng + 28)%nat /\ rng_bytes rng' = rng_bytes rng) /\
  (forall h saltb, truthy h = true -> fromHex h = Ok saltb ->
     exists payload rng',
       encryptData W t p (Some h) rng = (Ok payload, rng') /\
       salt payload = toHex saltb /\
       fromHex (salt payload) = Ok saltb /\
       (forall buf, h = toHex buf -> salt payload = h) /\
       iv payload = toHex (map (rng_bytes rng) (seq (rng_pos rng) 12)) /\
       ciphertext payload =
         toHex (aes_gcm_seal W (derived_bits W p saltb)
                  (map (rng_bytes rng) (seq (rng_pos rng) 12)) (TextEncoder_encode t)) /\
       rng_pos rng' = (rng_pos rng + 12)%nat /\ rng_bytes rng' = rng_bytes rng).
Proof.
  split.
  - intros ps Hps. pose proof (encryptData_fresh_salt W t p ps rng Hps) as He.
    cbn in He. rewrite He. eexists _, _. split; [reflexivity|].
    cbn. repeat split. lia.
  - intros h saltb Hh Hs. pose proof (encryptData_given_salt W t p h saltb rng Hh Hs) as He.
    cbn in He. rewrite He. eexists _, _. split; [reflexivity|].
    cbn [salt iv ciphertext rng_pos rng_bytes].
    split; [reflexivity|]. split; [|repeat split].
    + apply fromHex_toHex. unfold fromHex in Hs.
      destruct (match_1_2 h); [discriminate|]. injection Hs as <-. discriminate.
    + intros buf Hbuf. subst h. destruct buf as [|b buf]; [discriminate|].
      rewrite fromHex_toHex in Hs by discriminate. congruence.
Qed.

Lemma encryptData_salt_and_nonce_witness :
  truthy_opt None = false /\
  (exists payload rng',
     encryptData Toy.primitives (lit "note") (lit "pw") None Toy.counting
       = (Ok payload, rng') /\
     salt payload = lit "000102030405060708090a0b0c0d0e0f" /\
     iv payload = lit "101112131415161718191a1b" /\
     rng_pos rng' = 28%nat) /\
  truthy (lit "000102030405060708090a0b0c0d0e0f") = true /\
  fromHex (lit "000102030405060708090a0b0c0d0e0f") =
    Ok (map to_uint8 [0;1;2;3;4;5;6;7;8;9;10;11;12;13;14;15]) /\
  exists payload rng',
    encryptData Toy.primitives (lit "note") (lit "pw")
      (Some (lit "000102030405060708090a0b0c0d0e0f")) Toy.counting = (Ok payload, rng') /\
    salt payload = lit "000102030405060708090a0b0c0d0e0f" /\
    iv payload = lit "000102030405060708090a0b" /\
    rng_pos rng' = 12%nat.
Proof.
  destruct (encryptData_salt_and_nonce Toy.primitives (lit "note") (lit "pw") Toy.counting)
    as [Hfresh Hgiven].
  split; [reflexivity|]. split.
  - destruct (Hfresh None eq_refl) as (payload & rng' & He & Hs & Hi & Hp & _).
    exists payload, rng'. repeat split; assumption.
  - split; [reflexivity|]. split; [reflexivity|].
    destruct (Hgiven (lit "000102030405060708090a0b0c0d0e0f")
                (map to_uint8 [0;1;2;3;4;5;6;7;8;9;10;11;12;13;14;15])
                eq_refl eq_refl)
      as (payload & rng' & He & Hs & _ & _ & Hi & _ & Hp & _).
    exists payload, rng'. repeat split; assumption.
Defined.

(** C8 as stated fails: a supplied salt written with upper-case digits is
    returned in lower case, so the payload's salt is not the supplied
    string. *)
Lemma encryptData_salt_not_verbatim :
  exists payload,
    fst (encryptData Toy.primitives (lit "note") (lit "pw")
           (Some (lit "000102030405060708090A0B0C0D0E0F")) Toy.counting) = Ok payload /\
    salt payload = lit "000102030405060708090a0b0c0d0e0f" /\
    salt payload <> lit "000102030405060708090A0B0C0D0E0F".
Proof.
  vm_compute. eexists. split; [reflexivity|]. split; [reflexivity|]. discriminate.
Qed.

(** An empty string counts as no salt at all. *)
Lemma encryptData_empty_salt (W : SubtleCrypto) (t p : jsstring) (rng : Rng) :
  encryptData W t p (Some []) rng = encryptData W t p None rng.
Proof. reflexivity. Qed.

(** ** File cipher *)

Section FileFacts.
Variable W : SubtleCrypto.

Lemma slice_salt (saltb rest : list byte) :
  length saltb = 16%nat -> slice 0 16 (saltb ++ rest) = saltb.
Proof.
  intros Hl. unfold slice. rewrite skipn_O. change (16 - 0)%nat with 16%nat.
  rewrite <- Hl, firstn_app, Nat.sub_diag, firstn_all. cbn. apply app_nil_r.
Qed.

Lemma slice_iv (saltb ivb rest : list byte) :
  length saltb = 16%nat -> length ivb = 12%nat ->
  slice 16 28 (saltb ++ ivb ++ rest) = ivb.
Proof.
  intros Hs Hi. unfold slice. change (28 - 16)%nat with 12%nat.
  rewrite <- Hs, skipn_app, skipn_all, Nat.sub_diag, skipn_O. cbn [app].
  rewrite <- Hi, firstn_app, Nat.sub_diag, firstn_all. cbn. apply app_nil_r.
Qed.

Lemma slice_data (saltb ivb rest : list byte) :
  length saltb = 16%nat -> length ivb = 12%nat ->
  slice_from 28 (saltb ++ ivb ++ rest) = rest.
Proof.
  intros Hs Hi. unfold slice_from. rewrite app_assoc.
  replace 28%nat with (length (saltb ++ ivb)) by (rewrite length_app; lia).
  rewrite skipn_app, skipn_all, Nat.sub_diag. reflexivity.
Qed.

(** [decryptFile] on a buffer made of a 16-byte salt, a 12-byte nonce and a
    ciphertext. *)
Lemma decryptFile_packed (saltb ivb ct : list byte) (ty p : jsstring)
    (mime : option jsstring) :
  length saltb = 16%nat -> length ivb = 12%nat ->
  decryptFile W {| blob_bytes := saltb ++ ivb ++ ct; blob_type := ty |} p mime =
  match aes_gcm_open W (derived_bits W p saltb) ivb ct with
  | Some plain =>
      Ok {| blob_bytes := plain;
            blob_type := Blob_type (if truthy_opt mime then default [] mime
                                    else octet_stream) |}
  | None => Err OperationError
  end.
Proof.
  intros Hs Hi. unfold decryptFile. cbn [blob_bytes].
  rewrite slice_salt, slice_iv, slice_data by assumption. cbn.
  unfold subtle_decrypt, derived_bits. cbn.
  destruct (aes_gcm_open W _ ivb ct); reflexivity.
Qed.

End FileFacts.

(** C2.  For every file content [b], password [p] and state of the random
    source, [decryptFile (encryptFile b p) p] is a blob whose bytes are
    exactly [b]; the cipher is assumed to open what it sealed. *)
Theorem file_round_trip (W : SubtleCrypto) (file : File) (p : jsstring)
    (mime : option jsstring) (rng : Rng) :
  aead_correct W ->
  exists packed out,
    fst (encryptFile W file p rng) = Ok packed /\
    decryptFile W packed p mime = Ok out /\
    blob_bytes out = file_bytes file.
Proof.
  intros Hc.
  set (saltb := fst (getRandomValues 16 rng)).
  set (ivb := fst (getRandomValues 12 (snd (getRandomValues 16 rng)))).
  exists {| blob_bytes :=
              saltb ++ ivb ++
              aes_gcm_seal W (derived_bits W p saltb) ivb (file_bytes file);
            blob_type := octet_stream |}.
  eexists. split; [reflexivity|].
  rewrite decryptFile_packed by apply getRandomValues_length.
  rewrite Hc. split; reflexivity.
Qed.

Lemma file_round_trip_witness :
  aead_correct Toy.primitives /\
  exists packed out,
    fst (encryptFile Toy.primitives
           {| file_name := lit "a.txt"; file_bytes := map to_uint8 [1; 2; 3; 255];
              file_type := lit "text/plain" |} (lit "pw") Toy.counting) = Ok packed /\
    decryptFile Toy.primitives packed (lit "pw") None = Ok out /\
    blob_bytes out = map to_uint8 [1; 2; 3; 255].
Proof.
  split; [exact toy_correct|].
  exact (file_round_trip Toy.primitives
           {| file_name := lit "a.txt"; file_bytes := map to_uint8 [1; 2; 3; 255];
              file_type := lit "text/plain" |} (lit "pw") None Toy.counting toy_correct).
Defined.

(** The type of a [Blob] is kept in lower case, and dropped when it holds a
    code unit that is not printable ASCII. *)
Lemma Blob_type_normalises :
  Blob_type (lit "Text/PLAIN") = lit "text/plain" /\
  Blob_type [116; 233] = [] /\
  Blob_type octet_stream = octet_stream.
Proof. repeat split; reflexivity. Qed.

(** C4.  The output of [encryptFile] is the 16 bytes of salt, then the 12
    bytes of nonce, then the ciphertext with its tag: 28 bytes more than the
    ciphertext.  The three slices [decryptFile] takes of it, at offsets 0, 16
    and 28, are these three fields, so decrypting the blob needs the password
    and nothing else; the media type asked for only sets the type of the
    blob returned, as the [Blob] constructor keeps it. *)
Theorem packed_file_layout (W : SubtleCrypto) (file : File) (p : jsstring) (rng : Rng) :
  let saltb := fst (getRandomValues 16 rng) in
  let ivb := fst (getRandomValues 12 (snd (getRandomValues 16 rng))) in
  let ct := aes_gcm_seal W (derived_bits W p saltb) ivb (file_bytes file) in
  exists packed,
    fst (encryptFile W file p rng) = Ok packed /\
    blob_bytes packed = saltb ++ ivb ++ ct /\
    length saltb = 16%nat /\ length ivb = 12%nat /\
    length (blob_bytes packed) = (28 + length ct)%nat /\
    slice 0 16 (blob_bytes packed) = saltb /\
    slice 16 28 (blob_bytes packed) = ivb /\
    slice_from 28 (blob_bytes packed) = ct /\
    forall p' mime,
      decryptFile W packed p' mime =
      bind (subtle_decrypt W (slice 16 28 (blob_bytes packed))
              {| ak_bits := derived_bits W p' (slice 0 16 (blob_bytes packed));
                 ak_extractable := false; ak_usages := [UDecrypt] |}
              (slice_from 28 (blob_bytes packed)))
        (fun plain => Ok {| blob_bytes := plain;
                            blob_type := Blob_type (if truthy_opt mime then default [] mime
                                                    else octet_stream) |}).
Proof.
  intros saltb ivb ct.
  assert (Hs : length saltb = 16%nat) by apply getRandomValues_length.
  assert (Hi : length ivb = 12%nat) by apply getRandomValues_length.
  exists {| blob_bytes := saltb ++ ivb ++ ct; blob_type := octet_stream |}.
  split; [reflexivity|]. cbn [blob_bytes].
  split; [reflexivity|]. split; [exact Hs|]. split; [exact Hi|].
  split; [rewrite !length_app; lia|].
  split; [apply slice_salt; exact Hs|].
  split; [apply slice_iv; assumption|].
  split; [apply slice_data; assumption|].
  intros p' mime. reflexivity.
Qed.

(** ** Reasoning about handlers *)

Lemma mbind_get {A} (k : State -> M A) (s : State) : mbind get k s = k s s.
Proof. reflexivity. Qed.

Lemma exec_mbind {A B} (m : M A) (k : A -> M B) (s : State) :
  exec (mbind m k) s =
  match m s with
  | (Ok a, s') => exec (k a) s'
  | (Err _, s') => s'
  end.
Proof. unfold exec, mbind. destruct (m s) as [[a|e] s']; reflexivity. Qed.

#[local] Instance same_core_preorder : PreOrder same_core.
Proof.
  split.
  - intros s. reflexivity.
  - intros s1 s2 s3 H12 H23. unfold same_core in *. congruence.
Qed.

#[local] Instance performs_preorder (Q : Effect -> Prop) : PreOrder (performs Q).
Proof.
  split.
  - intros s. exists []. split; [symmetry; apply app_nil_r | constructor].
  - intros s1 s2 s3 (es1 & H1 & F1) (es2 & H2 & F2).
    exists (es1 ++ es2). split.
    + rewrite H2, H1, app_assoc. reflexivity.
    + apply Forall_app. split; assumption.
Qed.

Section Yields.
Context (R : State -> State -> Prop) `{!PreOrder R}.

Lemma yields_ret {A} (V : A -> Prop) (a : A) : V a -> yields R V (ret a).
Proof. intros Ha s. split; [reflexivity|]. cbn. intros a' [= <-]. exact Ha. Qed.

Lemma yields_throw {A} (V : A -> Prop) (e : exn) : yields R V (throw e).
Proof. intros s. split; [reflexivity|]. cbn. discriminate. Qed.

Lemma yields_lift {A} (V : A -> Prop) (r : result A) :
  (forall a, r = Ok a -> V a) -> yields R V (lift r).
Proof. intros Hr s. split; [reflexivity|]. cbn. exact Hr. Qed.

Lemma yields_get : yields R (fun _ => True) get.
Proof. intros s. split; [reflexivity | trivial]. Qed.

Lemma yields_steps : yields R (fun _ => True) steps.
Proof. intros s. split; [reflexivity | trivial]. Qed.

Lemma yields_modify (f : State -> State) :
  (forall s, R s (f s)) -> yields R (fun _ => True) (modify f).
Proof. intros Hf s. split; [apply Hf | trivial]. Qed.

Lemma yields_weaken {A} (V V' : A -> Prop) (m : M A) :
  (forall a, V a -> V' a) -> yields R V m -> yields R V' m.
Proof. intros HV Hm s. destruct (Hm s) as [H1 H2]. split; [exact H1 | auto]. Qed.

Lemma yields_bind {A B} (V : A -> Prop) (V' : B -> Prop) (m : M A) (k : A -> M B) :
  yields R V m -> (forall a, V a -> yields R V' (k a)) -> yields R V' (mbind m k).
Proof.
  intros Hm Hk s. destruct (Hm s) as [H1 H2]. unfold mbind.
  destruct (m s) as [[a|e] s'] eqn:Hms; cbn in *.
  - destruct (Hk a (H2 a eq_refl) s') as [H3 H4]. split.
    + etransitivity; eassumption.
    + exact H4.
  - split; [exact H1 | discriminate].
Qed.

Lemma yields_try_catch {A} (V : A -> Prop) (m : M A) (h : exn -> M A) :
  yields R V m -> (forall e, yields R V (h e)) -> yields R V (try_catch m h).
Proof.
  intros Hm Hh s. destruct (Hm s) as [H1 H2]. unfold try_catch.
  destruct (m s) as [[a|e] s'] eqn:Hms; cbn in *.
  - split; [exact H1 | exact H2].
  - destruct (Hh e s') as [H3 H4]. split; [etransitivity; eassumption | exact H4].
Qed.

Lemma yields_finally {A} (V : A -> Prop) (m : M A) (f : M unit) :
  yields R V m -> yields R (fun _ => True) f -> yields R V (finally m f).
Proof.
  intros Hm Hf s. destruct (Hm s) as [H1 H2]. unfold finally.
  destruct (m s) as [r s'] eqn:Hms. destruct (Hf s') as [H3 _].
  destruct (f s') as [[u|e] s''] eqn:Hfs; cbn in *.
  - split; [etransitivity; eassumption | exact H2].
  - split; [etransitivity; eassumption | discriminate].
Qed.

Lemma yields_for_each {A} (l : list A) (body : A -> M unit) :
  (forall a, yields R (fun _ => True) (body a)) ->
  yields R (fun _ => True) (for_each l body).
Proof.
  intros Hb. induction l as [|a l IH]; cbn [for_each].
  - apply yields_ret. trivial.
  - eapply yields_bind; [apply Hb | intros _ _; exact IH].
Qed.

End Yields.

Section Total.

Lemma total_ret {A} (a : A) : total (ret a).
Proof. intros s. exists a. reflexivity. Qed.

Lemma total_modify (f : State -> State) : total (modify f).
Proof. intros s. exists tt. reflexivity. Qed.

Lemma total_perform (e : Effect) : total (perform e).
Proof. apply total_modify. Qed.

Lemma total_get : total get.
Proof. intros s. exists s. reflexivity. Qed.

Lemma total_bind {A B} (m : M A) (k : A -> M B) :
  total m -> (forall a, total (k a)) -> total (mbind m k).
Proof.
  intros Hm Hk s. destruct (Hm s) as [a Ha]. unfold mbind.
  destruct (m s) as [r s']. cbn in Ha. subst r. apply Hk.
Qed.

Lemma total_try_catch {A} (m : M A) (h : exn -> M A) :
  (forall e, total (h e)) -> total (try_catch m h).
Proof.
  intros Hh s. unfold try_catch. destruct (m s) as [[a|e] s'].
  - exists a. reflexivity.
  - apply Hh.
Qed.

Lemma total_for_each {A} (l : list A) (body : A -> M unit) :
  (forall a, total (body a)) -> total (for_each l body).
Proof.
  intros Hb. induction l as [|a l IH]; cbn [for_each].
  - apply total_ret.
  - apply total_bind; [apply Hb | intros _; exact IH].
Qed.

End Total.

(** *** What leaves the session part of the state alone *)

Section Frames.
Variable W : SubtleCrypto.
Variable B : Backend.

Lemma same_core_perform (e : Effect) : yields same_core (fun _ => True) (perform e).
Proof. apply yields_modify. intros s. reflexivity. Qed.

Lemma same_core_rng {A} (f : Rng -> result A * Rng) :
  yields same_core (fun _ => True)
    (fun s => let '(r, rng') := f (rng s) in (r, set_rng rng' s)).
Proof. intros s. destruct (f (rng s)) as [r rng']. split; [reflexivity | trivial]. Qed.

(** One step of a proof that a computation leaves the session part alone. *)
Ltac frame_step :=
  match goal with
  | |- PreOrder _ => typeclasses eauto
  | |- True => exact I
  | |- forall _, _ => intros ?
  | |- same_core _ _ => reflexivity
  | |- yields same_core _ (mbind _ _) =>
      eapply (yields_bind same_core (fun _ => True)); [|intros ? _]
  | |- yields same_core _ (ret _) => apply yields_ret
  | |- yields same_core _ (throw _) => apply yields_throw
  | |- yields same_core _ (lift _) => apply yields_lift
  | |- yields same_core _ get => apply yields_get
  | |- yields same_core _ steps => apply yields_steps
  | |- yields same_core _ (perform _) => apply same_core_perform
  | |- yields same_core _ (try_catch _ _) => apply yields_try_catch
  | |- yields same_core _ (finally _ _) => apply yields_finally
  | |- yields same_core _ (for_each _ _) => apply yields_for_each
  | |- yields same_core _ (modify _) => apply yields_modify
  | |- yields same_core _ (fun s => let '(_, _) := _ (rng s) in _) => apply same_core_rng
  | |- yields same_core _ (if ?b then _ else _) => destruct b
  | |- yields same_core _ (match ?x with _ => _ end) => destruct x
  end.

Ltac frame := repeat frame_step.

Lemma same_core_call_encryptData (text password : jsstring) :
  yields same_core (fun _ => True) (call_encryptData W text password).
Proof. unfold call_encryptData. frame. Qed.

Lemma same_core_call_encryptFile (file : File) (password : jsstring) :
  yields same_core (fun _ => True) (call_encryptFile W file password).
Proof. unfold call_encryptFile. frame. Qed.

Lemma same_core_call_decryptFile (blob : Blob) (password : jsstring) (mime : option jsstring) :
  yields same_core (fun _ => True) (call_decryptFile W blob password mime).
Proof. unfold call_decryptFile. frame. Qed.

Lemma same_core_db_uploadFile (body : list byte) (name : jsstring) :
  yields same_core (fun _ => True) (db_uploadFile B body name).
Proof. unfold db_uploadFile. frame. Qed.

Lemma same_core_db_downloadFile (path : jsstring) :
  yields same_core (fun _ => True) (db_downloadFile B path).
Proof. unfold db_downloadFile. frame. Qed.

Lemma same_core_fetchNotes : yields same_core (fun _ => True) (fetchNotes B).
Proof. unfold fetchNotes, db_getNotes. frame. Qed.

Lemma same_core_index_path (tc ic : gmap (list Z) (list Z)) (note : Note.t)
    (password : option jsstring) (path : jsstring) :
  yields same_core (fun _ => True) (index_path W B tc ic note password path).
Proof.
  unfold index_path. frame;
    first [apply same_core_db_downloadFile | apply same_core_call_decryptFile].
Qed.

Lemma same_core_indexAttachments (note : Note.t) (password : option jsstring) :
  yields same_core (fun _ => True) (indexAttachments W B note password).
Proof.
  unfold indexAttachments. frame; apply same_core_index_path.
Qed.

Lemma same_core_processFileUploads (files : list File) (enc : bool) (password : jsstring) :
  yields same_core (fun _ => True) (processFileUploads W B files enc password).
Proof.
  induction files as [|file rest IH]; cbn [processFileUploads].
  - frame.
  - frame; first [apply same_core_call_encryptFile | apply same_core_db_uploadFile | exact IH].
Qed.

Lemma same_core_db_insertNote (note : NotePayload.t) :
  yields same_core (fun _ => True) (db_insertNote B note).
Proof. unfold db_insertNote. frame. Qed.

Lemma same_core_db_updateNote (id : jsstring) (updates : Updates.t) :
  yields same_core (fun _ => True) (db_updateNote B id updates).
Proof. unfold db_updateNote. frame. Qed.

Lemma same_core_handleSaveNewNote :
  yields same_core (fun _ => True) (handleSaveNewNote W B).
Proof.
  unfold handleSaveNewNote. frame;
    first [ apply same_core_processFileUploads | apply same_core_call_encryptData
          | apply same_core_db_insertNote | apply same_core_fetchNotes ].
Qed.

Lemma same_core_handleUpdateNote :
  yields same_core (fun _ => True) (handleUpdateNote W B).
Proof.
  unfold handleUpdateNote. frame;
    first [ apply same_core_processFileUploads | apply same_core_call_encryptData
          | apply same_core_db_updateNote | apply same_core_fetchNotes ].
Qed.

End Frames.

(** *** [indexAttachments] never throws *)

Section IndexTotal.
Variable W : SubtleCrypto.
Variable B : Backend.

Lemma total_index_path (tc ic : gmap (list Z) (list Z)) (note : Note.t)
    (password : option jsstring) (path : jsstring) :
  total (index_path W B tc ic note password path).
Proof.
  unfold index_path.
  destruct (isTextFile _ && negb (cached tc path));
    [|destruct (isImageFile _ && negb (cached ic path))].
  - apply total_try_catch. intros e. apply total_perform.
  - apply total_try_catch. intros e. apply total_perform.
  - apply total_ret.
Qed.

Lemma total_indexAttachments (note : Note.t) (password : option jsstring) :
  total (indexAttachments W B note password).
Proof.
  unfold indexAttachments. destruct (Note.attachments note) as [[|p ps]|].
  - apply total_ret.
  - apply total_bind; [apply total_get|]. intros s.
    apply total_for_each. intros a. apply total_index_path.
  - apply total_ret.
Qed.

(** *** What the session handlers do to the session part *)

Lemma core_clear_lock_timer (s : State) :
  core (clear_lock_timer s) =
  (decryptedCache s,
   match lockTimerRef s with
   | Some h => List.filter (fun t => negb (Nat.eqb (fst t) h)) (timers s)
   | None => timers s
   end,
   lockTimerRef s, selectedNoteId s, now s, next_timer s).
Proof.
  unfold clear_lock_timer.
  destruct (lockTimerRef s) eqn:Hr; unfold core, clearTimeout; cbn; rewrite ?Hr; reflexivity.
Qed.

Lemma handleSelectNote_core (id : jsstring) (s : State) :
  core (exec (handleSelectNote W B id) s) =
  (∅, timers (clear_lock_timer s), lockTimerRef s, Some id, now s, next_timer s).
Proof.
  unfold handleSelectNote, exec, mbind, modify, get. cbn [fst snd].
  match goal with
  | |- core (snd (match find _ (notes ?x) with _ => _ end _)) = _ => set (s9 := x)
  end.
  assert (Hs9 : core s9 =
    (∅, timers (clear_lock_timer s), lockTimerRef s, Some id, now s, next_timer s)).
  { unfold s9, core, clear_lock_timer. cbn.
    destruct (lockTimerRef s) eqn:Hr; unfold clearTimeout; cbn; rewrite ?Hr; reflexivity. }
  rewrite <- Hs9.
  destruct (find _ (notes s9)) as [note|]; [|reflexivity].
  destruct (negb (Note.is_encrypted note)); [|reflexivity].
  apply (same_core_indexAttachments W B note None s9).
Qed.

(** A failed unlock leaves the whole state as it was, apart from the call
    and the alert it records. *)
Lemma handleUnlock_failure (s : State) (note : Note.t) (e : exn) :
  selectedNote s = Some note ->
  decryptData W (Note.content note) (Note.iv note) (Note.salt note) (unlockPassword s)
    = Err e ->
  exec (handleUnlock W B) s =
  set_trace (trace s ++ [CryptoCall CallDecryptData; Alert (lit "Invalid key.") None]) s.
Proof.
  intros Hn Hd. unfold handleUnlock, exec. rewrite mbind_get, Hn.
  unfold try_catch, call_decryptData, mbind, perform, modify, lift. cbn [fst snd].
  rewrite Hd. cbn. rewrite <- app_assoc. reflexivity.
Qed.

Lemma handleUnlock_no_note (s : State) :
  selectedNote s = None -> exec (handleUnlock W B) s = s.
Proof. intros Hn. unfold handleUnlock, exec. rewrite mbind_get, Hn. reflexivity. Qed.

(** A successful unlock caches the plaintext under the note's id next to the
    stored title, cancels the timer it knows of and sets a new one 60000 ms
    ahead. *)
Lemma handleUnlock_success (s : State) (note : Note.t) (plain : jsstring) :
  selectedNote s = Some note ->
  decryptData W (Note.content note) (Note.iv note) (Note.salt note) (unlockPassword s)
    = Ok plain ->
  core (exec (handleUnlock W B) s) =
  (<[Note.id note := {| Cached.title := Note.title note; Cached.content := plain |}]>
     (decryptedCache s),
   timers (clear_lock_timer s) ++ [(next_timer s, now s + 60000)],
   Some (next_timer s), selectedNoteId s, now s, S (next_timer s)).
Proof.
  intros Hn Hd. unfold handleUnlock, exec. rewrite mbind_get, Hn.
  unfold try_catch, call_decryptData.
  unfold mbind at 1 2. unfold perform at 1. unfold modify at 1. unfold lift.
  rewrite Hd. unfold mbind at 1. unfold modify at 1.
  set (s2 := set_decryptedCache _ _).
  unfold mbind at 1.
  destruct (total_indexAttachments note (Some (unlockPassword s)) s2) as [u Hu].
  pose proof (proj1 (same_core_indexAttachments W B note (Some (unlockPassword s)) s2)) as Hc.
  destruct (indexAttachments W B note (Some (unlockPassword s)) s2) as [r s3].
  cbn [fst snd] in Hu, Hc. subst r.
  unfold mbind, modify. cbn [fst snd].
  unfold same_core in Hc.
  assert (Hs2 : core s2 =
    (<[Note.id note := {| Cached.title := Note.title note; Cached.content := plain |}]>
       (decryptedCache s), timers s, lockTimerRef s, selectedNoteId s, now s, next_timer s))
    by reflexivity.
  rewrite Hs2 in Hc. unfold core in Hc.
  injection Hc as Hc1 Hc2 Hc3 Hc4 Hc5 Hc6.
  unfold schedule_lock, core, clear_lock_timer. cbn. rewrite Hc3.
  destruct (lockTimerRef s) eqn:Hr; unfold clearTimeout; cbn;
    rewrite ?Hc1, ?Hc2, ?Hc3, ?Hc4, ?Hc5, ?Hc6, ?Hr; reflexivity.
Qed.

(** [handleUnlock] is the call of [decryptData] followed, when nothing
    happens in between, by the continuation that runs once it has settled. *)
Lemma handleUnlock_settles (s : State) (note : Note.t) :
  selectedNote s = Some note ->
  handleUnlock W B s =
  handleUnlock_settled W B note (unlockPassword s)
    (decryptData W (Note.content note) (Note.iv note) (Note.salt note) (unlockPassword s))
    (set_trace (trace s ++ [CryptoCall CallDecryptData]) s).
Proof.
  intros Hn. unfold handleUnlock, handleUnlock_settled. rewrite mbind_get, Hn.
  unfold try_catch, call_decryptData.
  unfold mbind at 1 2 8. unfold perform at 1. unfold modify at 1. unfold lift.
  destruct (decryptData W (Note.content note) (Note.iv note) (Note.salt note)
              (unlockPassword s)); reflexivity.
Qed.

End IndexTotal.

(** ** The vault session *)

Section SessionFacts.
Variable W : SubtleCrypto.
Variable B : Backend.

Lemma selectedNote_id (s : State) (note : Note.t) :
  selectedNote s = Some note -> selectedNoteId s = Some (Note.id note).
Proof.
  unfold selectedNote. destruct (selectedNoteId s) as [id|]; [|discriminate].
  intros Hf. apply find_some in Hf as [_ He].
  unfold jsstring_eqb in He. apply bool_decide_eq_true in He. congruence.
Qed.

Lemma fold_lock_callback {A} (l : list A) (s : State) :
  core (fold_left (fun acc _ => lock_callback acc) l s) =
  (match l with [] => decryptedCache s | _ => ∅ end,
   timers s, lockTimerRef s, selectedNoteId s, now s, next_timer s).
Proof.
  revert s. induction l as [|a l IH]; intros s; [reflexivity|].
  cbn [fold_left]. rewrite IH. destruct l; reflexivity.
Qed.

Lemma elapse_core (ms : N) (s : State) :
  let now' := now s + Z.of_N ms in
  core (elapse ms s) =
  (match List.filter (fun t => snd t <=? now') (timers s) with
   | [] => decryptedCache s
   | _ => ∅
   end,
   List.filter (fun t => negb (snd t <=? now')) (timers s),
   lockTimerRef s, selectedNoteId s, now', next_timer s).
Proof.
  intros now'. unfold elapse, run_due_timers. rewrite fold_lock_callback. reflexivity.
Qed.

Lemma unmount_core (s : State) :
  core (unmount B s) = (∅, timers (clear_lock_timer s), None, None, now s, next_timer s).
Proof.
  unfold unmount, mount, core. cbn.
  pose proof (core_clear_lock_timer s) as Hc. unfold core in Hc.
  injection Hc as _ _ _ _ H5 H6. rewrite H5, H6.
  unfold clear_lock_timer. destruct (lockTimerRef s); reflexivity.
Qed.

(** What each event does to the session part of the state. *)
Lemma step_core (e : Event) (s : State) :
  let s' := step W B e s in
  match e with
  | SelectNote id =>
      core s' = (∅, timers (clear_lock_timer s), lockTimerRef s, Some id, now s,
                 next_timer s)
  | Unlock =>
      (unlock_succeeds W s = false /\ core s' = core s) \/
      (exists note plain,
         unlock_succeeds W s = true /\ selectedNote s = Some note /\
         decryptData W (Note.content note) (Note.iv note) (Note.salt note)
           (unlockPassword s) = Ok plain /\
         core s' =
         (<[Note.id note := {| Cached.title := Note.title note;
                               Cached.content := plain |}]> (decryptedCache s),
          timers (clear_lock_timer s) ++ [(next_timer s, now s + 60000)],
          Some (next_timer s), selectedNoteId s, now s, S (next_timer s)))
  | Elapse ms => core s' = core (elapse ms s)
  | Unmount =>
      core s' = (∅, timers (clear_lock_timer s), None, None, now s, next_timer s)
  | CloseNote | StartCreating =>
      core s' = (decryptedCache s, timers s, lockTimerRef s, None, now s, next_timer s)
  | _ => core s' = core s
  end.
Proof.
  destruct e; cbn [step]; try reflexivity.
  - apply (same_core_fetchNotes B (set_session true s)).
  - apply (same_core_fetchNotes B s).
  - apply handleSelectNote_core.
  - unfold unlock_succeeds. destruct (selectedNote s) as [note|] eqn:Hn.
    + destruct (decryptData W (Note.content note) (Note.iv note) (Note.salt note)
                  (unlockPassword s)) as [plain|err] eqn:Hd.
      * right. exists note, plain. repeat split; try assumption.
        apply handleUnlock_success; assumption.
      * left. split; [reflexivity|].
        rewrite (handleUnlock_failure W B s note err Hn Hd). reflexivity.
    + left. split; [reflexivity|]. rewrite (handleUnlock_no_note W B s Hn). reflexivity.
  - unfold openEditor. destruct (selectedNote s); reflexivity.
  - apply (same_core_handleSaveNewNote W B s).
  - apply (same_core_handleUpdateNote W B s).
  - apply unmount_core.
Qed.

Lemma filter_handle_all (h : nat) (l : list (nat * Z)) :
  (forall t, In t l -> fst t = h) ->
  List.filter (fun t => negb (Nat.eqb (fst t) h)) l = [].
Proof.
  induction l as [|t ts IH]; intros Hk; [reflexivity|].
  cbn [List.filter]. rewrite (Hk t (or_introl eq_refl)), Nat.eqb_refl. cbn.
  apply IH. intros t' Hin. apply Hk. right. exact Hin.
Qed.

Lemma timers_clear_lock_timer_known (s : State) :
  (forall t, In t (timers s) -> lockTimerRef s = Some (fst t)) ->
  timers (clear_lock_timer s) = [].
Proof.
  intros Hk. pose proof (core_clear_lock_timer s) as Hc. unfold core in Hc.
  injection Hc as _ Ht _ _ _ _. rewrite Ht.
  destruct (lockTimerRef s) as [h|] eqn:Hr.
  - apply filter_handle_all. intros t Hin. specialize (Hk t Hin). congruence.
  - destruct (timers s) as [|t ts]; [reflexivity|].
    specialize (Hk t (or_introl eq_refl)). discriminate.
Qed.

Lemma timers_clear_lock_timer_cancelled (s : State) (h : nat) (d : Z) :
  lockTimerRef s = Some h -> ~ In (h, d) (timers (clear_lock_timer s)).
Proof.
  intros Hr. pose proof (core_clear_lock_timer s) as Hc. unfold core in Hc.
  injection Hc as _ Ht _ _ _ _. rewrite Ht, Hr.
  intros Hin. apply filter_In in Hin as [_ Hne]. cbn in Hne.
  rewrite Nat.eqb_refl in Hne. discriminate.
Qed.

Lemma core_fields (s : State) c t r x n m :
  core s = (c, t, r, x, n, m) ->
  decryptedCache s = c /\ timers s = t /\ lockTimerRef s = r /\
  selectedNoteId s = x /\ now s = n /\ next_timer s = m.
Proof. unfold core. intros [= -> -> -> -> -> ->]. repeat split. Qed.

Lemma core_fields_same (s s' : State) :
  core s' = core s ->
  decryptedCache s' = decryptedCache s /\ timers s' = timers s /\
  lockTimerRef s' = lockTimerRef s /\ selectedNoteId s' = selectedNoteId s /\
  now s' = now s /\ next_timer s' = next_timer s.
Proof. intros H. apply core_fields. exact H. Qed.

(** The invariant of the session: the cache holds at most one entry, an
    entry belongs to the selected note, and a pending timer is the one whose
    handle the component holds. *)
Lemma reachable_invariant (s : State) :
  reachable W B s ->
  (size (decryptedCache s) <= 1)%nat /\
  (forall id k, selectedNoteId s = Some id -> is_Some (decryptedCache s !! k) -> k = id) /\
  (forall t, In t (timers s) -> lockTimerRef s = Some (fst t)).
Proof.
  induction 1 as [now0 next0 rng0 trace0 | e s Hr (I1 & I2 & I3)].
  - cbn. rewrite map_size_empty. split; [lia|]. split; [discriminate | contradiction].
  - pose proof (step_core e s) as Hs. cbn zeta in Hs.
    set (s' := step W B e s) in *.
    assert (Hempty : decryptedCache s' = ∅ ->
              (size (decryptedCache s') <= 1)%nat /\
              (forall id k, selectedNoteId s' = Some id ->
                 is_Some (decryptedCache s' !! k) -> k = id)).
    { intros ->. rewrite map_size_empty. split; [lia|].
      intros id k _ [v Hv]. rewrite lookup_empty in Hv. discriminate. }
    assert (Hsame : core s' = core s ->
              (size (decryptedCache s') <= 1)%nat /\
              (forall id k, selectedNoteId s' = Some id ->
                 is_Some (decryptedCache s' !! k) -> k = id) /\
              (forall t, In t (timers s') -> lockTimerRef s' = Some (fst t))).
    { intros Hc. apply core_fields_same in Hc as (-> & -> & -> & -> & _ & _). auto. }
    destruct e; try (apply Hsame; exact Hs).
    + (* SelectNote *)
      apply core_fields in Hs as (Hc & Ht & _ & _ & _ & _).
      destruct (Hempty Hc) as [H1 H2]. split; [exact H1|]. split; [exact H2|].
      rewrite Ht, timers_clear_lock_timer_known by exact I3. contradiction.
    + (* Unlock *)
      destruct Hs as [[_ Hs] | (note & plain & _ & Hn & _ & Hs)]; [apply Hsame; exact Hs|].
      apply core_fields in Hs as (-> & -> & -> & -> & _ & _).
      rewrite timers_clear_lock_timer_known by exact I3.
      pose proof (selectedNote_id s note Hn) as Hid.
      assert (Hkeys : forall k, is_Some (decryptedCache s !! k) -> k = Note.id note)
        by (intros k; apply I2; exact Hid).
      split; [|split].
      * rewrite map_size_insert.
        destruct (decryptedCache s !! Note.id note) eqn:Hl; [exact I1|].
        assert (He : decryptedCache s = ∅).
        { apply map_empty. intros k.
          destruct (decryptedCache s !! k) eqn:Hk; [|reflexivity].
          rewrite (Hkeys k) in Hk by (rewrite Hk; eauto). congruence. }
        rewrite He, map_size_empty. lia.
      * intros id k Hsel [v Hv]. rewrite Hid in Hsel. injection Hsel as <-.
        destruct (decide (k = Note.id note)) as [->|Hne]; [reflexivity|].
        rewrite lookup_insert_ne in Hv by congruence. apply Hkeys. eauto.
      * intros t [<- | []]. reflexivity.
    + (* Elapse *)
      rewrite elapse_core in Hs. cbn zeta in Hs.
      apply core_fields in Hs as (Hc & -> & -> & -> & _ & _).
      assert (Hcache : decryptedCache s' = decryptedCache s \/ decryptedCache s' = ∅)
        by (rewrite Hc; destruct (List.filter _ (timers s)); auto).
      split; [|split].
      * destruct Hcache as [-> | ->]; [exact I1 | rewrite map_size_empty; lia].
      * intros id k Hsel Hk. destruct Hcache as [He | He]; rewrite He in Hk.
        -- eapply I2; eassumption.
        -- destruct Hk as [v Hv]. rewrite lookup_empty in Hv. discriminate.
      * intros t Hin. apply filter_In in Hin as [Hin _]. apply I3. exact Hin.
    + (* CloseNote *)
      apply core_fields in Hs as (-> & -> & -> & -> & _ & _).
      split; [exact I1|]. split; [discriminate | exact I3].
    + (* StartCreating *)
      apply core_fields in Hs as (-> & -> & -> & -> & _ & _).
      split; [exact I1|]. split; [discriminate | exact I3].
    + (* Unmount *)
      apply core_fields in Hs as (Hc & Ht & _ & _ & _ & _).
      destruct (Hempty Hc) as [H1 H2]. split; [exact H1|]. split; [exact H2|].
      rewrite Ht, timers_clear_lock_timer_known by exact I3. contradiction.
Qed.

End SessionFacts.

Section SessionClaims.
Variable W : SubtleCrypto.
Variable B : Backend.

Lemma reachable_run (events : list Event) (s : State) :
  reachable W B s -> reachable W B (run W B events s).
Proof.
  revert s. induction events as [|e events IH]; intros s Hs; [exact Hs|].
  cbn [run fold_left]. apply IH. apply reachable_step. exact Hs.
Qed.

(** Plaintext enters the cache only through a successful unlock, and then
    under the id of the selected note. *)
Lemma cache_grows_only_by_unlock (e : Event) (s : State) (k : jsstring) :
  is_Some (decryptedCache (step W B e s) !! k) ->
  is_Some (decryptedCache s !! k) \/
  (e = Unlock /\ unlock_succeeds W s = true /\ selectedNoteId s = Some k).
Proof.
  pose proof (step_core W B e s) as Hs. cbn zeta in Hs.
  set (s' := step W B e s) in *. intros Hk.
  assert (Hempty : decryptedCache s' = ∅ -> False).
  { intros He. rewrite He in Hk. destruct Hk as [v Hv].
    rewrite lookup_empty in Hv. discriminate. }
  destruct e;
    try (apply core_fields in Hs as (Hc & _);
         first [ left; rewrite Hc in Hk; exact Hk | exfalso; apply Hempty; exact Hc ]).
  - destruct Hs as [[_ Hs] | (note & plain & Hu & Hn & _ & Hs)];
      apply core_fields in Hs as (Hc & _); rewrite Hc in Hk; [auto|].
    destruct (decide (k = Note.id note)) as [->|Hne].
    + right. split; [reflexivity|]. split; [exact Hu|]. apply selectedNote_id. exact Hn.
    + left. rewrite lookup_insert_ne in Hk by congruence. exact Hk.
  - rewrite elapse_core in Hs. cbn zeta in Hs. apply core_fields in Hs as (Hc & _).
    rewrite Hc in Hk. destruct (List.filter _ (timers s)); [auto|].
    destruct Hk as [v Hv]. rewrite lookup_empty in Hv. discriminate.
Qed.

(** C5 (amended).  In every state reached by running the handlers one at a
    time the cache holds at most one note's plaintext.  Selecting a note (the same one or another, encrypted or not)
    empties the cache and cancels the timer the component holds, so that
    after an unlock of one note and the selection of another the cache holds
    plaintext for neither; and a plaintext enters the cache only by a
    successful unlock of the note then selected. *)
Theorem session_holds_one_note :
  (forall s, reachable W B s -> (size (decryptedCache s) <= 1)%nat) /\
  (forall s id,
     let s' := step W B (SelectNote id) s in
     decryptedCache s' = ∅ /\ selectedNoteId s' = Some id /\
     (forall h d, lockTimerRef s = Some h -> ~ In (h, d) (timers s')) /\
     (reachable W B s -> timers s' = [])) /\
  (forall s a b,
     let s' := step W B (SelectNote b) (step W B Unlock s) in
     decryptedCache s' !! a = None /\ decryptedCache s' !! b = None) /\
  (forall s e k,
     is_Some (decryptedCache (step W B e s) !! k) ->
     is_Some (decryptedCache s !! k) \/
     (e = Unlock /\ unlock_succeeds W s = true /\ selectedNoteId s = Some k)).
Proof.
  split; [|split; [|split]].
  - intros s Hs. apply (reachable_invariant W B s Hs).
  - intros s id s'. pose proof (step_core W B (SelectNote id) s) as Hc. cbn zeta in Hc.
    fold s' in Hc. apply core_fields in Hc as (Hc & Ht & _ & Hx & _ & _).
    split; [exact Hc|]. split; [exact Hx|]. split.
    + intros h d Hr. rewrite Ht. apply timers_clear_lock_timer_cancelled. exact Hr.
    + intros Hs. rewrite Ht. apply timers_clear_lock_timer_known.
      apply (reachable_invariant W B s Hs).
  - intros s a b s'.
    pose proof (step_core W B (SelectNote b) (step W B Unlock s)) as Hc. cbn zeta in Hc.
    fold s' in Hc. apply core_fields in Hc as (Hc & _). rewrite Hc.
    split; apply lookup_empty.
  - intros s e k. apply cache_grows_only_by_unlock.
Qed.

Lemma now_step (e : Event) (s : State) : now (step W B e s) = now s + dt e.
Proof.
  pose proof (step_core W B e s) as Hs. cbn zeta in Hs.
  destruct e; cbn [dt];
    try (apply core_fields in Hs as (_ & _ & _ & _ & Hn & _); rewrite Hn; lia).
  - destruct Hs as [[_ Hs] | (note & plain & _ & _ & _ & Hs)];
      apply core_fields in Hs as (_ & _ & _ & _ & Hn & _); rewrite Hn; lia.
  - rewrite elapse_core in Hs. cbn zeta in Hs.
    apply core_fields in Hs as (_ & _ & _ & _ & Hn & _). exact Hn.
Qed.

Lemma elapsed_cons (e : Event) (events : list Event) :
  elapsed (e :: events) = dt e + elapsed events.
Proof. destruct e; reflexivity. Qed.

Lemma elapsed_nonneg (events : list Event) : 0 <= elapsed events.
Proof.
  induction events as [|e events IH]; [cbn; lia|].
  rewrite elapsed_cons. destruct e; cbn [dt]; lia.
Qed.

Lemma run_cons (e : Event) (events : list Event) (s : State) :
  run W B (e :: events) s = run W B events (step W B e s).
Proof. reflexivity. Qed.

Lemma now_run (events : list Event) (s : State) :
  now (run W B events s) = now s + elapsed events.
Proof.
  revert s. induction events as [|e events IH]; intros s; [cbn; lia|].
  rewrite run_cons, IH, now_step, elapsed_cons. lia.
Qed.

(** While no note is selected and no unlock succeeds, either the cache is
    empty or the timer [(h, D)] is pending and not yet due. *)
Lemma deadline_step (h : nat) (D : Z) (e : Event) (s : State) :
  keeps_deadline W e s = true ->
  decryptedCache s = ∅ \/ (now s < D /\ In (h, D) (timers s)) ->
  let s' := step W B e s in
  decryptedCache s' = ∅ \/ (now s' < D /\ In (h, D) (timers s')).
Proof.
  intros Hq Hinv. pose proof (step_core W B e s) as Hs. cbn zeta in *.
  set (s' := step W B e s) in *.
  assert (Hsame : decryptedCache s' = decryptedCache s -> timers s' = timers s ->
                  now s' = now s ->
                  decryptedCache s' = ∅ \/ (now s' < D /\ In (h, D) (timers s')))
    by (intros -> -> ->; exact Hinv).
  destruct e; try discriminate;
    try (apply core_fields in Hs as (Hc & Ht & _ & _ & Hn & _);
         first [apply Hsame; assumption | left; exact Hc]).
  - cbn in Hq. apply negb_true_iff in Hq.
    destruct Hs as [[_ Hs] | (note & plain & Hu & _)]; [|congruence].
    apply core_fields in Hs as (Hc & Ht & _ & _ & Hn & _). apply Hsame; assumption.
  - rewrite elapse_core in Hs. cbn zeta in Hs.
    apply core_fields in Hs as (Hc & Ht & _ & _ & Hn & _).
    destruct Hinv as [He | [Hlt Hin]].
    + left. rewrite Hc, He. destruct (List.filter _ (timers s)); reflexivity.
    + destruct (Z.leb_spec D (now s + Z.of_N ms)) as [Hdue | Hnot].
      * left. rewrite Hc.
        assert (Hd : In (h, D) (List.filter (fun t => snd t <=? now s + Z.of_N ms)
                                  (timers s))).
        { apply filter_In. split; [exact Hin|]. cbn. apply Z.leb_le. exact Hdue. }
        destruct (List.filter _ (timers s)); [contradiction | reflexivity].
      * right. rewrite Hn, Ht. split; [exact Hnot|].
        apply filter_In. split; [exact Hin|]. cbn.
        apply negb_true_iff, Z.leb_gt. exact Hnot.
Qed.

Lemma deadline_run (h : nat) (D : Z) (events : list Event) (s : State) :
  all_keep_deadline W B events s = true ->
  decryptedCache s = ∅ \/ (now s < D /\ In (h, D) (timers s)) ->
  let s' := run W B events s in
  decryptedCache s' = ∅ \/ (now s' < D /\ In (h, D) (timers s')).
Proof.
  revert s. induction events as [|e events IH]; intros s Hq Hinv; [exact Hinv|].
  cbn [all_keep_deadline] in Hq. apply andb_true_iff in Hq as [Hq1 Hq2].
  rewrite run_cons. apply IH; [exact Hq2|].
  apply deadline_step; assumption.
Qed.

(** Activity other than a selection, a successful unlock and unmounting
    leaves the pending timer and the handle the component holds as they
    are, until the timer is due. *)
Lemma pending_run (h : nat) (D : Z) (events : list Event) (s : State) :
  all_keep_deadline W B events s = true -> ~ In Unmount events ->
  now s + elapsed events < D ->
  In (h, D) (timers s) -> lockTimerRef s = Some h ->
  let s' := run W B events s in
  In (h, D) (timers s') /\ lockTimerRef s' = Some h.
Proof.
  revert s. induction events as [|e events IH]; intros s Hq Hu Hlt Hin Hr; [split; assumption|].
  cbn [all_keep_deadline] in Hq. apply andb_true_iff in Hq as [Hq1 Hq2].
  rewrite elapsed_cons in Hlt. pose proof (elapsed_nonneg events) as He.
  rewrite run_cons.
  assert (Hstep : In (h, D) (timers (step W B e s)) /\
                  lockTimerRef (step W B e s) = Some h /\
                  now (step W B e s) + elapsed events < D).
  { pose proof (now_step e s) as Hn.
    pose proof (step_core W B e s) as Hs. cbn zeta in Hs.
    destruct e; cbn [dt] in Hn, Hlt;
      try (apply core_fields in Hs as (_ & Ht & Hr' & _);
           rewrite Ht, Hr'; repeat split; [assumption | assumption | lia]).
    - discriminate.
    - cbn in Hq1. apply negb_true_iff in Hq1.
      destruct Hs as [[_ Hs] | (note & plain & Hus & _)]; [|congruence].
      apply core_fields in Hs as (_ & Ht & Hr' & _).
      rewrite Ht, Hr'. repeat split; [assumption | assumption | lia].
    - rewrite elapse_core in Hs. cbn zeta in Hs.
      apply core_fields in Hs as (_ & Ht & Hr' & _).
      rewrite Ht, Hr'. repeat split; [|assumption|lia].
      apply filter_In. split; [exact Hin|]. cbn. apply negb_true_iff, Z.leb_gt. lia.
    - exfalso. apply Hu. left. reflexivity. }
  destruct Hstep as (Hin' & Hr' & Hlt').
  apply IH; try assumption.
  intros Hu'. apply Hu. right. exact Hu'.
Qed.

(** While the only pending timer is [(h, D)] and it is not yet due, activity
    other than a selection, a successful unlock and unmounting leaves that
    timer the only one and the cache as it is. *)
Lemma held_run (h : nat) (D : Z) (events : list Event) (s : State) :
  all_keep_deadline W B events s = true -> ~ In Unmount events ->
  now s + elapsed events < D ->
  timers s = [(h, D)] ->
  let s' := run W B events s in
  timers s' = [(h, D)] /\ decryptedCache s' = decryptedCache s.
Proof.
  revert s. induction events as [|e events IH]; intros s Hq Hu Hlt Ht; [split; [exact Ht | reflexivity]|].
  cbn [all_keep_deadline] in Hq. apply andb_true_iff in Hq as [Hq1 Hq2].
  rewrite elapsed_cons in Hlt. pose proof (elapsed_nonneg events) as He.
  rewrite run_cons.
  assert (Hstep : timers (step W B e s) = [(h, D)] /\
                  decryptedCache (step W B e s) = decryptedCache s /\
                  now (step W B e s) + elapsed events < D).
  { pose proof (now_step e s) as Hn.
    pose proof (step_core W B e s) as Hs. cbn zeta in Hs.
    destruct e; cbn [dt] in Hn, Hlt;
      try (apply core_fields in Hs as (Hc & Ht' & _);
           rewrite Ht', Hc; repeat split; [assumption | lia]).
    - discriminate.
    - cbn in Hq1. apply negb_true_iff in Hq1.
      destruct Hs as [[_ Hs] | (note & plain & Hus & _)]; [|congruence].
      apply core_fields in Hs as (Hc & Ht' & _).
      rewrite Ht', Hc. repeat split; [assumption | lia].
    - rewrite elapse_core in Hs. cbn zeta in Hs.
      apply core_fields in Hs as (Hc & Ht' & _).
      rewrite Ht', Hc, Ht. cbn [List.filter snd].
      destruct (Z.leb_spec D (now s + Z.of_N ms)) as [Hdue | _]; [lia|].
      cbn [negb]. repeat split. lia.
    - exfalso. apply Hu. left. reflexivity. }
  destruct Hstep as (Ht' & Hc' & Hlt').
  destruct (IH (step W B e s)) as (Ht2 & Hc2); try assumption.
  - intros Hu'. apply Hu. right. exact Hu'.
  - split; [exact Ht2|]. rewrite Hc2. exact Hc'.
Qed.

(** C6.  A successful unlock cancels the timer the component holds and sets
    one 60000 ms ahead: the handle held before is no longer pending, and in
    a state the session can reach the new timer is the only one pending.
    If from then on no note is selected and no unlock succeeds, then once
    60000 ms have passed the cache is empty; and until then neither reading
    nor editing (typing, opening the editor, saving, refreshing, a failed
    unlock) touches that timer or its deadline, no older timer fires, and
    the plaintext the unlock cached stays in the cache. *)
Theorem auto_lock_after_60s (s : State) (events : list Event) :
  unlock_succeeds W s = true ->
  all_keep_deadline W B events (step W B Unlock s) = true ->
  let s1 := step W B Unlock s in
  let s2 := run W B events s1 in
  timers s1 = timers (clear_lock_timer s) ++ [(next_timer s, now s + 60000)] /\
  lockTimerRef s1 = Some (next_timer s) /\
  now s2 = now s + elapsed events /\
  (60000 <= elapsed events -> decryptedCache s2 = ∅) /\
  (elapsed events < 60000 -> ~ In Unmount events ->
   In (next_timer s, now s + 60000) (timers s2) /\ lockTimerRef s2 = Some (next_timer s)) /\
  (forall h d, lockTimerRef s = Some h -> h <> next_timer s -> ~ In (h, d) (timers s1)) /\
  (exists note plain,
     selectedNote s = Some note /\
     decryptData W (Note.content note) (Note.iv note) (Note.salt note) (unlockPassword s)
       = Ok plain /\
     decryptedCache s1 !! Note.id note =
       Some {| Cached.title := Note.title note; Cached.content := plain |}) /\
  (reachable W B s ->
   timers s1 = [(next_timer s, now s + 60000)] /\
   (elapsed events < 60000 -> ~ In Unmount events ->
    timers s2 = [(next_timer s, now s + 60000)] /\
    decryptedCache s2 = decryptedCache s1)).
Proof.
  intros Hu Hq s1 s2.
  pose proof (step_core W B Unlock s) as Hs. cbn zeta in Hs. fold s1 in Hs.
  destruct Hs as [[Hf _] | (note & plain & _ & Hnote & Hplain & Hs)]; [congruence|].
  apply core_fields in Hs as (Hc & Ht & Hr & _ & Hn & _).
  assert (Hin : In (next_timer s, now s + 60000) (timers s1))
    by (rewrite Ht; apply in_or_app; right; left; reflexivity).
  split; [exact Ht|]. split; [exact Hr|].
  split; [unfold s2; rewrite now_run, Hn; reflexivity|].
  split; [|split; [|split; [|split]]].
  - intros Hel.
    destruct (deadline_run (next_timer s) (now s + 60000) events s1 Hq) as [He | [Hlt _]].
    + right. split; [lia | exact Hin].
    + exact He.
    + fold s2 in Hlt. unfold s2 in Hlt. rewrite now_run, Hn in Hlt. lia.
  - intros Hel Hum.
    apply (pending_run (next_timer s) (now s + 60000) events s1); try assumption.
    rewrite Hn. lia.
  - intros h d Hh Hne Hold. rewrite Ht in Hold. apply in_app_or in Hold as [Hold | Hold].
    + exact (timers_clear_lock_timer_cancelled s h d Hh Hold).
    + destruct Hold as [[= Heq _] | []]. congruence.
  - exists note, plain. split; [exact Hnote|]. split; [exact Hplain|].
    rewrite Hc. apply lookup_insert_eq.
  - intros Hreach.
    assert (Hone : timers s1 = [(next_timer s, now s + 60000)]).
    { rewrite Ht, (timers_clear_lock_timer_known s); [reflexivity|].
      apply (reachable_invariant W B s Hreach). }
    split; [exact Hone|]. intros Hel Hum.
    apply (held_run (next_timer s) (now s + 60000) events s1); try assumption.
    rewrite Hn. lia.
Qed.

End SessionClaims.

(** Concrete runs of the session. *)

Lemma ready_reachable : reachable Toy.primitives Toy.world Toy.ready.
Proof. unfold Toy.ready. apply reachable_run. apply reachable_mount. Qed.

Lemma session_holds_one_note_witness :
  reachable Toy.primitives Toy.world (step Toy.primitives Toy.world Unlock Toy.ready) /\
  (size (decryptedCache (step Toy.primitives Toy.world Unlock Toy.ready)) <= 1)%nat /\
  timers (step Toy.primitives Toy.world (SelectNote (lit "b"))
            (step Toy.primitives Toy.world Unlock Toy.ready)) = [].
Proof.
  assert (Hr : reachable Toy.primitives Toy.world
                 (step Toy.primitives Toy.world Unlock Toy.ready))
    by (apply reachable_step; exact ready_reachable).
  destruct (session_holds_one_note Toy.primitives Toy.world) as (H1 & H2 & _).
  split; [exact Hr|]. split; [exact (H1 _ Hr)|].
  destruct (H2 (step Toy.primitives Toy.world Unlock Toy.ready) (lit "b"))
    as (_ & _ & _ & H4).
  exact (H4 Hr).
Defined.

(** C5 as stated fails when a selection overtakes an unlock.  The unlock
    of note "a" is called and awaits [decryptData]; note "c" is selected,
    which empties the cache; the decryption settles and the continuation of
    [handleUnlock] adds the plaintext of "a" to the cache while "c" is the
    selected note; unlocking "c" then leaves two plaintexts in the cache. *)
Lemma unlock_overtaken_by_selection :
  exists note_a,
    selectedNote Toy.ready = Some note_a /\ Note.id note_a = lit "a" /\
    let outcome :=
      decryptData Toy.primitives (Note.content note_a) (Note.iv note_a)
        (Note.salt note_a) (unlockPassword Toy.ready) in
    let s0 := set_trace (trace Toy.ready ++ [CryptoCall CallDecryptData]) Toy.ready in
    let s1 := step Toy.primitives Toy.world (SelectNote (lit "c")) s0 in
    let s2 := exec (handleUnlock_settled Toy.primitives Toy.world note_a
                      (unlockPassword Toy.ready) outcome) s1 in
    let s3 := run Toy.primitives Toy.world [TypeUnlockPassword (lit "pw"); Unlock] s2 in
    decryptedCache s1 = ∅ /\
    selectedNoteId s2 = Some (lit "c") /\
    is_Some (decryptedCache s2 !! lit "a") /\
    is_Some (decryptedCache s3 !! lit "a") /\ is_Some (decryptedCache s3 !! lit "c") /\
    size (decryptedCache s3) = 2%nat.
Proof.
  eexists. split; [vm_compute; reflexivity|]. split; [reflexivity|].
  vm_compute. repeat split; eauto.
Qed.

Lemma auto_lock_after_60s_witness :
  let events := [OpenEditor; Elapse 30000; TypeUnlockPassword (lit "x"); Unlock;
                 UpdateNote; Elapse 30000] in
  let early := [OpenEditor; Elapse 30000; TypeUnlockPassword (lit "x"); Unlock;
                UpdateNote; Elapse 29999] in
  let again := run Toy.primitives Toy.world [Unlock; Elapse 30000] Toy.ready in
  unlock_succeeds Toy.primitives Toy.ready = true /\
  all_keep_deadline Toy.primitives Toy.world events
    (step Toy.primitives Toy.world Unlock Toy.ready) = true /\
  60000 <= elapsed events /\
  decryptedCache (run Toy.primitives Toy.world events
                    (step Toy.primitives Toy.world Unlock Toy.ready)) = ∅ /\
  all_keep_deadline Toy.primitives Toy.world early
    (step Toy.primitives Toy.world Unlock Toy.ready) = true /\
  elapsed early < 60000 /\ ~ In Unmount early /\
  In (next_timer Toy.ready, now Toy.ready + 60000)
     (timers (run Toy.primitives Toy.world early
                (step Toy.primitives Toy.world Unlock Toy.ready))) /\
  reachable Toy.primitives Toy.world again /\
  unlock_succeeds Toy.primitives again = true /\
  timers again = [(1%nat, 60000)] /\
  timers (step Toy.primitives Toy.world Unlock again) = [(2%nat, 90000)] /\
  timers (run Toy.primitives Toy.world [Elapse 30000]
            (step Toy.primitives Toy.world Unlock again)) = [(2%nat, 90000)] /\
  decryptedCache (run Toy.primitives Toy.world [Elapse 30000]
                    (step Toy.primitives Toy.world Unlock again)) =
    decryptedCache (step Toy.primitives Toy.world Unlock again) /\
  is_Some (decryptedCache (step Toy.primitives Toy.world Unlock again) !! lit "a").
Proof.
  intros events early again.
  assert (H1 : unlock_succeeds Toy.primitives Toy.ready = true)
    by (vm_compute; reflexivity).
  assert (H2 : all_keep_deadline Toy.primitives Toy.world events
                 (step Toy.primitives Toy.world Unlock Toy.ready) = true)
    by (vm_compute; reflexivity).
  assert (H3 : 60000 <= elapsed events) by (vm_compute; discriminate).
  assert (H4 : all_keep_deadline Toy.primitives Toy.world early
                 (step Toy.primitives Toy.world Unlock Toy.ready) = true)
    by (vm_compute; reflexivity).
  assert (H5 : elapsed early < 60000) by (vm_compute; reflexivity).
  assert (H6 : ~ In Unmount early)
    by (cbn; intros H; repeat (destruct H as [H|H]; [discriminate|]); exact H).
  split; [exact H1|]. split; [exact H2|]. split; [exact H3|].
  destruct (auto_lock_after_60s Toy.primitives Toy.world Toy.ready events H1 H2)
    as (_ & _ & _ & Hlock & _).
  split; [exact (Hlock H3)|].
  split; [exact H4|]. split; [exact H5|]. split; [exact H6|].
  destruct (auto_lock_after_60s Toy.primitives Toy.world Toy.ready early H1 H4)
    as (_ & _ & _ & _ & Hpending & _).
  split; [exact (proj1 (Hpending H5 H6))|].
  assert (R : reachable Toy.primitives Toy.world again)
    by (apply reachable_run; exact ready_reachable).
  assert (U : unlock_succeeds Toy.primitives again = true) by (vm_compute; reflexivity).
  assert (Q : all_keep_deadline Toy.primitives Toy.world [Elapse 30000]
                (step Toy.primitives Toy.world Unlock again) = true) by reflexivity.
  assert (E : elapsed [Elapse 30000] < 60000) by (vm_compute; reflexivity).
  assert (N : ~ In Unmount [Elapse 30000]) by (intros [H | []]; discriminate).
  assert (T : timers again = [(1%nat, 60000)]) by (vm_compute; reflexivity).
  assert (Hn : (next_timer again, now again + 60000) = (2%nat, 90000))
    by (vm_compute; reflexivity).
  destruct (auto_lock_after_60s Toy.primitives Toy.world again [Elapse 30000] U Q)
    as (_ & _ & _ & _ & _ & _ & (note & plain & Hsel & _ & Hcached) & Hreset).
  destruct (Hreset R) as (Hone & Hkept). destruct (Hkept E N) as (Hone' & Hsame).
  rewrite Hn in Hone, Hone'.
  split; [exact R|]. split; [exact U|]. split; [exact T|]. split; [exact Hone|].
  split; [exact Hone'|]. split; [exact Hsame|].
  assert (Hid : Note.id note = lit "a").
  { vm_compute in Hsel. injection Hsel as <-. reflexivity. }
  rewrite <- Hid, Hcached. eauto.
Defined.

(** ** What the save handlers write *)

Section Effects.
Variable W : SubtleCrypto.
Variable B : Backend.
Variable Q : Effect -> Prop.

Lemma performs_perform (e : Effect) :
  Q e -> yields (performs Q) (fun _ => True) (perform e).
Proof.
  intros He. apply yields_modify. intros s. exists [e].
  split; [reflexivity | repeat constructor; exact He].
Qed.

Lemma performs_modify (f : State -> State) :
  (forall s, trace (f s) = trace s) -> yields (performs Q) (fun _ => True) (modify f).
Proof.
  intros Hf. apply yields_modify. intros s. exists [].
  split; [rewrite Hf, app_nil_r; reflexivity | constructor].
Qed.

Lemma performs_rng {A} (f : Rng -> result A * Rng) :
  yields (performs Q) (fun a => exists rng0, fst (f rng0) = Ok a)
    (fun s => let '(r, rng') := f (rng s) in (r, set_rng rng' s)).
Proof.
  intros s. destruct (f (rng s)) as [r rng'] eqn:Hf. split.
  - exists []. split; [cbn; rewrite app_nil_r; reflexivity | constructor].
  - cbn. intros a ->. exists (rng s). rewrite Hf. reflexivity.
Qed.

(** One step of a proof about the effects a computation performs. *)
Ltac eff_step :=
  match goal with
  | |- PreOrder _ => typeclasses eauto
  | |- True => exact I
  | |- forall _, _ => intros ?
  | |- trace _ = trace _ => reflexivity
  | |- yields (performs _) _ (mbind _ _) =>
      eapply (yields_bind (performs Q) (fun _ => True)); [|intros ? _]
  | |- yields (performs _) _ (ret _) => apply yields_ret
  | |- yields (performs _) _ (throw _) => apply yields_throw
  | |- yields (performs _) _ (lift _) => apply yields_lift
  | |- yields (performs _) _ get => apply yields_get
  | |- yields (performs _) _ steps => apply yields_steps
  | |- yields (performs _) _ (perform _) => apply performs_perform
  | |- yields (performs _) _ (try_catch _ _) => apply yields_try_catch
  | |- yields (performs _) _ (finally _ _) => apply yields_finally
  | |- yields (performs _) _ (for_each _ _) => apply yields_for_each
  | |- yields (performs _) _ (modify _) => apply performs_modify
  | |- yields (performs _) (fun _ => True) (fun s => let '(_, _) := _ (rng s) in _) =>
      eapply yields_weaken; [|apply performs_rng]
  | |- yields (performs _) _ (if ?b then _ else _) => destruct b
  | |- yields (performs _) _ (match ?x with _ => _ end) => destruct x
  end.

Ltac eff := repeat eff_step.

Hypothesis Q_crypto : forall c, Q (CryptoCall c).
Hypothesis Q_getUser : Q AuthGetUser.
Hypothesis Q_upload : forall bucket path body, Q (StorageUpload bucket path body).
Hypothesis Q_select : Q NotesSelect.
Hypothesis Q_alert : forall text err, Q (Alert text err).

Lemma performs_call_encryptData (text password : jsstring) :
  yields (performs Q)
    (fun payload => exists rng0, fst (encryptData W text password None rng0) = Ok payload)
    (call_encryptData W text password).
Proof.
  unfold call_encryptData.
  eapply (yields_bind (performs Q) (fun _ => True)).
  - apply performs_perform. apply Q_crypto.
  - intros _ _. apply performs_rng.
Qed.

Lemma performs_call_encryptFile (file : File) (password : jsstring) :
  yields (performs Q) (fun _ => True) (call_encryptFile W file password).
Proof. unfold call_encryptFile. eff. apply Q_crypto. Qed.

Lemma performs_db_uploadFile (body : list byte) (name : jsstring) :
  yields (performs Q) (fun _ => True) (db_uploadFile B body name).
Proof. unfold db_uploadFile. eff; first [apply Q_getUser | apply Q_upload]. Qed.

Lemma performs_processFileUploads (files : list File) (enc : bool) (password : jsstring) :
  yields (performs Q) (fun _ => True) (processFileUploads W B files enc password).
Proof.
  induction files as [|file rest IH]; cbn [processFileUploads].
  - eff.
  - eff; first [apply performs_call_encryptFile | apply performs_db_uploadFile | exact IH].
Qed.

Lemma performs_fetchNotes : yields (performs Q) (fun _ => True) (fetchNotes B).
Proof. unfold fetchNotes, db_getNotes. eff. apply Q_select. Qed.

Lemma performs_db_insertNote (note : NotePayload.t) :
  (forall uid created,
     Q (NotesInsert
          {| DbRow.title := NotePayload.title note;
             DbRow.ciphertext := NotePayload.content note;
             DbRow.is_encrypted := NotePayload.is_encrypted note;
             DbRow.category := NotePayload.category note;
             DbRow.attachments := NotePayload.attachments note;
             DbRow.iv := NotePayload.iv note;
             DbRow.title_iv := None;
             DbRow.salt := NotePayload.salt note;
             DbRow.user_id := uid;
             DbRow.created_at := created |})) ->
  yields (performs Q) (fun _ => True) (db_insertNote B note).
Proof.
  intros Hrow. unfold db_insertNote. eff; first [apply Q_getUser | apply Hrow].
Qed.

Lemma performs_db_updateNote (id : jsstring) (updates : Updates.t) :
  (forall row,
     Updates.title row = Updates.title updates ->
     Updates.category row = Updates.category updates ->
     Updates.is_encrypted row = Updates.is_encrypted updates ->
     Updates.iv row = Updates.iv updates ->
     Updates.salt row = Updates.salt updates ->
     (Updates.ciphertext row = Updates.content updates /\ Updates.content row = None) \/
     (Updates.content row = Updates.content updates /\
      Updates.ciphertext row = Updates.ciphertext updates) ->
     Q (NotesUpdate id row)) ->
  yields (performs Q) (fun _ => True) (db_updateNote B id updates).
Proof.
  intros Hrow. unfold db_updateNote.
  destruct (truthy_opt (Updates.content updates)); eff; apply Hrow; cbn; auto.
Qed.

(** The rows [handleSaveNewNote] inserts: the title, the flag and the
    category are those of the form; with encryption on, the content column
    and the nonce and salt columns are the three fields of one payload of
    [encryptData] for the form's content and password. *)
Lemma performs_handleSaveNewNote (s : State) :
  (forall row,
     DbRow.title row = NewNote.title (newNote s) ->
     DbRow.category row = NewNote.category (newNote s) ->
     DbRow.is_encrypted row = NewNote.encrypt (newNote s) ->
     DbRow.title_iv row = None ->
     (NewNote.encrypt (newNote s) = true ->
      exists payload rng0,
        fst (encryptData W (NewNote.content (newNote s)) (NewNote.password (newNote s))
               None rng0) = Ok payload /\
        DbRow.ciphertext row = ciphertext payload /\
        DbRow.iv row = Some (iv payload) /\ DbRow.salt row = Some (salt payload)) ->
     (NewNote.encrypt (newNote s) = false ->
      DbRow.ciphertext row = NewNote.content (newNote s)) ->
     Q (NotesInsert row)) ->
  performs Q s (snd (handleSaveNewNote W B s)).
Proof.
  intros Hrow. unfold handleSaveNewNote.
  match goal with |- context [mbind get ?k] => set (body := k) end.
  change (performs Q s (snd (body s s))).
  cut (yields (performs Q) (fun _ => True) (body s)); [intros H; exact (proj1 (H s))|].
  subst body. cbv beta.
  set (form := newNote s) in *.
  destruct (negb (truthy (trim (NewNote.title form)))); [eff; apply Q_alert|].
  destruct (NewNote.encrypt form && negb (truthy (NewNote.password form)));
    [eff; apply Q_alert|].
  destruct (NewNote.encrypt form &&
            negb (jsstring_eqb (NewNote.password form) (NewNote.confirmPassword form)));
    [eff; apply Q_alert|].
  eapply (yields_bind (performs Q) (fun _ => True)); [eff|intros _ _].
  apply yields_finally; [typeclasses eauto | | eff].
  apply yields_try_catch; [typeclasses eauto | | intros e; eff; apply Q_alert].
  eapply (yields_bind (performs Q) (fun _ => True));
    [apply performs_processFileUploads | intros paths _].
  eapply (yields_bind (performs Q) (fun _ => True)); [eff | intros createdAt _].
  eapply (yields_bind (performs Q)
            (fun payload => forall uid created,
               Q (NotesInsert
                    {| DbRow.title := NotePayload.title payload;
                       DbRow.ciphertext := NotePayload.content payload;
                       DbRow.is_encrypted := NotePayload.is_encrypted payload;
                       DbRow.category := NotePayload.category payload;
                       DbRow.attachments := NotePayload.attachments payload;
                       DbRow.iv := NotePayload.iv payload;
                       DbRow.title_iv := None;
                       DbRow.salt := NotePayload.salt payload;
                       DbRow.user_id := uid;
                       DbRow.created_at := created |}))).
  - destruct (NewNote.encrypt form) eqn:Henc.
    + eapply (yields_bind (performs Q)
                (fun payload => exists rng0,
                   fst (encryptData W (NewNote.content form) (NewNote.password form)
                          None rng0) = Ok payload));
        [apply performs_call_encryptData|].
      intros payload (rng0 & Hp). apply yields_ret; [typeclasses eauto|].
      intros uid created. apply Hrow; cbn; try reflexivity; [|discriminate].
      intros _. exists payload, rng0. auto.
    + apply yields_ret; [typeclasses eauto|].
      intros uid created. apply Hrow; cbn; try reflexivity. discriminate.
  - intros payload Hpayload.
    eapply (yields_bind (performs Q) (fun _ => True));
      [apply performs_db_insertNote; assumption | intros _ _].
    eff. apply performs_fetchNotes.
Qed.

(** The rows [handleUpdateNote] writes. *)
Lemma performs_handleUpdateNote (s : State) :
  (forall id row,
     Updates.title row = EditForm.title (editForm s) ->
     Updates.category row = EditForm.category (editForm s) ->
     Updates.is_encrypted row = EditForm.is_encrypted (editForm s) ->
     (EditForm.is_encrypted (editForm s) = true ->
      exists payload rng0 pwd,
        fst (encryptData W (EditForm.content (editForm s)) pwd None rng0) = Ok payload /\
        ((Updates.ciphertext row = Some (ciphertext payload) /\
          Updates.content row = None) \/
         (Updates.content row = Some (ciphertext payload) /\
          Updates.ciphertext row = None)) /\
        Updates.iv row = Some (iv payload) /\ Updates.salt row = Some (salt payload)) ->
     Q (NotesUpdate id row)) ->
  performs Q s (snd (handleUpdateNote W B s)).
Proof.
  intros Hrow. unfold handleUpdateNote.
  match goal with |- context [mbind get ?k] => set (body := k) end.
  change (performs Q s (snd (body s s))).
  cut (yields (performs Q) (fun _ => True) (body s)); [intros H; exact (proj1 (H s))|].
  subst body. cbv beta.
  destruct (selectedNote s) as [note|]; [|eff].
  set (form := editForm s) in *.
  set (pwd := if truthy (EditForm.password form) then EditForm.password form
              else unlockPassword s).
  destruct (EditForm.is_encrypted form && negb (truthy pwd)); [eff; apply Q_alert|].
  eapply (yields_bind (performs Q) (fun _ => True)); [eff|intros _ _].
  apply yields_finally; [typeclasses eauto | | eff].
  apply yields_try_catch; [typeclasses eauto | | intros e; eff; apply Q_alert].
  eapply (yields_bind (performs Q) (fun _ => True));
    [apply performs_processFileUploads | intros paths _].
  eapply (yields_bind (performs Q) (fun _ => True)); [eff | intros createdAt _].
  eapply (yields_bind (performs Q)
            (fun updates =>
               Updates.title updates = EditForm.title form /\
               Updates.category updates = EditForm.category form /\
               Updates.is_encrypted updates = EditForm.is_encrypted form /\
               Updates.ciphertext updates = None /\
               (EditForm.is_encrypted form = true ->
                exists payload rng0,
                  fst (encryptData W (EditForm.content form) pwd None rng0) = Ok payload /\
                  Updates.content updates = Some (ciphertext payload) /\
                  Updates.iv updates = Some (iv payload) /\
                  Updates.salt updates = Some (salt payload)))).
  - destruct (EditForm.is_encrypted form) eqn:Henc.
    + eapply (yields_bind (performs Q)
                (fun payload => exists rng0,
                   fst (encryptData W (EditForm.content form) pwd None rng0) = Ok payload));
        [apply performs_call_encryptData|].
      intros payload (rng0 & Hp). apply yields_ret; [typeclasses eauto|].
      cbn. repeat split. intros _. exists payload, rng0. auto.
    + apply yields_ret; [typeclasses eauto|]. cbn. repeat split. discriminate.
  - intros updates (Ht & Hcat & He & Hc & Henc).
    eapply (yields_bind (performs Q) (fun _ => True)); [|intros _ _].
    + apply performs_db_updateNote. intros row Hrt Hrc Hre Hri Hrs Hcols.
      apply Hrow; [congruence | congruence | congruence |].
      intros Hon. destruct (Henc Hon) as (payload & rng0 & Hp & Hcont & Hiv & Hsalt).
      exists payload, rng0, pwd. split; [exact Hp|].
      split; [|split; congruence].
      destruct Hcols as [[H1 H2] | [H1 H2]]; [left | right]; split; congruence.
    + eff. apply performs_fetchNotes.
Qed.

End Effects.

Lemma effects_of_performs {A} (Q : Effect -> Prop) (m : M A) (s : State) :
  performs Q s (snd (m s)) -> Forall Q (effects_of m s).
Proof.
  intros (es & Ht & Hq). unfold effects_of. rewrite Ht.
  rewrite skipn_app, skipn_all, Nat.sub_diag. exact Hq.
Qed.

Lemma effects_of_appended {A} (m : M A) (s : State) (es : list Effect) :
  snd (m s) = set_trace (trace s ++ es) s -> effects_of m s = es.
Proof.
  intros Hs. unfold effects_of. rewrite Hs. cbn [trace set_trace].
  rewrite skipn_app, skipn_all, Nat.sub_diag. reflexivity.
Qed.

Lemma handleSaveNewNote_no_password (W : SubtleCrypto) (B : Backend) (s : State) :
  NewNote.encrypt (newNote s) = true -> NewNote.password (newNote s) = [] ->
  exists msg,
    (msg = lit "Title required" \/ msg = lit "Password required for encryption") /\
    handleSaveNewNote W B s = (Ok tt, set_trace (trace s ++ [Alert msg None]) s).
Proof.
  intros Henc Hpw. unfold handleSaveNewNote. rewrite mbind_get. cbv zeta.
  rewrite Henc, Hpw.
  destruct (negb (truthy (trim (NewNote.title (newNote s))))).
  - exists (lit "Title required"). split; [left|]; reflexivity.
  - exists (lit "Password required for encryption"). split; [right|]; reflexivity.
Qed.

Lemma handleUpdateNote_no_password (W : SubtleCrypto) (B : Backend) (s : State)
    (note : Note.t) :
  selectedNote s = Some note ->
  EditForm.is_encrypted (editForm s) = true ->
  EditForm.password (editForm s) = [] -> unlockPassword s = [] ->
  handleUpdateNote W B s =
  (Ok tt, set_trace (trace s ++ [Alert (lit "Password required to save encrypted note")
                                   None]) s).
Proof.
  intros Hn Henc Hpw Hup. unfold handleUpdateNote. rewrite mbind_get, Hn. cbv zeta.
  rewrite Henc, Hpw, Hup. reflexivity.
Qed.

(** C9.  A save with encryption on and no password only raises an alert:
    the state is otherwise unchanged and the effects are that one alert, so
    that nothing was encrypted, uploaded or written.  For a new note the
    password is the form's; for an update it is the form's or, when that is
    empty, the one typed to unlock. *)
Theorem save_without_password_is_refused (W : SubtleCrypto) (B : Backend) (s : State) :
  (NewNote.encrypt (newNote s) = true -> NewNote.password (newNote s) = [] ->
   exists msg,
     (msg = lit "Title required" \/ msg = lit "Password required for encryption") /\
     handleSaveNewNote W B s = (Ok tt, set_trace (trace s ++ [Alert msg None]) s) /\
     effects_of (handleSaveNewNote W B) s = [Alert msg None] /\
     forallb (fun e => negb (is_crypto_or_write e))
       (effects_of (handleSaveNewNote W B) s) = true) /\
  (forall note,
     selectedNote s = Some note ->
     EditForm.is_encrypted (editForm s) = true ->
     EditForm.password (editForm s) = [] -> unlockPassword s = [] ->
     let alert := Alert (lit "Password required to save encrypted note") None in
     handleUpdateNote W B s = (Ok tt, set_trace (trace s ++ [alert]) s) /\
     effects_of (handleUpdateNote W B) s = [alert] /\
     forallb (fun e => negb (is_crypto_or_write e))
       (effects_of (handleUpdateNote W B) s) = true).
Proof.
  split.
  - intros Henc Hpw.
    destruct (handleSaveNewNote_no_password W B s Henc Hpw) as (msg & Hmsg & Hrun).
    exists msg. split; [exact Hmsg|]. split; [exact Hrun|].
    assert (He : effects_of (handleSaveNewNote W B) s = [Alert msg None])
      by (apply effects_of_appended; rewrite Hrun; reflexivity).
    split; [exact He|]. rewrite He. reflexivity.
  - intros note Hn Henc Hpw Hup alert.
    pose proof (handleUpdateNote_no_password W B s note Hn Henc Hpw Hup) as Hrun.
    split; [exact Hrun|].
    assert (He : effects_of (handleUpdateNote W B) s = [alert])
      by (apply effects_of_appended; rewrite Hrun; reflexivity).
    split; [exact He|]. rewrite He. reflexivity.
Qed.

(** The title a note is loaded with is the stored title column (or the
    placeholder when that column is empty): [db.getNotes] decrypts nothing. *)
Lemma db_getNotes_titles (B : Backend) (s : State) (rows : list StoredRow.t) :
  notes_select B (length (trace s ++ [NotesSelect])) = Ok rows ->
  exists loaded,
    fst (db_getNotes B s) = Ok loaded /\
    map Note.id loaded = map StoredRow.id rows /\
    map Note.title loaded =
      map (fun r => or_else (StoredRow.title r) (lit "Untitled Note")) rows.
Proof.
  intros Hr. unfold db_getNotes, mbind, perform, modify, steps. cbn [fst snd trace set_trace].
  rewrite Hr. eexists. split; [reflexivity|]. rewrite !map_map. split; reflexivity.
Qed.

(** C10.  The row [handleSaveNewNote] inserts and the columns
    [handleUpdateNote] writes carry the title of the form as it is, whether
    or not encryption is on; with encryption on, the content column (and the
    nonce and salt columns) come from one payload of [encryptData] for the
    form's content.  A successful unlock caches the title of the note record
    as loaded, next to the decrypted content. *)
Theorem title_is_stored_in_plaintext (W : SubtleCrypto) (B : Backend) (s : State) :
  (forall row,
     In (NotesInsert row) (effects_of (handleSaveNewNote W B) s) ->
     DbRow.title row = NewNote.title (newNote s) /\
     DbRow.category row = NewNote.category (newNote s) /\
     DbRow.title_iv row = None /\
     DbRow.is_encrypted row = NewNote.encrypt (newNote s) /\
     (NewNote.encrypt (newNote s) = true ->
      exists payload rng0,
        fst (encryptData W (NewNote.content (newNote s)) (NewNote.password (newNote s))
               None rng0) = Ok payload /\
        DbRow.ciphertext row = ciphertext payload /\
        DbRow.iv row = Some (iv payload) /\ DbRow.salt row = Some (salt payload))) /\
  (forall id row,
     In (NotesUpdate id row) (effects_of (handleUpdateNote W B) s) ->
     Updates.title row = EditForm.title (editForm s) /\
     Updates.category row = EditForm.category (editForm s) /\
     Updates.is_encrypted row = EditForm.is_encrypted (editForm s) /\
     (EditForm.is_encrypted (editForm s) = true ->
      exists payload rng0 pwd,
        fst (encryptData W (EditForm.content (editForm s)) pwd None rng0) = Ok payload /\
        ((Updates.ciphertext row = Some (ciphertext payload) /\
          Updates.content row = None) \/
         (Updates.content row = Some (ciphertext payload) /\
          Updates.ciphertext row = None)) /\
        Updates.iv row = Some (iv payload) /\ Updates.salt row = Some (salt payload))) /\
  (forall note plain,
     selectedNote s = Some note ->
     decryptData W (Note.content note) (Note.iv note) (Note.salt note) (unlockPassword s)
       = Ok plain ->
     decryptedCache (exec (handleUnlock W B) s) !! Note.id note =
     Some {| Cached.title := Note.title note; Cached.content := plain |}).
Proof.
  split; [|split].
  - intros row Hin.
    pose proof (performs_handleSaveNewNote W B
                  (inserts_satisfy (fun row =>
                     DbRow.title row = NewNote.title (newNote s) /\
                     DbRow.category row = NewNote.category (newNote s) /\
                     DbRow.title_iv row = None /\
                     DbRow.is_encrypted row = NewNote.encrypt (newNote s) /\
                     (NewNote.encrypt (newNote s) = true ->
                      exists payload rng0,
                        fst (encryptData W (NewNote.content (newNote s))
                               (NewNote.password (newNote s)) None rng0) = Ok payload /\
                        DbRow.ciphertext row = ciphertext payload /\
                        DbRow.iv row = Some (iv payload) /\
                        DbRow.salt row = Some (salt payload))))
                  (fun _ => I) I (fun _ _ _ => I) I (fun _ _ => I) s) as Hp.
    apply effects_of_performs in Hp.
    + rewrite List.Forall_forall in Hp. exact (Hp _ Hin).
    + intros r H1 H2 H3 H4 H5 _. cbn. auto.
  - intros id row Hin.
    pose proof (performs_handleUpdateNote W B
                  (updates_satisfy (fun _ row =>
                     Updates.title row = EditForm.title (editForm s) /\
                     Updates.category row = EditForm.category (editForm s) /\
                     Updates.is_encrypted row = EditForm.is_encrypted (editForm s) /\
                     (EditForm.is_encrypted (editForm s) = true ->
                      exists payload rng0 pwd,
                        fst (encryptData W (EditForm.content (editForm s)) pwd None rng0)
                          = Ok payload /\
                        ((Updates.ciphertext row = Some (ciphertext payload) /\
                          Updates.content row = None) \/
                         (Updates.content row = Some (ciphertext payload) /\
                          Updates.ciphertext row = None)) /\
                        Updates.iv row = Some (iv payload) /\
                        Updates.salt row = Some (salt payload))))
                  (fun _ => I) I (fun _ _ _ => I) I (fun _ _ => I) s) as Hp.
    apply effects_of_performs in Hp.
    + rewrite List.Forall_forall in Hp. exact (Hp _ Hin).
    + intros i r H1 H2 H3 H4. cbn. auto.
  - intros note plain Hn Hd.
    pose proof (handleUnlock_success W B s note plain Hn Hd) as Hc.
    apply core_fields in Hc as (Hc & _). rewrite Hc. apply lookup_insert_eq.
Qed.

Lemma save_without_password_is_refused_witness :
  NewNote.encrypt (newNote Toy.draft_without_password) = true /\
  NewNote.password (newNote Toy.draft_without_password) = [] /\
  (exists msg,
     (msg = lit "Title required" \/ msg = lit "Password required for encryption") /\
     effects_of (handleSaveNewNote Toy.primitives Toy.world) Toy.draft_without_password =
       [Alert msg None]) /\
  exists note,
    selectedNote Toy.edit_without_password = Some note /\
    EditForm.is_encrypted (editForm Toy.edit_without_password) = true /\
    EditForm.password (editForm Toy.edit_without_password) = [] /\
    unlockPassword Toy.edit_without_password = [] /\
    effects_of (handleUpdateNote Toy.primitives Toy.world) Toy.edit_without_password =
      [Alert (lit "Password required to save encrypted note") None].
Proof.
  destruct (save_without_password_is_refused Toy.primitives Toy.world
              Toy.draft_without_password) as [Hnew _].
  destruct (Hnew eq_refl eq_refl) as (msg & Hmsg & _ & He & _).
  split; [reflexivity|]. split; [reflexivity|]. split.
  - exists msg. split; [exact Hmsg | exact He].
  - destruct (save_without_password_is_refused Toy.primitives Toy.world
                Toy.edit_without_password) as [_ Hupd].
    destruct (selectedNote Toy.edit_without_password) as [note|] eqn:Hn;
      [|vm_compute in Hn; discriminate].
    exists note. split; [reflexivity|]. repeat (split; [reflexivity|]).
    destruct (Hupd note eq_refl eq_refl eq_refl eq_refl) as (_ & Hu & _). exact Hu.
Defined.

Lemma title_is_stored_in_plaintext_witness :
  (exists row,
     In (NotesInsert row)
        (effects_of (handleSaveNewNote Toy.primitives Toy.world) Toy.draft_encrypted) /\
     DbRow.title row = lit "Plans" /\ DbRow.is_encrypted row = true /\
     DbRow.ciphertext row <> lit "secret plans") /\
  (exists id row,
     In (NotesUpdate id row)
        (effects_of (handleUpdateNote Toy.primitives Toy.world) Toy.edit_encrypted) /\
     Updates.title row = lit "Diary 2" /\
     Updates.ciphertext row <> Some (lit "new text") /\ Updates.content row = None) /\
  (exists note,
     selectedNote Toy.ready = Some note /\
     decryptData Toy.primitives (Note.content note) (Note.iv note) (Note.salt note)
       (unlockPassword Toy.ready) = Ok (lit "secret") /\
     decryptedCache (exec (handleUnlock Toy.primitives Toy.world) Toy.ready) !! Note.id note =
     Some {| Cached.title := lit "Diary"; Cached.content := lit "secret" |}).
Proof.
  split; [|split].
  - assert (Hex : exists row,
              In (NotesInsert row)
                 (effects_of (handleSaveNewNote Toy.primitives Toy.world)
                    Toy.draft_encrypted) /\
              DbRow.ciphertext row <> lit "secret plans").
    { vm_compute. eexists. split.
      - repeat (first [left; reflexivity | right]).
      - cbn. discriminate. }
    destruct Hex as (row & Hin & Hc). exists row. split; [exact Hin|].
    destruct (title_is_stored_in_plaintext Toy.primitives Toy.world Toy.draft_encrypted)
      as (Hnew & _).
    destruct (Hnew row Hin) as (Ht & _ & _ & He & _).
    split; [rewrite Ht; reflexivity|]. split; [rewrite He; reflexivity | exact Hc].
  - assert (Hex : exists id row,
              In (NotesUpdate id row)
                 (effects_of (handleUpdateNote Toy.primitives Toy.world)
                    Toy.edit_encrypted) /\
              Updates.ciphertext row <> Some (lit "new text") /\
              Updates.content row = None).
    { vm_compute. eexists _, _. split.
      - repeat (first [left; reflexivity | right]).
      - cbn. split; [discriminate | reflexivity]. }
    destruct Hex as (id & row & Hin & Hc & Hn). exists id, row. split; [exact Hin|].
    destruct (title_is_stored_in_plaintext Toy.primitives Toy.world Toy.edit_encrypted)
      as (_ & Hupd & _).
    destruct (Hupd id row Hin) as (Ht & _).
    split; [rewrite Ht; reflexivity|]. split; assumption.
  - destruct (selectedNote Toy.ready) as [note|] eqn:Hn; [|vm_compute in Hn; discriminate].
    assert (Hd : decryptData Toy.primitives (Note.content note) (Note.iv note)
                   (Note.salt note) (unlockPassword Toy.ready) = Ok (lit "secret")).
    { vm_compute in Hn. injection Hn as <-. vm_compute. reflexivity. }
    exists note. split; [reflexivity|]. split; [exact Hd|].
    destruct (title_is_stored_in_plaintext Toy.primitives Toy.world Toy.ready)
      as (_ & _ & Hunlock).
    rewrite Hn in Hunlock. rewrite (Hunlock note (lit "secret") eq_refl Hd).
    vm_compute in Hn. injection Hn as <-. reflexivity.
Defined.

(** ** Attachment indexing *)

(** Every path of the note is visited, whatever happened at the ones
    before: a failed download or decryption is logged by the handler of that
    path and the loop goes on. *)
Lemma for_each_continues {A} (body : A -> M unit) (a : A) (l : list A) (s : State) :
  total (body a) ->
  for_each (a :: l) body s = for_each l body (snd (body a s)).
Proof.
  intros Ht. cbn [for_each]. unfold mbind. destruct (Ht s) as [u Hu].
  destruct (body a s) as [r s']. cbn in Hu. subst r. reflexivity.
Qed.

Lemma index_path_failure_is_logged (W : SubtleCrypto) (B : Backend)
    (tc ic : gmap (list Z) (list Z)) (note : Note.t) (password : option jsstring)
    (path message : jsstring) (s : State) :
  isTextFile (getFileNameFromPath path) = true -> cached tc path = false ->
  (forall n, storage_download B n PRIMARY_BUCKET path = inl message) ->
  includes (lit "Object not found") message = false ->
  index_path W B tc ic note password path s =
  (Ok tt, set_trace (trace s ++ [StorageDownload PRIMARY_BUCKET path;
                                 ConsoleWarn (ErrorMsg message)]) s).
Proof.
  intros Ht Hc Hd Hm. unfold index_path. rewrite Ht, Hc. cbn [andb negb].
  unfold try_catch, db_downloadFile, mbind, perform, modify, steps. cbn [fst snd].
  rewrite Hd, Hm. cbn. rewrite <- app_assoc. reflexivity.
Qed.

(** What [index_path] does for a text attachment of an encrypted note when
    no password is given: the bytes as stored are decoded and cached. *)
Lemma index_path_without_password (W : SubtleCrypto) (B : Backend)
    (tc ic : gmap (list Z) (list Z)) (note : Note.t) (path : jsstring) (blob : Blob)
    (s : State) :
  Note.is_encrypted note = true ->
  isTextFile (getFileNameFromPath path) = true -> cached tc path = false ->
  (forall n, storage_download B n PRIMARY_BUCKET path = inr blob) ->
  index_path W B tc ic note None path s =
  (Ok tt,
   set_attachmentTextCache
     (<[path := TextDecoder_decode (blob_bytes blob)]> (attachmentTextCache s))
     (set_trace (trace s ++ [StorageDownload PRIMARY_BUCKET path]) s)).
Proof.
  intros He Ht Hc Hd. unfold index_path. rewrite Ht, Hc, He. cbn [andb negb truthy_opt].
  unfold try_catch, db_downloadFile, mbind, perform, modify, steps, ret. cbn [fst snd].
  rewrite Hd. reflexivity.
Qed.

(** C7, on the code.  The diary is encrypted and has one text attachment.
    Indexed with no password, the attachment is not skipped: the stored
    (encrypted) bytes are downloaded, decoded as text without any call to
    [decryptFile], and put in the text preview cache. *)
Theorem encrypted_attachment_indexed_without_password :
  exists note,
    selectedNote Toy.ready = Some note /\
    Note.is_encrypted note = true /\
    Note.attachments note = Some [lit "u1/1700000000000_secret.txt"] /\
    attachmentTextCache Toy.ready !! lit "u1/1700000000000_secret.txt" = None /\
    attachmentTextCache
      (exec (indexAttachments Toy.primitives Toy.world note None) Toy.ready)
      !! lit "u1/1700000000000_secret.txt" = Some (TextDecoder_decode Toy.stored_blob) /\
    effects_of (indexAttachments Toy.primitives Toy.world note None) Toy.ready =
      [StorageDownload PRIMARY_BUCKET (lit "u1/1700000000000_secret.txt")].
Proof.
  eexists. split; [vm_compute; reflexivity|]. vm_compute. repeat split.
Qed.

(** ** Wrong passwords *)


(** Well-formed passwords are told apart by their encoding. *)
Lemma TextEncoder_injective (p1 p2 : jsstring) :
  well_formed p1 = true -> well_formed p2 = true ->
  TextEncoder_encode p1 = TextEncoder_encode p2 -> p1 = p2.
Proof.
  intros H1 H2 He.
  destruct (to_scalars_well_formed p1 H1) as [F1 O1].
  destruct (to_scalars_well_formed p2 H2) as [F2 O2].
  unfold TextEncoder_encode in He. apply (f_equal utf8_decode) in He.
  rewrite !utf8_decode_encode in He by assumption. congruence.
Qed.




(** * Further properties of the code *)

(** ** Hexadecimal text *)

Lemma hex2_digits (b : byte) :
  length (hex2 b) = 2%nat /\ forallb is_lower_hex (hex2 b) = true.
Proof. destruct b; split; reflexivity. Qed.

(** X1.  [fromHex] undoes [toHex] on every buffer but the empty one: the
    hexadecimal text of the empty buffer is the empty string, on which the
    pattern of [fromHex] finds nothing and [.map] throws a [TypeError]. *)
Theorem fromHex_inverts_toHex (buf : list byte) :
  fromHex (toHex buf) = match buf with [] => Err TypeError | _ :: _ => Ok buf end /\
  (toHex buf = [] <-> buf = []).
Proof.
  split.
  - destruct buf as [|b bs].
    + apply fromHex_toHex_empty.
    + apply fromHex_toHex. discriminate.
  - split.
    + destruct buf as [|b bs]; [reflexivity|]. rewrite toHex_cons.
      destruct (hex2_digits b) as [Hl _]. intros He.
      apply (f_equal (@length Z)) in He. rewrite length_app, Hl in He. discriminate.
    + intros ->. reflexivity.
Qed.

(** X2.  [toHex] writes exactly two digits per byte, all of them among
    [0]-[9] and [a]-[f]; two buffers with the same text are the same buffer. *)
Theorem toHex_writes_two_lower_case_digits (buf : list byte) :
  length (toHex buf) = (2 * length buf)%nat /\
  forallb is_lower_hex (toHex buf) = true /\
  (forall buf', toHex buf' = toHex buf -> buf' = buf).
Proof.
  split; [|split].
  - induction buf as [|b bs IH]; [reflexivity|].
    rewrite toHex_cons, length_app, IH. destruct (hex2_digits b) as [-> _]. cbn. lia.
  - induction buf as [|b bs IH]; [reflexivity|].
    rewrite toHex_cons, forallb_app, IH. destruct (hex2_digits b) as [_ ->]. reflexivity.
  - intros buf' He.
    destruct buf as [|b bs], buf' as [|b' bs']; try reflexivity.
    + rewrite toHex_cons in He. destruct (hex2_digits b') as [Hl _].
      apply (f_equal (@length Z)) in He. rewrite length_app, Hl in He. discriminate.
    + rewrite toHex_cons in He. destruct (hex2_digits b) as [Hl _].
      apply (f_equal (@length Z)) in He. rewrite length_app, Hl in He. discriminate.
    + assert (H1 : fromHex (toHex (b' :: bs')) = Ok (b' :: bs'))
        by (apply fromHex_toHex; discriminate).
      assert (H2 : fromHex (toHex (b :: bs)) = Ok (b :: bs))
        by (apply fromHex_toHex; discriminate).
      rewrite He in H1. congruence.
Qed.

Lemma match_1_2_none (s : jsstring) :
  match_1_2 s = [] <-> existsb matchable s = false.
Proof.
  unfold matchable. induction s as [|c r IH]; [split; reflexivity|].
  cbn [match_1_2 existsb]. destruct (is_line_terminator c); cbn [negb orb].
  - exact IH.
  - destruct r as [|d r']; [split; discriminate|].
    destruct (is_line_terminator d); split; discriminate.
Qed.

Lemma match_1_2_length (s : jsstring) :
  forallb matchable s = true -> length (match_1_2 s) = Nat.div2 (S (length s)).
Proof.
  unfold matchable.
  induction s as [|c|c d r IHr _] using jsstring_pair_ind.
  - reflexivity.
  - cbn. destruct (is_line_terminator c); [discriminate | reflexivity].
  - cbn [forallb]. destruct (is_line_terminator c) eqn:Hc; [discriminate|].
    destruct (is_line_terminator d) eqn:Hd; [discriminate|]. cbn [negb andb].
    intros Hr. cbn [match_1_2]. rewrite Hc, Hd. cbn [length]. rewrite (IHr Hr).
    reflexivity.
Qed.

Lemma fromHex_error (hex : jsstring) (e : exn) : fromHex hex = Err e -> e = TypeError.
Proof. unfold fromHex. destruct (match_1_2 hex); [congruence | discriminate]. Qed.

(** X3.  [fromHex] does not validate its input.  It throws (a [TypeError])
    exactly when the string holds nothing the pattern can match, that is no
    code unit other than line terminators; on any other string it returns
    bytes, one per pair of code units (a last single one counts for a pair)
    when there is no line terminator, whatever those code units are. *)
Theorem fromHex_does_not_validate (hex : jsstring) :
  is_ok (fromHex hex) = existsb matchable hex /\
  (forall e, fromHex hex = Err e -> e = TypeError) /\
  (forallb matchable hex = true ->
   forall bytes, fromHex hex = Ok bytes -> length bytes = Nat.div2 (S (length hex))).
Proof.
  split; [|split].
  - unfold fromHex. destruct (match_1_2 hex) as [|c cs] eqn:Hm.
    + apply match_1_2_none in Hm. rewrite Hm. reflexivity.
    + destruct (existsb matchable hex) eqn:He; [reflexivity|].
      apply match_1_2_none in He. congruence.
  - apply fromHex_error.
  - intros Hm bytes Hb. unfold fromHex in Hb.
    pose proof (match_1_2_length hex Hm) as Hl.
    destruct (match_1_2 hex) as [|c cs]; [discriminate|].
    injection Hb as <-. cbn [map length] in *. rewrite length_map. exact Hl.
Qed.

Lemma fromHex_does_not_validate_witness :
  forallb matchable (lit "zz1") = true /\
  fromHex (lit "zz1") = Ok [x00; x01] /\
  length [x00; x01] = Nat.div2 (S (length (lit "zz1"))).
Proof.
  split; [reflexivity|]. split; [reflexivity|].
  exact (proj2 (proj2 (fromHex_does_not_validate (lit "zz1"))) eq_refl [x00; x01] eq_refl).
Defined.

(** ** Opening a note that has no nonce or salt *)

Lemma fromHex_opt_error (hex : option jsstring) (e : exn) :
  fromHex_opt hex = Err e -> e = TypeError.
Proof. destruct hex as [h|]; cbn; [apply fromHex_error | congruence]. Qed.

Lemma fromHex_opt_falsy (hex : option jsstring) :
  truthy_opt hex = false -> fromHex_opt hex = Err TypeError.
Proof. destruct hex as [[|c h]|]; cbn; [reflexivity | discriminate | reflexivity]. Qed.

Lemma decryptData_missing_field (W : SubtleCrypto) (ct : jsstring)
    (ivHex saltHex : option jsstring) (p : jsstring) :
  truthy_opt ivHex = false \/ truthy_opt saltHex = false \/ ct = [] ->
  decryptData W ct ivHex saltHex p = Err TypeError.
Proof.
  intros H. unfold decryptData.
  destruct (fromHex_opt saltHex) as [sb|e] eqn:Hs; cbn [bind];
    [|apply fromHex_opt_error in Hs; subst e; reflexivity].
  destruct (fromHex_opt ivHex) as [ib|e] eqn:Hi; cbn [bind];
    [|apply fromHex_opt_error in Hi; subst e; reflexivity].
  destruct (fromHex ct) as [d|e] eqn:Hc; cbn [bind];
    [|apply fromHex_error in Hc; subst e; reflexivity].
  exfalso. destruct H as [H | [H | H]].
  - rewrite (fromHex_opt_falsy _ H) in Hi. discriminate.
  - rewrite (fromHex_opt_falsy _ H) in Hs. discriminate.
  - subst ct. discriminate.
Qed.

(** X4.  [handleUnlock] does not look at [is_encrypted].  For a selected
    note whose nonce or salt is missing or empty (every note saved without
    encryption) or whose content is empty, [decryptData] throws a
    [TypeError] while reading the hexadecimal fields, before any key is
    derived and whatever the password; the handler answers as for a wrong
    password, with the alert "Invalid key.", and changes nothing else. *)
Theorem unlock_without_nonce_or_salt (W : SubtleCrypto) (B : Backend) (s : State)
    (note : Note.t) :
  selectedNote s = Some note ->
  truthy_opt (Note.iv note) = false \/ truthy_opt (Note.salt note) = false \/
  Note.content note = [] ->
  (forall p, decryptData W (Note.content note) (Note.iv note) (Note.salt note) p
             = Err TypeError) /\
  exec (handleUnlock W B) s =
  set_trace (trace s ++ [CryptoCall CallDecryptData; Alert (lit "Invalid key.") None]) s.
Proof.
  intros Hn Hmiss.
  assert (Hd : forall p, decryptData W (Note.content note) (Note.iv note) (Note.salt note) p
                         = Err TypeError)
    by (intros p; apply decryptData_missing_field; exact Hmiss).
  split; [exact Hd|].
  apply (handleUnlock_failure W B s note TypeError Hn). apply Hd.
Qed.

Lemma unlock_without_nonce_or_salt_witness :
  exists note,
    selectedNote Examples.reading_plain = Some note /\
    Note.is_encrypted note = false /\
    truthy_opt (Note.iv note) = false /\
    effects_of (handleUnlock Toy.primitives Toy.world) Examples.reading_plain =
    [CryptoCall CallDecryptData; Alert (lit "Invalid key.") None].
Proof.
  destruct (selectedNote Examples.reading_plain) as [note|] eqn:Hn;
    [|vm_compute in Hn; discriminate].
  assert (Hiv : truthy_opt (Note.iv note) = false)
    by (vm_compute in Hn; injection Hn as <-; reflexivity).
  exists note. split; [reflexivity|].
  split; [vm_compute in Hn; injection Hn as <-; reflexivity|].
  split; [exact Hiv|].
  apply effects_of_appended.
  exact (proj2 (unlock_without_nonce_or_salt Toy.primitives Toy.world Examples.reading_plain
                  note Hn (or_introl Hiv))).
Defined.

(** ** File names *)

Lemma last_segment_aux_clean (sep : Z) (acc s : jsstring) :
  ~ In sep s -> last_segment_aux sep acc s = rev acc ++ s.
Proof.
  revert acc. induction s as [|c r IH]; intros acc Hn; cbn [last_segment_aux].
  - symmetry. apply app_nil_r.
  - destruct (Z.eqb_spec c sep) as [->|Hne]; [exfalso; apply Hn; left; reflexivity|].
    rewrite IH by (intros Hin; apply Hn; right; exact Hin).
    cbn [rev]. rewrite <- app_assoc. reflexivity.
Qed.

Lemma last_segment_aux_app (sep : Z) (acc pre post : jsstring) :
  last_segment_aux sep acc (pre ++ sep :: post) = last_segment_aux sep [] post.
Proof.
  revert acc. induction pre as [|c pre IH]; intros acc; cbn [app last_segment_aux].
  - rewrite Z.eqb_refl. reflexivity.
  - destruct (c =? sep); apply IH.
Qed.

Lemma last_segment_after (sep : Z) (pre post : jsstring) :
  ~ In sep post -> last_segment sep (pre ++ sep :: post) = post.
Proof.
  intros Hn. unfold last_segment. rewrite last_segment_aux_app.
  apply last_segment_aux_clean. exact Hn.
Qed.

Lemma last_segment_whole (sep : Z) (s : jsstring) :
  ~ In sep s -> last_segment sep s = s.
Proof. intros Hn. unfold last_segment. apply last_segment_aux_clean. exact Hn. Qed.

Lemma last_segment_aux_no_sep (sep : Z) (acc s : jsstring) :
  ~ In sep acc -> ~ In sep (last_segment_aux sep acc s).
Proof.
  revert acc. induction s as [|c r IH]; intros acc Hn; cbn [last_segment_aux].
  - rewrite <- in_rev. exact Hn.
  - destruct (Z.eqb_spec c sep) as [->|Hne].
    + apply IH. intros [].
    + apply IH. intros [Hc | Hin]; [congruence | contradiction].
Qed.

Lemma drop_digits_suffix (s : jsstring) (x : Z) : In x (drop_digits s) -> In x s.
Proof.
  induction s as [|c r IH]; cbn [drop_digits]; [trivial|].
  destruct (is_digit c); [intros H; right; apply IH; exact H | trivial].
Qed.

Lemma strip_caret_prefix_suffix (s : jsstring) (x : Z) :
  In x (strip_caret_prefix s) -> In x s.
Proof.
  unfold strip_caret_prefix.
  destruct s as [|c s']; [trivial|].
  destruct c as [|p|p]; trivial.
  do 7 (destruct p as [p|p|]; trivial).
  destruct s' as [|d r]; [trivial|].
  destruct (is_digit d); [|trivial].
  destruct (drop_digits r) as [|u r'] eqn:Hd; [trivial|].
  assert (Hsuf : In x r' -> In x (94 :: d :: r)).
  { intros H. right. right. apply drop_digits_suffix. rewrite Hd. right. exact H. }
  destruct u as [|q|q]; trivial.
  do 7 (destruct q as [q|q|]; trivial).
Qed.

Lemma strip_caret_prefix_other (c : Z) (r : jsstring) :
  c <> 94 -> strip_caret_prefix (c :: r) = c :: r.
Proof.
  intros Hc. unfold strip_caret_prefix.
  destruct c as [|p|p]; try reflexivity.
  do 7 (destruct p as [p|p|]; try reflexivity).
  contradiction.
Qed.

Lemma drop_digits_all (ds rest : jsstring) :
  forallb is_digit ds = true -> drop_digits (ds ++ 95 :: rest) = 95 :: rest.
Proof.
  induction ds as [|d ds IH]; cbn [forallb app drop_digits]; [reflexivity|].
  destruct (is_digit d); [exact IH | discriminate].
Qed.

(** X5.  [getFileNameFromPath] always returns a name: never the empty
    string (a path that ends with a slash, or the empty path, gives
    "Unknown File") and never text with a slash in it. *)
Theorem getFileNameFromPath_is_a_name (path : jsstring) :
  getFileNameFromPath path <> [] /\ ~ In 47 (getFileNameFromPath path) /\
  (forall dir, getFileNameFromPath (dir ++ [47]) = lit "Unknown File").
Proof.
  split; [|split].
  - unfold getFileNameFromPath.
    destruct (strip_caret_prefix (last_segment 47 path)); cbn; discriminate.
  - unfold getFileNameFromPath.
    destruct (truthy (strip_caret_prefix (last_segment 47 path))).
    + intros Hin. apply strip_caret_prefix_suffix in Hin.
      revert Hin. apply last_segment_aux_no_sep. intros [].
    + vm_compute. intros H. repeat (destruct H as [H|H]; [discriminate|]). exact H.
  - intros dir. unfold getFileNameFromPath.
    rewrite (last_segment_after 47 dir []) by (intros []). reflexivity.
Qed.

(** X6.  The path [db.uploadFile] stores a file under is the user id, a
    slash, the clock reading, an underscore and the file's name.  The
    pattern [getFileNameFromPath] removes begins with a caret, which such a
    path never has, so the name shown for an uploaded file keeps the clock
    reading in front; only a name written with a caret before the digits
    loses them. *)
Theorem uploaded_name_keeps_its_timestamp (B : Backend) (body : list byte)
    (fileName : jsstring) (s : State) (uid : jsstring) :
  let n := length (trace s ++ [AuthGetUser]) in
  auth_getUser B n = Some uid ->
  Date_now B n <> [] -> forallb is_digit (Date_now B n) = true ->
  ~ In 47 fileName ->
  let filePath := uid ++ [47] ++ Date_now B n ++ [95] ++ fileName in
  effects_of (db_uploadFile B body fileName) s =
    [AuthGetUser; StorageUpload PRIMARY_BUCKET filePath body] /\
  getFileNameFromPath filePath = Date_now B n ++ [95] ++ fileName /\
  (fileName <> [] ->
   getFileNameFromPath (uid ++ [47; 94] ++ Date_now B n ++ [95] ++ fileName) = fileName).
Proof.
  intros n Hu Hne Hd Hslash filePath.
  assert (Hts : ~ In 47 (Date_now B n)).
  { intros Hin. rewrite forallb_forall in Hd. specialize (Hd 47 Hin). discriminate. }
  split; [|split].
  - apply effects_of_appended.
    unfold db_uploadFile, mbind, perform, modify, steps. cbn [fst snd trace set_trace].
    fold n. rewrite Hu. cbn [fst snd trace set_trace].
    fold filePath.
    destruct (storage_upload B _ PRIMARY_BUCKET filePath body);
      cbn [snd]; rewrite <- app_assoc; reflexivity.
  - unfold getFileNameFromPath, filePath.
    change (uid ++ [47] ++ Date_now B n ++ [95] ++ fileName)
      with (uid ++ 47 :: (Date_now B n ++ [95] ++ fileName)).
    rewrite last_segment_after.
    + destruct (Date_now B n) as [|d ds] eqn:Hdn; [congruence|].
      cbn [app]. rewrite strip_caret_prefix_other; [reflexivity|].
      cbn [forallb] in Hd. apply andb_true_iff in Hd as [Hd0 _].
      unfold is_digit in Hd0. lia.
    + intros Hin. apply in_app_or in Hin as [Hin | Hin]; [contradiction|].
      cbn in Hin. destruct Hin as [H | Hin]; [discriminate | contradiction].
  - intros Hname. unfold getFileNameFromPath.
    change (uid ++ [47; 94] ++ Date_now B n ++ [95] ++ fileName)
      with (uid ++ 47 :: (94 :: Date_now B n ++ 95 :: fileName)).
    rewrite last_segment_after.
    + destruct (Date_now B n) as [|d ds] eqn:Hdn; [congruence|].
      cbn [forallb] in Hd. apply andb_true_iff in Hd as [Hd0 Hds].
      cbn [app]. unfold strip_caret_prefix. rewrite Hd0.
      rewrite drop_digits_all by exact Hds.
      destruct fileName; [congruence | reflexivity].
    + intros [H | Hin]; [discriminate|].
      apply in_app_or in Hin as [Hin | Hin]; [contradiction|].
      destruct Hin as [H | Hin]; [discriminate | contradiction].
Qed.

Lemma uploaded_name_keeps_its_timestamp_witness :
  effects_of (db_uploadFile Toy.world [x01] (lit "notes.txt")) Toy.start =
    [AuthGetUser;
     StorageUpload PRIMARY_BUCKET (lit "u1/1700000000000_notes.txt") [x01]] /\
  getFileNameFromPath (lit "u1/1700000000000_notes.txt") = lit "1700000000000_notes.txt" /\
  getFileNameFromPath (lit "u1/^1700000000000_notes.txt") = lit "notes.txt".
Proof.
  assert (Hs : ~ In 47 (lit "notes.txt"))
    by (vm_compute; intros H; repeat (destruct H as [H|H]; [discriminate|]); exact H).
  destruct (uploaded_name_keeps_its_timestamp Toy.world [x01] (lit "notes.txt") Toy.start
              (lit "u1") eq_refl ltac:(discriminate) eq_refl Hs) as (H1 & H2 & H3).
  split; [exact H1|]. split; [exact H2|]. apply H3. discriminate.
Defined.

Lemma includes_word_In (words : list jsstring) (w : jsstring) :
  includes_word words w = true -> In w words.
Proof.
  unfold includes_word. intros H. apply existsb_exists in H as (x & Hin & He).
  unfold jsstring_eqb in He. apply bool_decide_eq_true in He. subst x. exact Hin.
Qed.

Lemma isTextFile_not_image (filename : jsstring) :
  isTextFile filename = true -> isImageFile filename = false.
Proof.
  unfold isTextFile, isImageFile. generalize (extension filename). intros e H1.
  destruct (includes_word (map lit ["png"; "jpg"; "jpeg"; "gif"; "webp"; "svg"; "bmp"]%string) e)
    eqn:H2; [|reflexivity].
  apply includes_word_In in H1, H2. vm_compute in H1, H2.
  repeat (destruct H1 as [H1|H1]; [subst e|]);
    try (repeat (destruct H2 as [H2|H2]; [discriminate|]); contradiction).
Qed.

(** X7.  No file name is of two kinds: the extensions [isTextFile],
    [isImageFile] and [isPdfFile] accept do not overlap, so the branches of
    [indexAttachments] and of the preview never compete for a file. *)
Theorem file_kinds_are_exclusive (filename : jsstring) :
  isTextFile filename && isImageFile filename = false /\
  isTextFile filename && isPdfFile filename = false /\
  isImageFile filename && isPdfFile filename = false.
Proof.
  unfold isTextFile, isImageFile, isPdfFile, jsstring_eqb.
  generalize (extension filename). intros e.
  repeat split.
  - destruct (includes_word _ e) eqn:H1; [|reflexivity].
    destruct (includes_word (map lit ["png"; "jpg"; "jpeg"; "gif"; "webp"; "svg"; "bmp"]%string) e)
      eqn:H2; [|reflexivity].
    apply includes_word_In in H1, H2. vm_compute in H1, H2.
    repeat (destruct H1 as [H1|H1]; [subst e|]);
      try (repeat (destruct H2 as [H2|H2]; [discriminate|]); contradiction).
  - destruct (includes_word _ e) eqn:H1; [|reflexivity].
    apply includes_word_In in H1. vm_compute in H1. cbn [andb].
    apply bool_decide_eq_false.
    repeat (destruct H1 as [H1|H1]; [subst e; vm_compute; discriminate|]).
    contradiction.
  - destruct (includes_word _ e) eqn:H1; [|reflexivity].
    apply includes_word_In in H1. vm_compute in H1. cbn [andb].
    apply bool_decide_eq_false.
    repeat (destruct H1 as [H1|H1]; [subst e; vm_compute; discriminate|]).
    contradiction.
Qed.

(** X8.  The extension is what follows the last dot, in lower case, and a
    name without a dot is its own extension: [report.TXT] and [a.b.md] are
    text files, [notes.txt.zip] is not, and a file called [LOG] or [json]
    is indexed as text. *)
Theorem extension_is_after_the_last_dot (stem ext : jsstring) :
  ~ In 46 ext ->
  extension (stem ++ [46] ++ ext) = toLowerCase ext /\
  extension ext = toLowerCase ext /\
  isTextFile (stem ++ [46] ++ ext) = isTextFile ext /\
  isImageFile (stem ++ [46] ++ ext) = isImageFile ext.
Proof.
  intros Hn.
  assert (H1 : extension (stem ++ [46] ++ ext) = toLowerCase ext)
    by (unfold extension; cbn [app]; rewrite last_segment_after by exact Hn; reflexivity).
  assert (H2 : extension ext = toLowerCase ext)
    by (unfold extension; rewrite last_segment_whole by exact Hn; reflexivity).
  unfold isTextFile, isImageFile. rewrite H1, H2. repeat split.
Qed.

Lemma extension_is_after_the_last_dot_witness :
  ~ In 46 (lit "LOG") /\
  extension (lit "notes.txt.LOG") = lit "log" /\
  isTextFile (lit "LOG") = true /\ isTextFile (lit "notes.txt.LOG") = true /\
  isTextFile (lit "notes.txt.zip") = false.
Proof.
  assert (Hn : ~ In 46 (lit "LOG"))
    by (vm_compute; intros H; repeat (destruct H as [H|H]; [discriminate|]); exact H).
  destruct (extension_is_after_the_last_dot (lit "notes.txt") (lit "LOG") Hn)
    as (H1 & _ & H3 & _).
  split; [exact Hn|]. split; [exact H1|]. split; [reflexivity|].
  split; [transitivity (isTextFile (lit "LOG")); [exact H3 | reflexivity] | reflexivity].
Defined.

(** ** What [db.getNotes] hands to the component *)

Lemma or_else_truthy (a : option jsstring) (b : jsstring) :
  b <> [] -> or_else a b <> [].
Proof. destruct a as [[|c r]|]; cbn; congruence. Qed.

(** X9.  [db.getNotes] returns one note per row, in the order of the rows,
    and fills in what is missing: a title and a category are never empty
    ("Untitled Note" and "Personal" stand in for a NULL or empty column),
    and the content is the [ciphertext] column whenever that holds text,
    the [content] column otherwise, whether or not the note is encrypted.
    A failed query is thrown to the caller. *)
Theorem getNotes_fills_in_defaults (B : Backend) (s : State) :
  match notes_select B (length (trace s ++ [NotesSelect])) with
  | Ok rows =>
      exists loaded,
        fst (db_getNotes B s) = Ok loaded /\
        Forall2 (fun r n =>
                   Note.id n = StoredRow.id r /\
                   Note.title n <> [] /\ Note.category n <> [] /\
                   (truthy_opt (StoredRow.title r) = true ->
                    Some (Note.title n) = StoredRow.title r) /\
                   Note.content n =
                     (if truthy_opt (StoredRow.ciphertext r)
                      then default [] (StoredRow.ciphertext r)
                      else default [] (StoredRow.content r)) /\
                   Note.is_encrypted n = StoredRow.is_encrypted r /\
                   Note.iv n = StoredRow.iv r /\ Note.salt n = StoredRow.salt r /\
                   Note.attachments n = StoredRow.attachments r)
                rows loaded
  | Err error => fst (db_getNotes B s) = Err error
  end /\
  effects_of (db_getNotes B) s = [NotesSelect].
Proof.
  split.
  - unfold db_getNotes, mbind, perform, modify, steps. cbn [fst snd trace set_trace].
    destruct (notes_select B (length (trace s ++ [NotesSelect]))) as [rows|error];
      [|reflexivity].
    eexists. split; [reflexivity|].
    induction rows as [|r rows IH]; [constructor|].
    cbn [map]. constructor; [|exact IH]. cbn.
    split; [reflexivity|].
    split; [apply or_else_truthy; discriminate|].
    split; [apply or_else_truthy; discriminate|].
    split; [destruct (StoredRow.title r) as [[|c t]|]; cbn; congruence|].
    split; [|repeat split].
    destruct (StoredRow.ciphertext r) as [[|c t]|]; cbn;
      destruct (StoredRow.content r) as [[|c' t']|]; reflexivity.
  - apply effects_of_appended.
    unfold db_getNotes, mbind, perform, modify, steps. cbn [fst snd trace set_trace].
    destruct (notes_select B (length (trace s ++ [NotesSelect]))); reflexivity.
Qed.

(** ** What the services leave alone

    The calls into [services/crypto] and [db] change nothing of the
    component but the effects performed, the random source and, for
    [fetchNotes], the list of notes; indexing adds to the two preview
    caches. *)

#[local] Instance same_on_preorder {X : Type} (f : State -> X) : PreOrder (same_on f).
Proof.
  split.
  - intros s. reflexivity.
  - intros s1 s2 s3 H12 H23. unfold same_on in *. congruence.
Qed.

#[local] Instance keeps_entries_preorder {V : Type} : PreOrder (@keeps_entries V).
Proof.
  split.
  - intros c k H. exact H.
  - intros c1 c2 c3 H12 H23 k H. apply H23, H12, H.
Qed.

#[local] Instance previews_kept_preorder : PreOrder previews_kept.
Proof.
  split.
  - intros s. split; reflexivity.
  - intros s1 s2 s3 [H12 H12'] [H23 H23']. split; etransitivity; eassumption.
Qed.

Lemma yields_rng (R : State -> State -> Prop) `{!PreOrder R} {A : Type}
    (f : Rng -> result A * Rng) :
  (forall rng' s, R s (set_rng rng' s)) ->
  yields R (fun _ => True) (fun s => let '(r, rng') := f (rng s) in (r, set_rng rng' s)).
Proof.
  intros Hr s. destruct (f (rng s)) as [r rng']. split; [apply Hr | trivial].
Qed.

(** One step of a proof that a computation keeps the relation [R]; [leaf]
    closes what is asked of the single state changes. *)
Ltac run_step R leaf :=
  match goal with
  | |- PreOrder _ => typeclasses eauto
  | |- True => exact I
  | |- yields _ _ (mbind _ _) => eapply (yields_bind R (fun _ => True)); [|intros ? _]
  | |- yields _ _ (ret _) => apply yields_ret
  | |- yields _ _ (throw _) => apply yields_throw
  | |- yields _ _ (lift _) => apply yields_lift
  | |- yields _ _ get => apply yields_get
  | |- yields _ _ steps => apply yields_steps
  | |- yields _ _ (try_catch _ _) => apply yields_try_catch
  | |- yields _ _ (finally _ _) => apply yields_finally
  | |- yields _ _ (for_each _ _) => apply yields_for_each
  | |- yields _ _ (perform _) => apply yields_modify
  | |- yields _ _ (modify _) => apply yields_modify
  | |- yields _ _ (fun s => let '(_, _) := _ (rng s) in _) => apply yields_rng
  | |- yields _ _ (if ?b then _ else _) => destruct b
  | |- yields _ _ (match ?x with _ => _ end) => destruct x
  | |- forall _, _ => intros ?
  | |- _ => leaf
  end.

Ltac run_steps R leaf := repeat (run_step R leaf).

Section Services.
Variable W : SubtleCrypto.
Variable B : Backend.
Context (R : State -> State -> Prop) `{!PreOrder R}.
Hypothesis R_trace : forall t s, R s (set_trace t s).
Hypothesis R_rng : forall r s, R s (set_rng r s).

Lemma svc_call_encryptData (text password : jsstring) :
  yields R (fun _ => True) (call_encryptData W text password).
Proof. unfold call_encryptData, perform. run_steps R ltac:(first [apply R_trace | apply R_rng]). Qed.

Lemma svc_call_encryptFile (file : File) (password : jsstring) :
  yields R (fun _ => True) (call_encryptFile W file password).
Proof. unfold call_encryptFile, perform. run_steps R ltac:(first [apply R_trace | apply R_rng]). Qed.

Lemma svc_call_decryptData (ct : jsstring) (ivHex saltHex : option jsstring) (p : jsstring) :
  yields R (fun _ => True) (call_decryptData W ct ivHex saltHex p).
Proof. unfold call_decryptData, perform. run_steps R ltac:(apply R_trace). Qed.

Lemma svc_call_decryptFile (blob : Blob) (password : jsstring) (mime : option jsstring) :
  yields R (fun _ => True) (call_decryptFile W blob password mime).
Proof. unfold call_decryptFile, perform. run_steps R ltac:(apply R_trace). Qed.

Lemma svc_db_uploadFile (body : list byte) (name : jsstring) :
  yields R (fun _ => True) (db_uploadFile B body name).
Proof. unfold db_uploadFile, perform. run_steps R ltac:(apply R_trace). Qed.

Lemma svc_db_downloadFile (path : jsstring) :
  yields R (fun _ => True) (db_downloadFile B path).
Proof. unfold db_downloadFile, perform. run_steps R ltac:(apply R_trace). Qed.

Lemma svc_db_insertNote (note : NotePayload.t) :
  yields R (fun _ => True) (db_insertNote B note).
Proof. unfold db_insertNote, perform. run_steps R ltac:(apply R_trace). Qed.

Lemma svc_db_updateNote (id : jsstring) (updates : Updates.t) :
  yields R (fun _ => True) (db_updateNote B id updates).
Proof. unfold db_updateNote, perform. run_steps R ltac:(apply R_trace). Qed.

Lemma svc_processFileUploads (files : list File) (enc : bool) (password : jsstring) :
  yields R (fun _ => True) (processFileUploads W B files enc password).
Proof.
  induction files as [|file rest IH]; cbn [processFileUploads].
  - run_steps R idtac.
  - run_steps R ltac:(first [apply svc_call_encryptFile | apply svc_db_uploadFile | exact IH]).
Qed.

Hypothesis R_notes : forall v s, R s (set_notes v s).

Lemma svc_fetchNotes : yields R (fun _ => True) (fetchNotes B).
Proof.
  unfold fetchNotes, db_getNotes, perform.
  run_steps R ltac:(first [apply R_trace | apply R_notes]).
Qed.

Hypothesis R_text :
  forall k v s, R s (set_attachmentTextCache (<[k := v]> (attachmentTextCache s)) s).
Hypothesis R_image :
  forall k v s, R s (set_attachmentImageCache (<[k := v]> (attachmentImageCache s)) s).

Lemma svc_index_path (tc ic : gmap (list Z) (list Z)) (note : Note.t)
    (password : option jsstring) (path : jsstring) :
  yields R (fun _ => True) (index_path W B tc ic note password path).
Proof.
  unfold index_path, perform.
  run_steps R ltac:(first [ apply svc_db_downloadFile | apply svc_call_decryptFile
                          | apply R_trace | apply R_text | apply R_image ]).
Qed.

Lemma svc_indexAttachments (note : Note.t) (password : option jsstring) :
  yields R (fun _ => True) (indexAttachments W B note password).
Proof.
  unfold indexAttachments. run_steps R ltac:(apply svc_index_path).
Qed.

End Services.

(** ** The preview caches *)

Lemma previews_kept_same (s s' : State) :
  attachmentTextCache s' = attachmentTextCache s ->
  attachmentImageCache s' = attachmentImageCache s -> previews_kept s s'.
Proof. intros Ht Hi. split; intros k Hk; [rewrite Ht | rewrite Hi]; exact Hk. Qed.

Lemma keeps_entries_insert {V : Type} (c : gmap (list Z) V) (k : list Z) (v : V) :
  keeps_entries c (<[k := v]> c).
Proof.
  intros k' Hk. destruct (decide (k' = k)) as [->|Hne].
  - rewrite lookup_insert_eq. eauto.
  - rewrite lookup_insert_ne by congruence. exact Hk.
Qed.

Lemma previews_kept_text (k v : list Z) (s : State) :
  previews_kept s (set_attachmentTextCache (<[k := v]> (attachmentTextCache s)) s).
Proof. split; [apply keeps_entries_insert | intros k' Hk; exact Hk]. Qed.

Lemma previews_kept_image (k v : list Z) (s : State) :
  previews_kept s (set_attachmentImageCache (<[k := v]> (attachmentImageCache s)) s).
Proof. split; [intros k' Hk; exact Hk | apply keeps_entries_insert]. Qed.

Lemma clear_lock_timer_keeps {X : Type} (f : State -> X) (s : State) :
  (forall t s0, f (set_timers t s0) = f s0) -> f (clear_lock_timer s) = f s.
Proof.
  intros Ht. unfold clear_lock_timer, clearTimeout.
  destruct (lockTimerRef s); [apply Ht | reflexivity].
Qed.

(** What closes the goals left by [run_steps] for [previews_kept]. *)
Ltac previews_leaf W B :=
  first [ apply (svc_indexAttachments W B previews_kept)
        | apply (svc_fetchNotes B previews_kept)
        | apply (svc_processFileUploads W B previews_kept)
        | apply (svc_call_encryptData W previews_kept)
        | apply (svc_call_decryptData W previews_kept)
        | apply (svc_db_insertNote B previews_kept)
        | apply (svc_db_updateNote B previews_kept)
        | apply previews_kept_text
        | apply previews_kept_image
        | (apply previews_kept_same; reflexivity)
        | (apply previews_kept_same; apply clear_lock_timer_keeps; reflexivity) ].

Lemma fold_lock_callback_keeps {X A : Type} (f : State -> X) (l : list A) (s : State) :
  (forall s0, f (lock_callback s0) = f s0) ->
  f (fold_left (fun acc _ => lock_callback acc) l s) = f s.
Proof.
  intros Hf. revert s. induction l as [|a l IH]; intros s; [reflexivity|].
  cbn [fold_left]. rewrite IH. apply Hf.
Qed.

(** The timer callback changes three cells and nothing else. *)
Lemma elapse_keeps {X : Type} (f : State -> X) (ms : N) (s : State) :
  (forall s0, f (lock_callback s0) = f s0) ->
  (forall t s0, f (set_timers t s0) = f s0) ->
  (forall n s0, f (set_now n s0) = f s0) ->
  f (elapse ms s) = f s.
Proof.
  intros Hl Ht Hn. unfold elapse, run_due_timers.
  rewrite fold_lock_callback_keeps by exact Hl. rewrite Ht. apply Hn.
Qed.

Section Previews.
Variable W : SubtleCrypto.
Variable B : Backend.

Lemma previews_handleSelectNote (id : jsstring) :
  yields previews_kept (fun _ => True) (handleSelectNote W B id).
Proof. unfold handleSelectNote. run_steps previews_kept ltac:(previews_leaf W B). Qed.

Lemma previews_handleUnlock : yields previews_kept (fun _ => True) (handleUnlock W B).
Proof. unfold handleUnlock, perform. run_steps previews_kept ltac:(previews_leaf W B). Qed.

Lemma previews_handleSaveNewNote :
  yields previews_kept (fun _ => True) (handleSaveNewNote W B).
Proof. unfold handleSaveNewNote, perform. run_steps previews_kept ltac:(previews_leaf W B). Qed.

Lemma previews_handleUpdateNote :
  yields previews_kept (fun _ => True) (handleUpdateNote W B).
Proof. unfold handleUpdateNote, perform. run_steps previews_kept ltac:(previews_leaf W B). Qed.

(** X10.  Nothing but unmounting the component ever removes a preview of
    an attachment.  Selecting another note and the auto-lock timer empty
    the cache of decrypted notes, but the text and the images of
    attachments that were decrypted for an unlocked note stay in
    [attachmentTextCache] and [attachmentImageCache], where the search
    still reads them; the timer leaves both caches exactly as they are. *)
Theorem previews_are_never_dropped (e : Event) (s : State) :
  e <> Unmount ->
  previews_kept s (step W B e s) /\
  (forall ms, e = Elapse ms ->
     attachmentTextCache (step W B e s) = attachmentTextCache s /\
     attachmentImageCache (step W B e s) = attachmentImageCache s).
Proof.
  intros He. split.
  - destruct e; cbn [step]; try (apply previews_kept_same; reflexivity).
    + transitivity (set_session true s); [apply previews_kept_same; reflexivity|].
      apply (svc_fetchNotes B previews_kept); intros; apply previews_kept_same; reflexivity.
    + apply (svc_fetchNotes B previews_kept); intros; apply previews_kept_same; reflexivity.
    + apply previews_handleSelectNote.
    + apply previews_handleUnlock.
    + apply previews_kept_same; apply elapse_keeps; reflexivity.
    + unfold openEditor. destruct (selectedNote s); apply previews_kept_same; reflexivity.
    + apply previews_handleSaveNewNote.
    + apply previews_handleUpdateNote.
    + congruence.
  - intros ms ->. cbn [step]. split; apply elapse_keeps; reflexivity.
Qed.

End Previews.

Lemma previews_are_never_dropped_witness :
  Elapse 60000 <> Unmount /\
  is_Some (decryptedCache Examples.unlocked_with_preview !! lit "a") /\
  decryptedCache
    (step Toy.primitives Examples.world_with_attachment (Elapse 60000)
       Examples.unlocked_with_preview) = ∅ /\
  attachmentTextCache
    (step Toy.primitives Examples.world_with_attachment (Elapse 60000)
       Examples.unlocked_with_preview)
    !! lit "u1/1700000000000_secret.txt" = Some (lit "attached secret").
Proof.
  assert (Hne : Elapse 60000 <> Unmount) by discriminate.
  destruct (previews_are_never_dropped Toy.primitives Examples.world_with_attachment
              (Elapse 60000) Examples.unlocked_with_preview Hne) as [_ Hsame].
  destruct (Hsame 60000%N eq_refl) as [Ht _].
  split; [exact Hne|].
  split; [vm_compute; eauto|].
  split; [vm_compute; reflexivity|].
  rewrite Ht. vm_compute. reflexivity.
Defined.

(** ** The uploading flag *)

(** What closes the goals left by [run_steps] for a part [f] of the state
    that the services and the timer bookkeeping do not touch. *)
Ltac same_leaf W B f :=
  first [ apply (svc_indexAttachments W B (same_on f))
        | apply (svc_fetchNotes B (same_on f))
        | apply (svc_processFileUploads W B (same_on f))
        | apply (svc_call_encryptData W (same_on f))
        | apply (svc_call_decryptData W (same_on f))
        | apply (svc_db_insertNote B (same_on f))
        | apply (svc_db_updateNote B (same_on f))
        | reflexivity
        | (apply (clear_lock_timer_keeps f); reflexivity) ].

Lemma same_on_exec {X A : Type} (f : State -> X) (m : M A) (s : State) :
  yields (same_on f) (fun _ => True) m -> f (exec m s) = f s.
Proof. intros H. exact (proj1 (H s)). Qed.

Section Uploading.
Variable W : SubtleCrypto.
Variable B : Backend.






End Uploading.


(** ** Indexing what is already indexed *)

Lemma index_path_cached (W : SubtleCrypto) (B : Backend) (note : Note.t)
    (password : option jsstring) (path : jsstring) (s0 s : State) :
  already_indexed s0 path = true ->
  index_path W B (attachmentTextCache s0) (attachmentImageCache s0) note password path s
  = (Ok tt, s).
Proof.
  unfold already_indexed, index_path. cbv zeta.
  destruct (isTextFile (getFileNameFromPath path)) eqn:Ht.
  - intros ->. rewrite (isTextFile_not_image _ Ht). reflexivity.
  - destruct (isImageFile (getFileNameFromPath path)); [intros ->|]; reflexivity.
Qed.

(** X12.  [indexAttachments] fetches nothing twice.  When every
    attachment of the note is a text file whose (non-empty) text is in the
    preview cache, an image whose data URL is, or a file of another kind
    (a PDF, an archive), the call performs no download and no decryption
    and leaves the state as it is; the same holds for a note without
    attachments. *)
Theorem indexing_skips_what_is_cached (W : SubtleCrypto) (B : Backend) (note : Note.t)
    (password : option jsstring) (s : State) :
  forallb (already_indexed s) (default [] (Note.attachments note)) = true ->
  indexAttachments W B note password s = (Ok tt, s) /\
  effects_of (indexAttachments W B note password) s = [].
Proof.
  intros Hall.
  assert (Hrun : indexAttachments W B note password s = (Ok tt, s)).
  { unfold indexAttachments.
    destruct (Note.attachments note) as [[|p ps]|]; try reflexivity.
    rewrite mbind_get. cbn [default] in Hall.
    generalize dependent (p :: ps). intros paths Hall.
    induction paths as [|q qs IH]; [reflexivity|].
    cbn [forallb] in Hall. apply andb_true_iff in Hall as [Hq Hqs].
    cbn [for_each]. unfold mbind. rewrite index_path_cached by exact Hq.
    apply IH. exact Hqs. }
  split; [exact Hrun|].
  unfold effects_of. rewrite Hrun. cbn [snd]. apply skipn_all.
Qed.

Lemma indexing_skips_what_is_cached_witness :
  exists note,
    selectedNote Examples.unlocked_with_preview = Some note /\
    Note.attachments note = Some [lit "u1/1700000000000_secret.txt"] /\
    forallb (already_indexed Examples.unlocked_with_preview)
      (default [] (Note.attachments note)) = true /\
    effects_of (indexAttachments Toy.primitives Examples.world_with_attachment note
                  (Some (lit "pw"))) Examples.unlocked_with_preview = [].
Proof.
  destruct (selectedNote Examples.unlocked_with_preview) as [note|] eqn:Hn;
    [|vm_compute in Hn; discriminate].
  assert (Ha : Note.attachments note = Some [lit "u1/1700000000000_secret.txt"])
    by (vm_compute in Hn; injection Hn as <-; reflexivity).
  assert (Hall : forallb (already_indexed Examples.unlocked_with_preview)
                   (default [] (Note.attachments note)) = true)
    by (rewrite Ha; vm_compute; reflexivity).
  exists note. split; [reflexivity|]. split; [exact Ha|]. split; [exact Hall|].
  exact (proj2 (indexing_skips_what_is_cached Toy.primitives Examples.world_with_attachment
                  note (Some (lit "pw")) Examples.unlocked_with_preview Hall)).
Defined.

(** ** Opening the editor on an encrypted note without text *)

Section Editor.
Variable W : SubtleCrypto.
Variable B : Backend.

Lemma notes_handleUnlock : yields (same_on notes) (fun _ => True) (handleUnlock W B).
Proof.
  unfold handleUnlock, perform. run_steps (same_on notes) ltac:(same_leaf W B notes).
Qed.

Lemma fromHex_nonempty (hex : jsstring) (bytes : list byte) :
  fromHex hex = Ok bytes -> hex <> [].
Proof. intros H ->. discriminate. Qed.

Lemma decryptData_content_nonempty (ct : jsstring) (ivHex saltHex : option jsstring)
    (p plain : jsstring) :
  decryptData W ct ivHex saltHex p = Ok plain -> ct <> [].
Proof.
  intros H ->. rewrite decryptData_missing_field in H by auto. discriminate.
Qed.

(** X13.  The note view and the edit form read the text of an encrypted
    note as [decryptedCache[id]?.content || selectedNote.content].  When
    the decrypted text is the empty string (the note was saved with nothing
    in the editor) the first operand is falsy, so after a successful unlock
    the edit button fills the form's content with the stored ciphertext, in
    hexadecimal, which is never empty. *)
Theorem empty_encrypted_note_opens_as_ciphertext (s : State) (note : Note.t) :
  selectedNote s = Some note ->
  decryptData W (Note.content note) (Note.iv note) (Note.salt note) (unlockPassword s)
    = Ok [] ->
  let s1 := step W B Unlock s in
  let s2 := step W B OpenEditor s1 in
  decryptedCache s1 !! Note.id note =
    Some {| Cached.title := Note.title note; Cached.content := [] |} /\
  isEditing s2 = true /\
  EditForm.content (editForm s2) = Note.content note /\
  Note.content note <> [].
Proof.
  intros Hn Hd s1 s2. subst s2 s1. cbn [step].
  set (s1 := exec (handleUnlock W B) s).
  pose proof (handleUnlock_success W B s note [] Hn Hd) as Hc. fold s1 in Hc.
  apply core_fields in Hc as (Hcache & _ & _ & Hsel & _ & _).
  assert (Hnotes : notes s1 = notes s) by (apply same_on_exec, notes_handleUnlock).
  assert (Hn1 : selectedNote s1 = Some note).
  { unfold selectedNote in *. rewrite Hsel, Hnotes. exact Hn. }
  assert (Hl : decryptedCache s1 !! Note.id note =
               Some {| Cached.title := Note.title note; Cached.content := [] |}).
  { rewrite Hcache. apply lookup_insert_eq. }
  split; [exact Hl|].
  unfold openEditor. rewrite Hn1, Hl. cbn.
  split; [reflexivity|]. split; [reflexivity|].
  eapply decryptData_content_nonempty. exact Hd.
Qed.

End Editor.

Lemma empty_encrypted_note_opens_as_ciphertext_witness :
  exists note,
    selectedNote Examples.blank_ready = Some note /\
    decryptData Toy.primitives (Note.content note) (Note.iv note) (Note.salt note)
      (unlockPassword Examples.blank_ready) = Ok [] /\
    EditForm.content
      (editForm (run Toy.primitives Examples.world_with_blank [Unlock; OpenEditor]
                   Examples.blank_ready))
    = ciphertext Examples.sealed_empty /\
    ciphertext Examples.sealed_empty <> [].
Proof.
  destruct (selectedNote Examples.blank_ready) as [note|] eqn:Hn;
    [|vm_compute in Hn; discriminate].
  assert (Hc : Note.content note = ciphertext Examples.sealed_empty)
    by (vm_compute in Hn; injection Hn as <-; reflexivity).
  assert (Hd : decryptData Toy.primitives (Note.content note) (Note.iv note) (Note.salt note)
                 (unlockPassword Examples.blank_ready) = Ok []).
  { vm_compute in Hn. injection Hn as <-. vm_compute. reflexivity. }
  destruct (empty_encrypted_note_opens_as_ciphertext Toy.primitives Examples.world_with_blank
              Examples.blank_ready note Hn Hd) as (_ & _ & He & Hne).
  exists note. split; [reflexivity|]. split; [exact Hd|].
  split; [rewrite <- Hc; exact He | rewrite <- Hc; exact Hne].
Defined.

(** ** Plaintext and the auto-lock timer *)

Section Deadline.
Variable W : SubtleCrypto.
Variable B : Backend.

Lemma lock_pending_same (s s' : State) :
  core s' = core s -> lock_pending s -> lock_pending s'.
Proof.
  intros Hc (h & d & Hr & Hin & Hd).
  apply core_fields_same in Hc as (_ & Ht & Hr' & _ & Hn & _).
  exists h, d. rewrite Ht, Hr', Hn. auto.
Qed.

(** X14.  Decrypted text is never held without a deadline.  In every state
    the session can reach, if the cache of decrypted notes is not empty then
    the timer whose handle the component keeps is pending, and it fires, and
    empties the cache, at most 60 seconds from now. *)
Theorem cached_plaintext_has_a_deadline (s : State) :
  reachable W B s -> decryptedCache s <> ∅ -> lock_pending s.
Proof.
  induction 1 as [now0 next0 rng0 trace0 | e s Hr IH]; [intros H; contradiction H; reflexivity|].
  pose proof (step_core W B e s) as Hs. cbn zeta in Hs.
  set (s' := step W B e s) in *. intros Hne.
  assert (Hsame : core s' = core s -> lock_pending s').
  { intros Hc. apply (lock_pending_same s s' Hc). apply IH.
    apply core_fields_same in Hc as (Hc & _). rewrite <- Hc. exact Hne. }
  assert (Hempty : decryptedCache s' = ∅ -> lock_pending s') by (intros He; contradiction).
  destruct e; try (apply Hsame; exact Hs).
  - apply core_fields in Hs as (Hc & _). apply Hempty, Hc.
  - destruct Hs as [[_ Hs] | (note & plain & _ & _ & _ & Hs)]; [apply Hsame; exact Hs|].
    apply core_fields in Hs as (_ & Ht & Hr' & _ & Hn & _).
    exists (next_timer s), (now s + 60000). rewrite Ht, Hr', Hn.
    split; [reflexivity|]. split; [apply in_or_app; right; left; reflexivity | lia].
  - rewrite elapse_core in Hs. cbn zeta in Hs.
    apply core_fields in Hs as (Hc & Ht & Hr' & _ & Hn & _).
    destruct (List.filter (fun t => snd t <=? now s + Z.of_N ms) (timers s)) as [|t ts] eqn:Hdue;
      [|apply Hempty, Hc].
    destruct IH as (h & d & Hh & Hin & Hd); [rewrite <- Hc; exact Hne|].
    assert (Hnot : (d <=? now s + Z.of_N ms) = false).
    { destruct (d <=? now s + Z.of_N ms) eqn:Hle; [|reflexivity].
      assert (Hin' : In (h, d) (List.filter (fun t => snd t <=? now s + Z.of_N ms) (timers s)))
        by (apply filter_In; split; [exact Hin | exact Hle]).
      rewrite Hdue in Hin'. contradiction. }
    exists h, d. rewrite Ht, Hr', Hn. split; [exact Hh|]. split.
    + apply filter_In. split; [exact Hin|]. cbn. rewrite Hnot. reflexivity.
    + apply Z.leb_gt in Hnot. lia.
  - apply core_fields in Hs as (Hc & Ht & Hr' & _ & Hn & _).
    destruct IH as (h & d & Hh & Hin & Hd); [rewrite <- Hc; exact Hne|].
    exists h, d. rewrite Ht, Hr', Hn. auto.
  - apply core_fields in Hs as (Hc & Ht & Hr' & _ & Hn & _).
    destruct IH as (h & d & Hh & Hin & Hd); [rewrite <- Hc; exact Hne|].
    exists h, d. rewrite Ht, Hr', Hn. auto.
  - apply core_fields in Hs as (Hc & _). apply Hempty, Hc.
Qed.

End Deadline.

Lemma cached_plaintext_has_a_deadline_witness :
  reachable Toy.primitives Toy.world
    (run Toy.primitives Toy.world [Unlock; Elapse 59999] Toy.ready) /\
  decryptedCache (run Toy.primitives Toy.world [Unlock; Elapse 59999] Toy.ready) <> ∅ /\
  lock_pending (run Toy.primitives Toy.world [Unlock; Elapse 59999] Toy.ready).
Proof.
  assert (Hr : reachable Toy.primitives Toy.world
                 (run Toy.primitives Toy.world [Unlock; Elapse 59999] Toy.ready))
    by (apply reachable_run; exact ready_reachable).
  assert (Hne : decryptedCache (run Toy.primitives Toy.world [Unlock; Elapse 59999] Toy.ready)
                <> ∅).
  { intros He.
    assert (Hl : decryptedCache (run Toy.primitives Toy.world [Unlock; Elapse 59999] Toy.ready)
                 !! lit "a" = None) by (rewrite He; apply lookup_empty).
    vm_compute in Hl. discriminate. }
  split; [exact Hr|]. split; [exact Hne|].
  exact (cached_plaintext_has_a_deadline Toy.primitives Toy.world _ Hr Hne).
Defined.

(** ** What the save handlers upload and write *)

(** One step of a proof about the effects of a computation, for any
    property [Q] of effects. *)
Ltac effect_step Q leaf :=
  match goal with
  | |- PreOrder _ => typeclasses eauto
  | |- True => exact I
  | |- trace _ = trace _ => reflexivity
  | |- yields _ _ (mbind _ _) =>
      eapply (yields_bind (performs Q) (fun _ => True)); [|intros ? _]
  | |- yields _ _ (ret _) => apply yields_ret
  | |- yields _ _ (throw _) => apply yields_throw
  | |- yields _ _ (lift _) => apply yields_lift
  | |- yields _ _ get => apply yields_get
  | |- yields _ _ steps => apply yields_steps
  | |- yields _ _ (perform _) => apply performs_perform
  | |- yields _ _ (try_catch _ _) => apply yields_try_catch
  | |- yields _ _ (finally _ _) => apply yields_finally
  | |- yields _ _ (modify _) => apply performs_modify
  | |- yields _ (fun _ => True) (fun s => let '(_, _) := _ (rng s) in _) =>
      eapply yields_weaken; [|apply performs_rng]
  | |- yields _ _ (if ?b then _ else _) => destruct b
  | |- yields _ _ (match ?x with _ => _ end) => destruct x
  | |- forall _, _ => intros ?
  | |- _ => leaf
  end.

Ltac effect_steps Q leaf := repeat (effect_step Q leaf).

Lemma encryptFile_packed (W : SubtleCrypto) (file : File) (password : jsstring)
    (rng0 : Rng) (blob : Blob) :
  fst (encryptFile W file password rng0) = Ok blob ->
  packed_encryption W password (file_bytes file) (blob_bytes blob).
Proof.
  unfold encryptFile. cbn. intros [= <-].
  exists (fst (getRandomValues 16 rng0)),
         (fst (getRandomValues 12 (snd (getRandomValues 16 rng0)))).
  split; [apply getRandomValues_length|]. split; [apply getRandomValues_length|].
  reflexivity.
Qed.

Section Writes.
Variable W : SubtleCrypto.
Variable B : Backend.
Variable Q : Effect -> Prop.
Hypothesis Q_crypto : forall c, Q (CryptoCall c).
Hypothesis Q_getUser : Q AuthGetUser.
Hypothesis Q_select : Q NotesSelect.
Hypothesis Q_alert : forall text err, Q (Alert text err).

Lemma writes_db_uploadFile (body : list byte) (name : jsstring) :
  (forall uid ts, Q (StorageUpload PRIMARY_BUCKET (uid ++ [47] ++ ts ++ [95] ++ name) body)) ->
  yields (performs Q) (fun _ => True) (db_uploadFile B body name).
Proof.
  intros Hq. unfold db_uploadFile.
  effect_steps Q ltac:(first [apply Q_getUser | apply Hq]).
Qed.

Lemma writes_call_encryptFile (file : File) (password : jsstring) :
  yields (performs Q)
    (fun blob => packed_encryption W password (file_bytes file) (blob_bytes blob))
    (call_encryptFile W file password).
Proof.
  unfold call_encryptFile.
  eapply (yields_bind (performs Q) (fun _ => True)).
  - apply performs_perform. apply Q_crypto.
  - intros _ _. eapply yields_weaken; [|apply performs_rng].
    intros blob (rng0 & Hb). cbv beta in Hb. eapply encryptFile_packed. exact Hb.
Qed.

Lemma writes_processFileUploads (files : list File) (enc : bool) (password : jsstring) :
  (forall file uid ts body,
     In file files ->
     (if enc && truthy password
      then packed_encryption W password (file_bytes file) body
      else body = file_bytes file) ->
     Q (StorageUpload PRIMARY_BUCKET (uid ++ [47] ++ ts ++ [95] ++ file_name file) body)) ->
  yields (performs Q) (fun paths => length paths = length files)
    (processFileUploads W B files enc password).
Proof.
  induction files as [|file rest IH]; intros Hq; cbn [processFileUploads].
  - apply yields_ret; [typeclasses eauto | reflexivity].
  - eapply (yields_bind (performs Q)
              (fun body => if enc && truthy password
                           then packed_encryption W password (file_bytes file) body
                           else body = file_bytes file)).
    + destruct (enc && truthy password).
      * eapply (yields_bind (performs Q)); [apply writes_call_encryptFile|].
        intros blob Hb. apply yields_ret; [typeclasses eauto | exact Hb].
      * apply yields_ret; [typeclasses eauto | reflexivity].
    + intros body Hbody.
      eapply (yields_bind (performs Q) (fun _ => True)).
      * apply writes_db_uploadFile. intros uid ts.
        apply Hq; [left; reflexivity | exact Hbody].
      * intros path _.
        eapply (yields_bind (performs Q) (fun paths => length paths = length rest)).
        -- apply IH. intros f uid ts b Hin Hb. apply Hq; [right; exact Hin | exact Hb].
        -- intros paths Hlen. apply yields_ret; [typeclasses eauto|].
           cbn [length]. rewrite Hlen. reflexivity.
Qed.

Lemma writes_db_updateNote (id : jsstring) (updates : Updates.t) (c : jsstring) :
  Updates.content updates = Some c -> Updates.ciphertext updates = None ->
  (forall row,
     Updates.attachments row = Updates.attachments updates ->
     Updates.iv row = Updates.iv updates -> Updates.salt row = Updates.salt updates ->
     text_columns c row -> Q (NotesUpdate id row)) ->
  yields (performs Q) (fun _ => True) (db_updateNote B id updates).
Proof.
  intros Hc Hn Hq. unfold db_updateNote, text_columns in *. rewrite Hc. cbn [truthy_opt].
  destruct (truthy c) eqn:Ht.
  - effect_steps Q ltac:(idtac).
    apply Hq; [reflexivity | reflexivity | reflexivity |]. split; reflexivity.
  - effect_steps Q ltac:(idtac).
    apply Hq; [reflexivity | reflexivity | reflexivity |]. split; assumption.
Qed.

(** The uploads and the row of [handleSaveNewNote]. *)
Lemma writes_handleSaveNewNote (s : State) :
  (forall e,
     upload_of W (stagedFiles s)
       (if NewNote.encrypt (newNote s) then Some (NewNote.password (newNote s)) else None)
       (StorageUpload PRIMARY_BUCKET (fst e) (snd e)) ->
     Q (StorageUpload PRIMARY_BUCKET (fst e) (snd e))) ->
  (forall row,
     length (DbRow.attachments row) = length (stagedFiles s) -> Q (NotesInsert row)) ->
  performs Q s (snd (handleSaveNewNote W B s)).
Proof.
  intros Hup Hrow. unfold handleSaveNewNote.
  match goal with |- context [mbind get ?k] => set (body := k) end.
  change (performs Q s (snd (body s s))).
  cut (yields (performs Q) (fun _ => True) (body s)); [intros H; exact (proj1 (H s))|].
  subst body. cbv beta.
  set (form := newNote s) in *.
  destruct (negb (truthy (trim (NewNote.title form)))); [effect_steps Q ltac:(apply Q_alert)|].
  destruct (NewNote.encrypt form && negb (truthy (NewNote.password form))) eqn:Hpw;
    [effect_steps Q ltac:(apply Q_alert)|].
  destruct (NewNote.encrypt form &&
            negb (jsstring_eqb (NewNote.password form) (NewNote.confirmPassword form)));
    [effect_steps Q ltac:(apply Q_alert)|].
  eapply (yields_bind (performs Q) (fun _ => True)); [effect_steps Q ltac:(idtac)|intros _ _].
  apply yields_finally; [typeclasses eauto | | effect_steps Q ltac:(idtac)].
  apply yields_try_catch; [typeclasses eauto | | intros e; effect_steps Q ltac:(apply Q_alert)].
  eapply (yields_bind (performs Q) (fun paths => length paths = length (stagedFiles s))).
  - apply writes_processFileUploads. intros file uid ts body Hin Hbody.
    apply (Hup (uid ++ [47] ++ ts ++ [95] ++ file_name file, body)). cbn [fst snd upload_of].
    split; [reflexivity|]. exists file, uid, ts. split; [exact Hin|]. split; [reflexivity|].
    destruct (NewNote.encrypt form); [|exact Hbody].
    cbn [andb] in Hpw, Hbody. apply negb_false_iff in Hpw. rewrite Hpw in Hbody. exact Hbody.
  - intros paths Hlen.
    eapply (yields_bind (performs Q) (fun _ => True));
      [effect_steps Q ltac:(idtac) | intros createdAt _].
    eapply (yields_bind (performs Q)
              (fun payload => NotePayload.attachments payload = paths)).
    + destruct (NewNote.encrypt form).
      * eapply (yields_bind (performs Q) (fun _ => True));
          [eapply yields_weaken; [|apply (performs_call_encryptData W Q Q_crypto)]; trivial|].
        intros payload _. apply yields_ret; [typeclasses eauto | reflexivity].
      * apply yields_ret; [typeclasses eauto | reflexivity].
    + intros payload Hpayload.
      eapply (yields_bind (performs Q) (fun _ => True)); [|intros _ _].
      * apply (performs_db_insertNote B Q Q_getUser). intros uid created.
        apply Hrow. cbn. rewrite Hpayload. exact Hlen.
      * effect_steps Q ltac:(apply (performs_fetchNotes B Q Q_select)).
Qed.

(** The uploads and the columns of [handleUpdateNote]. *)
Lemma writes_handleUpdateNote (s : State) :
  (forall e,
     upload_of W (stagedFiles s)
       (if EditForm.is_encrypted (editForm s) then Some (update_password s) else None)
       (StorageUpload PRIMARY_BUCKET (fst e) (snd e)) ->
     Q (StorageUpload PRIMARY_BUCKET (fst e) (snd e))) ->
  (forall id row, written_by_update W s id row -> Q (NotesUpdate id row)) ->
  performs Q s (snd (handleUpdateNote W B s)).
Proof.
  intros Hup Hrow. unfold handleUpdateNote.
  match goal with |- context [mbind get ?k] => set (body := k) end.
  change (performs Q s (snd (body s s))).
  cut (yields (performs Q) (fun _ => True) (body s)); [intros H; exact (proj1 (H s))|].
  subst body. cbv beta.
  destruct (selectedNote s) as [note|] eqn:Hn; [|effect_steps Q ltac:(idtac)].
  fold (update_password s). set (pwd := update_password s) in *.
  set (form := editForm s) in *.
  destruct (EditForm.is_encrypted form && negb (truthy pwd)) eqn:Hpw;
    [effect_steps Q ltac:(apply Q_alert)|].
  eapply (yields_bind (performs Q) (fun _ => True)); [effect_steps Q ltac:(idtac)|intros _ _].
  apply yields_finally; [typeclasses eauto | | effect_steps Q ltac:(idtac)].
  apply yields_try_catch; [typeclasses eauto | | intros e; effect_steps Q ltac:(apply Q_alert)].
  eapply (yields_bind (performs Q) (fun paths => length paths = length (stagedFiles s))).
  - apply writes_processFileUploads. intros file uid ts body Hin Hbody.
    apply (Hup (uid ++ [47] ++ ts ++ [95] ++ file_name file, body)). cbn [fst snd upload_of].
    split; [reflexivity|]. exists file, uid, ts. split; [exact Hin|]. split; [reflexivity|].
    fold form. destruct (EditForm.is_encrypted form); [|exact Hbody].
    cbn [andb] in Hpw, Hbody. apply negb_false_iff in Hpw. rewrite Hpw in Hbody. exact Hbody.
  - intros paths Hlen.
    eapply (yields_bind (performs Q) (fun _ => True));
      [effect_steps Q ltac:(idtac) | intros createdAt _].
    eapply (yields_bind (performs Q)
              (fun updates =>
                 exists c,
                   Updates.content updates = Some c /\ Updates.ciphertext updates = None /\
                   Updates.attachments updates = existingAttachments s ++ paths /\
                   (if EditForm.is_encrypted form
                    then exists payload rng0,
                           fst (encryptData W (EditForm.content form) pwd None rng0)
                             = Ok payload /\
                           c = ciphertext payload /\
                           Updates.iv updates = Some (iv payload) /\
                           Updates.salt updates = Some (salt payload)
                    else c = EditForm.content form /\
                         Updates.iv updates = None /\ Updates.salt updates = None))).
    + destruct (EditForm.is_encrypted form).
      * eapply (yields_bind (performs Q));
          [apply (performs_call_encryptData W Q Q_crypto)|].
        intros payload (rng0 & Hp). apply yields_ret; [typeclasses eauto|].
        exists (ciphertext payload). cbn. repeat split. exists payload, rng0. auto.
      * apply yields_ret; [typeclasses eauto|].
        exists (EditForm.content form). cbn. repeat split.
    + intros updates (c & Hc & Hnone & Hatt & Hcols).
      eapply (yields_bind (performs Q) (fun _ => True)); [|intros _ _].
      * apply (writes_db_updateNote (Note.id note) updates c Hc Hnone).
        intros row Hra Hri Hrs Htc. apply Hrow.
        exists note, paths, c. split; [exact Hn|]. split; [reflexivity|].
        split; [exact Hlen|]. split; [congruence|]. split; [|exact Htc].
        fold form. fold pwd. destruct (EditForm.is_encrypted form).
        -- destruct Hcols as (payload & rng0 & Hp & -> & Hi & Hs).
           exists payload, rng0. repeat split; congruence.
        -- destruct Hcols as (-> & Hi & Hs). repeat split; congruence.
      * effect_steps Q ltac:(apply (performs_fetchNotes B Q Q_select)).
Qed.

End Writes.

(** X15.  Whatever [handleSaveNewNote] and [handleUpdateNote] upload is
    one of the staged files, sent to the primary bucket under a path made
    of the user id, the clock reading and the file's own name, which is
    thus stored in clear.  When the form asks for encryption the body is
    the file packed by [encryptFile] under the password of the form (for an
    update: of the form or, failing that, of the unlock): salt, nonce and
    the sealed bytes; otherwise it is the bytes of the file as they are. *)
Theorem uploads_are_the_staged_files (W : SubtleCrypto) (B : Backend) (s : State) :
  Forall (upload_of W (stagedFiles s)
            (if NewNote.encrypt (newNote s) then Some (NewNote.password (newNote s))
             else None))
         (effects_of (handleSaveNewNote W B) s) /\
  Forall (upload_of W (stagedFiles s)
            (if EditForm.is_encrypted (editForm s) then Some (update_password s) else None))
         (effects_of (handleUpdateNote W B) s).
Proof.
  split; apply effects_of_performs.
  - apply writes_handleSaveNewNote; try (intros; exact I).
    intros e He. exact He.
  - apply writes_handleUpdateNote; try (intros; exact I).
    intros e He. exact He.
Qed.

(** X16.  The attachments written with a note follow the staged files.
    The row [handleSaveNewNote] inserts lists one path per staged file.
    The update [handleUpdateNote] writes is addressed to the selected note
    and lists the attachments kept in the editor, in their order, followed
    by one path per staged file; an attachment removed in the editor is
    simply no longer listed. *)
Theorem saved_attachments_follow_the_staged_files (W : SubtleCrypto) (B : Backend)
    (s : State) :
  (forall row,
     In (NotesInsert row) (effects_of (handleSaveNewNote W B) s) ->
     length (DbRow.attachments row) = length (stagedFiles s)) /\
  (forall id row,
     In (NotesUpdate id row) (effects_of (handleUpdateNote W B) s) ->
     exists note paths,
       selectedNote s = Some note /\ id = Note.id note /\
       Updates.attachments row = existingAttachments s ++ paths /\
       length paths = length (stagedFiles s)).
Proof.
  split.
  - intros row Hin.
    pose proof (writes_handleSaveNewNote W B
                  (inserts_satisfy (fun row =>
                     length (DbRow.attachments row) = length (stagedFiles s)))
                  (fun _ => I) I I (fun _ _ => I) s) as Hp.
    apply effects_of_performs in Hp.
    + rewrite List.Forall_forall in Hp. exact (Hp _ Hin).
    + intros e _. exact I.
    + intros r Hr. exact Hr.
  - intros id row Hin.
    pose proof (writes_handleUpdateNote W B
                  (updates_satisfy (fun id row =>
                     exists note paths,
                       selectedNote s = Some note /\ id = Note.id note /\
                       Updates.attachments row = existingAttachments s ++ paths /\
                       length paths = length (stagedFiles s)))
                  (fun _ => I) I I (fun _ _ => I) s) as Hp.
    apply effects_of_performs in Hp.
    + rewrite List.Forall_forall in Hp. exact (Hp _ Hin).
    + intros e _. exact I.
    + intros i r (note & paths & c & Hn & Hi & Hl & Ha & _). cbn.
      exists note, paths. auto.
Qed.

Lemma saved_attachments_follow_the_staged_files_witness :
  length (stagedFiles Examples.draft_with_file) = 1%nat /\
  (exists row,
     In (NotesInsert row)
        (effects_of (handleSaveNewNote Toy.primitives Toy.world) Examples.draft_with_file) /\
     DbRow.attachments row = [lit "u1/1700000000000_plan.txt"]) /\
  exists id row,
    In (NotesUpdate id row)
       (effects_of (handleUpdateNote Toy.primitives Toy.world) Examples.clearing_text) /\
    id = lit "b" /\ Updates.attachments row = [lit "u1/1700000000000_plan.txt"].
Proof.
  destruct (saved_attachments_follow_the_staged_files Toy.primitives Toy.world
              Examples.draft_with_file) as [Hins _].
  destruct (saved_attachments_follow_the_staged_files Toy.primitives Toy.world
              Examples.clearing_text) as [_ Hupd].
  split; [reflexivity|]. split.
  - assert (Hex : exists row,
              In (NotesInsert row)
                 (effects_of (handleSaveNewNote Toy.primitives Toy.world)
                    Examples.draft_with_file) /\
              DbRow.attachments row = [lit "u1/1700000000000_plan.txt"]).
    { vm_compute. eexists. split.
      - repeat (first [left; reflexivity | right]).
      - reflexivity. }
    destruct Hex as (row & Hin & Ha). exists row. split; [exact Hin|].
    pose proof (Hins row Hin) as Hlen. exact Ha.
  - assert (Hex : exists id row,
              In (NotesUpdate id row)
                 (effects_of (handleUpdateNote Toy.primitives Toy.world)
                    Examples.clearing_text) /\
              Updates.attachments row = [lit "u1/1700000000000_plan.txt"]).
    { vm_compute. eexists _, _. split.
      - repeat (first [left; reflexivity | right]).
      - reflexivity. }
    destruct Hex as (id & row & Hin & Ha). exists id, row. split; [exact Hin|].
    destruct (Hupd id row Hin) as (note & paths & Hn & Hid & _).
    split; [|exact Ha].
    rewrite Hid. vm_compute in Hn. injection Hn as <-. reflexivity.
Defined.

(** X17.  [db.updateNote] renames [content] to [ciphertext] only when the
    text is not empty.  For a note saved without encryption the update thus
    writes the text to the [ciphertext] column, and clears nonce and salt;
    but when the text in the editor is empty the update carries an empty
    [content] column and no [ciphertext] column at all. *)
Theorem emptied_text_goes_to_the_content_column (W : SubtleCrypto) (B : Backend)
    (s : State) (id : jsstring) (row : Updates.t) :
  EditForm.is_encrypted (editForm s) = false ->
  In (NotesUpdate id row) (effects_of (handleUpdateNote W B) s) ->
  Updates.iv row = None /\ Updates.salt row = None /\
  (EditForm.content (editForm s) <> [] ->
   Updates.ciphertext row = Some (EditForm.content (editForm s)) /\
   Updates.content row = None) /\
  (EditForm.content (editForm s) = [] ->
   Updates.content row = Some [] /\ Updates.ciphertext row = None).
Proof.
  intros Henc Hin.
  pose proof (writes_handleUpdateNote W B
                (updates_satisfy (fun id row => written_by_update W s id row))
                (fun _ => I) I I (fun _ _ => I) s) as Hp.
  apply effects_of_performs in Hp.
  - rewrite List.Forall_forall in Hp. specialize (Hp _ Hin). cbn in Hp.
    destruct Hp as (note & paths & c & _ & _ & _ & _ & Hc & Hcols).
    rewrite Henc in Hc. destruct Hc as (-> & Hi & Hs).
    split; [exact Hi|]. split; [exact Hs|]. unfold text_columns in Hcols.
    destruct (EditForm.content (editForm s)) as [|u r]; cbn in Hcols.
    + split; [intros H; contradiction | intros _; exact Hcols].
    + split; [intros _; exact Hcols | discriminate].
  - intros e _. exact I.
  - intros i r Hr. exact Hr.
Qed.

Lemma emptied_text_goes_to_the_content_column_witness :
  EditForm.is_encrypted (editForm Examples.clearing_text) = false /\
  EditForm.content (editForm Examples.clearing_text) = [] /\
  exists id row,
    In (NotesUpdate id row)
       (effects_of (handleUpdateNote Toy.primitives Toy.world) Examples.clearing_text) /\
    Updates.content row = Some [] /\ Updates.ciphertext row = None.
Proof.
  split; [reflexivity|]. split; [reflexivity|].
  assert (Hex : exists id row,
            In (NotesUpdate id row)
               (effects_of (handleUpdateNote Toy.primitives Toy.world)
                  Examples.clearing_text)).
  { vm_compute. eexists _, _. repeat (first [left; reflexivity | right]). }
  destruct Hex as (id & row & Hin). exists id, row. split; [exact Hin|].
  destruct (emptied_text_goes_to_the_content_column Toy.primitives Toy.world
              Examples.clearing_text id row eq_refl Hin) as (_ & _ & _ & He).
  exact (He eq_refl).
Defined.

(** ** A save that fails *)

Lemma total_steps : total steps.
Proof. intros s. eexists. reflexivity. Qed.

Lemma total_fetchNotes (B : Backend) : total (fetchNotes B).
Proof.
  unfold fetchNotes. apply total_bind; [apply total_get|]. intros s.
  destruct (negb (session s)); [apply total_ret|].
  apply total_try_catch. intros e. apply total_ret.
Qed.

Lemma fails_within_bind (R : State -> State -> Prop) `{!PreOrder R} {A C : Type}
    (V : A -> Prop) (m : M A) (k : A -> M C) :
  yields R V m -> (forall a, fails_within R (k a)) -> fails_within R (mbind m k).
Proof.
  intros Hm Hk s e s' H. unfold mbind in H. destruct (Hm s) as [H1 _].
  destruct (m s) as [[a|e0] s1]; cbn [snd] in H1.
  - etransitivity; [exact H1 | eapply Hk; exact H].
  - injection H as <- <-. exact H1.
Qed.

Lemma fails_within_total (R : State -> State -> Prop) {A : Type} (m : M A) :
  total m -> fails_within R m.
Proof. intros Ht s e s' H. destruct (Ht s) as [a Ha]. rewrite H in Ha. discriminate. Qed.

Lemma no_alert_in (es : list Effect) (text : jsstring) (err : option exn) :
  Forall no_alert es -> ~ In (Alert text err) es.
Proof. intros Hf Hin. rewrite List.Forall_forall in Hf. exact (Hf _ Hin). Qed.

Section Failure.
Variable W : SubtleCrypto.
Variable B : Backend.

(** The three ways [handleSaveNewNote] can end: at a validation alert; with
    the note saved; or with the alert "Error saving: " after a throw, the
    draft being then as it was. *)
Lemma handleSaveNewNote_outcome (s : State) :
  (exists msg,
     snd (handleSaveNewNote W B s) = set_trace (trace s ++ [Alert msg None]) s) \/
  (exists s2 es,
     Forall no_alert es /\ trace s2 = trace s ++ es /\
     snd (handleSaveNewNote W B s) = set_isUploading false s2) \/
  (exists s2 es e,
     Forall no_alert es /\ trace s2 = trace s ++ es /\ draft s2 = draft s /\
     snd (handleSaveNewNote W B s) =
     set_isUploading false
       (set_trace (trace s2 ++ [Alert (lit "Error saving: ") (Some e)]) s2)).
Proof.
  unfold handleSaveNewNote. rewrite mbind_get. cbv zeta.
  destruct (negb (truthy (trim (NewNote.title (newNote s))))); [left; eexists; reflexivity|].
  destruct (NewNote.encrypt (newNote s) && negb (truthy (NewNote.password (newNote s))));
    [left; eexists; reflexivity|].
  destruct (NewNote.encrypt (newNote s) &&
            negb (jsstring_eqb (NewNote.password (newNote s))
                    (NewNote.confirmPassword (newNote s))));
    [left; eexists; reflexivity|].
  right.
  match goal with |- context [snd ?x] => remember (snd x) as final eqn:Hfinal end.
  unfold mbind at 1 in Hfinal. unfold modify at 1 in Hfinal.
  unfold finally, try_catch in Hfinal.
  match type of Hfinal with
  | context [match ?m (set_isUploading true s) with _ => _ end] => set (body := m) in Hfinal
  end.
  assert (Heff : yields (performs no_alert) (fun _ => True) body).
  { subst body.
    eapply (yields_bind (performs no_alert) (fun _ => True)).
    - eapply yields_weaken; [|apply (writes_processFileUploads W B no_alert)];
        [trivial | intros c; exact I | exact I | intros; exact I].
    - intros paths _.
      effect_steps no_alert
        ltac:(first [ (eapply yields_weaken;
                       [|apply (performs_call_encryptData W no_alert); intros; exact I];
                       trivial)
                    | apply (performs_db_insertNote B no_alert)
                    | apply (performs_fetchNotes B no_alert)
                    | exact I ]). }
  assert (Hfail : fails_within (same_on draft) body).
  { subst body.
    eapply (fails_within_bind (same_on draft) (fun _ => True));
      [apply (svc_processFileUploads W B (same_on draft)); reflexivity|].
    intros paths. eapply (fails_within_bind (same_on draft) (fun _ => True));
      [apply yields_lift; [typeclasses eauto | trivial]|].
    intros createdAt. eapply (fails_within_bind (same_on draft) (fun _ => True)).
    - destruct (NewNote.encrypt (newNote s)).
      + eapply (yields_bind (same_on draft) (fun _ => True));
          [apply (svc_call_encryptData W (same_on draft)); reflexivity|].
        intros payload _. apply yields_ret; [typeclasses eauto | trivial].
      + apply yields_ret; [typeclasses eauto | trivial].
    - intros payload. eapply (fails_within_bind (same_on draft) (fun _ => True));
        [apply (svc_db_insertNote B (same_on draft)); reflexivity|].
      intros _. apply fails_within_total.
      apply total_bind; [apply total_steps|]. intros n.
      repeat (apply total_bind; [first [apply total_modify | apply total_fetchNotes]|];
              intros ?).
      apply total_modify. }
  destruct (Heff (set_isUploading true s)) as [(es & Htr & Hes) _].
  pose proof (Hfail (set_isUploading true s)) as Hf.
  destruct (body (set_isUploading true s)) as [[u|e] s2]; cbn [snd] in Htr; subst final.
  - left. exists s2, es. split; [exact Hes|]. split; [exact Htr | reflexivity].
  - right. exists s2, es, e. split; [exact Hes|]. split; [exact Htr|].
    split; [exact (Hf e s2 eq_refl) | reflexivity].
Qed.

(** The same for [handleUpdateNote], which can also return at once when no
    note is selected. *)
Lemma handleUpdateNote_outcome (s : State) :
  snd (handleUpdateNote W B s) = s \/
  (exists msg,
     snd (handleUpdateNote W B s) = set_trace (trace s ++ [Alert msg None]) s) \/
  (exists s2 es,
     Forall no_alert es /\ trace s2 = trace s ++ es /\
     snd (handleUpdateNote W B s) = set_isUploading false s2) \/
  (exists s2 es e,
     Forall no_alert es /\ trace s2 = trace s ++ es /\ edits s2 = edits s /\
     snd (handleUpdateNote W B s) =
     set_isUploading false
       (set_trace (trace s2 ++ [Alert (lit "Error updating: ") (Some e)]) s2)).
Proof.
  unfold handleUpdateNote. rewrite mbind_get.
  destruct (selectedNote s) as [note|]; [|left; reflexivity]. cbv zeta.
  fold (update_password s).
  destruct (EditForm.is_encrypted (editForm s) && negb (truthy (update_password s)));
    [right; left; eexists; reflexivity|].
  right. right.
  match goal with |- context [snd ?x] => remember (snd x) as final eqn:Hfinal end.
  unfold mbind at 1 in Hfinal. unfold modify at 1 in Hfinal.
  unfold finally, try_catch in Hfinal.
  match type of Hfinal with
  | context [match ?m (set_isUploading true s) with _ => _ end] => set (body := m) in Hfinal
  end.
  assert (Heff : yields (performs no_alert) (fun _ => True) body).
  { subst body.
    eapply (yields_bind (performs no_alert) (fun _ => True)).
    - eapply yields_weaken; [|apply (writes_processFileUploads W B no_alert)];
        [trivial | intros c; exact I | exact I | intros; exact I].
    - intros paths _.
      effect_steps no_alert
        ltac:(first [ (eapply yields_weaken;
                       [|apply (performs_call_encryptData W no_alert); intros; exact I];
                       trivial)
                    | apply (performs_db_updateNote B no_alert)
                    | apply (performs_fetchNotes B no_alert)
                    | exact I ]). }
  assert (Hfail : fails_within (same_on edits) body).
  { subst body.
    eapply (fails_within_bind (same_on edits) (fun _ => True));
      [apply (svc_processFileUploads W B (same_on edits)); reflexivity|].
    intros paths. eapply (fails_within_bind (same_on edits) (fun _ => True));
      [apply yields_lift; [typeclasses eauto | trivial]|].
    intros createdAt. eapply (fails_within_bind (same_on edits) (fun _ => True)).
    - destruct (EditForm.is_encrypted (editForm s)).
      + eapply (yields_bind (same_on edits) (fun _ => True));
          [apply (svc_call_encryptData W (same_on edits)); reflexivity|].
        intros payload _. apply yields_ret; [typeclasses eauto | trivial].
      + apply yields_ret; [typeclasses eauto | trivial].
    - intros payload. eapply (fails_within_bind (same_on edits) (fun _ => True));
        [apply (svc_db_updateNote B (same_on edits)); reflexivity|].
      intros _. apply fails_within_total.
      repeat (apply total_bind; [apply total_modify|]; intros ?).
      apply total_fetchNotes. }
  destruct (Heff (set_isUploading true s)) as [(es & Htr & Hes) _].
  pose proof (Hfail (set_isUploading true s)) as Hf.
  destruct (body (set_isUploading true s)) as [[u|e] s2]; cbn [snd] in Htr; subst final.
  - left. exists s2, es. split; [exact Hes|]. split; [exact Htr | reflexivity].
  - right. exists s2, es, e. split; [exact Hes|]. split; [exact Htr|].
    split; [exact (Hf e s2 eq_refl) | reflexivity].
Qed.

End Failure.

Lemma effects_of_trace {A : Type} (m : M A) (s : State) (es : list Effect) :
  trace (snd (m s)) = trace s ++ es -> effects_of m s = es.
Proof.
  intros Ht. unfold effects_of. rewrite Ht, skipn_app, skipn_all, Nat.sub_diag.
  reflexivity.
Qed.

(** X18.  A save that throws loses nothing the user typed.  When
    [handleSaveNewNote] ends with the alert "Error saving: " (an upload or
    the insert was refused, the user is signed out, the date is invalid),
    the form of the new note, the staged files and the list of notes are as
    before the click and the form stays open; the alert is the last thing
    the handler does, and the uploading flag is lowered.  Likewise for
    [handleUpdateNote] and "Error updating: ": the edit form, the staged
    files and the attachments kept are untouched and the editor stays
    open. *)
Theorem failed_save_keeps_the_draft (W : SubtleCrypto) (B : Backend) (s : State)
    (err : exn) :
  (In (Alert (lit "Error saving: ") (Some err)) (effects_of (handleSaveNewNote W B) s) ->
   let s' := exec (handleSaveNewNote W B) s in
   newNote s' = newNote s /\ stagedFiles s' = stagedFiles s /\
   isCreating s' = isCreating s /\ notes s' = notes s /\ isUploading s' = false /\
   exists es,
     effects_of (handleSaveNewNote W B) s = es ++ [Alert (lit "Error saving: ") (Some err)] /\
     Forall no_alert es) /\
  (In (Alert (lit "Error updating: ") (Some err)) (effects_of (handleUpdateNote W B) s) ->
   let s' := exec (handleUpdateNote W B) s in
   editForm s' = editForm s /\ stagedFiles s' = stagedFiles s /\
   existingAttachments s' = existingAttachments s /\
   isEditing s' = isEditing s /\ notes s' = notes s /\ isUploading s' = false /\
   exists es,
     effects_of (handleUpdateNote W B) s =
       es ++ [Alert (lit "Error updating: ") (Some err)] /\
     Forall no_alert es).
Proof.
  split.
  - intros Hin s'. subst s'. unfold exec.
    destruct (handleSaveNewNote_outcome W B s)
      as [(msg & Hrun) | [(s2 & es & Hes & Htr & Hrun) | (s2 & es & e & Hes & Htr & Hd & Hrun)]].
    + exfalso. rewrite (effects_of_trace _ s [Alert msg None]) in Hin
        by (rewrite Hrun; reflexivity).
      destruct Hin as [H | []]. discriminate.
    + exfalso. rewrite (effects_of_trace _ s es) in Hin by (rewrite Hrun; exact Htr).
      exact (no_alert_in es _ _ Hes Hin).
    + assert (Heff : effects_of (handleSaveNewNote W B) s =
                     es ++ [Alert (lit "Error saving: ") (Some e)]).
      { apply effects_of_trace. rewrite Hrun. cbn [trace set_isUploading set_trace].
        rewrite Htr, <- app_assoc. reflexivity. }
      rewrite Heff in Hin. apply in_app_or in Hin as [Hin | [Hin | []]];
        [exfalso; exact (no_alert_in es _ _ Hes Hin)|].
      injection Hin as ->. rewrite Hrun.
      unfold draft in Hd. injection Hd as H1 H2 H3 _ _ _ H7.
      repeat (split; [assumption || reflexivity|]).
      exists es. split; [exact Heff | exact Hes].
  - intros Hin s'. subst s'. unfold exec.
    destruct (handleUpdateNote_outcome W B s)
      as [Hrun | [(msg & Hrun) | [(s2 & es & Hes & Htr & Hrun)
                                 | (s2 & es & e & Hes & Htr & Hd & Hrun)]]].
    + exfalso. rewrite (effects_of_trace _ s []) in Hin
        by (rewrite Hrun, app_nil_r; reflexivity).
      destruct Hin.
    + exfalso. rewrite (effects_of_trace _ s [Alert msg None]) in Hin
        by (rewrite Hrun; reflexivity).
      destruct Hin as [H | []]. discriminate.
    + exfalso. rewrite (effects_of_trace _ s es) in Hin by (rewrite Hrun; exact Htr).
      exact (no_alert_in es _ _ Hes Hin).
    + assert (Heff : effects_of (handleUpdateNote W B) s =
                     es ++ [Alert (lit "Error updating: ") (Some e)]).
      { apply effects_of_trace. rewrite Hrun. cbn [trace set_isUploading set_trace].
        rewrite Htr, <- app_assoc. reflexivity. }
      rewrite Heff in Hin. apply in_app_or in Hin as [Hin | [Hin | []]];
        [exfalso; exact (no_alert_in es _ _ Hes Hin)|].
      injection Hin as ->. rewrite Hrun.
      unfold edits in Hd. injection Hd as H1 H2 H3 H4 H5.
      repeat (split; [assumption || reflexivity|]).
      exists es. split; [exact Heff | exact Hes].
Qed.

Lemma failed_save_keeps_the_draft_witness :
  In (Alert (lit "Error saving: ") (Some RangeError))
     (effects_of (handleSaveNewNote Toy.primitives Toy.world) Examples.draft_without_date) /\
  NewNote.title
    (newNote (exec (handleSaveNewNote Toy.primitives Toy.world) Examples.draft_without_date))
    = lit "Plans" /\
  stagedFiles (exec (handleSaveNewNote Toy.primitives Toy.world) Examples.draft_without_date)
    = [Examples.picked] /\
  In (Alert (lit "Error updating: ") (Some RangeError))
     (effects_of (handleUpdateNote Toy.primitives Toy.world) Examples.edit_without_date) /\
  EditForm.content
    (editForm (exec (handleUpdateNote Toy.primitives Toy.world) Examples.edit_without_date))
    = lit "eggs".
Proof.
  assert (H1 : In (Alert (lit "Error saving: ") (Some RangeError))
                 (effects_of (handleSaveNewNote Toy.primitives Toy.world)
                    Examples.draft_without_date))
    by (vm_compute; repeat (first [left; reflexivity | right])).
  assert (H2 : In (Alert (lit "Error updating: ") (Some RangeError))
                 (effects_of (handleUpdateNote Toy.primitives Toy.world)
                    Examples.edit_without_date))
    by (vm_compute; repeat (first [left; reflexivity | right])).
  destruct (failed_save_keeps_the_draft Toy.primitives Toy.world
              Examples.draft_without_date RangeError) as [Hs _].
  destruct (failed_save_keeps_the_draft Toy.primitives Toy.world
              Examples.edit_without_date RangeError) as [_ Hu].
  destruct (Hs H1) as (Hn & Hf & _). destruct (Hu H2) as (He & _).
  split; [exact H1|]. split; [rewrite Hn; reflexivity|].
  split; [rewrite Hf; reflexivity|]. split; [exact H2|]. rewrite He. reflexivity.
Defined.

(** ** The confirmation field of the edit form *)

Section Commutes.
Variable g : State -> State.
Hypothesis g_trace : forall s, trace (g s) = trace s.
Hypothesis g_set_trace : forall t s, g (set_trace t s) = set_trace t (g s).
Hypothesis g_rng : forall s, rng (g s) = rng s.
Hypothesis g_set_rng : forall r s, g (set_rng r s) = set_rng r (g s).

Lemma commutes_ret {A : Type} (a : A) : commutes g (ret a).
Proof. intros s. reflexivity. Qed.

Lemma commutes_throw {A : Type} (e : exn) : commutes g (@throw A e).
Proof. intros s. reflexivity. Qed.

Lemma commutes_lift {A : Type} (r : result A) : commutes g (lift r).
Proof. intros s. reflexivity. Qed.

Lemma commutes_modify (f : State -> State) :
  (forall s, f (g s) = g (f s)) -> commutes g (modify f).
Proof. intros Hf s. unfold modify. cbn. rewrite Hf. reflexivity. Qed.

Lemma commutes_perform (e : Effect) : commutes g (perform e).
Proof.
  apply commutes_modify. intros s. rewrite g_trace, g_set_trace. reflexivity.
Qed.

Lemma commutes_steps : commutes g steps.
Proof. intros s. unfold steps. cbn. rewrite g_trace. reflexivity. Qed.

Lemma commutes_bind {A C : Type} (m : M A) (k : A -> M C) :
  commutes g m -> (forall a, commutes g (k a)) -> commutes g (mbind m k).
Proof.
  intros Hm Hk s. unfold mbind. rewrite Hm.
  destruct (m s) as [[a|e] s1]; cbn [fst snd]; [apply Hk | reflexivity].
Qed.

Lemma commutes_try_catch {A : Type} (m : M A) (h : exn -> M A) :
  commutes g m -> (forall e, commutes g (h e)) -> commutes g (try_catch m h).
Proof.
  intros Hm Hh s. unfold try_catch. rewrite Hm.
  destruct (m s) as [[a|e] s1]; cbn [fst snd]; [reflexivity | apply Hh].
Qed.

Lemma commutes_finally {A : Type} (m : M A) (f : M unit) :
  commutes g m -> commutes g f -> commutes g (finally m f).
Proof.
  intros Hm Hf s. unfold finally. rewrite Hm.
  destruct (m s) as [r s1]. cbn [fst snd]. rewrite Hf.
  destruct (f s1) as [[u|e] s2]; reflexivity.
Qed.

Lemma commutes_rng {A : Type} (f : Rng -> result A * Rng) :
  commutes g (fun s => let '(r, rng') := f (rng s) in (r, set_rng rng' s)).
Proof.
  intros s. cbv beta. rewrite g_rng. destruct (f (rng s)) as [r rng'].
  cbn [fst snd]. rewrite g_set_rng. reflexivity.
Qed.

End Commutes.

(** One step of a proof that a computation commutes with a state change. *)
Ltac commute_step :=
  match goal with
  | |- commutes _ (mbind _ _) => apply commutes_bind
  | |- commutes _ (ret _) => apply commutes_ret
  | |- commutes _ (throw _) => apply commutes_throw
  | |- commutes _ (lift _) => apply commutes_lift
  | |- commutes _ steps => apply commutes_steps
  | |- commutes _ (perform _) => apply commutes_perform
  | |- commutes _ (try_catch _ _) => apply commutes_try_catch
  | |- commutes _ (finally _ _) => apply commutes_finally
  | |- commutes _ (modify _) => apply commutes_modify
  | |- commutes _ (fun s => let '(_, _) := _ (rng s) in _) => apply commutes_rng
  | |- commutes _ (if ?b then _ else _) => destruct b
  | |- commutes _ (match ?x with _ => _ end) => destruct x
  | |- forall _, _ => intros ?
  | |- _ = _ => reflexivity
  end.

Section Confirmation.
Variable W : SubtleCrypto.
Variable B : Backend.
Variable form : EditForm.t.

Lemma commutes_fetchNotes : commutes (set_editForm form) (fetchNotes B).
Proof.
  intros s. unfold fetchNotes. rewrite !mbind_get.
  change (session (set_editForm form s)) with (session s).
  destruct (negb (session s)); [reflexivity|].
  revert s. change (commutes (set_editForm form)
                      (try_catch (mbind (db_getNotes B) (fun data => modify (set_notes data)))
                         (fun _ => ret tt))).
  unfold db_getNotes. repeat commute_step.
Qed.

Lemma commutes_processFileUploads (files : list File) (enc : bool) (password : jsstring) :
  commutes (set_editForm form) (processFileUploads W B files enc password).
Proof.
  induction files as [|file rest IH]; cbn [processFileUploads].
  - repeat commute_step.
  - unfold call_encryptFile, db_uploadFile.
    repeat first [exact IH | commute_step].
Qed.

End Confirmation.

(** X19.  [handleUpdateNote] never reads the confirmation field of the
    edit form.  Whatever is typed there, the handler returns the same
    result, performs the same effects and leaves the same state: a new
    password typed in the editor is used as it is.  [handleSaveNewNote]
    does compare its two password fields and stops at "Passwords do not
    match!" when they differ. *)
Theorem update_does_not_read_the_confirmation (W : SubtleCrypto) (B : Backend)
    (s : State) (c : jsstring) :
  let typed := set_editForm (with_confirmPassword c (editForm s)) in
  handleUpdateNote W B (typed s) =
    (fst (handleUpdateNote W B s), typed (snd (handleUpdateNote W B s))) /\
  effects_of (handleUpdateNote W B) (typed s) = effects_of (handleUpdateNote W B) s /\
  (truthy (trim (NewNote.title (newNote s))) = true ->
   NewNote.encrypt (newNote s) = true -> NewNote.password (newNote s) <> [] ->
   NewNote.password (newNote s) <> NewNote.confirmPassword (newNote s) ->
   handleSaveNewNote W B s =
   (Ok tt, set_trace (trace s ++ [Alert (lit "Passwords do not match!") None]) s)).
Proof.
  intros typed.
  assert (Hrun : handleUpdateNote W B (typed s) =
                 (fst (handleUpdateNote W B s), typed (snd (handleUpdateNote W B s)))).
  { unfold handleUpdateNote. rewrite !mbind_get.
    match goal with |- ?body (typed s) = _ => change (selectedNote (typed s)) with (selectedNote s) end.
    destruct (selectedNote s) as [note|]; [|reflexivity].
    cbv zeta.
    change (editForm (typed s)) with (with_confirmPassword c (editForm s)).
    change (unlockPassword (typed s)) with (unlockPassword s).
    change (stagedFiles (typed s)) with (stagedFiles s).
    change (existingAttachments (typed s)) with (existingAttachments s).
    cbn [with_confirmPassword EditForm.title EditForm.content EditForm.category
         EditForm.is_encrypted EditForm.password EditForm.date].
    revert s typed. intros s typed.
    match goal with |- ?m (typed s) = _ => cut (commutes typed m); [intros H; apply H|] end.
    unfold typed, call_encryptData, db_updateNote.
    repeat first [ apply commutes_fetchNotes | apply commutes_processFileUploads
                 | commute_step ]. }
  split; [exact Hrun|]. split.
  - unfold effects_of. rewrite Hrun. reflexivity.
  - intros Ht He Hp Hc. unfold handleSaveNewNote. rewrite mbind_get. cbv zeta.
    rewrite Ht, He. cbn [negb andb].
    destruct (NewNote.password (newNote s)) as [|u r] eqn:Hpw; [congruence|].
    cbn [truthy negb].
    unfold jsstring_eqb. rewrite bool_decide_eq_false_2 by exact Hc. reflexivity.
Qed.

Lemma update_does_not_read_the_confirmation_witness :
  EditForm.password (editForm Examples.edit_new_password) = lit "pq" /\
  EditForm.confirmPassword (editForm Examples.edit_new_password) = [] /\
  (exists id row,
     In (NotesUpdate id row)
        (effects_of (handleUpdateNote Toy.primitives Toy.world) Examples.edit_new_password)) /\
  effects_of (handleUpdateNote Toy.primitives Toy.world)
    (set_editForm (with_confirmPassword (lit "zz") (editForm Examples.edit_new_password))
       Examples.edit_new_password)
  = effects_of (handleUpdateNote Toy.primitives Toy.world) Examples.edit_new_password /\
  effects_of (handleSaveNewNote Toy.primitives Toy.world) Examples.draft_mistyped
  = [Alert (lit "Passwords do not match!") None].
Proof.
  destruct (update_does_not_read_the_confirmation Toy.primitives Toy.world
              Examples.edit_new_password (lit "zz")) as (_ & Heff & _).
  destruct (update_does_not_read_the_confirmation Toy.primitives Toy.world
              Examples.draft_mistyped []) as (_ & _ & Hsave).
  split; [reflexivity|]. split; [reflexivity|]. split.
  - vm_compute. eexists _, _. repeat (first [left; reflexivity | right]).
  - split; [exact Heff|].
    apply effects_of_appended. rewrite Hsave; [reflexivity | reflexivity | reflexivity | |].
    + vm_compute. discriminate.
    + vm_compute. discriminate.
Defined.

(** ** The list of notes *)

Lemma insert_perm {A : Type} (compare : A -> A -> Z) (x : A) (l : list A) :
  Permutation (insert compare x l) (x :: l).
Proof.
  induction l as [|y r IH]; cbn [insert]; [reflexivity|].
  destruct (compare x y <=? 0); [reflexivity|].
  rewrite IH. apply perm_swap.
Qed.

Lemma Array_sort_perm {A : Type} (compare : A -> A -> Z) (l : list A) :
  Permutation (Array_sort compare l) l.
Proof.
  induction l as [|x l IH]; [reflexivity|].
  unfold Array_sort in *. cbn [fold_right]. rewrite insert_perm, IH. reflexivity.
Qed.

Lemma insert_map {A : Type} (h : A -> A) (compare : A -> A -> Z) (x : A) (l : list A) :
  (forall a b, compare (h a) (h b) = compare a b) ->
  insert compare (h x) (map h l) = map h (insert compare x l).
Proof.
  intros Hc. induction l as [|y r IH]; [reflexivity|].
  cbn [map insert]. rewrite Hc. destruct (compare x y <=? 0); [reflexivity|].
  cbn [map]. rewrite IH. reflexivity.
Qed.

Lemma Array_sort_map {A : Type} (h : A -> A) (compare : A -> A -> Z) (l : list A) :
  (forall a b, compare (h a) (h b) = compare a b) ->
  Array_sort compare (map h l) = map h (Array_sort compare l).
Proof.
  intros Hc. unfold Array_sort. induction l as [|x l IH]; [reflexivity|].
  cbn [map fold_right]. rewrite IH. apply insert_map. exact Hc.
Qed.

Lemma filter_map_same {A : Type} (h : A -> A) (p : A -> bool) (l : list A) :
  (forall a, p (h a) = p a) -> List.filter p (map h l) = map h (List.filter p l).
Proof.
  intros Hp. induction l as [|x l IH]; [reflexivity|].
  cbn [map List.filter]. rewrite Hp. destruct (p x); cbn [map]; rewrite IH; reflexivity.
Qed.

(** A comparator that puts the elements with [key] before the others. *)
Lemma insert_front {A : Type} (compare : A -> A -> Z) (x : A) (l : list A) :
  (forall y, In y l -> compare x y <= 0) -> insert compare x l = x :: l.
Proof.
  intros Hc. destruct l as [|y r]; [reflexivity|]. cbn [insert].
  destruct (Z.leb_spec (compare x y) 0) as [_|Hgt]; [reflexivity|].
  specialize (Hc y (or_introl eq_refl)). lia.
Qed.

Lemma insert_after {A : Type} (compare : A -> A -> Z) (x : A) (front back : list A) :
  (forall y, In y front -> 0 < compare x y) ->
  insert compare x (front ++ back) = front ++ insert compare x back.
Proof.
  intros Hc. induction front as [|y r IH]; [reflexivity|].
  cbn [app insert]. destruct (Z.leb_spec (compare x y) 0) as [Hle|_].
  - specialize (Hc y (or_introl eq_refl)). lia.
  - rewrite IH; [reflexivity|]. intros z Hz. apply Hc. right. exact Hz.
Qed.

Lemma Array_sort_two_groups {A : Type} (compare : A -> A -> Z) (key : A -> bool)
    (l : list A) :
  (forall a b, key a = true -> compare a b <= 0) ->
  (forall a b, key a = false -> key b = false -> compare a b <= 0) ->
  (forall a b, key a = false -> key b = true -> 0 < compare a b) ->
  Array_sort compare l = List.filter key l ++ List.filter (fun a => negb (key a)) l.
Proof.
  intros H1 H2 H3. induction l as [|x l IH]; [reflexivity|].
  change (Array_sort compare (x :: l)) with (insert compare x (Array_sort compare l)).
  rewrite IH. cbn [List.filter]. destruct (key x) eqn:Hx; cbn [negb].
  - apply insert_front. intros y _. apply H1. exact Hx.
  - rewrite insert_after.
    + rewrite insert_front; [reflexivity|].
      intros y Hy. apply filter_In in Hy as [_ Hy]. apply negb_true_iff in Hy.
      apply H2; assumption.
    + intros y Hy. apply filter_In in Hy as [_ Hy]. apply H3; assumption.
Qed.

Lemma insert_sorted {A : Type} (compare : A -> A -> Z) (le : A -> A -> Prop) (x : A)
    (l : list A) :
  (forall a b, compare a b <= 0 -> le a b) ->
  (forall a b, 0 < compare a b -> le b a) ->
  (forall a b c, le a b -> le b c -> le a c) ->
  StronglySorted le l -> StronglySorted le (insert compare x l).
Proof.
  intros Hle Hgt Htr Hs. induction Hs as [|y r Hr IH Hy]; cbn [insert].
  - constructor; constructor.
  - destruct (Z.leb_spec (compare x y) 0) as [Hxy|Hxy].
    + constructor; [constructor; assumption|].
      constructor; [apply Hle; exact Hxy|].
      rewrite List.Forall_forall in *. intros z Hz. eapply Htr; [apply Hle; exact Hxy|].
      apply Hy. exact Hz.
    + constructor; [exact IH|].
      rewrite List.Forall_forall in *. intros z Hz.
      apply (Permutation_in _ (insert_perm compare x r)) in Hz.
      destruct Hz as [<- | Hz]; [apply Hgt; exact Hxy | apply Hy; exact Hz].
Qed.

Lemma Array_sort_sorted {A : Type} (compare : A -> A -> Z) (le : A -> A -> Prop)
    (l : list A) :
  (forall a b, compare a b <= 0 -> le a b) ->
  (forall a b, 0 < compare a b -> le b a) ->
  (forall a b c, le a b -> le b c -> le a c) ->
  StronglySorted le (Array_sort compare l).
Proof.
  intros Hle Hgt Htr. induction l as [|x l IH]; [constructor|].
  change (Array_sort compare (x :: l)) with (insert compare x (Array_sort compare l)).
  apply insert_sorted; assumption.
Qed.

Lemma Array_filter_Ok {A : Type} (f : A -> result bool) (l : list A) :
  (forall x e, In x l -> f x = Err e -> e = TypeError) ->
  Array_filter f l =
  if forallb (fun x => is_ok (f x)) l
  then Ok (List.filter (fun x => returns_true (f x)) l)
  else Err TypeError.
Proof.
  induction l as [|x l IH]; intros He; [reflexivity|].
  cbn [Array_filter forallb List.filter].
  destruct (f x) as [keep|e] eqn:Hx; cbn [bind is_ok andb returns_true].
  - rewrite IH by (intros y e Hy; apply He; right; exact Hy).
    destruct (forallb _ l); cbn [bind]; [destruct keep|]; reflexivity.
  - rewrite (He x e (or_introl eq_refl) Hx). reflexivity.
Qed.

Lemma Array_some_error {A : Type} (f : A -> result bool) (l : list A) (e : exn) :
  (forall x e', f x = Err e' -> e' = TypeError) ->
  Array_some f l = Err e -> e = TypeError.
Proof.
  intros Hf. induction l as [|x l IH]; cbn [Array_some]; [discriminate|].
  destruct (f x) as [[|]|e'] eqn:Hx; [discriminate | exact IH |].
  intros [= <-]. eapply Hf. exact Hx.
Qed.

(** [some] over lookups that do not throw is [existsb]. *)
Lemma Array_some_safe {A : Type} (f : A -> result bool) (g : A -> bool) (l : list A) :
  (forall x, In x l -> f x = Ok (g x)) -> Array_some f l = Ok (existsb g l).
Proof.
  induction l as [|x l IH]; intros Hf; [reflexivity|].
  cbn [Array_some existsb]. rewrite (Hf x (or_introl eq_refl)).
  destruct (g x); [reflexivity|]. apply IH. intros y Hy. apply Hf. right. exact Hy.
Qed.

Lemma forallb_map_same {A : Type} (h : A -> A) (p : A -> bool) (l : list A) :
  (forall a, p (h a) = p a) -> forallb p (map h l) = forallb p l.
Proof.
  intros Hp. induction l as [|x l IH]; [reflexivity|].
  cbn [map forallb]. rewrite Hp, IH. reflexivity.
Qed.

Section ListingFacts.
Variable toLowerCase : jsstring -> jsstring.
Variable localeCompare : jsstring -> jsstring -> Z.
Variable Date_getTime : jsstring -> option Z.

Abbreviation matches := (matches toLowerCase).
Abbreviation filteredNotes := (filteredNotes toLowerCase localeCompare Date_getTime).
Abbreviation listed := (listed toLowerCase localeCompare Date_getTime).
Abbreviation compare_notes := (compare_notes toLowerCase localeCompare Date_getTime).

Lemma text_includes_error (query : jsstring) (tcache : gmap (list Z) (list Z))
    (path : jsstring) (e : exn) :
  text_includes toLowerCase query tcache path = Err e -> e = TypeError.
Proof.
  unfold text_includes. destruct (tcache !! path); [discriminate|].
  destruct (inherited path); [|discriminate]. intros [= <-]. reflexivity.
Qed.

(** The only error of the filter is the [TypeError] of a lookup. *)
Lemma matches_error (cat q : jsstring) (cache : gmap (list Z) Cached.t)
    (tcache : gmap (list Z) (list Z)) (n : Note.t) (e : exn) :
  matches cat q cache tcache n = Err e -> e = TypeError.
Proof.
  unfold Listing.matches. cbv zeta.
  destruct (negb (truthy (toLowerCase q))); [discriminate|].
  destruct (Note.attachments n) as [paths|]; cbn [bind]; [|discriminate].
  destruct (Array_some _ paths) as [b|e'] eqn:Hs; cbn [bind]; [discriminate|].
  intros [= <-]. eapply Array_some_error; [|exact Hs].
  intros x e''. apply text_includes_error.
Qed.

(** [filteredNotes] returns when no call of the filter throws, and then it
    is the notes for which the filter returned [true], sorted. *)
Lemma filteredNotes_Ok (notes : list Note.t) (cat q : jsstring)
    (cache : gmap (list Z) Cached.t) (tcache : gmap (list Z) (list Z)) (cfg : SortOption) :
  filteredNotes notes cat q cache tcache cfg =
  if forallb (fun n => is_ok (matches cat q cache tcache n)) notes
  then Ok (Array_sort (compare_notes cfg cache)
             (List.filter (fun n => returns_true (matches cat q cache tcache n)) notes))
  else Err TypeError.
Proof.
  unfold Listing.filteredNotes.
  rewrite Array_filter_Ok by (intros n e _; apply matches_error).
  destruct (forallb _ notes); reflexivity.
Qed.

Lemma In_filteredNotes (notes shown : list Note.t) (cat q : jsstring)
    (cache : gmap (list Z) Cached.t) (tcache : gmap (list Z) (list Z)) (cfg : SortOption)
    (n : Note.t) :
  filteredNotes notes cat q cache tcache cfg = Ok shown ->
  (In n shown <-> In n notes /\ matches cat q cache tcache n = Ok true).
Proof.
  rewrite filteredNotes_Ok. destruct (forallb _ notes); [|discriminate].
  intros [= <-].
  assert (Hr : forall r : result bool, returns_true r = true <-> r = Ok true).
  { intros [[|]|e]; cbn; split; congruence. }
  rewrite <- Hr, <- (filter_In (fun n => returns_true (matches cat q cache tcache n))).
  split; intros H.
  - eapply Permutation_in; [apply Array_sort_perm | exact H].
  - eapply Permutation_in; [symmetry; apply Array_sort_perm | exact H].
Qed.



Lemma matches_scrub (f : Note.t -> jsstring) (cat q : jsstring)
    (cache : gmap (list Z) Cached.t) (tcache : gmap (list Z) (list Z)) (n : Note.t) :
  matches cat q cache tcache (scrub f n) = matches cat q cache tcache n.
Proof.
  unfold scrub. destruct (Note.is_encrypted n) eqn:He; [|reflexivity].
  unfold Listing.matches, shown_title, searched_content, with_content. cbn.
  rewrite He. reflexivity.
Qed.

Lemma compare_notes_scrub (f : Note.t -> jsstring) (cfg : SortOption)
    (cache : gmap (list Z) Cached.t) (a b : Note.t) :
  compare_notes cfg cache (scrub f a) (scrub f b) = compare_notes cfg cache a b.
Proof.
  unfold scrub.
  destruct (Note.is_encrypted a) eqn:Ha, (Note.is_encrypted b) eqn:Hb; try reflexivity;
    unfold Listing.compare_notes, comparison, safeDate, attachment_count, shown_title,
      with_content; cbn; rewrite ?Ha, ?Hb; reflexivity.
Qed.

(** X21.  The stored content of an encrypted note, its ciphertext, is
    never searched and never sorted on, locked or not: replace the content
    of every encrypted note by anything at all and the list shows the same
    notes in the same order, or the filter throws as it did.  What is
    searched for an encrypted note is its title, the names of its
    attachments, the cached text of its attachments and, while it is
    unlocked, the decrypted text. *)
Theorem stored_ciphertext_is_not_searched (f : Note.t -> jsstring) (notes : list Note.t)
    (cat q : jsstring) (cache : gmap (list Z) Cached.t)
    (tcache : gmap (list Z) (list Z)) (cfg : SortOption) :
  filteredNotes (map (scrub f) notes) cat q cache tcache cfg =
  bind (filteredNotes notes cat q cache tcache cfg)
    (fun shown => Ok (map (scrub f) shown)).
Proof.
  rewrite !filteredNotes_Ok.
  rewrite (forallb_map_same (scrub f) (fun n => is_ok (matches cat q cache tcache n)))
    by (intros a; rewrite matches_scrub; reflexivity).
  destruct (forallb _ notes); cbn [bind]; [|reflexivity]. f_equal.
  rewrite (filter_map_same (scrub f)
             (fun n => returns_true (matches cat q cache tcache n)))
    by (intros a; rewrite matches_scrub; reflexivity).
  apply Array_sort_map. intros a b. apply compare_notes_scrub.
Qed.

(** X22.  What the sort options do, whenever the list is computed.
    "Secure First" lists the encrypted notes, then the others, and
    "Standard First" the converse, each group in the order the notes were
    loaded in.  By date, a note never stands above a newer one ("Newest
    First") or an older one ("Oldest First"), a missing or unreadable date
    counting as time 0; "With Attachments" puts no note above one with more
    attachments. *)
Theorem sort_options_order_the_list (notes : list Note.t) (cat q : jsstring)
    (cache : gmap (list Z) Cached.t) (tcache : gmap (list Z) (list Z)) :
  let kept := List.filter (fun n => returns_true (matches cat q cache tcache n)) notes in
  (forall shown,
     filteredNotes notes cat q cache tcache {| field := BySecurity; order := Desc |}
       = Ok shown ->
     shown = List.filter Note.is_encrypted kept ++
             List.filter (fun n => negb (Note.is_encrypted n)) kept) /\
  (forall shown,
     filteredNotes notes cat q cache tcache {| field := BySecurity; order := Asc |}
       = Ok shown ->
     shown = List.filter (fun n => negb (Note.is_encrypted n)) kept ++
             List.filter Note.is_encrypted kept) /\
  (forall shown,
     filteredNotes notes cat q cache tcache {| field := ByDate; order := Desc |} = Ok shown ->
     StronglySorted (fun a b => safeDate Date_getTime b <= safeDate Date_getTime a) shown) /\
  (forall shown,
     filteredNotes notes cat q cache tcache {| field := ByDate; order := Asc |} = Ok shown ->
     StronglySorted (fun a b => safeDate Date_getTime a <= safeDate Date_getTime b) shown) /\
  (forall shown,
     filteredNotes notes cat q cache tcache {| field := ByAttachments; order := Desc |}
       = Ok shown ->
     StronglySorted (fun a b => attachment_count b <= attachment_count a) shown) /\
  (forall cfg,
     is_ok (filteredNotes notes cat q cache tcache cfg) =
     forallb (fun n => is_ok (matches cat q cache tcache n)) notes).
Proof.
  intros kept.
  assert (Hrun : forall cfg shown,
            filteredNotes notes cat q cache tcache cfg = Ok shown ->
            shown = Array_sort (compare_notes cfg cache) kept).
  { intros cfg shown H. rewrite filteredNotes_Ok in H.
    destruct (forallb _ notes); [|discriminate]. injection H as <-. reflexivity. }
  split; [|split; [|split; [|split; [|split]]]].
  - intros shown H. rewrite (Hrun _ _ H).
    apply Array_sort_two_groups; intros a b;
      unfold Listing.compare_notes, comparison; cbn;
      destruct (Note.is_encrypted a), (Note.is_encrypted b); cbn; intros; lia || discriminate.
  - intros shown H. rewrite (Hrun _ _ H).
    rewrite (Array_sort_two_groups _ (fun n => negb (Note.is_encrypted n))).
    + f_equal. apply filter_ext. intros a. apply negb_involutive.
    + intros a b. unfold Listing.compare_notes, comparison; cbn.
      destruct (Note.is_encrypted a), (Note.is_encrypted b); cbn; intros; lia || discriminate.
    + intros a b. unfold Listing.compare_notes, comparison; cbn.
      destruct (Note.is_encrypted a), (Note.is_encrypted b); cbn; intros; lia || discriminate.
    + intros a b. unfold Listing.compare_notes, comparison; cbn.
      destruct (Note.is_encrypted a), (Note.is_encrypted b); cbn; intros; lia || discriminate.
  - intros shown H. rewrite (Hrun _ _ H).
    apply Array_sort_sorted; unfold Listing.compare_notes, comparison; cbn; intros; lia.
  - intros shown H. rewrite (Hrun _ _ H).
    apply Array_sort_sorted; unfold Listing.compare_notes, comparison; cbn; intros; lia.
  - intros shown H. rewrite (Hrun _ _ H).
    apply Array_sort_sorted; unfold Listing.compare_notes, comparison; cbn; intros; lia.
  - intros cfg. rewrite filteredNotes_Ok. destruct (forallb _ notes); reflexivity.
Qed.

(** When every lookup of the search is safe, the filter returns for each
    note, with what the cached texts say. *)
Lemma matches_safe (cat q : jsstring) (cache : gmap (list Z) Cached.t)
    (tcache : gmap (list Z) (list Z)) (notes : list Note.t) (n : Note.t) :
  lookups_are_safe tcache notes = true -> In n notes ->
  exists b, matches cat q cache tcache n = Ok b /\
    (in_category cat n = true ->
     (exists paths path text,
        Note.attachments n = Some paths /\ In path paths /\ tcache !! path = Some text /\
        includes (toLowerCase q) (toLowerCase text) = true) ->
     b = true).
Proof.
  intros Hsafe Hin. unfold lookups_are_safe in Hsafe.
  rewrite forallb_forall in Hsafe. specialize (Hsafe n Hin).
  rewrite forallb_forall in Hsafe.
  unfold Listing.matches, in_category. cbv zeta.
  destruct (negb (truthy (toLowerCase q))).
  - eexists. split; [reflexivity|]. intros Hc _. exact Hc.
  - destruct (Note.attachments n) as [paths|] eqn:Ha; cbn [default] in Hsafe.
    + rewrite (Array_some_safe _
                 (fun path => match tcache !! path with
                              | Some text => includes (toLowerCase q) (toLowerCase text)
                              | None => false
                              end)).
      * cbn [bind]. eexists. split; [reflexivity|].
        intros Hc (paths' & path & text & [= <-] & Hp & Ht & Hinc). rewrite Hc. cbn [andb].
        assert (He : existsb (fun p => match tcache !! p with
                                       | Some t => includes (toLowerCase q) (toLowerCase t)
                                       | None => false
                                       end) paths = true).
        { apply existsb_exists. exists path. rewrite Ht. auto. }
        rewrite He. apply orb_true_r.
      * intros path Hp. specialize (Hsafe path Hp). unfold text_includes.
        destruct (tcache !! path) as [text|] eqn:Ht; [reflexivity|].
        apply orb_true_iff in Hsafe as [Hs | Hs].
        -- apply negb_true_iff in Hs. rewrite Hs. reflexivity.
        -- apply bool_decide_eq_true in Hs. destruct Hs as [x Hx]. discriminate.
    + cbn [bind]. eexists. split; [reflexivity|].
      intros _ (paths' & _ & _ & Hx & _). discriminate.
Qed.

End ListingFacts.


Lemma sort_options_order_the_list_witness :
  exists shown,
    Listing.filteredNotes Files.toLowerCase (fun _ _ => 0) (fun _ => None)
      (notes Toy.ready) (lit "all") [] ∅ ∅ {| field := BySecurity; order := Asc |} = Ok shown /\
    map Note.id shown = [lit "b"; lit "a"; lit "c"].
Proof.
  assert (Hrun : exists shown,
             Listing.filteredNotes Files.toLowerCase (fun _ _ => 0) (fun _ => None)
               (notes Toy.ready) (lit "all") [] ∅ ∅ {| field := BySecurity; order := Asc |}
             = Ok shown) by (vm_compute; eexists; reflexivity).
  destruct Hrun as (shown & Hrun). exists shown. split; [exact Hrun|].
  rewrite (proj1 (proj2 (sort_options_order_the_list Files.toLowerCase (fun _ _ => 0)
                           (fun _ => None) (notes Toy.ready) (lit "all") [] ∅ ∅))
             shown Hrun).
  vm_compute. reflexivity.
Defined.

Section SearchAfterLock.
Variable W : SubtleCrypto.
Variable B : Backend.
Variable toLowerCase : jsstring -> jsstring.
Variable localeCompare : jsstring -> jsstring -> Z.
Variable Date_getTime : jsstring -> option Z.

(** A note found by the cached text of an attachment is listed, when every
    lookup of the search is safe. *)
Lemma listed_by_attachment_text (notes : list Note.t) (cat q : jsstring)
    (cache : gmap (list Z) Cached.t) (tcache : gmap (list Z) (list Z)) (cfg : SortOption)
    (n : Note.t) (paths : list jsstring) (path text : jsstring) :
  lookups_are_safe tcache notes = true ->
  In n notes -> in_category cat n = true ->
  Note.attachments n = Some paths -> In path paths ->
  tcache !! path = Some text ->
  includes (toLowerCase q) (toLowerCase text) = true ->
  exists shown,
    filteredNotes toLowerCase localeCompare Date_getTime notes cat q cache tcache cfg
      = Ok shown /\
    In n shown.
Proof.
  intros Hsafe Hin Hcat Ha Hp Ht Hinc.
  assert (Hok : forallb (fun m => is_ok (matches toLowerCase cat q cache tcache m)) notes
                = true).
  { apply forallb_forall. intros m Hm.
    destruct (matches_safe toLowerCase cat q cache tcache notes m Hsafe Hm) as (b & Hb & _).
    rewrite Hb. reflexivity. }
  pose proof (filteredNotes_Ok toLowerCase localeCompare Date_getTime notes cat q cache
                tcache cfg) as Hrun.
  rewrite Hok in Hrun. eexists. split; [exact Hrun|].
  apply (In_filteredNotes toLowerCase localeCompare Date_getTime _ _ _ _ _ _ _ n Hrun).
  split; [exact Hin|].
  destruct (matches_safe toLowerCase cat q cache tcache notes n Hsafe Hin) as (b & Hb & Htrue).
  rewrite Hb. f_equal. apply Htrue; [exact Hcat|].
  exists paths, path, text. repeat split; assumption.
Qed.

(** X23.  The search reads the cached text of attachments for every note,
    encrypted or not, unlocked or not.  When no attachment path of a note is
    an inherited name that the cache lacks (a lookup under such a name
    throws), a note in the category shown is listed as soon as the text
    typed occurs in the cached text of one of its attachments; and since the
    auto-lock timer leaves that cache alone, a note found in this way by the
    decrypted text of its attachment is still found after the timer has
    locked it. *)
Theorem attachment_text_stays_searchable (s : State) (ms : N) (cfg : SortOption)
    (n : Note.t) (paths : list jsstring) (path text : jsstring) :
  lookups_are_safe (attachmentTextCache s) (notes s) = true ->
  In n (notes s) -> in_category (selectedCategory s) n = true ->
  Note.attachments n = Some paths -> In path paths ->
  attachmentTextCache s !! path = Some text ->
  includes (toLowerCase (searchQuery s)) (toLowerCase text) = true ->
  (exists shown,
     listed toLowerCase localeCompare Date_getTime s cfg = Ok shown /\ In n shown) /\
  (exists shown,
     listed toLowerCase localeCompare Date_getTime (step W B (Elapse ms) s) cfg = Ok shown /\
     In n shown).
Proof.
  intros Hsafe Hin Hcat Ha Hp Ht Hinc. unfold listed. split.
  - eapply listed_by_attachment_text; eassumption.
  - cbn [step].
    rewrite (elapse_keeps notes), (elapse_keeps selectedCategory),
      (elapse_keeps searchQuery), (elapse_keeps attachmentTextCache) by reflexivity.
    eapply listed_by_attachment_text; eassumption.
Qed.

End SearchAfterLock.

Lemma attachment_text_stays_searchable_witness :
  lookups_are_safe (attachmentTextCache Examples.searching) (notes Examples.searching)
    = true /\
  exists n,
    In n (notes Examples.searching) /\ Note.id n = lit "a" /\
    Note.is_encrypted n = true /\
    decryptedCache
      (step Toy.primitives Examples.world_with_attachment (Elapse 60000) Examples.searching)
      = ∅ /\
    exists shown,
      listed Files.toLowerCase (fun _ _ => 0) (fun _ => None)
        (step Toy.primitives Examples.world_with_attachment (Elapse 60000)
           Examples.searching)
        {| field := ByDate; order := Desc |} = Ok shown /\
      In n shown.
Proof.
  assert (Hsafe : lookups_are_safe (attachmentTextCache Examples.searching)
                    (notes Examples.searching) = true) by (vm_compute; reflexivity).
  split; [exact Hsafe|].
  assert (Hex : exists n ns, notes Examples.searching = n :: ns)
    by (vm_compute; eexists _, _; reflexivity).
  destruct Hex as (n & ns & Hn).
  assert (Hid : Note.id n = lit "a")
    by (vm_compute in Hn; injection Hn as <- _; reflexivity).
  assert (Henc : Note.is_encrypted n = true)
    by (vm_compute in Hn; injection Hn as <- _; reflexivity).
  assert (Hcat : in_category (selectedCategory Examples.searching) n = true)
    by (vm_compute in Hn; injection Hn as <- _; vm_compute; reflexivity).
  assert (Ha : Note.attachments n = Some [lit "u1/1700000000000_secret.txt"])
    by (vm_compute in Hn; injection Hn as <- _; reflexivity).
  assert (Ht : attachmentTextCache Examples.searching !! lit "u1/1700000000000_secret.txt"
               = Some (lit "attached secret")) by (vm_compute; reflexivity).
  assert (Hin : In n (notes Examples.searching)) by (rewrite Hn; left; reflexivity).
  exists n. split; [exact Hin|]. split; [exact Hid|]. split; [exact Henc|].
  split; [vm_compute; reflexivity|].
  exact (proj2 (attachment_text_stays_searchable Toy.primitives Examples.world_with_attachment
                  Files.toLowerCase (fun _ _ => 0) (fun _ => None)
                  Examples.searching 60000 {| field := ByDate; order := Desc |}
                  n [lit "u1/1700000000000_secret.txt"]
                  (lit "u1/1700000000000_secret.txt") (lit "attached secret")
                  Hsafe Hin Hcat Ha (or_introl eq_refl) Ht eq_refl)).
Defined.

(** ** Opening an attachment again *)

Section Opening.
Variable W : SubtleCrypto.
Variable B : Backend.
Variable inherited_type : jsstring -> jsstring.

(** [db.downloadFile] when the primary bucket has the object. *)
Lemma db_downloadFile_primary (path : jsstring) (s : State) (stored : Blob) :
  storage_download B (length (trace s ++ [StorageDownload PRIMARY_BUCKET path]))
    PRIMARY_BUCKET path = inr stored ->
  db_downloadFile B path s =
  (Ok stored, set_trace (trace s ++ [StorageDownload PRIMARY_BUCKET path]) s).
Proof.
  intros H. unfold db_downloadFile, mbind, perform, modify, steps. cbn [fst snd trace set_trace].
  rewrite H. reflexivity.
Qed.

(** Both handlers on a packed file of a note that is encrypted and unlocked
    with the password the file was packed under. *)
Lemma open_packed (p : jsstring) (plain : list byte) (path : jsstring) (s : State)
    (stored : Blob) :
  aead_correct W ->
  packed_encryption W p plain (blob_bytes stored) -> p <> [] ->
  selected_is_encrypted s = true -> unlockPassword s = p ->
  storage_download B (length (trace s ++ [StorageDownload PRIMARY_BUCKET path]))
    PRIMARY_BUCKET path = inr stored ->
  fst (handleDownloadAttachment W B path s) =
    Ok (Some {| Anchor.href := {| blob_bytes := plain; blob_type := octet_stream |};
                Anchor.download := getFileNameFromPath path |}) /\
  exists preview,
    fst (handleOpenPreview W B inherited_type path s) = Ok (Some preview) /\
    blob_bytes (PreviewData.url preview) = plain /\
    PreviewData.name preview = getFileNameFromPath path.
Proof.
  intros Hc (saltb & ivb & Hs & Hi & Hb) Hp Henc Hpw Hd.
  assert (Ht : truthy p = true) by (destruct p; [congruence | reflexivity]).
  destruct stored as [bytes ty]. cbn [blob_bytes] in Hb. subst bytes.
  split.
  - unfold handleDownloadAttachment. rewrite mbind_get. unfold try_catch, mbind at 1.
    rewrite (db_downloadFile_primary _ _ _ Hd), Henc, Hpw, Ht. cbn [negb].
    unfold call_decryptFile, mbind, perform, modify, lift, ret. cbn [fst snd].
    rewrite decryptFile_packed, Hc by assumption. reflexivity.
  - unfold handleOpenPreview. rewrite mbind_get. unfold try_catch, mbind at 1.
    rewrite (db_downloadFile_primary _ _ _ Hd). cbv zeta. rewrite Henc, Hpw, Ht. cbn [negb].
    unfold call_decryptFile, mbind, perform, modify, lift, ret. cbn [fst snd].
    rewrite decryptFile_packed, Hc by assumption. cbn [fst].
    eexists. split; [reflexivity|]. split; reflexivity.
Qed.

(** An upload among the effects of a handler that satisfies [upload_of]. *)
Lemma upload_among {A : Type} (m : M A) (s : State) (files : list File)
    (password : option jsstring) (bucket path : jsstring) (body : list byte) :
  Forall (upload_of W files password) (effects_of m s) ->
  In (StorageUpload bucket path body) (effects_of m s) ->
  exists file, In file files /\
    match password with
    | Some p => packed_encryption W p (file_bytes file) body
    | None => body = file_bytes file
    end.
Proof.
  intros Hall Hin. rewrite List.Forall_forall in Hall. specialize (Hall _ Hin).
  destruct Hall as (_ & file & uid & ts & Hf & _ & Hb). exists file. split; assumption.
Qed.

(** X24.  An attachment saved with an encrypted note opens again.  Take a
    file that [handleSaveNewNote] or [handleUpdateNote] uploaded with
    encryption on.  When later the selected note is encrypted, the password
    typed to unlock is the one the file was saved under and the object
    store returns what was uploaded, both [handleDownloadAttachment] and
    [handleOpenPreview] hand out exactly the bytes of the staged file. *)
Theorem saved_attachment_opens_again (s s' : State) (bucket path : jsstring)
    (body : list byte) (stored : Blob) :
  aead_correct W ->
  (In (StorageUpload bucket path body) (effects_of (handleSaveNewNote W B) s) /\
   NewNote.encrypt (newNote s) = true /\
   unlockPassword s' = NewNote.password (newNote s)) \/
  (In (StorageUpload bucket path body) (effects_of (handleUpdateNote W B) s) /\
   EditForm.is_encrypted (editForm s) = true /\
   unlockPassword s' = update_password s) ->
  selected_is_encrypted s' = true ->
  storage_download B (length (trace s' ++ [StorageDownload PRIMARY_BUCKET path]))
    PRIMARY_BUCKET path = inr stored ->
  blob_bytes stored = body ->
  exists file,
    In file (stagedFiles s) /\
    (exists a, fst (handleDownloadAttachment W B path s') = Ok (Some a) /\
               blob_bytes (Anchor.href a) = file_bytes file /\
               Anchor.download a = getFileNameFromPath path) /\
    (exists preview,
       fst (handleOpenPreview W B inherited_type path s') = Ok (Some preview) /\
       blob_bytes (PreviewData.url preview) = file_bytes file /\
       PreviewData.name preview = getFileNameFromPath path).
Proof.
  intros Hc Hup Henc Hd Hb.
  assert (Hfile : exists file,
             In file (stagedFiles s) /\
             packed_encryption W (unlockPassword s') (file_bytes file) body /\
             unlockPassword s' <> []).
  { destruct Hup as [(Hin & He & Hp) | (Hin & He & Hp)].
    - assert (Hall : Forall (upload_of W (stagedFiles s)
                               (if NewNote.encrypt (newNote s)
                                then Some (NewNote.password (newNote s)) else None))
                            (effects_of (handleSaveNewNote W B) s)).
      { apply effects_of_performs.
        apply writes_handleSaveNewNote; try (intros; exact I). intros e Hx. exact Hx. }
      rewrite He in Hall.
      destruct (upload_among _ _ _ _ _ _ _ Hall Hin) as (file & Hf & Hpk).
      + exists file. rewrite Hp. split; [exact Hf|]. split; [exact Hpk|].
        intros Hempty.
        destruct (handleSaveNewNote_no_password W B s He Hempty) as (msg & _ & Hrun).
        rewrite (effects_of_appended _ s [Alert msg None]) in Hin by (rewrite Hrun; reflexivity).
        destruct Hin as [Hin | []]. discriminate.
    - assert (Hall : Forall (upload_of W (stagedFiles s)
                               (if EditForm.is_encrypted (editForm s)
                                then Some (update_password s) else None))
                            (effects_of (handleUpdateNote W B) s)).
      { apply effects_of_performs.
        apply writes_handleUpdateNote; try (intros; exact I). intros e Hx. exact Hx. }
      rewrite He in Hall.
      destruct (upload_among _ _ _ _ _ _ _ Hall Hin) as (file & Hf & Hpk).
      + exists file. rewrite Hp. split; [exact Hf|]. split; [exact Hpk|].
        intros Hempty. unfold update_password in Hempty.
        destruct (selectedNote s) as [note|] eqn:Hn.
        * destruct (truthy (EditForm.password (editForm s))) eqn:Ht.
          -- rewrite Hempty in Ht. discriminate.
          -- assert (Hf0 : EditForm.password (editForm s) = [])
               by (destruct (EditForm.password (editForm s)); [reflexivity | discriminate]).
             pose proof (handleUpdateNote_no_password W B s note Hn He Hf0 Hempty) as Hrun.
             rewrite (effects_of_appended _ s
                        [Alert (lit "Password required to save encrypted note") None])
               in Hin by (rewrite Hrun; reflexivity).
             destruct Hin as [Hin | []]. discriminate.
        * assert (Hrun : handleUpdateNote W B s = (Ok tt, s))
            by (unfold handleUpdateNote; rewrite mbind_get, Hn; reflexivity).
          unfold effects_of in Hin. rewrite Hrun in Hin. cbn [snd] in Hin.
          rewrite skipn_all in Hin. destruct Hin. }
  destruct Hfile as (file & Hf & Hpk & Hne). exists file. split; [exact Hf|].
  subst body.
  destruct (open_packed (unlockPassword s') (file_bytes file) path s' stored
              Hc Hpk Hne Henc eq_refl Hd) as (Ha & preview & Hv & Hbytes & Hname).
  split.
  - eexists. split; [exact Ha|]. split; reflexivity.
  - exists preview. split; [exact Hv|]. split; assumption.
Qed.

(** The type [decryptFile] gives its result. *)
Lemma decryptFile_type (blob out : Blob) (p : jsstring) (mime : option jsstring) :
  decryptFile W blob p mime = Ok out ->
  blob_type out = Blob_type (if truthy_opt mime then default [] mime else octet_stream).
Proof.
  unfold decryptFile.
  destruct (getPasswordKey p) as [pk|e]; cbn [bind]; [|discriminate].
  destruct (deriveKey W pk _ _) as [k|e]; cbn [bind]; [|discriminate].
  destruct (subtle_decrypt W _ k _) as [d|e]; cbn [bind]; [|discriminate].
  intros [= <-]. reflexivity.
Qed.

(** What [handleOpenPreview] shows when it shows something. *)
Lemma handleOpenPreview_shown (path : jsstring) (s : State) (preview : PreviewData.t) :
  truthy (preview_type inherited_type (getFileNameFromPath path)) = true ->
  fst (handleOpenPreview W B inherited_type path s) = Ok (Some preview) ->
  let fileName := getFileNameFromPath path in
  let decoded := TextDecoder_decode (blob_bytes (PreviewData.url preview)) in
  PreviewData.name preview = fileName /\
  PreviewData.type preview = Blob_type (preview_type inherited_type fileName) /\
  PreviewData.text preview =
    (if isTextFile fileName && truthy decoded then Some decoded else None).
Proof.
  intros Hty. unfold handleOpenPreview. rewrite mbind_get. unfold try_catch, mbind at 1.
  destruct (db_downloadFile B path s) as [[blob|e] s1]; [|discriminate].
  cbv zeta.
  assert (Hshow : forall (finalBlob : Blob) (s2 : State),
            blob_type finalBlob =
              Blob_type (preview_type inherited_type (getFileNameFromPath path)) ->
            fst (ret (Some
                   {| PreviewData.url := finalBlob;
                      PreviewData.name := getFileNameFromPath path;
                      PreviewData.type := blob_type finalBlob;
                      PreviewData.text :=
                        if truthy (if isTextFile (getFileNameFromPath path)
                                   then TextDecoder_decode (blob_bytes finalBlob) else [])
                        then Some (if isTextFile (getFileNameFromPath path)
                                   then TextDecoder_decode (blob_bytes finalBlob) else [])
                        else None |}) s2) = Ok (Some preview) ->
            PreviewData.name preview = getFileNameFromPath path /\
            PreviewData.type preview =
              Blob_type (preview_type inherited_type (getFileNameFromPath path)) /\
            PreviewData.text preview =
              (if isTextFile (getFileNameFromPath path) &&
                  truthy (TextDecoder_decode (blob_bytes (PreviewData.url preview)))
               then Some (TextDecoder_decode (blob_bytes (PreviewData.url preview)))
               else None)).
  { intros finalBlob s2 Hb [= <-].
    cbn [PreviewData.name PreviewData.type PreviewData.text PreviewData.url].
    split; [reflexivity|]. split; [exact Hb|].
    destruct (isTextFile (getFileNameFromPath path)); reflexivity. }
  destruct (selected_is_encrypted s).
  - destruct (truthy (unlockPassword s)); cbn [negb]; [|discriminate].
    unfold call_decryptFile, mbind, perform, modify, lift. cbn [fst snd].
    destruct (decryptFile W blob (unlockPassword s) _) as [out|e] eqn:Hd; [|discriminate].
    apply Hshow. rewrite (decryptFile_type _ _ _ _ Hd). cbn [truthy_opt default].
    unfold truthy_opt. rewrite Hty. reflexivity.
  - apply Hshow. reflexivity.
Qed.

(** The type found in [mimeMap] for an extension, by kind. *)
Lemma mimeType_of_kind (fileName : jsstring) :
  let mime := mimeType_of fileName in
  truthy mime = true /\ Blob_type mime = mime /\
  (starts_with (lit "image/") mime = true <->
   isImageFile fileName = true /\ extension fileName <> lit "bmp") /\
  (starts_with (lit "image/") mime = false ->
   jsstring_eqb mime (lit "application/pdf") = isPdfFile fileName).
Proof.
  unfold mimeType_of, isImageFile, isPdfFile, includes_word, mimeMap.
  generalize (extension fileName). intros e. cbn [map fst snd assoc existsb].
  unfold jsstring_eqb.
  repeat match goal with
         | |- context [bool_decide (e = ?w)] =>
             let H := fresh "H" in
             destruct (bool_decide (e = w)) eqn:H;
             [apply bool_decide_eq_true in H; subst e; vm_compute;
              intuition (try discriminate; try congruence)
             | apply bool_decide_eq_false in H]
         end.
  vm_compute. intuition (try discriminate; try congruence).
Qed.

Lemma isTextFile_not_pdf (filename : jsstring) :
  isTextFile filename = true -> isPdfFile filename = false.
Proof.
  unfold isTextFile, isPdfFile, jsstring_eqb. generalize (extension filename). intros e H.
  apply includes_word_In in H. vm_compute in H. apply bool_decide_eq_false.
  repeat (destruct H as [H|H]; [subst e; vm_compute; discriminate|]). contradiction.
Qed.

(** X25.  What the preview modal shows follows the file's extension, and
    agrees with the helpers [isImageFile], [isPdfFile] and [isTextFile] but
    for two cases.  The preview gets the type [mimeMap] has for the
    extension; the image pane is shown for the images of [isImageFile]
    except [bmp], which the table lacks; the PDF pane exactly for
    [isPdfFile]; the text pane for the text files whose decoded content is
    not empty.  A [bmp] file, which [indexAttachments] caches as an image,
    gets "No direct preview".  The extensions [constructor] and [__proto__],
    which an object literal inherits, are left aside. *)
Theorem preview_pane_follows_the_file_kind (path : jsstring) (s : State)
    (preview : PreviewData.t) :
  let fileName := getFileNameFromPath path in
  inherited_key (extension fileName) = false ->
  fst (handleOpenPreview W B inherited_type path s) = Ok (Some preview) ->
  PreviewData.type preview = mimeType_of fileName /\
  (preview_pane preview = ImagePane <->
   isImageFile fileName = true /\ extension fileName <> lit "bmp") /\
  (preview_pane preview = PdfPane <-> isPdfFile fileName = true) /\
  (preview_pane preview = TextPane <->
   isTextFile fileName = true /\
   TextDecoder_decode (blob_bytes (PreviewData.url preview)) <> []) /\
  (extension fileName = lit "bmp" ->
   isImageFile fileName = true /\ preview_pane preview = NoPreview).
Proof.
  intros fileName Hk Hrun.
  destruct (mimeType_of_kind fileName) as (Htruthy & Hnormal & Himg & Hpdf).
  cbv zeta in Hnormal, Himg, Hpdf.
  assert (Hpt : preview_type inherited_type fileName = mimeType_of fileName)
    by (unfold preview_type; rewrite Hk; reflexivity).
  destruct (handleOpenPreview_shown path s preview) as (_ & Hty & Htx);
    [fold fileName; rewrite Hpt; exact Htruthy | exact Hrun |].
  fold fileName in Hty, Htx. rewrite Hpt, Hnormal in Hty. cbv zeta in Htx.
  set (decoded := TextDecoder_decode (blob_bytes (PreviewData.url preview))) in *.
  assert (Hd : truthy decoded = true <-> decoded <> [])
    by (destruct decoded; cbn; split; congruence).
  unfold preview_pane. rewrite Hty, Htx.
  split; [reflexivity|].
  destruct (starts_with (lit "image/") (mimeType_of fileName)) eqn:Hi.
  - destruct (proj1 Himg eq_refl) as [Him Hbmp].
    assert (Hnt : isTextFile fileName = false).
    { destruct (isTextFile fileName) eqn:Ht; [|reflexivity].
      rewrite (isTextFile_not_image _ Ht) in Him. discriminate. }
    assert (Hnp : isPdfFile fileName = false).
    { unfold isPdfFile, jsstring_eqb. apply bool_decide_eq_false. intros He.
      unfold isImageFile in Him. rewrite He in Him. vm_compute in Him. discriminate. }
    rewrite Hnt, Hnp.
    split; [split; [intros _; split; assumption | reflexivity]|].
    split; [split; discriminate|]. split; [split; [discriminate | intros [Hx _]; discriminate]|].
    intros He. contradiction.
  - specialize (Hpdf eq_refl). rewrite Hpdf.
    assert (Hni : ~ (isImageFile fileName = true /\ extension fileName <> lit "bmp"))
      by (intros Hx; apply Himg in Hx; discriminate).
    split; [split; [destruct (isPdfFile fileName); [|destruct (truthy_opt _)]; discriminate
                   | intros Hx; contradiction]|].
    destruct (isPdfFile fileName) eqn:Hp.
    + assert (Hnt : isTextFile fileName = false).
      { destruct (isTextFile fileName) eqn:Ht; [|reflexivity].
        rewrite (isTextFile_not_pdf _ Ht) in Hp. discriminate. }
      rewrite Hnt. split; [split; reflexivity|].
      split; [split; [discriminate | intros [Hx _]; discriminate]|].
      intros He. unfold isPdfFile in Hp. rewrite He in Hp. vm_compute in Hp. discriminate.
    + split; [split; [destruct (truthy_opt _)|]; discriminate|]. split.
      * destruct (isTextFile fileName); cbn [andb].
        -- destruct (truthy decoded) eqn:Htd; cbn [truthy_opt].
           ++ unfold truthy_opt. rewrite Htd.
              split; [intros _; split; [reflexivity | apply Hd; reflexivity] | reflexivity].
           ++ split; [discriminate|]. intros [_ Hx]. apply Hd in Hx. discriminate.
        -- cbn [truthy_opt]. split; [discriminate | intros [Hx _]; discriminate].
      * intros He. unfold isImageFile, isTextFile. rewrite He.
        split; [vm_compute; reflexivity|]. reflexivity.
Qed.

(** What [db.downloadFile] returns was read from the object store under the
    path asked for. *)
Lemma db_downloadFile_stored (path : jsstring) (s : State) (blob : Blob) :
  fst (db_downloadFile B path s) = Ok blob ->
  exists n bucket, storage_download B n bucket path = inr blob.
Proof.
  unfold db_downloadFile, mbind, perform, modify, steps, ret, throw. cbn [fst snd].
  destruct (storage_download B _ PRIMARY_BUCKET path) as [msg|data] eqn:H1.
  - destruct (includes (lit "Object not found") msg); [|discriminate].
    cbn [fst snd].
    destruct (storage_download B _ LEGACY_BUCKET path) as [msg'|data] eqn:H2; [discriminate|].
    intros [= <-]. eauto.
  - intros [= <-]. eauto.
Qed.

(** X26.  The attachment of an encrypted note leaves the component only
    decrypted.  When the selected note is encrypted, whatever
    [handleDownloadAttachment] gives to the browser and whatever
    [handleOpenPreview] shows is the result of [decryptFile], under the
    password typed to unlock, on a blob the object store returned for the
    path; in particular that password is not empty.  With no password typed
    both handlers hand out nothing, unlike [indexAttachments], which then
    takes the stored bytes for the content. *)
Theorem encrypted_attachment_leaves_only_decrypted (path : jsstring) (s : State) :
  selected_is_encrypted s = true ->
  (forall a,
     fst (handleDownloadAttachment W B path s) = Ok (Some a) ->
     unlockPassword s <> [] /\
     exists n bucket stored,
       storage_download B n bucket path = inr stored /\
       decryptFile W stored (unlockPassword s) None = Ok (Anchor.href a)) /\
  (forall preview,
     fst (handleOpenPreview W B inherited_type path s) = Ok (Some preview) ->
     unlockPassword s <> [] /\
     exists n bucket stored mime,
       storage_download B n bucket path = inr stored /\
       decryptFile W stored (unlockPassword s) mime = Ok (PreviewData.url preview)) /\
  (unlockPassword s = [] ->
   fst (handleDownloadAttachment W B path s) = Ok None /\
   fst (handleOpenPreview W B inherited_type path s) = Ok None).
Proof.
  intros Henc. split; [|split].
  - intros a. unfold handleDownloadAttachment. rewrite mbind_get.
    unfold try_catch, mbind at 1.
    destruct (db_downloadFile B path s) as [[blob|e] s1] eqn:Hd; [|discriminate].
    rewrite Henc.
    destruct (unlockPassword s) as [|c pw] eqn:Hpw; [discriminate|]. cbn [truthy negb].
    unfold call_decryptFile, mbind, perform, modify, lift, ret. cbn [fst snd].
    destruct (decryptFile W blob (c :: pw) None) as [out|e] eqn:Hdec; [|discriminate].
    intros [= <-]. split; [discriminate|].
    destruct (db_downloadFile_stored path s blob) as (n & bucket & Hs);
      [rewrite Hd; reflexivity|].
    exists n, bucket, blob. split; [exact Hs | exact Hdec].
  - intros preview. unfold handleOpenPreview. rewrite mbind_get.
    unfold try_catch, mbind at 1.
    destruct (db_downloadFile B path s) as [[blob|e] s1] eqn:Hd; [|discriminate].
    cbv zeta. rewrite Henc.
    destruct (unlockPassword s) as [|c pw] eqn:Hpw; [discriminate|]. cbn [truthy negb].
    unfold call_decryptFile, mbind, perform, modify, lift, ret. cbn [fst snd].
    destruct (decryptFile W blob (c :: pw) _) as [out|e] eqn:Hdec; [|discriminate].
    intros [= <-]. split; [discriminate|].
    destruct (db_downloadFile_stored path s blob) as (n & bucket & Hs);
      [rewrite Hd; reflexivity|].
    exists n, bucket, blob. eexists. split; [exact Hs | exact Hdec].
  - intros Hpw. split.
    + unfold handleDownloadAttachment. rewrite mbind_get. unfold try_catch, mbind at 1.
      destruct (db_downloadFile B path s) as [[blob|e] s1]; [|reflexivity].
      rewrite Henc, Hpw. reflexivity.
    + unfold handleOpenPreview. rewrite mbind_get. unfold try_catch, mbind at 1.
      destruct (db_downloadFile B path s) as [[blob|e] s1]; [|reflexivity].
      cbv zeta. rewrite Henc, Hpw. reflexivity.
Qed.

End Opening.

Lemma saved_attachment_opens_again_witness :
  aead_correct Toy.primitives /\
  In (StorageUpload PRIMARY_BUCKET (fst Examples.uploaded) (snd Examples.uploaded))
     (effects_of (handleSaveNewNote Toy.primitives Examples.world_with_upload)
        Examples.draft_with_file) /\
  selected_is_encrypted Toy.ready = true /\
  exists file,
    In file (stagedFiles Examples.draft_with_file) /\
    (exists a,
       fst (handleDownloadAttachment Toy.primitives Examples.world_with_upload
              (fst Examples.uploaded) Toy.ready) = Ok (Some a) /\
       blob_bytes (Anchor.href a) = file_bytes file /\
       Anchor.download a = getFileNameFromPath (fst Examples.uploaded)) /\
    (exists preview,
       fst (handleOpenPreview Toy.primitives Examples.world_with_upload (fun _ => [])
              (fst Examples.uploaded) Toy.ready) = Ok (Some preview) /\
       blob_bytes (PreviewData.url preview) = file_bytes file /\
       PreviewData.name preview = getFileNameFromPath (fst Examples.uploaded)).
Proof.
  assert (Hin : In (StorageUpload PRIMARY_BUCKET (fst Examples.uploaded)
                      (snd Examples.uploaded))
                   (effects_of (handleSaveNewNote Toy.primitives Examples.world_with_upload)
                      Examples.draft_with_file))
    by (vm_compute; right; right; left; reflexivity).
  split; [exact toy_correct|]. split; [exact Hin|]. split; [reflexivity|].
  apply (saved_attachment_opens_again Toy.primitives Examples.world_with_upload (fun _ => [])
           Examples.draft_with_file Toy.ready PRIMARY_BUCKET (fst Examples.uploaded)
           (snd Examples.uploaded)
           {| blob_bytes := snd Examples.uploaded; blob_type := octet_stream |}
           toy_correct).
  - left. split; [exact Hin|]. split; reflexivity.
  - reflexivity.
  - reflexivity.
  - reflexivity.
Defined.

Lemma preview_pane_follows_the_file_kind_witness :
  inherited_key (extension (getFileNameFromPath (lit "u1/1700000000000_photo.bmp"))) = false /\
  exists preview,
    fst (handleOpenPreview Toy.primitives Toy.world (fun _ => [])
           (lit "u1/1700000000000_photo.bmp") Examples.reading_plain) = Ok (Some preview) /\
    PreviewData.type preview = octet_stream /\
    isImageFile (getFileNameFromPath (lit "u1/1700000000000_photo.bmp")) = true /\
    preview_pane preview = NoPreview.
Proof.
  split; [reflexivity|].
  assert (Hrun : exists preview,
             fst (handleOpenPreview Toy.primitives Toy.world (fun _ => [])
                    (lit "u1/1700000000000_photo.bmp") Examples.reading_plain)
             = Ok (Some preview))
    by (vm_compute; eexists; reflexivity).
  destruct Hrun as (preview & Hrun). exists preview. split; [exact Hrun|].
  destruct (preview_pane_follows_the_file_kind Toy.primitives Toy.world (fun _ => [])
              (lit "u1/1700000000000_photo.bmp") Examples.reading_plain preview
              eq_refl Hrun) as (Hty & _ & _ & _ & Hbmp).
  split; [rewrite Hty; reflexivity|]. apply Hbmp. reflexivity.
Defined.

Lemma encrypted_attachment_leaves_only_decrypted_witness :
  selected_is_encrypted Toy.ready = true /\
  (exists a,
     fst (handleDownloadAttachment Toy.primitives Examples.world_with_upload
            (fst Examples.uploaded) Toy.ready) = Ok (Some a) /\
     unlockPassword Toy.ready <> [] /\
     exists n bucket stored,
       storage_download Examples.world_with_upload n bucket (fst Examples.uploaded)
         = inr stored /\
       decryptFile Toy.primitives stored (unlockPassword Toy.ready) None
         = Ok (Anchor.href a)) /\
  selected_is_encrypted Toy.edit_without_password = true /\
  unlockPassword Toy.edit_without_password = [] /\
  fst (handleDownloadAttachment Toy.primitives Toy.world (lit "u1/1700000000000_secret.txt")
         Toy.edit_without_password) = Ok None.
Proof.
  split; [reflexivity|]. split.
  - assert (Hrun : exists a,
               fst (handleDownloadAttachment Toy.primitives Examples.world_with_upload
                      (fst Examples.uploaded) Toy.ready) = Ok (Some a))
      by (vm_compute; eexists; reflexivity).
    destruct Hrun as (a & Hrun). exists a. split; [exact Hrun|].
    exact (proj1 (encrypted_attachment_leaves_only_decrypted Toy.primitives
                    Examples.world_with_upload (fun _ => []) (fst Examples.uploaded)
                    Toy.ready eq_refl) a Hrun).
  - split; [reflexivity|]. split; [reflexivity|].
    exact (proj1 (proj2 (proj2 (encrypted_attachment_leaves_only_decrypted Toy.primitives
                                  Toy.world (fun _ => [])
                                  (lit "u1/1700000000000_secret.txt")
                                  Toy.edit_without_password eq_refl)) eq_refl)).
Defined.

(** ** The tree of categories *)

Lemma parent_eqb_eq (a b : Category.Parent) : parent_eqb a b = true <-> a = b.
Proof.
  destruct a as [| |x], b as [| |y]; cbn; split; try congruence; try discriminate.
  - unfold jsstring_eqb. intros H. apply bool_decide_eq_true in H. congruence.
  - intros [= ->]. unfold jsstring_eqb. apply bool_decide_eq_true. reflexivity.
Qed.

Lemma In_children_of (categories : list Category.t) (p : Category.Parent)
    (c : Category.t) :
  In c (children_of categories p) <-> In c categories /\ Category.parent_id c = p.
Proof.
  unfold children_of. split.
  - intros H. apply (Permutation_in _ (Array_sort_perm _ _)) in H.
    apply filter_In in H as [H1 H2]. apply parent_eqb_eq in H2. split; assumption.
  - intros [H1 H2]. apply (Permutation_in _ (Permutation_sym (Array_sort_perm _ _))).
    apply filter_In. split; [exact H1 | apply parent_eqb_eq; exact H2].
Qed.

Lemma unique_by {A K : Type} (f : A -> K) (l : list A) (x y : A) :
  List.NoDup (map f l) -> In x l -> In y l -> f x = f y -> x = y.
Proof.
  induction l as [|a l IH]; cbn [map]; intros Hn Hx Hy He; [destruct Hx|].
  apply List.NoDup_cons_iff in Hn. destruct Hn as [Ha Hn].
  destruct Hx as [-> | Hx], Hy as [-> | Hy].
  - reflexivity.
  - exfalso. apply Ha. rewrite He. apply in_map. exact Hy.
  - exfalso. apply Ha. rewrite <- He. apply in_map. exact Hx.
  - apply IH; assumption.
Qed.

(** [findIndex]: nothing satisfies [p], or the index is that of the first
    element that does. *)
Lemma findIndex_spec {A : Type} (p : A -> bool) (l : list A) :
  (findIndex p l = -1 /\ forall x, In x l -> p x = false) \/
  exists k x,
    findIndex p l = Z.of_nat k /\ nth_error l k = Some x /\ p x = true /\
    forall y, In y (firstn k l) -> p y = false.
Proof.
  induction l as [|a l IH]; cbn [findIndex].
  - left. split; [reflexivity | intros x []].
  - destruct (p a) eqn:Ha.
    + right. exists 0%nat, a. repeat split; [exact Ha | intros y []].
    + destruct IH as [[Hi Hn] | (k & x & Hi & Hx & Hp & Hb)]; rewrite Hi.
      * left. split; [reflexivity|]. intros x [<- | Hx]; [exact Ha | apply Hn; exact Hx].
      * right. exists (S k), x. destruct (Z.ltb_spec (Z.of_nat k) 0) as [?|_]; [lia|].
        split; [lia|]. split; [exact Hx|]. split; [exact Hp|].
        intros y [<- | Hy]; [exact Ha | apply Hb; exact Hy].
Qed.

Lemma relative_start_index {A : Type} (k : nat) (l : list A) :
  (k <= length l)%nat -> relative_start (Z.of_nat k) l = k.
Proof.
  intros H. unfold relative_start.
  destruct (Z.ltb_spec (Z.of_nat k) 0) as [?|_]; lia.
Qed.

Lemma splice_out_index {A : Type} (k : nat) (x : A) (l : list A) :
  nth_error l k = Some x ->
  splice_out (Z.of_nat k) l = ([x], firstn k l ++ skipn (S k) l) /\
  l = firstn k l ++ x :: skipn (S k) l.
Proof.
  intros Hx. unfold splice_out.
  assert (Hk : (k < length l)%nat) by (apply nth_error_Some; congruence).
  rewrite relative_start_index by lia.
  assert (Hs : skipn k l = x :: skipn (S k) l).
  { clear Hk. revert k Hx. induction l as [|a l IH]; intros [|k] Hx; try discriminate.
    - injection Hx as ->. reflexivity.
    - cbn [nth_error] in Hx. rewrite !skipn_cons. apply IH. exact Hx. }
  split.
  - rewrite Hs. reflexivity.
  - rewrite <- Hs, firstn_skipn. reflexivity.
Qed.

Section TreeFacts.
Variable categories : list Category.t.
Variable expandedIds : jsstring -> bool.
Variable isManagingCategories : bool.
Hypothesis unique_ids : List.NoDup (map Category.id categories).

Lemma level_In (n : nat) (c : Category.t) : level categories n c -> In c categories.
Proof. intros H. destruct H; assumption. Qed.

Lemma level_unique (n m : nat) (c : Category.t) :
  level categories n c -> level categories m c -> n = m.
Proof.
  intros Hn. revert m. induction Hn as [c Hc Hp | c d n Hc Hd IH Hp]; intros m Hm.
  - destruct Hm as [c _ _ | c d' m _ _ Hp']; [reflexivity | congruence].
  - destruct Hm as [c _ Hp' | c d' m _ Hd' Hp']; [congruence|].
    f_equal. apply IH.
    assert (d' = d); [|subst d'; exact Hd'].
    apply (unique_by Category.id categories); try assumption.
    + eapply level_In. exact Hd'.
    + eapply level_In. exact Hd.
    + congruence.
Qed.

Lemma level_chain (n : nat) (c : Category.t) :
  level categories n c ->
  exists anc, List.NoDup anc /\ incl anc categories /\ length anc = S n /\
              forall a, In a anc -> exists m, (m <= n)%nat /\ level categories m a.
Proof.
  induction 1 as [c Hc Hp | c d n Hc Hd IH Hp].
  - exists [c]. split; [repeat constructor; intros []|]. split.
    + intros a [<- | []]. exact Hc.
    + split; [reflexivity|]. intros a [<- | []]. exists 0%nat. split; [lia|].
      constructor; assumption.
  - destruct IH as (anc & Hnd & Hincl & Hlen & Hlev).
    exists (c :: anc). split; [|split; [|split]].
    + constructor; [|exact Hnd]. intros Hin. destruct (Hlev c Hin) as (m & Hm & Hl).
      assert (m = S n) by (eapply level_unique; [exact Hl | econstructor; eassumption]).
      lia.
    + intros a [<- | Ha]; [exact Hc | apply Hincl; exact Ha].
    + cbn [length]. rewrite Hlen. reflexivity.
    + intros a [<- | Ha].
      * exists (S n). split; [lia|]. econstructor; eassumption.
      * destruct (Hlev a Ha) as (m & Hm & Hl). exists m. split; [lia | exact Hl].
Qed.

Lemma level_bound (n : nat) (c : Category.t) :
  level categories n c -> (n < length categories)%nat.
Proof.
  intros H. destruct (level_chain n c H) as (anc & Hnd & Hincl & Hlen & _).
  pose proof (NoDup_incl_length Hnd Hincl). lia.
Qed.

Lemma child_level (p : Category.Parent) (d : nat) (c : Category.t) :
  at_depth categories p d -> In c (children_of categories p) -> level categories d c.
Proof.
  intros Hp Hc. apply In_children_of in Hc as [Hin Hpar].
  destruct p as [| |x]; cbn [at_depth] in Hp.
  - destruct Hp.
  - subst d. constructor; assumption.
  - destruct Hp as (y & n & Hy & <- & ->). econstructor; eassumption.
Qed.

Lemma at_depth_child (d : nat) (c : Category.t) :
  level categories d c -> at_depth categories (Category.Id (Category.id c)) (S d).
Proof. intros H. exists c, d. repeat split. exact H. Qed.

Lemma fold_reducer_None (below : Category.Parent -> nat -> option (list Item.t))
    (d : nat) (l : list Category.t) :
  fold_left (reducer categories expandedIds isManagingCategories below d) l None = None.
Proof. induction l as [|c l IH]; [reflexivity | exact IH]. Qed.

Lemma fold_reducer_Some (below : Category.Parent -> nat -> option (list Item.t))
    (d : nat) (l : list Category.t) (acc : list Item.t) :
  (forall c, In c l -> exists more, below (Category.Id (Category.id c)) (S d) = Some more) ->
  exists items,
    fold_left (reducer categories expandedIds isManagingCategories below d) l (Some acc)
    = Some items.
Proof.
  revert acc. induction l as [|c l IH]; intros acc Hb; [eexists; reflexivity|].
  cbn [fold_left]. destruct (Hb c (or_introl eq_refl)) as (more & Hm).
  unfold reducer at 2. rewrite Hm.
  destruct (expandedIds (Category.id c) || isManagingCategories);
    apply IH; intros c' Hc'; apply Hb; right; exact Hc'.
Qed.

(** With distinct ids the recursion of [build] ends within the bound. *)
Lemma build_total (fuel : nat) (p : Category.Parent) (d : nat) :
  at_depth categories p d -> (length categories < fuel + d)%nat ->
  exists items, build categories expandedIds isManagingCategories fuel p d = Some items.
Proof.
  revert p d. induction fuel as [|fuel IH]; intros p d Hp Hlen.
  - exfalso. destruct p as [| |x]; cbn [at_depth] in Hp.
    + exact Hp.
    + subst d. lia.
    + destruct Hp as (y & n & Hy & _ & ->). apply level_bound in Hy. lia.
  - cbn [build]. apply fold_reducer_Some. intros c Hc.
    apply IH; [|lia]. apply at_depth_child. eapply child_level; eassumption.
Qed.

(** A larger bound gives the same list. *)
Lemma build_more_fuel (fuel : nat) (p : Category.Parent) (d : nat) (items : list Item.t) :
  build categories expandedIds isManagingCategories fuel p d = Some items ->
  build categories expandedIds isManagingCategories (S fuel) p d = Some items.
Proof.
  revert p d items. induction fuel as [|fuel IH]; intros p d items; [discriminate|].
  change (build categories expandedIds isManagingCategories (S (S fuel)) p d)
    with (fold_left (reducer categories expandedIds isManagingCategories
                       (build categories expandedIds isManagingCategories (S fuel)) d)
            (children_of categories p) (Some [])).
  change (build categories expandedIds isManagingCategories (S fuel) p d)
    with (fold_left (reducer categories expandedIds isManagingCategories
                       (build categories expandedIds isManagingCategories fuel) d)
            (children_of categories p) (Some [])).
  generalize (@nil Item.t) as acc. generalize (children_of categories p) as l.
  induction l as [|c l IHl]; intros acc; [trivial|].
  cbn [fold_left]. unfold reducer at 2 4.
  destruct (expandedIds (Category.id c) || isManagingCategories).
  - destruct (build categories expandedIds isManagingCategories fuel
                (Category.Id (Category.id c)) (S d)) as [more|] eqn:Hm.
    + rewrite (IH _ _ _ Hm). apply IHl.
    + rewrite fold_reducer_None. discriminate.
  - apply IHl.
Qed.

Lemma build_fuel_irrelevant (fuel k : nat) (p : Category.Parent) (d : nat)
    (items : list Item.t) :
  build categories expandedIds isManagingCategories fuel p d = Some items ->
  build categories expandedIds isManagingCategories (k + fuel) p d = Some items.
Proof.
  intros H. induction k as [|k IH]; [exact H|]. apply build_more_fuel. exact IH.
Qed.

Lemma listed_under_more (p : Category.Parent) (d : nat) (items items' : list Item.t)
    (it : Item.t) :
  incl items items' -> listed_under categories p d items it ->
  listed_under categories p d items' it.
Proof.
  intros Hincl (Hl & [H | (above & Hin & H)]); split; try exact Hl; [left; exact H|].
  right. exists above. split; [apply Hincl; exact Hin | exact H].
Qed.

Lemma fold_reducer_listed (below : Category.Parent -> nat -> option (list Item.t))
    (p : Category.Parent) (d : nat) (l : list Category.t) (acc items : list Item.t) :
  (forall c more, In c l -> below (Category.Id (Category.id c)) (S d) = Some more ->
     forall it, In it more ->
       listed_under categories (Category.Id (Category.id c)) (S d) more it) ->
  (forall c, In c l -> level categories d c /\ Category.parent_id c = p) ->
  (forall it, In it acc -> listed_under categories p d acc it) ->
  fold_left (reducer categories expandedIds isManagingCategories below d) l (Some acc)
  = Some items ->
  forall it, In it items -> listed_under categories p d items it.
Proof.
  revert acc. induction l as [|c l IH]; intros acc Hb Hl Hacc Hf.
  - cbn in Hf. injection Hf as <-. exact Hacc.
  - cbn [fold_left] in Hf. unfold reducer at 2 in Hf.
    destruct (Hl c (or_introl eq_refl)) as [Hlev Hpar].
    set (item := {| Item.cat := c; Item.depth := d;
                    Item.hasChildren := _; Item.isExpanded := _ |}) in Hf.
    assert (Hitem : forall rest, listed_under categories p d (acc ++ [item] ++ rest) item)
      by (intros rest; split; [exact Hlev | left; split; [exact Hpar | reflexivity]]).
    destruct (expandedIds (Category.id c) || isManagingCategories) eqn:Hexp.
    + destruct (below (Category.Id (Category.id c)) (S d)) as [more|] eqn:Hm;
        [|rewrite fold_reducer_None in Hf; discriminate].
      apply (IH (acc ++ [item] ++ more)); try assumption.
      * intros c' more' Hc'. apply Hb. right. exact Hc'.
      * intros c' Hc'. apply Hl. right. exact Hc'.
      * intros it Hit. apply in_app_or in Hit as [Hit | Hit].
        -- eapply listed_under_more; [|apply Hacc; exact Hit].
           intros x Hx. apply in_or_app. left. exact Hx.
        -- destruct Hit as [<- | Hit]; [apply Hitem|].
           destruct (Hb c more (or_introl eq_refl) Hm it Hit) as (Hl' & [[Hp' Hd'] | Hab]).
           ++ split; [exact Hl'|]. right. exists item. split; [|split; [|split]].
              ** apply in_or_app. right. left. reflexivity.
              ** exact Hp'.
              ** reflexivity.
              ** exact Hd'.
           ++ split; [exact Hl'|]. right. destruct Hab as (above & Hin & Hrest).
              exists above. split; [|exact Hrest].
              apply in_or_app. right. right. exact Hin.
    + apply (IH (acc ++ [item])); try assumption.
      * intros c' more' Hc'. apply Hb. right. exact Hc'.
      * intros c' Hc'. apply Hl. right. exact Hc'.
      * intros it Hit. apply in_app_or in Hit as [Hit | Hit].
        -- eapply listed_under_more; [|apply Hacc; exact Hit].
           intros x Hx. apply in_or_app. left. exact Hx.
        -- destruct Hit as [<- | []]. apply (Hitem []).
Qed.

(** Every item [build] lists is linked to the category it was called for. *)
Lemma build_listed (fuel : nat) (p : Category.Parent) (d : nat) (items : list Item.t) :
  at_depth categories p d ->
  build categories expandedIds isManagingCategories fuel p d = Some items ->
  forall it, In it items -> listed_under categories p d items it.
Proof.
  revert p d items. induction fuel as [|fuel IH]; intros p d items Hp Hb; [discriminate|].
  cbn [build] in Hb. eapply fold_reducer_listed; [| | |exact Hb].
  - intros c more Hc Hm. apply IH; [|exact Hm].
    apply at_depth_child. eapply child_level; eassumption.
  - intros c Hc. split; [eapply child_level; eassumption|].
    apply In_children_of in Hc. apply Hc.
  - intros it [].
Qed.

(** X27.  The sidebar lists only categories that hang from the root.  When
    no two categories share an id, [hierarchicalCategories] returns (the
    recursion of [build] ends, and a larger bound on its nesting gives the
    same list).  Every item listed is a category linked to the root by as
    many [parent_id] steps as its depth says, and its parent, when it has
    one, is itself listed and expanded.  So a category whose [parent_id] is
    missing, as in [INITIAL_CATEGORIES], names no category, or closes a
    cycle is never shown.  If a category with the id "all" is listed, it is
    listed first. *)
Theorem shown_categories_hang_from_the_root :
  exists items,
    hierarchicalCategories categories expandedIds isManagingCategories = Some items /\
    (forall k rootItems,
       build categories expandedIds isManagingCategories (k + S (length categories))
         Category.Null 0 = Some rootItems -> Permutation items rootItems) /\
    (forall it, In it items ->
       level categories (Item.depth it) (Item.cat it) /\ hangs items it) /\
    (forall it, In it items -> Category.id (Item.cat it) = lit "all" ->
       exists first rest, items = first :: rest /\ Category.id (Item.cat first) = lit "all").
Proof.
  destruct (build_total (S (length categories)) Category.Null 0 eq_refl ltac:(lia))
    as (rootItems & Hbuild).
  pose proof (build_listed (S (length categories)) Category.Null 0 rootItems eq_refl Hbuild)
    as Hlisted.
  unfold hierarchicalCategories. rewrite Hbuild.
  set (is_all := fun c : Item.t => jsstring_eqb (Category.id (Item.cat c)) (lit "all")).
  assert (Hhangs : forall items, Permutation items rootItems ->
            forall it, In it items ->
              level categories (Item.depth it) (Item.cat it) /\ hangs items it).
  { intros items Hperm it Hit.
    destruct (Hlisted it (Permutation_in _ Hperm Hit)) as (Hl & Hcase).
    split; [exact Hl|]. unfold hangs. destruct Hcase as [[Hp Hd] | (above & Hin & Hp & He & Hd)].
    - rewrite Hp. exact Hd.
    - rewrite Hp. exists above. split; [|repeat split; assumption].
      apply (Permutation_in _ (Permutation_sym Hperm)). exact Hin. }
  assert (Hfuel : forall items, Permutation items rootItems ->
            forall k rootItems',
              build categories expandedIds isManagingCategories (k + S (length categories))
                Category.Null 0 = Some rootItems' -> Permutation items rootItems').
  { intros items Hperm k rootItems' Hk.
    rewrite (build_fuel_irrelevant _ k _ _ _ Hbuild) in Hk. injection Hk as <-. exact Hperm. }
  destruct (findIndex_spec is_all rootItems) as [[Hi Hnone] | (k & x & Hi & Hx & Hp & Hbefore)];
    rewrite Hi.
  - exists rootItems. split; [reflexivity|]. split; [apply Hfuel; reflexivity|].
    split; [apply Hhangs; reflexivity|].
    intros it Hit Hall. exfalso. specialize (Hnone it Hit). unfold is_all, jsstring_eqb in Hnone.
    apply bool_decide_eq_false in Hnone. contradiction.
  - destruct (splice_out_index k x rootItems Hx) as (Hout & Hsplit).
    destruct k as [|k].
    + exists rootItems. cbn [Z.of_nat Z.ltb Z.compare]. split; [reflexivity|].
      split; [apply Hfuel; reflexivity|]. split; [apply Hhangs; reflexivity|].
      intros _ _ _. cbn [firstn app] in Hsplit. exists x, (skipn 1 rootItems).
      split; [exact Hsplit|]. unfold is_all, jsstring_eqb in Hp.
      apply bool_decide_eq_true in Hp. exact Hp.
    + destruct (Z.ltb_spec 0 (Z.of_nat (S k))) as [_|?]; [|lia].
      rewrite Hout.
      assert (Hperm : Permutation ([x] ++ firstn (S k) rootItems ++ skipn (S (S k)) rootItems)
                        rootItems).
      { rewrite Hsplit at 3. cbn [app]. apply Permutation_middle. }
      eexists. split; [reflexivity|]. split; [apply Hfuel; exact Hperm|].
      split; [apply Hhangs; exact Hperm|].
      intros _ _ _. eexists _, _. split; [reflexivity|].
      unfold is_all, jsstring_eqb in Hp. apply bool_decide_eq_true in Hp. exact Hp.
Qed.

End TreeFacts.

Lemma shown_categories_hang_from_the_root_witness :
  List.NoDup (map Category.id Examples.shelf) /\
  exists items,
    hierarchicalCategories Examples.shelf (fun _ => false) true = Some items /\
    map (fun it => (Category.id (Item.cat it), Item.depth it)) items =
      [(lit "all", 0%nat); (lit "Work", 0%nat); (lit "Projects", 1%nat); (lit "Ideas", 0%nat)] /\
    (forall it, In it items ->
       level Examples.shelf (Item.depth it) (Item.cat it) /\ hangs items it).
Proof.
  assert (Hu : List.NoDup (map Category.id Examples.shelf)).
  { vm_compute.
    repeat (constructor;
            [intros Hin; repeat (destruct Hin as [Hin|Hin]; [discriminate Hin|]); exact Hin|]).
    constructor. }
  split; [exact Hu|].
  destruct (shown_categories_hang_from_the_root Examples.shelf (fun _ => false) true Hu)
    as (items & Hrun & _ & Hhang & _).
  exists items. split; [exact Hrun|]. split; [|exact Hhang].
  vm_compute in Hrun. injection Hrun as <-. reflexivity.
Defined.

(** ** Reordering categories *)

Lemma filter_partition_perm {A : Type} (f : A -> bool) (l : list A) :
  Permutation (List.filter (fun c => negb (f c)) l ++ List.filter f l) l.
Proof.
  induction l as [|x l IH]; [reflexivity|]. cbn [List.filter].
  destruct (f x); cbn [negb app].
  - rewrite <- Permutation_middle. constructor. exact IH.
  - constructor. exact IH.
Qed.

Lemma filter_none {A : Type} (f : A -> bool) (l : list A) :
  (forall x, In x l -> f x = false) -> List.filter f l = [].
Proof.
  induction l as [|x l IH]; intros H; [reflexivity|]. cbn [List.filter].
  rewrite (H x (or_introl eq_refl)). apply IH. intros y Hy. apply H. right. exact Hy.
Qed.

Lemma filter_all {A : Type} (f : A -> bool) (l : list A) :
  (forall x, In x l -> f x = true) -> List.filter f l = l.
Proof.
  induction l as [|x l IH]; intros H; [reflexivity|]. cbn [List.filter].
  rewrite (H x (or_introl eq_refl)). f_equal. apply IH. intros y Hy. apply H. right. exact Hy.
Qed.

Lemma filter_within {A : Type} (f g : A -> bool) (l : list A) :
  (forall x, f x = true -> g x = true) ->
  List.filter f (List.filter g l) = List.filter f l.
Proof.
  intros H. induction l as [|x l IH]; [reflexivity|]. cbn [List.filter].
  destruct (g x) eqn:Hg; cbn [List.filter].
  - rewrite IH. reflexivity.
  - destruct (f x) eqn:Hf; [rewrite (H x Hf) in Hg; discriminate | exact IH].
Qed.

Lemma splice_in_perm {A : Type} (start : Z) (x : A) (l : list A) :
  Permutation (splice_in start x l) (x :: l).
Proof.
  unfold splice_in. rewrite <- Permutation_middle, firstn_skipn. reflexivity.
Qed.

Lemma map_indexed_unordered (i : nat) (l : list Category.t) :
  map unordered (map_indexed with_sort_order i l) = map unordered l.
Proof.
  revert i. induction l as [|x l IH]; intros i; [reflexivity|].
  cbn [map_indexed map]. rewrite IH. reflexivity.
Qed.

Lemma map_indexed_orders (i : nat) (l : list Category.t) :
  map Category.sort_order (map_indexed with_sort_order i l) =
  map (fun j => Some (Z.of_nat j)) (seq i (length l)).
Proof.
  revert i. induction l as [|x l IH]; intros i; [reflexivity|].
  cbn [map_indexed map length seq]. rewrite IH. reflexivity.
Qed.

Lemma In_map_indexed (i : nat) (l : list Category.t) (y : Category.t) :
  In y (map_indexed with_sort_order i l) ->
  exists x j, In x l /\ (i <= j)%nat /\ y = with_sort_order x j.
Proof.
  revert i. induction l as [|x l IH]; intros i; [intros []|].
  cbn [map_indexed]. intros [<- | Hy].
  - exists x, i. split; [left; reflexivity|]. split; [lia | reflexivity].
  - destruct (IH _ Hy) as (x' & j & Hx & Hj & ->). exists x', j.
    split; [right; exact Hx|]. split; [lia | reflexivity].
Qed.

(** A list numbered by [map_indexed] is sorted already. *)
Lemma Array_sort_numbered (i : nat) (l : list Category.t) :
  Array_sort by_sort_order (map_indexed with_sort_order i l) =
  map_indexed with_sort_order i l.
Proof.
  revert i. induction l as [|x l IH]; intros i; [reflexivity|].
  cbn [map_indexed].
  change (Array_sort by_sort_order (?a :: ?r)) with (insert by_sort_order a (Array_sort by_sort_order r)).
  rewrite IH. apply insert_front. intros y Hy.
  apply In_map_indexed in Hy as (x' & j & _ & Hj & ->).
  unfold by_sort_order. cbn. lia.
Qed.

(** [cat] is one of its own siblings, so [findIndex] finds the identifier. *)
Lemma sibling_index (categories : list Category.t) (catId : jsstring) (cat : Category.t) :
  find (fun c => jsstring_eqb (Category.id c) catId) categories = Some cat ->
  exists before x after,
    children_of categories (Category.parent_id cat) = before ++ x :: after /\
    findIndex (fun s => jsstring_eqb (Category.id s) catId)
      (children_of categories (Category.parent_id cat)) = Z.of_nat (length before) /\
    Category.id x = catId /\
    (forall y, In y before -> Category.id y <> catId).
Proof.
  intros Hfind. apply find_some in Hfind as [Hin Hid].
  set (siblings := children_of categories (Category.parent_id cat)).
  assert (Hsib : In cat siblings) by (apply In_children_of; split; [exact Hin | reflexivity]).
  destruct (findIndex_spec (fun s => jsstring_eqb (Category.id s) catId) siblings)
    as [[_ Hnone] | (k & x & Hi & Hx & Hp & Hb)].
  - rewrite (Hnone cat Hsib) in Hid. discriminate.
  - destruct (splice_out_index k x siblings Hx) as (_ & Hsplit).
    assert (Hk : (k < length siblings)%nat) by (apply nth_error_Some; congruence).
    exists (firstn k siblings), x, (skipn (S k) siblings).
    split; [exact Hsplit|]. rewrite length_firstn, Nat.min_l by lia.
    split; [exact Hi|]. unfold jsstring_eqb in Hp. apply bool_decide_eq_true in Hp.
    split; [exact Hp|]. intros y Hy. specialize (Hb y Hy).
    unfold jsstring_eqb in Hb. apply bool_decide_eq_false in Hb. exact Hb.
Qed.

Lemma splice_out_middle {A : Type} (before after : list A) (x : A) :
  splice_out (Z.of_nat (length before)) (before ++ x :: after) = ([x], before ++ after).
Proof.
  destruct (splice_out_index (length before) x (before ++ x :: after)) as (H & _).
  - rewrite nth_error_app2, Nat.sub_diag by lia. reflexivity.
  - rewrite H. f_equal.
    rewrite firstn_app, firstn_all, Nat.sub_diag. cbn [firstn]. rewrite app_nil_r.
    f_equal. rewrite skipn_app, skipn_all2 by lia.
    replace (S (length before) - length before)%nat with 1%nat by lia. reflexivity.
Qed.

(** Where the four buttons put the category. *)
Lemma reordered_places (direction : Direction) (before after : list Category.t)
    (x : Category.t) :
  reordered direction (before ++ x :: after) (Z.of_nat (length before)) =
  match direction with
  | Top => x :: before ++ after
  | Bottom => before ++ after ++ [x]
  | Up =>
      match rev before with
      | [] => x :: after
      | above :: others => rev others ++ x :: above :: after
      end
  | Down =>
      match after with
      | [] => before ++ [x]
      | below :: others => before ++ below :: x :: others
      end
  | Left | Right => before ++ after
  end.
Proof.
  unfold reordered. rewrite splice_out_middle.
  assert (Hstart : forall k : nat,
            (k <= length (before ++ after))%nat ->
            forall start, start = Z.of_nat k ->
            splice_in start x (before ++ after) =
            firstn k (before ++ after) ++ x :: skipn k (before ++ after)).
  { intros k Hk start ->. unfold splice_in. rewrite relative_start_index by exact Hk.
    reflexivity. }
  destruct direction; try reflexivity.
  - destruct (rev before) as [|above others] eqn:Hr.
    + apply (f_equal (@rev _)) in Hr. rewrite rev_involutive in Hr. subst before.
      rewrite (Hstart 0%nat); [reflexivity | lia | cbn; lia].
    + apply (f_equal (@rev _)) in Hr. rewrite rev_involutive in Hr. cbn [rev] in Hr.
      subst before. rewrite (Hstart (length (rev others))).
      * rewrite <- !app_assoc. cbn [app].
        rewrite take_app_length, drop_app_length. reflexivity.
      * rewrite !length_app. lia.
      * rewrite length_app. cbn [length]. lia.
  - destruct after as [|below others].
    + rewrite (Hstart (length before)).
      * rewrite app_nil_r, firstn_all, skipn_all. reflexivity.
      * rewrite app_nil_r. lia.
      * rewrite length_app. cbn [length]. lia.
    + rewrite (Hstart (S (length before))).
      * replace (before ++ below :: others) with ((before ++ [below]) ++ others)
          by (rewrite <- app_assoc; reflexivity).
        replace (S (length before)) with (length (before ++ [below]))
          by (rewrite length_app; cbn [length]; lia).
        rewrite take_app_length, drop_app_length, <- app_assoc. reflexivity.
      * rewrite length_app. cbn [length]. lia.
      * rewrite length_app. cbn [length]. lia.
  - rewrite (Hstart 0%nat); [reflexivity | lia | reflexivity].
  - rewrite (Hstart (length (before ++ after))).
    + rewrite firstn_all, skipn_all, app_assoc. reflexivity.
    + lia.
    + reflexivity.
Qed.

Lemma reordered_perm (direction : Direction) (before after : list Category.t)
    (x : Category.t) :
  reorders direction = true ->
  Permutation (reordered direction (before ++ x :: after) (Z.of_nat (length before)))
    (before ++ x :: after).
Proof.
  intros Hd. unfold reordered. rewrite splice_out_middle.
  destruct direction; try discriminate; rewrite splice_in_perm; apply Permutation_middle.
Qed.

(** [moveCategory] for the four directions that reorder. *)
Lemma moveCategory_reorders (categories : list Category.t) (catId : jsstring)
    (direction : Direction) (cat : Category.t) :
  reorders direction = true ->
  find (fun c => jsstring_eqb (Category.id c) catId) categories = Some cat ->
  let siblings := children_of categories (Category.parent_id cat) in
  let sIdx := findIndex (fun s => jsstring_eqb (Category.id s) catId) siblings in
  let updatedSiblings := map_indexed with_sort_order 0 (reordered direction siblings sIdx) in
  moveCategory categories catId direction =
  {| setCategories :=
       Some (List.filter (fun c => negb (parent_eqb (Category.parent_id c)
                                           (Category.parent_id cat))) categories
             ++ updatedSiblings);
     updateCategory :=
       map (fun s => (Category.id s,
                      {| Patch.parent_id := None;
                         Patch.sort_order := default 0 (Category.sort_order s) |}))
         updatedSiblings;
     fetchCategories := AfterFailure |}.
Proof.
  intros Hd Hfind. unfold moveCategory. rewrite Hfind.
  destruct direction; try discriminate; reflexivity.
Qed.

(** The children of each parent once the siblings [ns] of [cat], in their
    new order, have been numbered and put behind the other categories. *)
Lemma children_of_moved (categories ns : list Category.t) (pc : Category.Parent) :
  (forall c, In c ns -> Category.parent_id c = pc) ->
  let moved :=
    List.filter (fun c => negb (parent_eqb (Category.parent_id c) pc)) categories
    ++ map_indexed with_sort_order 0 ns in
  children_of moved pc = map_indexed with_sort_order 0 ns /\
  (forall p, p <> pc -> children_of moved p = children_of categories p).
Proof.
  intros Hns moved.
  assert (Hup : forall y, In y (map_indexed with_sort_order 0 ns) ->
                          Category.parent_id y = pc).
  { intros y Hy. apply In_map_indexed in Hy as (x & j & Hx & _ & ->). cbn. apply Hns, Hx. }
  split.
  - unfold children_of, moved. rewrite List.filter_app.
    rewrite filter_none, filter_all, app_nil_l; [apply Array_sort_numbered| |].
    + intros y Hy. apply parent_eqb_eq. apply Hup, Hy.
    + intros y Hy. apply filter_In in Hy as [_ Hy].
      destruct (parent_eqb (Category.parent_id y) pc); [discriminate | reflexivity].
  - intros p Hp. unfold children_of, moved. rewrite List.filter_app.
    rewrite (filter_none _ (map_indexed with_sort_order 0 ns)), app_nil_r.
    + rewrite filter_within; [reflexivity|].
      intros y Hy. apply parent_eqb_eq in Hy.
      destruct (parent_eqb (Category.parent_id y) pc) eqn:He; [|reflexivity].
      apply parent_eqb_eq in He. congruence.
    + intros y Hy. destruct (parent_eqb (Category.parent_id y) p) eqn:He; [|reflexivity].
      apply parent_eqb_eq in He. rewrite (Hup y Hy) in He. congruence.
Qed.

(** X28.  Reordering loses nothing and leaves the local list as the
    database will return it.  For the directions up, down, top and bottom
    and a category that exists, [moveCategory] sets a list that holds the
    same categories as before, with the same label, icon and parent; the
    children of every other parent are listed as before; the siblings of
    the category carry the numbers 0, 1, 2, ... in the order they are now
    listed in; and [db.updateCategory] is called once for each sibling, in
    that order, with exactly that number.  The categories are fetched again
    only if an update fails. *)
Theorem reorder_renumbers_the_siblings (categories : list Category.t) (catId : jsstring)
    (direction : Direction) (cat : Category.t) :
  reorders direction = true ->
  find (fun c => jsstring_eqb (Category.id c) catId) categories = Some cat ->
  let move := moveCategory categories catId direction in
  exists moved,
    setCategories move = Some moved /\
    Permutation (map unordered moved) (map unordered categories) /\
    (forall p, p <> Category.parent_id cat ->
               children_of moved p = children_of categories p) /\
    Permutation (map unordered (children_of moved (Category.parent_id cat)))
      (map unordered (children_of categories (Category.parent_id cat))) /\
    map Category.sort_order (children_of moved (Category.parent_id cat)) =
      map (fun i => Some (Z.of_nat i))
        (seq 0 (length (children_of categories (Category.parent_id cat)))) /\
    updateCategory move =
      map (fun s => (Category.id s,
                     {| Patch.parent_id := None;
                        Patch.sort_order := default 0 (Category.sort_order s) |}))
        (children_of moved (Category.parent_id cat)) /\
    fetchCategories move = AfterFailure.
Proof.
  intros Hd Hfind move. subst move.
  rewrite (moveCategory_reorders categories catId direction cat Hd Hfind). cbv zeta.
  destruct (sibling_index categories catId cat Hfind)
    as (before & x & after & Hsib & Hidx & _ & _).
  rewrite Hidx. set (pc := Category.parent_id cat) in *.
  set (ns := reordered direction (children_of categories pc) (Z.of_nat (length before))).
  assert (Hperm : Permutation ns (children_of categories pc))
    by (unfold ns; rewrite Hsib; apply reordered_perm; exact Hd).
  assert (Hns : forall c, In c ns -> Category.parent_id c = pc).
  { intros c Hc. apply (Permutation_in _ Hperm) in Hc. apply In_children_of in Hc. apply Hc. }
  destruct (children_of_moved categories ns pc Hns) as (Hmine & Hothers).
  eexists. split; [reflexivity|]. cbn [setCategories updateCategory fetchCategories].
  rewrite Hmine. split; [|split; [exact Hothers|split; [|split; [|split; reflexivity]]]].
  - rewrite map_app, map_indexed_unordered, Hperm.
    unfold children_of. rewrite Array_sort_perm, <- map_app.
    apply Permutation_map. apply filter_partition_perm.
  - rewrite map_indexed_unordered. apply Permutation_map. exact Hperm.
  - rewrite map_indexed_orders. rewrite (Permutation_length Hperm). reflexivity.
Qed.

(** X29.  The four buttons move a category by the place they name.  Among
    its siblings as the sidebar lists them (by [sort_order], ties in the
    order of the list), [top] puts the category first and [bottom] last,
    [up] swaps it with the sibling above and [down] with the sibling
    below; [up] on the first and [down] on the last change no order; the
    other siblings keep theirs.  The category moved is the first sibling
    with the id asked for. *)
Theorem move_buttons_move_by_one_place (categories : list Category.t) (catId : jsstring)
    (direction : Direction) (cat : Category.t) :
  reorders direction = true ->
  find (fun c => jsstring_eqb (Category.id c) catId) categories = Some cat ->
  exists before x after moved,
    children_of categories (Category.parent_id cat) = before ++ x :: after /\
    Category.id x = catId /\ (forall y, In y before -> Category.id y <> catId) /\
    setCategories (moveCategory categories catId direction) = Some moved /\
    map unordered (children_of moved (Category.parent_id cat)) =
    map unordered
      match direction with
      | Top => x :: before ++ after
      | Bottom => before ++ after ++ [x]
      | Up =>
          match rev before with
          | [] => x :: after
          | above :: others => rev others ++ x :: above :: after
          end
      | Down =>
          match after with
          | [] => before ++ [x]
          | below :: others => before ++ below :: x :: others
          end
      | Left | Right => before ++ x :: after
      end.
Proof.
  intros Hd Hfind.
  destruct (sibling_index categories catId cat Hfind)
    as (before & x & after & Hsib & Hidx & Hx & Hbefore).
  exists before, x, after.
  rewrite (moveCategory_reorders categories catId direction cat Hd Hfind). cbv zeta.
  rewrite Hidx. set (pc := Category.parent_id cat) in *.
  set (ns := reordered direction (children_of categories pc) (Z.of_nat (length before))).
  assert (Hperm : Permutation ns (children_of categories pc))
    by (unfold ns; rewrite Hsib; apply reordered_perm; exact Hd).
  assert (Hns : forall c, In c ns -> Category.parent_id c = pc).
  { intros c Hc. apply (Permutation_in _ Hperm) in Hc. apply In_children_of in Hc. apply Hc. }
  destruct (children_of_moved categories ns pc Hns) as (Hmine & _).
  eexists. split; [exact Hsib|]. split; [exact Hx|]. split; [exact Hbefore|].
  split; [reflexivity|]. rewrite Hmine, map_indexed_unordered. f_equal.
  unfold ns. rewrite Hsib, reordered_places.
  destruct direction; try discriminate; reflexivity.
Qed.

Lemma reorder_renumbers_the_siblings_witness :
  reorders Up = true /\
  exists cat moved,
    find (fun c => jsstring_eqb (Category.id c) (lit "Ideas")) Examples.shelf = Some cat /\
    setCategories (moveCategory Examples.shelf (lit "Ideas") Up) = Some moved /\
    Permutation (map unordered moved) (map unordered Examples.shelf) /\
    map (fun c => (Category.id c, Category.sort_order c))
      (children_of moved (Category.parent_id cat)) =
      [(lit "Work", Some 0); (lit "Ideas", Some 1); (lit "all", Some 2)].
Proof.
  split; [reflexivity|].
  assert (Hfind : exists cat,
             find (fun c => jsstring_eqb (Category.id c) (lit "Ideas")) Examples.shelf
             = Some cat) by (vm_compute; eexists; reflexivity).
  destruct Hfind as (cat & Hfind). exists cat.
  destruct (reorder_renumbers_the_siblings Examples.shelf (lit "Ideas") Up cat eq_refl Hfind)
    as (moved & Hset & Hperm & _).
  exists moved. split; [exact Hfind|]. split; [exact Hset|]. split; [exact Hperm|].
  vm_compute in Hfind. injection Hfind as <-.
  vm_compute in Hset. injection Hset as <-. reflexivity.
Defined.

Lemma move_buttons_move_by_one_place_witness :
  reorders Down = true /\
  exists cat before x after moved,
    find (fun c => jsstring_eqb (Category.id c) (lit "Work")) Examples.shelf = Some cat /\
    children_of Examples.shelf (Category.parent_id cat) = before ++ x :: after /\
    map Category.id (children_of Examples.shelf (Category.parent_id cat)) =
      [lit "Work"; lit "all"; lit "Ideas"] /\
    setCategories (moveCategory Examples.shelf (lit "Work") Down) = Some moved /\
    map Category.id (children_of moved (Category.parent_id cat)) =
      [lit "all"; lit "Work"; lit "Ideas"].
Proof.
  split; [reflexivity|].
  assert (Hfind : exists cat,
             find (fun c => jsstring_eqb (Category.id c) (lit "Work")) Examples.shelf
             = Some cat) by (vm_compute; eexists; reflexivity).
  destruct Hfind as (cat & Hfind). exists cat.
  destruct (move_buttons_move_by_one_place Examples.shelf (lit "Work") Down cat eq_refl Hfind)
    as (before & x & after & moved & Hsib & _ & _ & Hset & _).
  exists before, x, after, moved. split; [exact Hfind|]. split; [exact Hsib|].
  vm_compute in Hfind. injection Hfind as <-. split; [reflexivity|]. split; [exact Hset|].
  vm_compute in Hset. injection Hset as <-. reflexivity.
Defined.

(** ** The tree in manage mode *)

Section TreeExact.
Variable categories : list Category.t.
Variable expandedIds : jsstring -> bool.
Variable isManagingCategories : bool.
Hypothesis unique_ids : List.NoDup (map Category.id categories).

(** The list [hierarchicalCategories] returns is the one [build] returns,
    with "all" moved to the front. *)
Lemma hierarchicalCategories_perm :
  exists rootItems items,
    build categories expandedIds isManagingCategories (S (length categories))
      Category.Null 0 = Some rootItems /\
    hierarchicalCategories categories expandedIds isManagingCategories = Some items /\
    Permutation items rootItems.
Proof.
  destruct (build_total categories expandedIds isManagingCategories unique_ids
              (S (length categories)) Category.Null 0 eq_refl ltac:(lia))
    as (rootItems & Hbuild).
  exists rootItems. unfold hierarchicalCategories. rewrite Hbuild.
  match goal with |- context [findIndex ?f rootItems] => set (is_all := f) end.
  destruct (findIndex_spec is_all rootItems) as [[Hi _] | (k & x & Hi & Hx & _ & _)];
    rewrite Hi.
  - exists rootItems. repeat split; reflexivity.
  - destruct (Z.ltb_spec 0 (Z.of_nat k)) as [_|_].
    + destruct (splice_out_index k x rootItems Hx) as (Hout & Hsplit). rewrite Hout.
      eexists. split; [reflexivity|]. split; [reflexivity|].
      rewrite Hsplit at 3. cbn [app]. apply Permutation_middle.
    + exists rootItems. repeat split; reflexivity.
Qed.

(** Items are never listed above the depth [build] was called with. *)
Lemma listed_under_depth (p : Category.Parent) (d : nat) (items : list Item.t) :
  (forall it, In it items -> listed_under categories p d items it) ->
  forall it, In it items -> (d <= Item.depth it)%nat.
Proof.
  intros Hall.
  assert (H : forall n it, In it items -> Item.depth it = n -> (d <= n)%nat).
  { induction n as [n IH] using lt_wf_ind. intros it Hit Hn.
    destruct (Hall it Hit) as (_ & [[_ Hd] | (above & Hin & _ & _ & Hd)]); [lia|].
    specialize (IH (Item.depth above) ltac:(lia) above Hin eq_refl). lia. }
  intros it Hit. eapply H; [exact Hit | reflexivity].
Qed.

(** Two lists of items built below the same parent share no category unless
    they share one at the depth of the call. *)
Lemma parts_disjoint (p : Category.Parent) (d : nat) (part1 part2 : list Item.t) :
  (forall it, In it part1 -> listed_under categories p d part1 it) ->
  (forall it, In it part2 -> listed_under categories p d part2 it) ->
  (forall a b, In a part1 -> In b part2 -> Item.depth a = d -> Item.depth b = d ->
               Item.cat a <> Item.cat b) ->
  forall a b, In a part1 -> In b part2 -> Item.cat a <> Item.cat b.
Proof.
  intros H1 H2 Htop.
  assert (H : forall n a b, In a part1 -> In b part2 -> Item.depth a = n ->
                            Item.cat a <> Item.cat b).
  { induction n as [n IH] using lt_wf_ind. intros a b Ha Hb Hn Heq.
    destruct (H1 a Ha) as (La & Ca). destruct (H2 b Hb) as (Lb & Cb).
    assert (Hdepth : Item.depth b = Item.depth a).
    { rewrite Heq in La. eapply level_unique; eassumption. }
    pose proof (listed_under_depth p d part1 H1) as Hlow1.
    pose proof (listed_under_depth p d part2 H2) as Hlow2.
    destruct Ca as [[_ Da] | (above & Hin & Pa & _ & Da)].
    - apply (Htop a b Ha Hb Da); [lia | exact Heq].
    - destruct Cb as [[_ Db] | (above' & Hin' & Pb & _ & Db)].
      + specialize (Hlow1 above Hin). lia.
      + apply (IH (Item.depth above) ltac:(lia) above above' Hin Hin' eq_refl).
        rewrite Heq in Pa. rewrite Pa in Pb. injection Pb as Hid.
        apply (unique_by Category.id categories); try assumption.
        * eapply level_In. apply (H1 above Hin).
        * eapply level_In. apply (H2 above' Hin'). }
  intros a b Ha Hb. eapply H; [exact Ha | exact Hb | reflexivity].
Qed.

(** What [.reduce] adds for one category [c]: its item and what [build]
    lists below it.  It holds [c] once and nothing else at depth [d]. *)
Lemma part_listed (p : Category.Parent) (d : nat) (c : Category.t) (item : Item.t)
    (more : list Item.t) :
  Item.cat item = c -> Item.depth item = d ->
  level categories d c -> Category.parent_id c = p ->
  (more = [] \/ Item.isExpanded item = true) ->
  (forall it, In it more ->
     listed_under categories (Category.Id (Category.id c)) (S d) more it) ->
  List.NoDup (map Item.cat more) ->
  (forall it, In it (item :: more) -> listed_under categories p d (item :: more) it) /\
  (forall it, In it (item :: more) -> Item.depth it = d -> it = item) /\
  List.NoDup (map Item.cat (item :: more)).
Proof.
  intros Hc Hd Hlev Hpar Hexp Hmore Hnd.
  pose proof (listed_under_depth _ _ _ Hmore) as Hlow.
  split; [|split].
  - intros it [<- | Hit].
    + split; [rewrite Hc, Hd; exact Hlev|]. left. rewrite Hc. split; assumption.
    + destruct (Hmore it Hit) as (Hl & [[Hp' Hd'] | (above & Hin & Hrest)]).
      * split; [exact Hl|]. right. exists item. split; [left; reflexivity|].
        rewrite Hc, Hd. split; [exact Hp'|]. split; [|exact Hd'].
        destruct Hexp as [-> | He]; [destruct Hit | exact He].
      * split; [exact Hl|]. right. exists above. split; [right; exact Hin | exact Hrest].
  - intros it [<- | Hit] Hdepth; [reflexivity|]. specialize (Hlow it Hit). lia.
  - cbn [map]. constructor; [|exact Hnd]. intros Hin.
    apply in_map_iff in Hin as (it & Hcat & Hit).
    destruct (Hmore it Hit) as (Hl & _). rewrite Hcat, Hc in Hl.
    pose proof (level_unique categories unique_ids _ _ _ Hl Hlev).
    specialize (Hlow it Hit). lia.
Qed.

Lemma fold_reducer_NoDup (below : Category.Parent -> nat -> option (list Item.t))
    (p : Category.Parent) (d : nat) (l done : list Category.t) (acc items : list Item.t) :
  List.NoDup (done ++ l) ->
  (forall c, In c l -> level categories d c /\ Category.parent_id c = p) ->
  (forall c more, In c l -> below (Category.Id (Category.id c)) (S d) = Some more ->
     List.NoDup (map Item.cat more) /\
     forall it, In it more ->
       listed_under categories (Category.Id (Category.id c)) (S d) more it) ->
  List.NoDup (map Item.cat acc) ->
  (forall it, In it acc -> listed_under categories p d acc it) ->
  (forall it, In it acc -> Item.depth it = d -> In (Item.cat it) done) ->
  fold_left (reducer categories expandedIds isManagingCategories below d) l (Some acc)
  = Some items ->
  List.NoDup (map Item.cat items).
Proof.
  revert done acc. induction l as [|c l IH]; intros done acc Hnd Hl Hb Hacc Hlisted Htop Hf.
  - cbn in Hf. injection Hf as <-. exact Hacc.
  - cbn [fold_left] in Hf. unfold reducer at 2 in Hf.
    destruct (Hl c (or_introl eq_refl)) as [Hlev Hpar].
    set (item := {| Item.cat := c; Item.depth := d;
                    Item.hasChildren := _; Item.isExpanded := _ |}) in Hf.
    assert (Hstep : forall more,
              (more = [] \/ Item.isExpanded item = true) ->
              (forall it, In it more ->
                 listed_under categories (Category.Id (Category.id c)) (S d) more it) ->
              List.NoDup (map Item.cat more) ->
              fold_left (reducer categories expandedIds isManagingCategories below d) l
                (Some (acc ++ item :: more)) = Some items ->
              List.NoDup (map Item.cat items)).
    { intros more Hexp Hmore Hndm Hf'.
      destruct (part_listed p d c item more eq_refl eq_refl Hlev Hpar Hexp Hmore Hndm)
        as (Hpart & Hpart_top & Hpart_nd).
      assert (Hc_new : ~ In c done).
      { intros Hin. apply NoDup_remove_2 in Hnd. apply Hnd. apply in_or_app. left. exact Hin. }
      apply (IH (done ++ [c]) (acc ++ item :: more)); try assumption.
      - rewrite <- app_assoc. exact Hnd.
      - intros c' Hc'. apply Hl. right. exact Hc'.
      - intros c' more' Hc'. apply Hb. right. exact Hc'.
      - rewrite map_app. apply List.NoDup_app; [exact Hacc | exact Hpart_nd|].
        intros x Hx1 Hx2.
        apply in_map_iff in Hx1 as (a & <- & Ha). apply in_map_iff in Hx2 as (b & Hab & Hb').
        refine (parts_disjoint p d acc (item :: more) Hlisted Hpart _ a b Ha Hb' _).
        + intros a' b' Ha' Hb'' Hda Hdb Heq.
          rewrite (Hpart_top b' Hb'' Hdb) in Heq. cbn in Heq.
          apply Hc_new. rewrite <- Heq. apply Htop; assumption.
        + symmetry. exact Hab.
      - intros it Hit. apply in_app_or in Hit as [Hit | Hit].
        + eapply listed_under_more; [|apply Hlisted; exact Hit].
          intros x Hx. apply in_or_app. left. exact Hx.
        + eapply listed_under_more; [|apply Hpart; exact Hit].
          intros x Hx. apply in_or_app. right. exact Hx.
      - intros it Hit Hdepth. apply in_or_app. apply in_app_or in Hit as [Hit | Hit].
        + left. apply Htop; assumption.
        + right. rewrite (Hpart_top it Hit Hdepth). left. reflexivity. }
    destruct (expandedIds (Category.id c) || isManagingCategories) eqn:Hexp.
    + destruct (below (Category.Id (Category.id c)) (S d)) as [more|] eqn:Hm;
        [|rewrite fold_reducer_None in Hf; discriminate].
      destruct (Hb c more (or_introl eq_refl) Hm) as (Hndm & Hmore).
      apply (Hstep more); [right; reflexivity | exact Hmore | exact Hndm | exact Hf].
    + apply (Hstep []); [left; reflexivity | intros it [] | constructor | exact Hf].
Qed.

Lemma children_of_NoDup (p : Category.Parent) : List.NoDup (children_of categories p).
Proof.
  unfold children_of.
  eapply Permutation.Permutation_NoDup; [symmetry; apply Array_sort_perm|].
  apply List.NoDup_filter. eapply NoDup_map_inv. exact unique_ids.
Qed.

(** No category is listed twice. *)
Lemma build_NoDup (fuel : nat) (p : Category.Parent) (d : nat) (items : list Item.t) :
  at_depth categories p d ->
  build categories expandedIds isManagingCategories fuel p d = Some items ->
  List.NoDup (map Item.cat items).
Proof.
  revert p d items. induction fuel as [|fuel IH]; intros p d items Hp Hb; [discriminate|].
  cbn [build] in Hb.
  eapply (fold_reducer_NoDup _ p d _ [] []); [| | | | | |exact Hb].
  - apply children_of_NoDup.
  - intros c Hc. split; [eapply child_level; eassumption|].
    apply In_children_of in Hc. apply Hc.
  - intros c more Hc Hm.
    assert (Hat : at_depth categories (Category.Id (Category.id c)) (S d))
      by (apply at_depth_child; eapply child_level; eassumption).
    split; [eapply IH; eassumption|].
    eapply build_listed; eassumption.
  - constructor.
  - intros it [].
  - intros it [].
Qed.

Lemma fold_reducer_keeps (below : Category.Parent -> nat -> option (list Item.t))
    (d : nat) (l : list Category.t) (acc items : list Item.t) :
  fold_left (reducer categories expandedIds isManagingCategories below d) l (Some acc)
  = Some items ->
  incl acc items.
Proof.
  revert acc. induction l as [|c l IH]; intros acc Hf.
  - cbn in Hf. injection Hf as <-. apply incl_refl.
  - cbn [fold_left] in Hf. unfold reducer at 2 in Hf.
    destruct (expandedIds (Category.id c) || isManagingCategories).
    + destruct (below (Category.Id (Category.id c)) (S d)) as [more|];
        [|rewrite fold_reducer_None in Hf; discriminate].
      apply IH in Hf. intros x Hx. apply Hf. apply in_or_app. left. exact Hx.
    + apply IH in Hf. intros x Hx. apply Hf. apply in_or_app. left. exact Hx.
Qed.

(** Each category [.reduce] goes through is listed, and so is all that
    [build] lists below it when it is expanded. *)
Lemma fold_reducer_children (below : Category.Parent -> nat -> option (list Item.t))
    (d : nat) (l : list Category.t) (acc items : list Item.t) :
  fold_left (reducer categories expandedIds isManagingCategories below d) l (Some acc)
  = Some items ->
  forall c, In c l ->
    (exists it, In it items /\ Item.cat it = c /\ Item.depth it = d) /\
    (expandedIds (Category.id c) || isManagingCategories = true ->
     exists more, below (Category.Id (Category.id c)) (S d) = Some more /\ incl more items).
Proof.
  revert acc. induction l as [|c l IH]; intros acc Hf c' Hc'; [destruct Hc'|].
  cbn [fold_left] in Hf. unfold reducer at 2 in Hf.
  set (item := {| Item.cat := c; Item.depth := d;
                  Item.hasChildren := _; Item.isExpanded := _ |}) in Hf.
  destruct Hc' as [<- | Hc'].
  - destruct (expandedIds (Category.id c) || isManagingCategories) eqn:Hexp.
    + destruct (below (Category.Id (Category.id c)) (S d)) as [more|] eqn:Hm;
        [|rewrite fold_reducer_None in Hf; discriminate].
      apply fold_reducer_keeps in Hf. split.
      * exists item. split; [|split; reflexivity].
        apply Hf. apply in_or_app. right. left. reflexivity.
      * intros _. exists more. split; [reflexivity|]. intros x Hx. apply Hf.
        apply in_or_app. right. right. exact Hx.
    + apply fold_reducer_keeps in Hf. split; [|discriminate].
      exists item. split; [|split; reflexivity].
      apply Hf. apply in_or_app. right. left. reflexivity.
  - destruct (expandedIds (Category.id c) || isManagingCategories).
    + destruct (below (Category.Id (Category.id c)) (S d)) as [more|];
        [|rewrite fold_reducer_None in Hf; discriminate].
      exact (IH _ Hf c' Hc').
    + exact (IH _ Hf c' Hc').
Qed.

(** Where an item of the result comes from. *)
Lemma fold_reducer_origin (below : Category.Parent -> nat -> option (list Item.t))
    (d : nat) (l : list Category.t) (acc items : list Item.t) :
  fold_left (reducer categories expandedIds isManagingCategories below d) l (Some acc)
  = Some items ->
  forall it, In it items ->
    In it acc \/
    exists c, In c l /\
      ((Item.cat it = c /\ Item.depth it = d) \/
       exists more, below (Category.Id (Category.id c)) (S d) = Some more /\ In it more).
Proof.
  revert acc. induction l as [|c l IH]; intros acc Hf it Hit.
  - cbn in Hf. injection Hf as <-. left. exact Hit.
  - cbn [fold_left] in Hf. unfold reducer at 2 in Hf.
    set (item := {| Item.cat := c; Item.depth := d;
                    Item.hasChildren := _; Item.isExpanded := _ |}) in Hf.
    assert (Hlater : (exists c', In c' l /\
                        ((Item.cat it = c' /\ Item.depth it = d) \/
                         exists more, below (Category.Id (Category.id c')) (S d) = Some more /\
                                      In it more)) ->
                     In it acc \/
                     exists c', In c' (c :: l) /\
                       ((Item.cat it = c' /\ Item.depth it = d) \/
                        exists more, below (Category.Id (Category.id c')) (S d) = Some more /\
                                     In it more)).
    { intros (c' & Hc' & H). right. exists c'. split; [right; exact Hc' | exact H]. }
    destruct (expandedIds (Category.id c) || isManagingCategories).
    + destruct (below (Category.Id (Category.id c)) (S d)) as [more|] eqn:Hm;
        [|rewrite fold_reducer_None in Hf; discriminate].
      destruct (IH _ Hf it Hit) as [Hin | Hl]; [|apply Hlater; exact Hl].
      apply in_app_or in Hin as [Hin | [<- | Hin]].
      * left. exact Hin.
      * right. exists c. split; [left; reflexivity|]. left. split; reflexivity.
      * right. exists c. split; [left; reflexivity|]. right. exists more.
        split; [exact Hm | exact Hin].
    + destruct (IH _ Hf it Hit) as [Hin | Hl]; [|apply Hlater; exact Hl].
      apply in_app_or in Hin as [Hin | [<- | []]].
      * left. exact Hin.
      * right. exists c. split; [left; reflexivity|]. left. split; reflexivity.
Qed.

(** In manage mode the children of a listed category are listed. *)
Lemma build_closed (fuel : nat) (p : Category.Parent) (d : nat) (items : list Item.t) :
  isManagingCategories = true ->
  build categories expandedIds isManagingCategories fuel p d = Some items ->
  forall it c, In it items -> In c categories ->
    Category.parent_id c = Category.Id (Category.id (Item.cat it)) ->
    exists it', In it' items /\ Item.cat it' = c /\ Item.depth it' = S (Item.depth it).
Proof.
  intros Hmode. revert p d items.
  induction fuel as [|fuel IH]; intros p d items Hb it c Hit Hc Hpar; [discriminate|].
  cbn [build] in Hb.
  destruct (fold_reducer_origin _ _ _ _ _ Hb it Hit)
    as [[] | (ci & Hci & [[Hcat Hd] | (more & Hm & Hin)])].
  - destruct (fold_reducer_children _ _ _ _ _ Hb ci Hci) as (_ & Hexp).
    destruct Hexp as (more & Hm & Hincl); [rewrite Hmode; apply orb_true_r|].
    destruct fuel as [|fuel]; [discriminate|]. cbn [build] in Hm.
    destruct (fold_reducer_children _ _ _ _ _ Hm c) as ((it' & Hit' & Hc' & Hd') & _).
    + apply In_children_of. split; [exact Hc|]. rewrite Hpar, Hcat. reflexivity.
    + exists it'. split; [apply Hincl; exact Hit'|]. split; [exact Hc'|]. lia.
  - destruct (fold_reducer_children _ _ _ _ _ Hb ci Hci) as (_ & Hexp).
    destruct Hexp as (more' & Hm' & Hincl); [rewrite Hmode; apply orb_true_r|].
    rewrite Hm in Hm'. injection Hm' as <-.
    destruct (IH _ _ _ Hm it c Hin Hc Hpar) as (it' & Hit' & H).
    exists it'. split; [apply Hincl; exact Hit' | exact H].
Qed.

Lemma NoDup_map_on {A K : Type} (f : A -> K) (l : list A) :
  List.NoDup l -> (forall x y, In x l -> In y l -> f x = f y -> x = y) ->
  List.NoDup (map f l).
Proof.
  induction 1 as [|a l Ha Hnd IH]; intros Hinj; cbn [map]; constructor.
  - intros Hin. apply in_map_iff in Hin as (y & Hy & Hin).
    assert (y = a) by (apply Hinj; [right; exact Hin | left; reflexivity | exact Hy]).
    subst y. contradiction.
  - apply IH. intros x y Hx Hy. apply Hinj; right; assumption.
Qed.

(** X30.  The sidebar never lists a category twice, and in manage mode it
    lists all that can be listed.  When no two categories share an id, no
    two items of [hierarchicalCategories] carry the same id, whatever is
    expanded.  In manage mode, where every category is expanded, each
    category linked to the root by [parent_id] steps is listed, at the depth
    that is the number of those steps. *)
Theorem manage_mode_lists_every_linked_category_once :
  exists items,
    hierarchicalCategories categories expandedIds isManagingCategories = Some items /\
    List.NoDup (map (fun it => Category.id (Item.cat it)) items) /\
    (isManagingCategories = true ->
     forall c n, level categories n c ->
       exists it, In it items /\ Item.cat it = c /\ Item.depth it = n).
Proof.
  destruct hierarchicalCategories_perm as (rootItems & items & Hbuild & Hrun & Hperm).
  exists items. split; [exact Hrun|]. split.
  - assert (Hnd : List.NoDup (map Item.cat items)).
    { eapply Permutation.Permutation_NoDup;
        [apply Permutation_map; symmetry; exact Hperm|].
      eapply build_NoDup; [|exact Hbuild]. reflexivity. }
    rewrite <- (map_map Item.cat Category.id). apply NoDup_map_on; [exact Hnd|].
    assert (Hin : forall x, In x (map Item.cat items) -> In x categories).
    { intros x Hx. apply in_map_iff in Hx as (it & <- & Hit).
      apply (Permutation_in _ Hperm) in Hit. eapply level_In.
      eapply build_listed; [|exact Hbuild|exact Hit]. reflexivity. }
    intros x y Hx Hy. apply (unique_by Category.id categories x y unique_ids); apply Hin;
      assumption.
  - intros Hmode c n Hlev.
    assert (Hroot : exists it, In it rootItems /\ Item.cat it = c /\ Item.depth it = n).
    { induction Hlev as [c Hc Hp | c d n Hc Hd IH Hp].
      - cbn [build] in Hbuild.
        destruct (fold_reducer_children _ _ _ _ _ Hbuild c) as (H & _); [|exact H].
        apply In_children_of. split; assumption.
      - destruct IH as (it & Hit & Hcat & Hdepth).
        destruct (build_closed _ _ _ _ Hmode Hbuild it c Hit Hc) as (it' & Hit' & Hc' & Hd').
        + rewrite Hcat. exact Hp.
        + exists it'. split; [exact Hit'|]. split; [exact Hc' | lia]. }
    destruct Hroot as (it & Hit & H). exists it. split; [|exact H].
    apply (Permutation_in _ (Permutation_sym Hperm)). exact Hit.
Qed.

End TreeExact.

Lemma manage_mode_lists_every_linked_category_once_witness :
  List.NoDup (map Category.id Examples.shelf) /\
  exists items,
    hierarchicalCategories Examples.shelf (fun _ => false) true = Some items /\
    List.NoDup (map (fun it => Category.id (Item.cat it)) items) /\
    exists projects it,
      nth_error Examples.shelf 3 = Some projects /\ level Examples.shelf 1 projects /\
      In it items /\ Item.cat it = projects /\ Item.depth it = 1%nat.
Proof.
  assert (Hu : List.NoDup (map Category.id Examples.shelf)).
  { vm_compute.
    repeat (constructor;
            [intros Hin; repeat (destruct Hin as [Hin|Hin]; [discriminate Hin|]); exact Hin|]).
    constructor. }
  split; [exact Hu|].
  destruct (manage_mode_lists_every_linked_category_once Examples.shelf (fun _ => false) true Hu)
    as (items & Hrun & Hnd & Hall).
  exists items. split; [exact Hrun|]. split; [exact Hnd|].
  assert (Hp : exists projects, nth_error Examples.shelf 3 = Some projects)
    by (eexists; reflexivity).
  destruct Hp as (projects & Hp). exists projects.
  assert (Hlev : level Examples.shelf 1 projects).
  { cbn in Hp. injection Hp as <-.
    match goal with |- level _ 1 ?c => apply (level_child _ _ (hd c Examples.shelf)) end.
    - right. right. right. left. reflexivity.
    - apply level_root; [left; reflexivity | reflexivity].
    - reflexivity. }
  destruct (Hall eq_refl projects 1%nat Hlev) as (it & Hit). exists it.
  split; [exact Hp|]. split; [exact Hlev | exact Hit].
Defined.
